(** * Mozart dice game: safe-bar extraction and phrase assembly

    A shallow embedding of the composition core shared by
    [mozart_dice_game_gui.py] and [spin_game_gui.py]: the MIDI helpers,
    [extract_clean_bars], and the two [build_from_spins] functions; and of
    the roll handlers of the two windows, [MozartDiceGame] with its
    [DiceCanvas] and [SpinGameApp].

    Conventions.
    - Python [int] is [Z]; list positions are [nat].
    - Python [float] is IEEE-754 binary64, taken from the Standard Library's
      executable specification [SpecFloat] (precision 53, [emax] 1024).
    - An exception is a value of [exn]; a function that can raise returns
      [result].
    - Python [str] is a [string] holding its UTF-8 bytes.
    - [mido] messages are immutable values here.  The source copies a
      message ([m.copy()]) before every assignment to its [time] field, so
      no two list cells ever share a message that is later written to;
      the value model is therefore faithful to the aliasing of the source.
    - [random.Random] is an abstract generator (class [PRNG]) with the
      contract of [_randbelow]; [MT19937] below is CPython's generator.
    - A window is a record of the values of its Tk variables and of its own
      attributes; what lies outside it (the generator of the [random]
      module, the message boxes, the pending [after] calls) is a [world]
      record passed along.

    Layout: the model of the source, the generator, the vocabulary of the
    statements and the concrete inputs come first; lemmas and the claims
    follow; further
    properties of the code close the file. *)

From Stdlib Require Import ZArith List String Ascii Lia.
From Stdlib Require Import QArith Qabs Qpower Lqa.
From Stdlib Require Import Floats.SpecFloat.
From stdpp Require Import gmap list strings pretty sorting.

Local Open Scope Z_scope.

(* ===================================================================== *)
(** * Exceptions                                                          *)
(* ===================================================================== *)

Inductive exn : Type :=
  | RuntimeError (msg : string)
  | ZeroDivisionError
  | OverflowError
  | ValueError
  | IndexError.

Inductive result (A : Type) : Type :=
  | Ok (a : A)
  | Raise (e : exn).
Arguments Ok {A} a.
Arguments Raise {A} e.

#[global] Instance result_ret : MRet result := fun _ a => Ok a.
#[global] Instance result_bind : MBind result := fun _ _ f r =>
  match r with
  | Ok a => f a
  | Raise e => Raise e
  end.
#[global] Instance result_fmap : FMap result := fun _ _ f r =>
  match r with
  | Ok a => Ok (f a)
  | Raise e => Raise e
  end.

Definition is_Ok {A} (r : result A) : Prop := exists a, r = Ok a.
Definition raises {A} (r : result A) : Prop := exists e, r = Raise e.

(** [l[i]] for a Python list: negative positions count from the end. *)
Definition py_getitem {A} (l : list A) (i : Z) : result A :=
  let n := Z.of_nat (length l) in
  let j := if i <? 0 then i + n else i in
  if (0 <=? j) && (j <? n) then
    match l !! Z.to_nat j with
    | Some a => Ok a
    | None => Raise IndexError
    end
  else Raise IndexError.

(** [a % b] on non-negative positions. *)
Definition py_mod (a b : nat) : result nat :=
  match b with
  | O => Raise ZeroDivisionError
  | _ => Ok (a mod b)%nat
  end.

(* ===================================================================== *)
(** * Python floats                                                       *)
(* ===================================================================== *)

Module Float.

Definition prec : Z := 53.
Definition emax : Z := 1024.

Definition float := spec_float.

Definition is_zero (x : float) : bool :=
  match x with S754_zero _ => true | _ => false end.

(** [float(n)] for an [int]: correctly rounded, [OverflowError] when the
    integer is too large. *)
Definition of_int (n : Z) : result float :=
  match binary_normalize prec emax n 0 false with
  | S754_infinity _ => Raise OverflowError
  | S754_nan => Raise OverflowError
  | x => Ok x
  end.

Definition mul (x y : float) : float := SFmul prec emax x y.

(** [x / y] on floats: [ZeroDivisionError] when [y] is a zero. *)
Definition div (x y : float) : result float :=
  if is_zero y then Raise ZeroDivisionError else Ok (SFdiv prec emax x y).

(** [n / 2^k] rounded to the nearest integer, ties to even. *)
Definition round_half_even_shift (n : Z) (k : Z) : Z :=
  let q := Z.shiftr n k in
  let r := n - Z.shiftl q k in
  let h := Z.shiftl 1 (k - 1) in
  if r <? h then q
  else if h <? r then q + 1
  else if Z.even q then q else q + 1.

(** [round(x)] with one argument: the nearest integer, ties to even;
    [OverflowError] on an infinity and [ValueError] on a NaN. *)
Definition round (x : float) : result Z :=
  match x with
  | S754_zero _ => Ok 0
  | S754_infinity _ => Raise OverflowError
  | S754_nan => Raise ValueError
  | S754_finite s m e =>
      let a := if 0 <=? e then Z.shiftl (Zpos m) e
               else round_half_even_shift (Zpos m) (- e) in
      Ok (if s then - a else a)
  end.

Definition four : float := S754_finite false 4503599627370496 (-50).

Definition add (x y : float) : float := SFadd prec emax x y.

Definition sub (x y : float) : float := SFsub prec emax x y.

(** [int(x)]: truncation towards zero; [OverflowError] on an infinity and
    [ValueError] on a NaN. *)
Definition trunc (x : float) : result Z :=
  match x with
  | S754_zero _ => Ok 0
  | S754_infinity _ => Raise OverflowError
  | S754_nan => Raise ValueError
  | S754_finite s m e =>
      let a := if 0 <=? e then Z.shiftl (Zpos m) e
               else Z.shiftr (Zpos m) (- e) in
      Ok (if s then - a else a)
  end.

End Float.

(* ===================================================================== *)
(** * MIDI data model (the part of [mido] the core reads and writes)      *)
(* ===================================================================== *)

(** The payload of a [mido.Message], by [type]. *)
Inductive body : Type :=
  | note_on (channel note velocity : Z)
  | note_off (channel note velocity : Z)
  | control_change (channel control value : Z)
  | program_change (channel program : Z)
  | pitchwheel (channel pitch : Z)
  | aftertouch (channel value : Z)
  | polytouch (channel note value : Z)
  | other_msg (type : string).

Record Message : Type := mkMessage { msg_body : body; time : Z }.

(** The payload of a [mido.MetaMessage], by [type]. *)
Inductive meta_body : Type :=
  | time_signature (numerator denominator : Z)
  | set_tempo (tempo : Z)
  | other_meta (type : string).

Record MetaMessage : Type := mkMeta { meta : meta_body; meta_time : Z }.

Inductive item : Type :=
  | Msg (m : Message)
  | Meta (m : MetaMessage).

Definition MidiTrack : Type := list item.

Record MidiFile : Type := mkMidiFile {
  ticks_per_beat : Z;
  tracks : list MidiTrack
}.

Definition item_time (it : item) : Z :=
  match it with
  | Msg m => time m
  | Meta m => meta_time m
  end.

Definition set_time (m : Message) (t : Z) : Message :=
  {| msg_body := msg_body m; time := t |}.

(** [mido.bpm2tempo(120)]. *)
Definition bpm2tempo_120 : Z := 500000.

(* ===================================================================== *)
(** * MIDI helpers                                                        *)
(* ===================================================================== *)

(** [msg.type in CHANNEL_MSGS]. *)
Definition in_CHANNEL_MSGS (b : body) : bool :=
  match b with
  | other_msg _ => false
  | _ => true
  end.

Definition is_channel_msg (it : item) : bool :=
  match it with
  | Meta _ => false
  | Msg m => in_CHANNEL_MSGS (msg_body m)
  end.

(** A timed event: [(tick, message)]. *)
Definition event : Type := Z * Message.

(** [list.sort(key=lambda x: x[0])]: the stable sort by tick.  Insertion
    from the right keeps equal keys in their original order. *)
Fixpoint insert_by_key (x : event) (l : list event) : list event :=
  match l with
  | [] => [x]
  | y :: l' => if x.1 <=? y.1 then x :: l else y :: insert_by_key x l'
  end.

Definition sort_by_key (l : list event) : list event :=
  foldr insert_by_key [] l.

(** The inner loop of [iter_abs_messages] over one track, from running
    time [t]. *)
Fixpoint abs_track (t : Z) (tr : MidiTrack) : list event :=
  match tr with
  | [] => []
  | it :: rest =>
      let t := t + item_time it in
      match it with
      | Msg msg => if is_channel_msg it then (t, msg) :: abs_track t rest
                   else abs_track t rest
      | Meta _ => abs_track t rest
      end
  end.

Definition iter_abs_messages (mid : MidiFile) : list event :=
  sort_by_key (concat (map (abs_track 0) (tracks mid))).

Inductive meta_type : Type := TimeSignature | SetTempo.

Definition has_meta_type (ty : meta_type) (it : item) : bool :=
  match it, ty with
  | Meta {| meta := time_signature _ _ |}, TimeSignature => true
  | Meta {| meta := set_tempo _ |}, SetTempo => true
  | _, _ => false
  end.

(** [first_meta]: the first meta message of the given type, scanning the
    tracks in order. *)
Definition first_meta (mid : MidiFile) (ty : meta_type) : option MetaMessage :=
  match List.find (has_meta_type ty) (concat (tracks mid)) with
  | Some (Meta m) => Some m
  | _ => None
  end.

Definition get_time_signature (mid : MidiFile) : Z * Z :=
  match first_meta mid TimeSignature with
  | Some {| meta := time_signature n d |} => (n, d)
  | _ => (4, 4)
  end.

Definition get_tempo (mid : MidiFile) : Z :=
  match first_meta mid SetTempo with
  | Some {| meta := set_tempo t |} => t
  | _ => bpm2tempo_120
  end.

(** [ticks_per_bar]:
      bar_beats = numerator * (4.0 / float(denominator))
      return max(1, int(round(tpb * bar_beats)))                          *)
Definition ticks_per_bar (tpb numerator denominator : Z) : result Z :=
  d ← Float.of_int denominator;
  q ← Float.div Float.four d;
  n ← Float.of_int numerator;
  let bar_beats := Float.mul n q in
  t ← Float.of_int tpb;
  r ← Float.round (Float.mul t bar_beats);
  Ok (Z.max 1 r).

(** The loop of [to_delta_track], from [last]. *)
Fixpoint delta_loop (last : Z) (abs_events : list event) : list Message :=
  match abs_events with
  | [] => []
  | (t, msg) :: rest =>
      let dt := Z.max 0 (t - last) in
      set_time msg dt :: delta_loop t rest
  end.

Definition to_delta_track (abs_events : list event) : list Message :=
  delta_loop 0 abs_events.

(* ===================================================================== *)
(** * Bar extraction                                                      *)
(* ===================================================================== *)

(** The [active] dictionary: [(channel, note)] to velocity. *)
Abbreviation voices := (gmap (Z * Z) Z).

(** The body shared by both scanning loops:
      if m.type == "note_on" and m.velocity > 0: active[...] = m.velocity
      elif m.type == "note_off" or (... and m.velocity == 0): active.pop(...) *)
Definition track_voice (active : voices) (m : Message) : voices :=
  match msg_body m with
  | note_on c n v =>
      if 0 <? v then <[(c, n) := v]> active
      else if v =? 0 then delete (c, n) active
      else active
  | note_off c n _ => delete (c, n) active
  | _ => active
  end.

Definition silent (active : voices) : bool := bool_decide (size active = 0%nat).

(** [while idx < len(events) and events[idx][0] < start]: the position
    [idx] is kept as the suffix [events[idx:]]. *)
Fixpoint skip_to (start : Z) (events : list event) (active : voices)
  : list event * voices :=
  match events with
  | (t, m) :: rest =>
      if t <? start then skip_to start rest (track_voice active m)
      else (events, active)
  | [] => ([], active)
  end.

(** [while scan_j < len(events) and events[scan_j][0] < end]: returns
    [bar_events_abs], the suffix [events[scan_j:]] and [active]. *)
Fixpoint scan_bar (start end_ : Z) (events : list event) (active : voices)
  : list event * list event * voices :=
  match events with
  | (t, m) :: rest =>
      if t <? end_ then
        let active := track_voice active m in
        let rel_t := t - start in
        let nm := set_time m 0 in
        let '(bar, rest', active') := scan_bar start end_ rest active in
        ((rel_t, nm) :: bar, rest', active')
      else ([], events, active)
  | [] => ([], [], active)
  end.

(** The re-encoding loop of a retained bar, from [last]. *)
Fixpoint rel_track (last : Z) (bar_events_abs : list event) : list event :=
  match bar_events_abs with
  | [] => []
  | (rt, m) :: rest =>
      let dt := Z.max 0 (rt - last) in
      (rt, set_time m dt) :: rel_track rt rest
  end.

(** [for b in range(n_bars)], over the list of remaining values of [b]. *)
Fixpoint bars_loop (bar_len : Z) (bs : list Z) (events : list event)
    (active : voices) : list (list event) :=
  match bs with
  | [] => []
  | b :: bs' =>
      let start := b * bar_len in
      let end_ := (b + 1) * bar_len in
      let '(events1, active1) := skip_to start events active in
      let starts_silent := silent active1 in
      let '(bar_events_abs, events2, active2) :=
        scan_bar start end_ events1 active1 in
      let ends_silent := silent active2 in
      let safe := bars_loop bar_len bs' events2 active2 in
      if starts_silent && ends_silent
         && negb (bool_decide (bar_events_abs = []))
      then rel_track 0 (sort_by_key bar_events_abs) :: safe
      else safe
  end.

Definition last_tick (events : list event) : Z :=
  match last events with
  | Some (t, _) => t
  | None => 0
  end.

Definition n_bars (bar_len : Z) (events : list event) : Z :=
  Z.max 1 (last_tick events / bar_len + 1).

Definition extract_clean_bars (mid : MidiFile) : result (list (list event)) :=
  let tpb := ticks_per_beat mid in
  let '(num, den) := get_time_signature mid in
  bar_len ← ticks_per_bar tpb num den;
  let events := iter_abs_messages mid in
  match events with
  | [] => Ok []
  | _ => Ok (bars_loop bar_len (seqZ 0 (n_bars bar_len events)) events ∅)
  end.

(* ===================================================================== *)
(** * The random generator                                                *)
(* ===================================================================== *)

(** [random.Random]: [seed_rng s] is the state after [random.Random(s)] for
    an integer [s]; [randbelow g n] is [_randbelow(n)], documented as
    "Return a random int in the range [0,n).  Defined for n > 0." *)
Class PRNG (G : Type) : Type := {
  seed_rng : Z -> G;
  randbelow : G -> nat -> nat * G;
  randbelow_lt : forall g n, (0 < n)%nat -> ((randbelow g n).1 < n)%nat
}.

(** [x[i], x[j] = x[j], x[i]].  In [shuffle] both positions are in range
    ([i < len(x)], and [j < i + 1] by the contract of [_randbelow]), so the
    [IndexError] of an out-of-range position cannot occur; the model leaves
    the list as it is there. *)
Definition swap {A} (x : list A) (i j : nat) : list A :=
  match x !! i, x !! j with
  | Some a, Some b => <[j := a]> (<[i := b]> x)
  | _, _ => x
  end.

Section Shuffle.
Context {G : Type} `{PRNG G} {A : Type}.

(** [for i in reversed(range(1, n + 1)): j = randbelow(i + 1); swap]. *)
Fixpoint shuffle_loop (n : nat) (x : list A) (g : G) : list A * G :=
  match n with
  | O => (x, g)
  | S n' =>
      let '(j, g') := randbelow g (S n) in
      shuffle_loop n' (swap x n j) g'
  end.

(** [Random.shuffle(x)], on the contents of the list object. *)
Definition shuffle (x : list A) (g : G) : list A * G :=
  shuffle_loop (length x - 1) x g.
End Shuffle.

(* ===================================================================== *)
(** * Text of the trace                                                   *)
(* ===================================================================== *)

Definition hex_digit (n : N) : ascii :=
  nth (N.to_nat n) (list_ascii_of_string "0123456789abcdef") "0"%char.

Definition squote : ascii := ascii_of_nat 39.
Definition dquote : ascii := ascii_of_nat 34.
Definition backslash : ascii := ascii_of_nat 92.

Fixpoint contains_char (c : ascii) (s : string) : bool :=
  match s with
  | EmptyString => false
  | String d s' => if Ascii.eqb c d then true else contains_char c s'
  end.

(** A [string] holds a Python [str] in UTF-8, a lone surrogate as its
    three bytes; [repr] works on the code points. *)

(** The code points from 128 up that [str.isprintable] rejects, in ranges:
    the table of CPython 3.11 (Unicode 14.0). *)
Definition nonprintable_ranges : list (N * N) :=
  [(128, 160); (173, 173); (888, 889); (896, 899); (907, 907); (909, 909);
    (930, 930); (1328, 1328); (1367, 1368); (1419, 1420); (1424, 1424);
    (1480, 1487); (1515, 1518); (1525, 1541); (1564, 1564); (1757, 1757);
    (1806, 1807); (1867, 1868); (1970, 1983); (2043, 2044); (2094, 2095);
    (2111, 2111); (2140, 2141); (2143, 2143); (2155, 2159); (2191, 2199);
    (2274, 2274); (2436, 2436); (2445, 2446); (2449, 2450); (2473, 2473);
    (2481, 2481); (2483, 2485); (2490, 2491); (2501, 2502); (2505, 2506);
    (2511, 2518); (2520, 2523); (2526, 2526); (2532, 2533); (2559, 2560);
    (2564, 2564); (2571, 2574); (2577, 2578); (2601, 2601); (2609, 2609);
    (2612, 2612); (2615, 2615); (2618, 2619); (2621, 2621); (2627, 2630);
    (2633, 2634); (2638, 2640); (2642, 2648); (2653, 2653); (2655, 2661);
    (2679, 2688); (2692, 2692); (2702, 2702); (2706, 2706); (2729, 2729);
    (2737, 2737); (2740, 2740); (2746, 2747); (2758, 2758); (2762, 2762);
    (2766, 2767); (2769, 2783); (2788, 2789); (2802, 2808); (2816, 2816);
    (2820, 2820); (2829, 2830); (2833, 2834); (2857, 2857); (2865, 2865);
    (2868, 2868); (2874, 2875); (2885, 2886); (2889, 2890); (2894, 2900);
    (2904, 2907); (2910, 2910); (2916, 2917); (2936, 2945); (2948, 2948);
    (2955, 2957); (2961, 2961); (2966, 2968); (2971, 2971); (2973, 2973);
    (2976, 2978); (2981, 2983); (2987, 2989); (3002, 3005); (3011, 3013);
    (3017, 3017); (3022, 3023); (3025, 3030); (3032, 3045); (3067, 3071);
    (3085, 3085); (3089, 3089); (3113, 3113); (3130, 3131); (3141, 3141);
    (3145, 3145); (3150, 3156); (3159, 3159); (3163, 3164); (3166, 3167);
    (3172, 3173); (3184, 3190); (3213, 3213); (3217, 3217); (3241, 3241);
    (3252, 3252); (3258, 3259); (3269, 3269); (3273, 3273); (3278, 3284);
    (3287, 3292); (3295, 3295); (3300, 3301); (3312, 3312); (3315, 3327);
    (3341, 3341); (3345, 3345); (3397, 3397); (3401, 3401); (3408, 3411);
    (3428, 3429); (3456, 3456); (3460, 3460); (3479, 3481); (3506, 3506);
    (3516, 3516); (3518, 3519); (3527, 3529); (3531, 3534); (3541, 3541);
    (3543, 3543); (3552, 3557); (3568, 3569); (3573, 3584); (3643, 3646);
    (3676, 3712); (3715, 3715); (3717, 3717); (3723, 3723); (3748, 3748);
    (3750, 3750); (3774, 3775); (3781, 3781); (3783, 3783); (3790, 3791);
    (3802, 3803); (3808, 3839); (3912, 3912); (3949, 3952); (3992, 3992);
    (4029, 4029); (4045, 4045); (4059, 4095); (4294, 4294); (4296, 4300);
    (4302, 4303); (4681, 4681); (4686, 4687); (4695, 4695); (4697, 4697);
    (4702, 4703); (4745, 4745); (4750, 4751); (4785, 4785); (4790, 4791);
    (4799, 4799); (4801, 4801); (4806, 4807); (4823, 4823); (4881, 4881);
    (4886, 4887); (4955, 4956); (4989, 4991); (5018, 5023); (5110, 5111);
    (5118, 5119); (5760, 5760); (5789, 5791); (5881, 5887); (5910, 5918);
    (5943, 5951); (5972, 5983); (5997, 5997); (6001, 6001); (6004, 6015);
    (6110, 6111); (6122, 6127); (6138, 6143); (6158, 6158); (6170, 6175);
    (6265, 6271); (6315, 6319); (6390, 6399); (6431, 6431); (6444, 6447);
    (6460, 6463); (6465, 6467); (6510, 6511); (6517, 6527); (6572, 6575);
    (6602, 6607); (6619, 6621); (6684, 6685); (6751, 6751); (6781, 6782);
    (6794, 6799); (6810, 6815); (6830, 6831); (6863, 6911); (6989, 6991);
    (7039, 7039); (7156, 7163); (7224, 7226); (7242, 7244); (7305, 7311);
    (7355, 7356); (7368, 7375); (7419, 7423); (7958, 7959); (7966, 7967);
    (8006, 8007); (8014, 8015); (8024, 8024); (8026, 8026); (8028, 8028);
    (8030, 8030); (8062, 8063); (8117, 8117); (8133, 8133); (8148, 8149);
    (8156, 8156); (8176, 8177); (8181, 8181); (8191, 8207); (8232, 8239);
    (8287, 8303); (8306, 8307); (8335, 8335); (8349, 8351); (8385, 8399);
    (8433, 8447); (8588, 8591); (9255, 9279); (9291, 9311); (11124, 11125);
    (11158, 11158); (11508, 11512); (11558, 11558); (11560, 11564);
    (11566, 11567); (11624, 11630); (11633, 11646); (11671, 11679);
    (11687, 11687); (11695, 11695); (11703, 11703); (11711, 11711);
    (11719, 11719); (11727, 11727); (11735, 11735); (11743, 11743);
    (11870, 11903); (11930, 11930); (12020, 12031); (12246, 12271);
    (12284, 12288); (12352, 12352); (12439, 12440); (12544, 12548);
    (12592, 12592); (12687, 12687); (12772, 12783); (12831, 12831);
    (42125, 42127); (42183, 42191); (42540, 42559); (42744, 42751);
    (42955, 42959); (42962, 42962); (42964, 42964); (42970, 42993);
    (43053, 43055); (43066, 43071); (43128, 43135); (43206, 43213);
    (43226, 43231); (43348, 43358); (43389, 43391); (43470, 43470);
    (43482, 43485); (43519, 43519); (43575, 43583); (43598, 43599);
    (43610, 43611); (43715, 43738); (43767, 43776); (43783, 43784);
    (43791, 43792); (43799, 43807); (43815, 43815); (43823, 43823);
    (43884, 43887); (44014, 44015); (44026, 44031); (55204, 55215);
    (55239, 55242); (55292, 63743); (64110, 64111); (64218, 64255);
    (64263, 64274); (64280, 64284); (64311, 64311); (64317, 64317);
    (64319, 64319); (64322, 64322); (64325, 64325); (64451, 64466);
    (64912, 64913); (64968, 64974); (64976, 65007); (65050, 65055);
    (65107, 65107); (65127, 65127); (65132, 65135); (65141, 65141);
    (65277, 65280); (65471, 65473); (65480, 65481); (65488, 65489);
    (65496, 65497); (65501, 65503); (65511, 65511); (65519, 65531);
    (65534, 65535); (65548, 65548); (65575, 65575); (65595, 65595);
    (65598, 65598); (65614, 65615); (65630, 65663); (65787, 65791);
    (65795, 65798); (65844, 65846); (65935, 65935); (65949, 65951);
    (65953, 65999); (66046, 66175); (66205, 66207); (66257, 66271);
    (66300, 66303); (66340, 66348); (66379, 66383); (66427, 66431);
    (66462, 66462); (66500, 66503); (66518, 66559); (66718, 66719);
    (66730, 66735); (66772, 66775); (66812, 66815); (66856, 66863);
    (66916, 66926); (66939, 66939); (66955, 66955); (66963, 66963);
    (66966, 66966); (66978, 66978); (66994, 66994); (67002, 67002);
    (67005, 67071); (67383, 67391); (67414, 67423); (67432, 67455);
    (67462, 67462); (67505, 67505); (67515, 67583); (67590, 67591);
    (67593, 67593); (67638, 67638); (67641, 67643); (67645, 67646);
    (67670, 67670); (67743, 67750); (67760, 67807); (67827, 67827);
    (67830, 67834); (67868, 67870); (67898, 67902); (67904, 67967);
    (68024, 68027); (68048, 68049); (68100, 68100); (68103, 68107);
    (68116, 68116); (68120, 68120); (68150, 68151); (68155, 68158);
    (68169, 68175); (68185, 68191); (68256, 68287); (68327, 68330);
    (68343, 68351); (68406, 68408); (68438, 68439); (68467, 68471);
    (68498, 68504); (68509, 68520); (68528, 68607); (68681, 68735);
    (68787, 68799); (68851, 68857); (68904, 68911); (68922, 69215);
    (69247, 69247); (69290, 69290); (69294, 69295); (69298, 69375);
    (69416, 69423); (69466, 69487); (69514, 69551); (69580, 69599);
    (69623, 69631); (69710, 69713); (69750, 69758); (69821, 69821);
    (69827, 69839); (69865, 69871); (69882, 69887); (69941, 69941);
    (69960, 69967); (70007, 70015); (70112, 70112); (70133, 70143);
    (70162, 70162); (70207, 70271); (70279, 70279); (70281, 70281);
    (70286, 70286); (70302, 70302); (70314, 70319); (70379, 70383);
    (70394, 70399); (70404, 70404); (70413, 70414); (70417, 70418);
    (70441, 70441); (70449, 70449); (70452, 70452); (70458, 70458);
    (70469, 70470); (70473, 70474); (70478, 70479); (70481, 70486);
    (70488, 70492); (70500, 70501); (70509, 70511); (70517, 70655);
    (70748, 70748); (70754, 70783); (70856, 70863); (70874, 71039);
    (71094, 71095); (71134, 71167); (71237, 71247); (71258, 71263);
    (71277, 71295); (71354, 71359); (71370, 71423); (71451, 71452);
    (71468, 71471); (71495, 71679); (71740, 71839); (71923, 71934);
    (71943, 71944); (71946, 71947); (71956, 71956); (71959, 71959);
    (71990, 71990); (71993, 71994); (72007, 72015); (72026, 72095);
    (72104, 72105); (72152, 72153); (72165, 72191); (72264, 72271);
    (72355, 72367); (72441, 72703); (72713, 72713); (72759, 72759);
    (72774, 72783); (72813, 72815); (72848, 72849); (72872, 72872);
    (72887, 72959); (72967, 72967); (72970, 72970); (73015, 73017);
    (73019, 73019); (73022, 73022); (73032, 73039); (73050, 73055);
    (73062, 73062); (73065, 73065); (73103, 73103); (73106, 73106);
    (73113, 73119); (73130, 73439); (73465, 73647); (73649, 73663);
    (73714, 73726); (74650, 74751); (74863, 74863); (74869, 74879);
    (75076, 77711); (77811, 77823); (78895, 82943); (83527, 92159);
    (92729, 92735); (92767, 92767); (92778, 92781); (92863, 92863);
    (92874, 92879); (92910, 92911); (92918, 92927); (92998, 93007);
    (93018, 93018); (93026, 93026); (93048, 93052); (93072, 93759);
    (93851, 93951); (94027, 94030); (94088, 94094); (94112, 94175);
    (94181, 94191); (94194, 94207); (100344, 100351); (101590, 101631);
    (101641, 110575); (110580, 110580); (110588, 110588); (110591, 110591);
    (110883, 110927); (110931, 110947); (110952, 110959); (111356, 113663);
    (113771, 113775); (113789, 113791); (113801, 113807); (113818, 113819);
    (113824, 118527); (118574, 118575); (118599, 118607); (118724, 118783);
    (119030, 119039); (119079, 119080); (119155, 119162); (119275, 119295);
    (119366, 119519); (119540, 119551); (119639, 119647); (119673, 119807);
    (119893, 119893); (119965, 119965); (119968, 119969); (119971, 119972);
    (119975, 119976); (119981, 119981); (119994, 119994); (119996, 119996);
    (120004, 120004); (120070, 120070); (120075, 120076); (120085, 120085);
    (120093, 120093); (120122, 120122); (120127, 120127); (120133, 120133);
    (120135, 120137); (120145, 120145); (120486, 120487); (120780, 120781);
    (121484, 121498); (121504, 121504); (121520, 122623); (122655, 122879);
    (122887, 122887); (122905, 122906); (122914, 122914); (122917, 122917);
    (122923, 123135); (123181, 123183); (123198, 123199); (123210, 123213);
    (123216, 123535); (123567, 123583); (123642, 123646); (123648, 124895);
    (124903, 124903); (124908, 124908); (124911, 124911); (124927, 124927);
    (125125, 125126); (125143, 125183); (125260, 125263); (125274, 125277);
    (125280, 126064); (126133, 126208); (126270, 126463); (126468, 126468);
    (126496, 126496); (126499, 126499); (126501, 126502); (126504, 126504);
    (126515, 126515); (126520, 126520); (126522, 126522); (126524, 126529);
    (126531, 126534); (126536, 126536); (126538, 126538); (126540, 126540);
    (126544, 126544); (126547, 126547); (126549, 126550); (126552, 126552);
    (126554, 126554); (126556, 126556); (126558, 126558); (126560, 126560);
    (126563, 126563); (126565, 126566); (126571, 126571); (126579, 126579);
    (126584, 126584); (126589, 126589); (126591, 126591); (126602, 126602);
    (126620, 126624); (126628, 126628); (126634, 126634); (126652, 126703);
    (126706, 126975); (127020, 127023); (127124, 127135); (127151, 127152);
    (127168, 127168); (127184, 127184); (127222, 127231); (127406, 127461);
    (127491, 127503); (127548, 127551); (127561, 127567); (127570, 127583);
    (127590, 127743); (128728, 128732); (128749, 128751); (128765, 128767);
    (128884, 128895); (128985, 128991); (129004, 129007); (129009, 129023);
    (129036, 129039); (129096, 129103); (129114, 129119); (129160, 129167);
    (129198, 129199); (129202, 129279); (129620, 129631); (129646, 129647);
    (129653, 129655); (129661, 129663); (129671, 129679); (129709, 129711);
    (129723, 129727); (129734, 129743); (129754, 129759); (129768, 129775);
    (129783, 129791); (129939, 129939); (129995, 130031); (130042, 131071);
    (173792, 173823); (177977, 177983); (178206, 178207); (183970, 183983);
    (191457, 194559); (195102, 196607); (201547, 917759); (918000, 1114111) ]%N.

Definition isprintable (cp : N) : bool :=
  negb (existsb (fun r : N * N => (r.1 <=? cp)%N && (cp <=? r.2)%N)
          nonprintable_ranges).

(** [digits] hexadecimal digits of [n], the most significant first. *)
Fixpoint hex (digits : nat) (n : N) : string :=
  match digits with
  | O => EmptyString
  | S d => hex d (n / 16) +:+ String (hex_digit (n mod 16)) EmptyString
  end.

(** The escape of a code point that is not printable: [\xNN] up to 255,
    [\uNNNN] up to 65535, [\UNNNNNNNN] above. *)
Definition escape (cp : N) : string :=
  if (cp <? 256)%N then String backslash (String "x" (hex 2 cp))
  else if (cp <? 65536)%N then String backslash (String "u" (hex 4 cp))
  else String backslash (String "U" (hex 8 cp)).

(** One ASCII character of [repr(str)]. *)
Definition repr_char (quote c : ascii) : string :=
  let n := N_of_ascii c in
  if Ascii.eqb c quote || Ascii.eqb c backslash
  then String backslash (String c EmptyString)
  else if (n =? 9)%N then String backslash "t"
  else if (n =? 10)%N then String backslash "n"
  else if (n =? 13)%N then String backslash "r"
  else if (n <? 32)%N || (n =? 127)%N then escape n
  else String c EmptyString.

(** A code point from 128 up, given with its bytes: copied when it is
    printable, escaped otherwise. *)
Definition repr_code_point (cp : N) (bytes : string) : string :=
  if isprintable cp then bytes else escape cp.

(** The payload of a continuation byte [10xxxxxx]. *)
Definition continuation (c : ascii) : option N :=
  let n := N_of_ascii c in
  if (128 <=? n)%N && (n <? 192)%N then Some (n - 128)%N else None.

(** The characters of [repr(str)], code point by code point.  A byte that
    does not start the encoding of a code point is copied. *)
Fixpoint repr_chars (quote : ascii) (s : string) : string :=
  match s with
  | EmptyString => EmptyString
  | String c s1 =>
      let n := N_of_ascii c in
      let copy := String c (repr_chars quote s1) in
      if (n <? 128)%N then repr_char quote c +:+ repr_chars quote s1
      else if (n <? 224)%N then
        match s1 with
        | String c2 s2 =>
            match continuation c2 with
            | Some x2 =>
                let cp := ((n - 192) * 64 + x2)%N in
                if (128 <=? cp)%N && (192 <=? n)%N
                then repr_code_point cp (String c (String c2 EmptyString))
                     +:+ repr_chars quote s2
                else copy
            | None => copy
            end
        | EmptyString => copy
        end
      else if (n <? 240)%N then
        match s1 with
        | String c2 (String c3 s3) =>
            match continuation c2, continuation c3 with
            | Some x2, Some x3 =>
                let cp := ((n - 224) * 4096 + x2 * 64 + x3)%N in
                if (2048 <=? cp)%N
                then repr_code_point cp
                       (String c (String c2 (String c3 EmptyString)))
                     +:+ repr_chars quote s3
                else copy
            | _, _ => copy
            end
        | _ => copy
        end
      else
        match s1 with
        | String c2 (String c3 (String c4 s4)) =>
            match continuation c2, continuation c3, continuation c4 with
            | Some x2, Some x3, Some x4 =>
                let cp := ((n - 240) * 262144 + x2 * 4096 + x3 * 64 + x4)%N in
                if (65536 <=? cp)%N && (cp <=? 1114111)%N && (n <? 248)%N
                then repr_code_point cp
                       (String c (String c2 (String c3 (String c4 EmptyString))))
                     +:+ repr_chars quote s4
                else copy
            | _, _, _ => copy
            end
        | _ => copy
        end
  end.

(** [repr(s)] for a [str]. *)
Definition repr_str (s : string) : string :=
  let quote :=
    if contains_char squote s && negb (contains_char dquote s)
    then dquote else squote in
  String quote (repr_chars quote s) +:+ String quote EmptyString.

Fixpoint join (sep : string) (l : list string) : string :=
  match l with
  | [] => EmptyString
  | [s] => s
  | s :: l' => s +:+ sep +:+ join sep l'
  end.

(** [repr] of a list of [str]. *)
Definition repr_list (l : list string) : string :=
  "[" +:+ join ", " (map repr_str l) +:+ "]".

Definition newline : string := String (ascii_of_nat 10) EmptyString.

(* ===================================================================== *)
(** * Melody building from spins                                          *)
(* ===================================================================== *)

(** A pool entry: [(src_tpb, source_name, bar_index, bar_events)]. *)
Definition pool_entry : Type := Z * string * nat * list event.

Definition entry_name (e : pool_entry) : string := e.1.1.2.

Abbreviation phrase := (list pool_entry) (only parsing).

Record pool_state : Type := mkPoolState {
  pool : list pool_entry;
  base_tempo : option Z;
  base_ts : option (Z * Z)
}.

Definition empty_pool : pool_state :=
  {| pool := []; base_tempo := None; base_ts := None |}.

(** [for name, mid in midis: ...] of [build_from_spins]. *)
Fixpoint build_pool (midis : list (string * MidiFile)) (st : pool_state)
  : result pool_state :=
  match midis with
  | [] => Ok st
  | (name, mid) :: rest =>
      bars_list ← extract_clean_bars mid;
      match bars_list with
      | [] => build_pool rest st
      | _ =>
          let bt := match base_tempo st with
                    | None => Some (get_tempo mid)
                    | Some t => Some t
                    end in
          let ts := match base_ts st with
                    | None => Some (get_time_signature mid)
                    | Some t => Some t
                    end in
          build_pool rest
            {| pool := pool st
                       ++ imap (fun i b => (ticks_per_beat mid, name, i, b)) bars_list;
               base_tempo := bt;
               base_ts := ts |}
      end
  end.

Definition phrase_len_bars : nat := 4.

(** [[shuffled[(pos + k) % len(shuffled)] for k in range(phrase_len_bars)]]. *)
Definition make_phrase (shuffled : list pool_entry) (pos : nat) : result phrase :=
  mapM (fun k => i ← py_mod (pos + k) (length shuffled);
                 py_getitem shuffled (Z.of_nat i))
       (seq 0 phrase_len_bars).

(** [for _ in range(n)]: the choices of one spin, from position [pos]. *)
Fixpoint choices_loop (n : nat) (shuffled : list pool_entry) (pos : nat)
  : result (list phrase) :=
  match n with
  | O => Ok []
  | S n' =>
      ph ← make_phrase shuffled pos;
      pos' ← py_mod (pos + phrase_len_bars) (length shuffled);
      rest ← choices_loop n' shuffled pos';
      Ok (ph :: rest)
  end.

Definition choices_for_spin (shuffled : list pool_entry) : result (list phrase) :=
  choices_loop 11 shuffled 0.

(** ** List objects

    [pool] and [shuffled] are Python list objects, and [rng.shuffle]
    writes to the object it is given.  A store maps a reference to the
    contents of its list object. *)
Abbreviation ref := nat (only parsing).
Abbreviation store := (list (list pool_entry)) (only parsing).

Definition alloc (h : store) (l : list pool_entry) : ref * store :=
  (length h, h ++ [l]).

Definition deref (h : store) (r : ref) : list pool_entry :=
  default [] (h !! r).

Section Compose.
Context {G : Type} `{PRNG G}.

(** [random.Random(seed)]: with [None] the state comes from the
    operating system's entropy, an input the caller does not control. *)
Definition Random (os_entropy : G) (seed : option Z) : G :=
  match seed with
  | Some s => seed_rng s
  | None => os_entropy
  end.

(** [rng.shuffle(x)] on the list object [x]. *)
Definition shuffle_at (x : ref) (h : store) (g : G) : store * G :=
  let '(l, g') := shuffle (deref h x) g in
  (<[x := l]> h, g').

Definition clamp_total (total : Z) : Z := Z.max 2 (Z.min 12 total).

Definition log_line (spin_idx : nat) (total : Z) (ph : phrase) : string :=
  "Spin " +:+ pretty (Z.of_nat spin_idx + 1) +:+ ": total=" +:+ pretty total
  +:+ " → phrase from " +:+ repr_list (map entry_name ph).

(** [scale = tpb_out / float(src_tpb)] and
    [[(int(round(rt * scale)), m.copy()) for (rt, m) in bar]]. *)
Definition scale_of (tpb_out src_tpb : Z) : result Float.float :=
  s ← Float.of_int src_tpb;
  o ← Float.of_int tpb_out;
  Float.div o s.

Definition scale_tick (scale : Float.float) (rt : Z) : result Z :=
  f ← Float.of_int rt;
  Float.round (Float.mul f scale).

Definition rel_abs (scale : Float.float) (bar : list event) : result (list event) :=
  mapM (fun ev : event => t ← scale_tick scale ev.1; Ok (t, ev.2)) bar.

Definition rebase (abs_out_time : Z) (l : list event) : list event :=
  map (fun ev : event => (abs_out_time + ev.1, ev.2)) l.

(** [for src_tpb, name, bar_idx, bar in phrase]. *)
Fixpoint place_phrase (tpb_out bar_len_out : Z) (ph : phrase)
    (events : list event) (abs_out_time : Z) : result (list event * Z) :=
  match ph with
  | [] => Ok (events, abs_out_time)
  | (src_tpb, name, bar_idx, bar) :: rest =>
      scale ← scale_of tpb_out src_tpb;
      ra ← rel_abs scale bar;
      place_phrase tpb_out bar_len_out rest
        (events ++ rebase abs_out_time ra) (abs_out_time + bar_len_out)
  end.

(** [for spin_idx, total in enumerate(spins)], from [spin_idx]. *)
Fixpoint assemble_loop (tpb_out bar_len_out : Z)
    (dice_table : list (list phrase)) (spin_idx : nat) (spins : list Z)
    (events : list event) (abs_out_time : Z) (log_lines : list string)
  : result (list event * list string) :=
  match spins with
  | [] => Ok (events, log_lines)
  | total :: rest =>
      let total := clamp_total total in
      row ← py_getitem dice_table (Z.of_nat spin_idx);
      ph ← py_getitem row (total - 2);
      let log_lines := log_lines ++ [log_line spin_idx total ph] in
      '(events, abs_out_time) ←
        place_phrase tpb_out bar_len_out ph events abs_out_time;
      assemble_loop tpb_out bar_len_out dice_table (S spin_idx) rest
        events abs_out_time log_lines
  end.

(** The "Build MIDI" part. *)
Definition build_midi (tpb_out num den tempo : Z) (events : list event)
  : MidiFile :=
  let events := sort_by_key events in
  {| ticks_per_beat := tpb_out;
     tracks := [ Meta {| meta := time_signature num den; meta_time := 0 |}
                 :: Meta {| meta := set_tempo tempo; meta_time := 0 |}
                 :: map Msg (to_delta_track events) ] |}.

(** Everything after the dice table is the same text in both programs. *)
Definition assemble (st : pool_state) (dice_table : list (list phrase))
    (spins : list Z) (tpb_out : Z) : result (MidiFile * string) :=
  let tempo := default bpm2tempo_120 (base_tempo st) in
  let '(num, den) := default (4, 4) (base_ts st) in
  bar_len_out ← ticks_per_bar tpb_out num den;
  '(events, log_lines) ←
    assemble_loop tpb_out bar_len_out dice_table 0 spins [] 0 [];
  Ok (build_midi tpb_out num den tempo events, join newline log_lines).

Definition no_clean_bars : exn :=
  RuntimeError "No clean bars found in the provided MIDIs.".
End Compose.

(** ** [mozart_dice_game_gui.py] *)
Module mozart_dice_game_gui.
Section Build.
Context {G : Type} `{PRNG G}.

(** One iteration of [for spin_idx in range(len(spins))]:
      shuffled = pool[:]; rng.shuffle(shuffled); ... *)
Definition table_turn (pool : ref) (h : store) (g : G)
  : result (list phrase * store * G) :=
  let '(shuffled, h) := alloc h (deref h pool) in
  let '(h, g) := shuffle_at shuffled h g in
  choices ← choices_for_spin (deref h shuffled);
  Ok (choices, h, g).

Fixpoint table_loop (turns : nat) (pool : ref) (h : store) (g : G)
  : result (list (list phrase) * store * G) :=
  match turns with
  | O => Ok ([], h, g)
  | S turns' =>
      '(choices, h, g) ← table_turn pool h g;
      '(rest, h, g) ← table_loop turns' pool h g;
      Ok (choices :: rest, h, g)
  end.

Definition build_from_spins (os_entropy : G)
    (midis : list (string * MidiFile)) (spins : list Z) (tpb_out : Z)
    (seed : option Z) : result (MidiFile * string) :=
  let rng := Random os_entropy seed in
  st ← build_pool midis empty_pool;
  match pool st with
  | [] => Raise no_clean_bars
  | _ =>
      let '(pool_ref, h) := alloc [] (pool st) in
      '(dice_table, _, _) ← table_loop (length spins) pool_ref h rng;
      assemble st dice_table spins tpb_out
  end.
End Build.
End mozart_dice_game_gui.

(** ** [spin_game_gui.py] *)
Module spin_game_gui.
Section Build.
Context {G : Type} `{PRNG G}.

(** One iteration of [for spin_idx in range(len(spins))]:
      rng.shuffle(pool); ... *)
Definition table_turn (pool : ref) (h : store) (g : G)
  : result (list phrase * store * G) :=
  let '(h, g) := shuffle_at pool h g in
  choices ← choices_for_spin (deref h pool);
  Ok (choices, h, g).

Fixpoint table_loop (turns : nat) (pool : ref) (h : store) (g : G)
  : result (list (list phrase) * store * G) :=
  match turns with
  | O => Ok ([], h, g)
  | S turns' =>
      '(choices, h, g) ← table_turn pool h g;
      '(rest, h, g) ← table_loop turns' pool h g;
      Ok (choices :: rest, h, g)
  end.

Definition build_from_spins (os_entropy : G)
    (midis : list (string * MidiFile)) (spins : list Z) (tpb_out : Z)
    (seed : option Z) : result (MidiFile * string) :=
  let rng := Random os_entropy seed in
  st ← build_pool midis empty_pool;
  match pool st with
  | [] => Raise no_clean_bars
  | _ =>
      let '(pool_ref, h) := alloc [] (pool st) in
      '(dice_table, _, _) ← table_loop (length spins) pool_ref h rng;
      assemble st dice_table spins tpb_out
  end.
End Build.
End spin_game_gui.

(* ===================================================================== *)
(** * The unused helper [scale_events]                                  *)
(* ===================================================================== *)

(** [scale_events]:
      return [(int(round(t * scale)), m) for t, m in abs_events]          *)
Definition scale_events (abs_events : list event) (scale : Float.float)
  : result (list event) :=
  mapM (fun ev : event => t ← scale_tick scale ev.1; Ok (t, ev.2)) abs_events.

(* ===================================================================== *)
(** * The windows: what they use of Python and Tk                         *)
(* ===================================================================== *)

(** [int(s)] and [s.strip()] on a [str]: library functions, taken as
    given.  [py_int] is [None] where [int] raises [ValueError]. *)
Class PyText : Type := {
  py_int : string -> option Z;
  strip : string -> string
}.

(** [random.randint(a, b)], that is [randrange(a, b + 1)]:
    [istart + _randbelow(width)], [ValueError] on an empty range. *)
Definition randint {G : Type} `{PRNG G} (a b : Z) (g : G) : result (Z * G) :=
  let width := b + 1 - a in
  if 0 <? width then
    let '(r, g') := randbelow g (Z.to_nat width) in Ok (a + Z.of_nat r, g')
  else Raise ValueError.

(** [str(l)] for a list of [int]. *)
Definition repr_ints (l : list Z) : string :=
  "[" +:+ join ", " (map pretty l) +:+ "]".

(** [f"{d}"] for an [Optional[int]]. *)
Definition str_opt (d : option Z) : string :=
  match d with
  | Some z => pretty z
  | None => "None"
  end.

(** A [messagebox] call. *)
Inductive dialog_kind : Type := showinfo | showerror | showwarning.

Record dialog : Type := mkDialog {
  dialog_kind_of : dialog_kind;
  dialog_title : string;
  dialog_message : string
}.

(** An item of a [tk.Canvas]. *)
Inductive shape : Type := Rectangle | Oval.

(** A coordinate as Python passes it: an [int] or a [float]. *)
Inductive number : Type :=
  | Int (n : Z)
  | Flt (x : Float.float).

Record canvas_item : Type := mkItem {
  item_shape : shape;
  item_x0 : number;
  item_y0 : number;
  item_x1 : number;
  item_y1 : number;
  item_fill : string;
  item_tags : list string
}.

Definition has_tag (tag : string) (it : canvas_item) : bool :=
  bool_decide (tag ∈ item_tags it).

(** [Canvas.delete(tag)]. *)
Definition canvas_delete (tag : string) (items : list canvas_item)
  : list canvas_item :=
  List.filter (fun it => negb (has_tag tag it)) items.

(* ===================================================================== *)
(** * [DiceCanvas]                                                        *)
(* ===================================================================== *)

Module DiceCanvas.

Record t : Type := mk {
  width : Z;
  height : Z;
  size : Z;
  gap : Z;
  left_face : Z;
  right_face : Z;
  items : list canvas_item
}.

(** The float literals [0.2], [0.5], [0.8] and [0.06]. *)
Definition f0_2 : Float.float := S754_finite false 7205759403792794 (-55).
Definition f0_5 : Float.float := S754_finite false 4503599627370496 (-53).
Definition f0_8 : Float.float := S754_finite false 7205759403792794 (-53).
Definition f0_06 : Float.float := S754_finite false 8646911284551352 (-57).

(** The table [spots] with [spots.get(n, [])]. *)
Definition spots (n : Z) : list (Z * Z) :=
  match n with
  | 1 => [(1, 1)]
  | 2 => [(0, 0); (2, 2)]
  | 3 => [(0, 0); (1, 1); (2, 2)]
  | 4 => [(0, 0); (2, 0); (0, 2); (2, 2)]
  | 5 => [(0, 0); (2, 0); (1, 1); (0, 2); (2, 2)]
  | 6 => [(0, 0); (2, 0); (0, 1); (2, 1); (0, 2); (2, 2)]
  | _ => []
  end.

(** [x + s*c] for [int] [x], [s] and a float literal [c]. *)
Definition grid_line (x s : Z) (c : Float.float) : result Float.float :=
  fs ← Float.of_int s;
  fx ← Float.of_int x;
  Ok (Float.add fx (Float.mul fs c)).

(** [create_oval(cx[ix]-r, cy[iy]-r, cx[ix]+r, cy[iy]+r, fill="#111",
    width=0, tags=("pip",))]. *)
Definition pip (cx cy : list Float.float) (r : Z) (spot : Z * Z)
  : result canvas_item :=
  x ← py_getitem cx spot.1;
  fr ← Float.of_int r;
  y ← py_getitem cy spot.2;
  Ok {| item_shape := Oval;
        item_x0 := Flt (Float.sub x fr); item_y0 := Flt (Float.sub y fr);
        item_x1 := Flt (Float.add x fr); item_y1 := Flt (Float.add y fr);
        item_fill := "#111"; item_tags := ["pip"%string] |}.

(** [_draw_pips(x, y, s, n)], on the items of the canvas. *)
Definition _draw_pips (x y s n : Z) (its : list canvas_item)
  : result (list canvas_item) :=
  cx ← mapM (grid_line x s) [f0_2; f0_5; f0_8];
  cy ← mapM (grid_line y s) [f0_2; f0_5; f0_8];
  fs ← Float.of_int s;
  i ← Float.trunc (Float.mul fs f0_06);
  let r := Z.max 4 i in
  pips ← mapM (pip cx cy r) (spots n);
  Ok (its ++ pips).

(** [draw_faces(left, right)]. *)
Definition draw_faces (left right : Z) (c : t) : result t :=
  let its := canvas_delete "pip" (items c) in
  its ← _draw_pips 10 10 (size c) left its;
  its ← _draw_pips (10 + size c + gap c) 10 (size c) right its;
  Ok {| width := width c; height := height c; size := size c; gap := gap c;
        left_face := left; right_face := right; items := its |}.

(** [_draw_static()]. *)
Definition _draw_static (c : t) : t :=
  let s := size c in
  let g := gap c in
  {| width := width c; height := height c; size := size c; gap := gap c;
     left_face := left_face c; right_face := right_face c;
     items :=
       items c
       ++ [ {| item_shape := Rectangle;
               item_x0 := Int 10; item_y0 := Int 10;
               item_x1 := Int (10 + s); item_y1 := Int (10 + s);
               item_fill := "#fafafa"; item_tags := ["dieL"%string] |};
            {| item_shape := Rectangle;
               item_x0 := Int (10 + s + g); item_y0 := Int 10;
               item_x1 := Int (10 + s + g + s); item_y1 := Int (10 + s);
               item_fill := "#fafafa"; item_tags := ["dieR"%string] |} ] |}.

(** [DiceCanvas(master, size, gap)]. *)
Definition __init__ (size gap : Z) : result t :=
  let w := size * 2 + gap in
  let h := size in
  let c := {| width := w; height := h; size := size; gap := gap;
              left_face := 1; right_face := 1; items := [] |} in
  draw_faces 1 1 (_draw_static c).

(** The items of the canvas carrying a tag. *)
Definition tagged (tag : string) (c : t) : list canvas_item :=
  List.filter (has_tag tag) (items c).

End DiceCanvas.

(* ===================================================================== *)
(** * [MozartDiceGame]                                                    *)
(* ===================================================================== *)

Module MozartDiceGame.

(** The window: the values of its Tk variables, the texts of its label and
    log, and its own attributes. *)
Record t : Type := mk {
  midis : list (string * MidiFile);
  dice : DiceCanvas.t;
  spins_var : Z;
  seed_var : string;
  tpb_var : string;
  force_var : string;
  out_var : string;
  rolls_label : string;
  log : string;
  current_rolls : list Z;
  animating : bool;
  after_id : option nat
}.

Definition set_dice (d : DiceCanvas.t) (st : t) : t :=
  {| midis := midis st; dice := d; spins_var := spins_var st;
     seed_var := seed_var st; tpb_var := tpb_var st; force_var := force_var st;
     out_var := out_var st; rolls_label := rolls_label st; log := log st;
     current_rolls := current_rolls st; animating := animating st;
     after_id := after_id st |}.

Definition set_rolls_label (s : string) (st : t) : t :=
  {| midis := midis st; dice := dice st; spins_var := spins_var st;
     seed_var := seed_var st; tpb_var := tpb_var st; force_var := force_var st;
     out_var := out_var st; rolls_label := s; log := log st;
     current_rolls := current_rolls st; animating := animating st;
     after_id := after_id st |}.

Definition set_log (s : string) (st : t) : t :=
  {| midis := midis st; dice := dice st; spins_var := spins_var st;
     seed_var := seed_var st; tpb_var := tpb_var st; force_var := force_var st;
     out_var := out_var st; rolls_label := rolls_label st; log := s;
     current_rolls := current_rolls st; animating := animating st;
     after_id := after_id st |}.

Definition set_current_rolls (l : list Z) (st : t) : t :=
  {| midis := midis st; dice := dice st; spins_var := spins_var st;
     seed_var := seed_var st; tpb_var := tpb_var st; force_var := force_var st;
     out_var := out_var st; rolls_label := rolls_label st; log := log st;
     current_rolls := l; animating := animating st;
     after_id := after_id st |}.

Definition set_animating (b : bool) (st : t) : t :=
  {| midis := midis st; dice := dice st; spins_var := spins_var st;
     seed_var := seed_var st; tpb_var := tpb_var st; force_var := force_var st;
     out_var := out_var st; rolls_label := rolls_label st; log := log st;
     current_rolls := current_rolls st; animating := b;
     after_id := after_id st |}.

Definition set_after_id (i : option nat) (st : t) : t :=
  {| midis := midis st; dice := dice st; spins_var := spins_var st;
     seed_var := seed_var st; tpb_var := tpb_var st; force_var := force_var st;
     out_var := out_var st; rolls_label := rolls_label st; log := log st;
     current_rolls := current_rolls st; animating := animating st;
     after_id := i |}.

(** What the user sets: the radio buttons and the four entries. *)
Definition set_inputs (spins : Z) (seed tpb force out : string) (st : t) : t :=
  {| midis := midis st; dice := dice st; spins_var := spins;
     seed_var := seed; tpb_var := tpb; force_var := force;
     out_var := out; rolls_label := rolls_label st; log := log st;
     current_rolls := current_rolls st; animating := animating st;
     after_id := after_id st |}.

(** The canvas of the application in order: it shows two faces, with one
    pip for each point. *)
Definition dice_ok (d : DiceCanvas.t) : Prop :=
  DiceCanvas.size d = 140 /\ DiceCanvas.gap d = 40
  /\ 1 <= DiceCanvas.left_face d <= 6
  /\ 1 <= DiceCanvas.right_face d <= 6
  /\ Z.of_nat (length (DiceCanvas.tagged "pip" d))
     = DiceCanvas.left_face d + DiceCanvas.right_face d.

Section Window.
Context {G : Type} `{PRNG G} `{PyText}.

(** Outside the window: the generator of the [random] module, the message
    boxes shown so far, and the pending [after] calls of
    [_animate_step], each with its identifier and arguments. *)
Record world : Type := mkWorld {
  random : G;
  dialogs : list dialog;
  timers : list (nat * (Z * Z));
  next_after : nat
}.

Definition messagebox (k : dialog_kind) (title message : string) (w : world)
  : world :=
  {| random := random w;
     dialogs := dialogs w ++ [ {| dialog_kind_of := k; dialog_title := title;
                                  dialog_message := message |} ];
     timers := timers w; next_after := next_after w |}.

Definition set_random (g : G) (w : world) : world :=
  {| random := g; dialogs := dialogs w; timers := timers w;
     next_after := next_after w |}.

(** [self.after(50, self._animate_step, i, total_frames)]: returns the new
    identifier. *)
Definition after (i total_frames : Z) (w : world) : nat * world :=
  (next_after w,
   {| random := random w; dialogs := dialogs w;
      timers := timers w ++ [(next_after w, (i, total_frames))];
      next_after := S (next_after w) |}).

(** [_log(msg)]: [self.log.insert(tk.END, msg + "\n")]. *)
Definition _log (msg : string) (st : t) : t :=
  set_log (log st +:+ msg +:+ newline) st.

(** [append_roll(total, forced, d1, d2)]. *)
Definition append_roll (total : Z) (forced : bool) (d1 d2 : option Z) (st : t)
  : t :=
  let st := set_current_rolls (current_rolls st ++ [total]) st in
  let left := spins_var st - Z.of_nat (length (current_rolls st)) in
  let st :=
    set_rolls_label
      ("Rolls: " +:+ repr_ints (current_rolls st)
       +:+ "    (Spins left: " +:+ pretty left +:+ ")") st in
  if forced then
    _log ("Spin " +:+ pretty (Z.of_nat (length (current_rolls st)))
          +:+ ": forced → " +:+ pretty total) st
  else
    _log ("Spin " +:+ pretty (Z.of_nat (length (current_rolls st)))
          +:+ ": rolled " +:+ str_opt d1 +:+ "+" +:+ str_opt d2
          +:+ " = " +:+ pretty total) st.

(** [_animate_step(i, total_frames)]. *)
Definition _animate_step (i total_frames : Z) (st : t) (w : world)
  : result (t * world) :=
  '(lf, g) ← randint 1 6 (random w);
  '(rf, g) ← randint 1 6 g;
  d ← DiceCanvas.draw_faces lf rf (dice st);
  let st := set_dice d st in
  let w := set_random g w in
  if i <? total_frames then
    let '(id, w) := after (i + 1) total_frames w in
    Ok (set_after_id (Some id) st, w)
  else
    '(d1, g) ← randint 1 6 (random w);
    '(d2, g) ← randint 1 6 g;
    d ← DiceCanvas.draw_faces d1 d2 (dice st);
    let st := set_animating false (set_dice d st) in
    Ok (append_roll (d1 + d2) false (Some d1) (Some d2) st, set_random g w).

(** [start_animation()]. *)
Definition start_animation (st : t) (w : world) : result (t * world) :=
  if animating st then Ok (st, w)
  else
    let st := set_animating true st in
    let frames := 14 in
    _animate_step 0 frames st w.

(** The forced total of [roll_clicked]:
      try: total = int(txt); if not (2 <= total <= 12): raise ValueError
      except Exception: ...                                               *)
Definition forced_total (txt : string) : option Z :=
  match py_int txt with
  | Some total => if (2 <=? total) && (total <=? 12) then Some total else None
  | None => None
  end.

(** The two faces shown for a forced total, from the die [left] drawn:
      right = total - left
      if right < 1 or right > 6:
          right = max(1, min(6, total - 1))
          left = total - right
          left = max(1, min(6, left))                                      *)
Definition forced_faces (total left : Z) : Z * Z :=
  let right := total - left in
  if (right <? 1) || (6 <? right) then
    let right := Z.max 1 (Z.min 6 (total - 1)) in
    let left := total - right in
    let left := Z.max 1 (Z.min 6 left) in
    (left, right)
  else (left, right).

(** [roll_clicked()]. *)
Definition roll_clicked (st : t) (w : world) : result (t * world) :=
  if spins_var st <=? Z.of_nat (length (current_rolls st)) then
    Ok (st, messagebox showinfo "All spins used"
              ("You've selected " +:+ pretty (spins_var st)
               +:+ " spins. Reset to play again.") w)
  else
    let txt := strip (force_var st) in
    if bool_decide (txt = EmptyString) then start_animation st w
    else
      match forced_total txt with
      | None =>
          Ok (st, messagebox showerror "Invalid"
                    "Forced result must be an integer between 2 and 12." w)
      | Some total =>
          '(die, g) ← randint 1 6 (random w);
          let faces := forced_faces total die in
          d ← DiceCanvas.draw_faces faces.1 faces.2 (dice st);
          Ok (append_roll total true None None (set_dice d st), set_random g w)
      end.

(** [undo_last()]. *)
Definition undo_last (st : t) : t :=
  match last (current_rolls st) with
  | None => st
  | Some last_roll =>
      let st := set_current_rolls (removelast (current_rolls st)) st in
      let st := _log ("Undo last spin (removed " +:+ pretty last_roll +:+ ").") st in
      let left := spins_var st - Z.of_nat (length (current_rolls st)) in
      set_rolls_label
        ("Rolls: " +:+ repr_ints (current_rolls st)
         +:+ "    (Spins left: " +:+ pretty left +:+ ")") st
  end.

(** [reset_game()]. *)
Definition reset_game (st : t) : result t :=
  let st := set_current_rolls [] st in
  let st :=
    set_rolls_label
      ("Rolls: []    (Spins left: " +:+ pretty (spins_var st) +:+ ")") st in
  let st := set_log EmptyString st in
  let st :=
    _log "New game. Choose 3 or 4 spins, then Roll! Use Force to pick a specific total (2–12)."
      st in
  d ← DiceCanvas.draw_faces 1 1 (dice st);
  Ok (set_dice d st).

(** The window once [__init__] has read the files [midis] (at least one)
    and built its widgets. *)
Definition __init__ (midis : list (string * MidiFile)) : result t :=
  d ← DiceCanvas.__init__ 140 40;
  reset_game
    {| midis := midis; dice := d; spins_var := 4;
       seed_var := EmptyString; tpb_var := "480"; force_var := EmptyString;
       out_var := "mozart_dice_visual.mid";
       rolls_label := "Rolls: []    (Spins left: 4)"; log := EmptyString;
       current_rolls := []; animating := false; after_id := None |}.

(** What can happen to the window between two handlers: a button is
    pressed, a pending [after] call comes due, or the user changes the
    radio buttons and the entries. *)
Inductive action : Type :=
  | press_roll
  | press_undo
  | press_reset
  | after_due (id : nat)
  | edit (spins : Z) (seed tpb force out : string).

Definition remove_timer (id : nat) (w : world) : world :=
  {| random := random w; dialogs := dialogs w;
     timers := List.filter (fun tm : nat * (Z * Z) => negb (tm.1 =? id)%nat) (timers w);
     next_after := next_after w |}.

(** One turn of the Tk main loop.  The radio buttons offer 3 and 4. *)
Definition step (a : action) (st : t) (w : world) : result (t * world) :=
  match a with
  | press_roll => roll_clicked st w
  | press_undo => Ok (undo_last st, w)
  | press_reset => st ← reset_game st; Ok (st, w)
  | after_due id =>
      match List.find (fun tm : nat * (Z * Z) => (tm.1 =? id)%nat) (timers w) with
      | Some (_, (i, total_frames)) =>
          _animate_step i total_frames st (remove_timer id w)
      | None => Ok (st, w)
      end
  | edit spins seed tpb force out =>
      if bool_decide (spins = 3 \/ spins = 4)
      then Ok (set_inputs spins seed tpb force out st, w)
      else Ok (st, w)
  end.

(** The main loop over a list of actions. *)
Fixpoint run (acts : list action) (st : t) (w : world) : result (t * world) :=
  match acts with
  | [] => Ok (st, w)
  | a :: acts => '(st, w) ← step a st w; run acts st w
  end.

(** What every handler keeps true of the window: the rolls are totals of
    two dice; the canvas is in order; an animation in progress has exactly
    one frame pending, and none is pending otherwise. *)
Definition consistent (st : t) (w : world) : Prop :=
  Forall (fun total => 2 <= total <= 12) (current_rolls st)
  /\ dice_ok (dice st)
  /\ if animating st
     then exists id i, timers w = [(id, (i, 14))] /\ 1 <= i <= 14
     else timers w = [].

End Window.
End MozartDiceGame.

(* ===================================================================== *)
(** * [SpinGameApp]                                                       *)
(* ===================================================================== *)

Module SpinGameApp.

(** The window: the values of its Tk variables, the text of its log, and
    its list of rolls. *)
Record t : Type := mk {
  midis : list (string * MidiFile);
  spins_var : Z;
  seed_var : string;
  tpb_var : string;
  forced_var : string;
  out_var : string;
  rolls_var : string;
  log : string;
  current_rolls : list Z
}.

Definition set_rolls_var (s : string) (st : t) : t :=
  {| midis := midis st; spins_var := spins_var st; seed_var := seed_var st;
     tpb_var := tpb_var st; forced_var := forced_var st; out_var := out_var st;
     rolls_var := s; log := log st; current_rolls := current_rolls st |}.

Definition set_log (s : string) (st : t) : t :=
  {| midis := midis st; spins_var := spins_var st; seed_var := seed_var st;
     tpb_var := tpb_var st; forced_var := forced_var st; out_var := out_var st;
     rolls_var := rolls_var st; log := s; current_rolls := current_rolls st |}.

Definition set_current_rolls (l : list Z) (st : t) : t :=
  {| midis := midis st; spins_var := spins_var st; seed_var := seed_var st;
     tpb_var := tpb_var st; forced_var := forced_var st; out_var := out_var st;
     rolls_var := rolls_var st; log := log st; current_rolls := l |}.

(** What the user sets: the radio buttons and the four entries. *)
Definition set_inputs (spins : Z) (seed tpb forced out : string) (st : t) : t :=
  {| midis := midis st; spins_var := spins; seed_var := seed;
     tpb_var := tpb; forced_var := forced; out_var := out;
     rolls_var := rolls_var st; log := log st;
     current_rolls := current_rolls st |}.

Section Window.
Context {G : Type} `{PRNG G} `{PyText}.

(** Outside the window: the generator of the [random] module and the
    message boxes shown so far. *)
Record world : Type := mkWorld {
  random : G;
  dialogs : list dialog
}.

Definition messagebox (k : dialog_kind) (title message : string) (w : world)
  : world :=
  {| random := random w;
     dialogs := dialogs w ++ [ {| dialog_kind_of := k; dialog_title := title;
                                  dialog_message := message |} ] |}.

(** [_log(msg)]. *)
Definition _log (msg : string) (st : t) : t :=
  set_log (log st +:+ msg +:+ newline) st.

(** The end of [spin_once]:
      self.current_rolls.append(total)
      self.rolls_var.set(f"Rolls: {self.current_rolls}")                   *)
Definition record_roll (total : Z) (st : t) : t :=
  let st := set_current_rolls (current_rolls st ++ [total]) st in
  set_rolls_var ("Rolls: " +:+ repr_ints (current_rolls st)) st.

(** [spin_once()]. *)
Definition spin_once (st : t) (w : world) : result (t * world) :=
  if spins_var st <=? Z.of_nat (length (current_rolls st)) then
    Ok (st, messagebox showinfo "All spins used"
              ("You chose " +:+ pretty (spins_var st)
               +:+ " spins. Reset to play again.") w)
  else
    let txt := strip (forced_var st) in
    if bool_decide (txt = EmptyString) then
      '(d1, g) ← randint 1 6 (random w);
      '(d2, g) ← randint 1 6 g;
      let total := d1 + d2 in
      let st :=
        _log ("Spin " +:+ pretty (Z.of_nat (length (current_rolls st)) + 1)
              +:+ ": rolled " +:+ pretty d1 +:+ "+" +:+ pretty d2
              +:+ " = " +:+ pretty total) st in
      Ok (record_roll total st, {| random := g; dialogs := dialogs w |})
    else
      match py_int txt with
      | None =>
          Ok (st, messagebox showerror "Invalid"
                    "Force result must be an integer 2..12" w)
      | Some total =>
          if negb ((2 <=? total) && (total <=? 12)) then
            Ok (st, messagebox showerror "Invalid"
                      "Force result must be between 2 and 12" w)
          else
            let st :=
              _log ("Spin " +:+ pretty (Z.of_nat (length (current_rolls st)) + 1)
                    +:+ ": forced → " +:+ pretty total) st in
            Ok (record_roll total st, w)
      end.

(** [undo_last()]. *)
Definition undo_last (st : t) : t :=
  match last (current_rolls st) with
  | None => st
  | Some last_roll =>
      let st := set_current_rolls (removelast (current_rolls st)) st in
      let st := _log ("Undo last spin (removed " +:+ pretty last_roll +:+ ").") st in
      set_rolls_var ("Rolls: " +:+ repr_ints (current_rolls st)) st
  end.

(** [reset_game()]. *)
Definition reset_game (st : t) : t :=
  let st := set_current_rolls [] st in
  let st := set_rolls_var "Rolls: []" st in
  let st := set_log EmptyString st in
  _log "New game. Choose 3 or 4 spins, then hit Spin! Use 'Force result' to pick a specific 2..12."
    st.

(** The window once [__init__] has read the files [midis] (at least one)
    and built its widgets. *)
Definition __init__ (midis : list (string * MidiFile)) : t :=
  reset_game
    {| midis := midis; spins_var := 4; seed_var := EmptyString;
       tpb_var := "480"; forced_var := EmptyString; out_var := "mozart_spins.mid";
       rolls_var := "Rolls: []"; log := EmptyString; current_rolls := [] |}.

(** What can happen to the window between two handlers. *)
Inductive action : Type :=
  | press_spin
  | press_undo
  | press_reset
  | edit (spins : Z) (seed tpb forced out : string).

(** One turn of the Tk main loop.  The radio buttons offer 3 and 4. *)
Definition step (a : action) (st : t) (w : world) : result (t * world) :=
  match a with
  | press_spin => spin_once st w
  | press_undo => Ok (undo_last st, w)
  | press_reset => Ok (reset_game st, w)
  | edit spins seed tpb forced out =>
      if bool_decide (spins = 3 \/ spins = 4)
      then Ok (set_inputs spins seed tpb forced out st, w)
      else Ok (st, w)
  end.

Fixpoint run (acts : list action) (st : t) (w : world) : result (t * world) :=
  match acts with
  | [] => Ok (st, w)
  | a :: acts => '(st, w) ← step a st w; run acts st w
  end.

(** What every handler keeps true of the window: the rolls are totals of
    two dice, and the label shows them. *)
Definition consistent (st : t) : Prop :=
  Forall (fun total => 2 <= total <= 12) (current_rolls st)
  /\ rolls_var st = "Rolls: " +:+ repr_ints (current_rolls st).

End Window.
End SpinGameApp.

(* ===================================================================== *)
(** * CPython's generator: MT19937                                        *)
(* ===================================================================== *)

(** [random.Random] of CPython ([_randommodule.c] and [random.py]): the
    Mersenne Twister, seeded through [init_by_array] from the 32-bit words
    of the absolute value of the seed. *)
Module MT19937.

Definition N : nat := 624.
Definition M : nat := 397.
Definition MATRIX_A : Z := 0x9908b0df.
Definition UPPER_MASK : Z := 0x80000000.
Definition LOWER_MASK : Z := 0x7fffffff.

Definition u32 (z : Z) : Z := z mod 2 ^ 32.

Record state : Type := mkState { mt : list Z; index : nat }.

Definition get (a : list Z) (i : nat) : Z := nth i a 0.

Fixpoint init_genrand_loop (n : nat) (mti : Z) (prev : Z) : list Z :=
  match n with
  | O => []
  | S n' =>
      let x := u32 (1812433253 * Z.lxor prev (Z.shiftr prev 30) + mti) in
      x :: init_genrand_loop n' (mti + 1) x
  end.

Definition init_genrand (s : Z) : state :=
  {| mt := u32 s :: init_genrand_loop (N - 1) 1 (u32 s); index := N |}.

(** The wrap-around of [i] shared by both loops of [init_by_array]. *)
Definition wrap_i (a : list Z) (i : nat) : list Z * nat :=
  if (N <=? i)%nat then (<[0%nat := get a (N - 1)]> a, 1%nat) else (a, i).

Fixpoint init_loop1 (k : nat) (key : list Z) (a : list Z) (i j : nat)
  : list Z * nat :=
  match k with
  | O => (a, i)
  | S k' =>
      let prev := get a (i - 1) in
      let v := u32 (Z.lxor (get a i)
                      (u32 (Z.lxor prev (Z.shiftr prev 30) * 1664525))
                    + get key j + Z.of_nat j) in
      let a := <[i := v]> a in
      let '(a, i) := wrap_i a (S i) in
      let j := if (length key <=? S j)%nat then 0%nat else S j in
      init_loop1 k' key a i j
  end.

Fixpoint init_loop2 (k : nat) (a : list Z) (i : nat) : list Z :=
  match k with
  | O => a
  | S k' =>
      let prev := get a (i - 1) in
      let v := u32 (Z.lxor (get a i)
                      (u32 (Z.lxor prev (Z.shiftr prev 30) * 1566083941))
                    - Z.of_nat i) in
      let a := <[i := v]> a in
      let '(a, i) := wrap_i a (S i) in
      init_loop2 k' a i
  end.

Definition init_by_array (key : list Z) : state :=
  let a := mt (init_genrand 19650218) in
  let '(a, i) := init_loop1 (Nat.max N (length key)) key a 1 0 in
  let a := init_loop2 (N - 1) a i in
  {| mt := <[0%nat := 0x80000000]> a; index := N |}.

(** The 32-bit words of a non-negative integer, least significant
    first; one word for zero. *)
Fixpoint key_words (fuel : nat) (n : Z) : list Z :=
  match fuel with
  | O => []
  | S fuel' =>
      if n <? 2 ^ 32 then [n] else u32 n :: key_words fuel' (Z.shiftr n 32)
  end.

(** [random.Random(a)] for an [int]. *)
Definition seed (a : Z) : state :=
  let n := Z.abs a in
  init_by_array (key_words (S (Z.to_nat (Z.log2 n))) n).

Definition twist_step (a : list Z) (kk : nat) : list Z :=
  let y := Z.lor (Z.land (get a kk) UPPER_MASK)
                 (Z.land (get a ((kk + 1) mod N)) LOWER_MASK) in
  let mag := if Z.odd y then MATRIX_A else 0 in
  <[kk := Z.lxor (Z.lxor (get a ((kk + M) mod N)) (Z.shiftr y 1)) mag]> a.

Definition twist (a : list Z) : list Z := foldl twist_step a (seq 0 N).

Definition temper (y : Z) : Z :=
  let y := Z.lxor y (Z.shiftr y 11) in
  let y := Z.lxor y (Z.land (u32 (Z.shiftl y 7)) 0x9d2c5680) in
  let y := Z.lxor y (Z.land (u32 (Z.shiftl y 15)) 0xefc60000) in
  Z.lxor y (Z.shiftr y 18).

Definition genrand_uint32 (g : state) : Z * state :=
  let '(a, i) := if (N <=? index g)%nat then (twist (mt g), 0%nat)
                 else (mt g, index g) in
  (temper (get a i), {| mt := a; index := S i |}).

(** [getrandbits(k)] for [k > 0]: words are drawn least significant
    first, the last one keeping its top [k mod 32] bits. *)
Fixpoint getrandbits_words (words : nat) (k : Z) (g : state) : Z * state :=
  match words with
  | O => (0, g)
  | S words' =>
      let '(r, g) := genrand_uint32 g in
      let r := if k <? 32 then Z.shiftr r (32 - k) else r in
      let '(hi, g) := getrandbits_words words' (k - 32) g in
      (r + Z.shiftl hi 32, g)
  end.

Definition getrandbits (k : Z) (g : state) : Z * state :=
  getrandbits_words (Z.to_nat ((k - 1) / 32 + 1)) k g.

(** [_randbelow_with_getrandbits]:
      k = n.bit_length(); r = getrandbits(k)
      while r >= n: r = getrandbits(k)
    Each draw is accepted with probability above one half.  The loop is
    unrolled [fuel] times; [None] stands for a run still rejecting. *)
Fixpoint randbelow_loop (fuel : nat) (k n : Z) (g : state)
  : option (Z * state) :=
  match fuel with
  | O => None
  | S fuel' =>
      let '(r, g) := getrandbits k g in
      if r <? n then Some (r, g) else randbelow_loop fuel' k n g
  end.

Definition randbelow_fuel : nat := 128.

Definition randbelow_opt (g : state) (n : nat) : option (Z * state) :=
  randbelow_loop randbelow_fuel (Z.log2 (Z.of_nat n) + 1) (Z.of_nat n) g.

(** Total version for the [PRNG] interface: a run that has rejected
    [randbelow_fuel] draws in a row (probability below [2^-128]) is cut
    off with 0; [draws] below tells when the cut-off is not reached. *)
Definition randbelow (g : state) (n : nat) : nat * state :=
  match randbelow_opt g n with
  | Some (r, g') => (Z.to_nat r, g')
  | None => (0%nat, g)
  end.

(** [count] successive calls of [_randbelow(n)], without the cut-off:
    [None] if some call is still rejecting after [randbelow_fuel] draws. *)
Fixpoint draws (count : nat) (n : nat) (g : state) : option (list Z) :=
  match count with
  | O => Some []
  | S count' =>
      match randbelow_opt g n with
      | Some (r, g') =>
          match draws count' n g' with
          | Some rs => Some (r :: rs)
          | None => None
          end
      | None => None
      end
  end.

End MT19937.

(* ===================================================================== *)
(** * MT19937 as an instance of the generator interface                   *)
(* ===================================================================== *)

#[global] Program Instance MT19937_PRNG : PRNG MT19937.state := {|
  seed_rng := MT19937.seed;
  randbelow := MT19937.randbelow
|}.
Next Obligation.
  intros g n Hn. unfold MT19937.randbelow, MT19937.randbelow_opt.
  assert (Hloop : forall fuel k m g0 r g',
             MT19937.randbelow_loop fuel k m g0 = Some (r, g') -> r < m).
  { clear. induction fuel as [|fuel IH]; intros k m g0 r g'; simpl; [discriminate|].
    destruct (MT19937.getrandbits k g0) as [r0 g1].
    destruct (r0 <? m) eqn:E; [|apply IH].
    intros [= <- <-]. lia. }
  destruct (MT19937.randbelow_loop _ _ _ g) as [[r g']|] eqn:E; simpl; [|lia].
  apply Hloop in E. lia.
Qed.

(* ===================================================================== *)
(** * Specification vocabulary                                          *)
(* ===================================================================== *)

(** Replaying events against a voice map. *)
Definition replay (active : voices) (evs : list event) : voices :=
  foldl (fun a ev => track_voice a ev.2) active evs.

(** Events strictly before a tick, and events of a half-open window. *)
Definition before (start : Z) (evs : list event) : list event :=
  filter (fun ev : event => ev.1 < start) evs.

Definition window (start end_ : Z) (evs : list event) : list event :=
  filter (fun ev : event => start <= ev.1 < end_) evs.

(** The bar made of the events of a window starting at [start]. *)
Definition to_bar (start : Z) (w : list event) : list event :=
  rel_track 0 (map (fun ev : event => (ev.1 - start, set_time ev.2 0)) w).

Definition sorted (l : list event) : Prop :=
  StronglySorted (fun a b : event => a.1 <= b.1) l.

(** What [extract_clean_bars] promises for the bar of index [b]. *)
Record clean_bar (bar_len : Z) (evs : list event) (b : Z) (bar : list event)
  : Prop := mkCleanBar {
  cb_content : bar = to_bar (b * bar_len) (window (b * bar_len) ((b + 1) * bar_len) evs);
  cb_nonempty : window (b * bar_len) ((b + 1) * bar_len) evs <> [];
  cb_starts_silent : replay ∅ (before (b * bar_len) evs) = ∅;
  cb_ends_silent : replay ∅ (window (b * bar_len) ((b + 1) * bar_len) evs) = ∅
}.

(** The bar length of a source. *)
Definition bar_len_of (mid : MidiFile) : result Z :=
  ticks_per_bar (ticks_per_beat mid)
    (get_time_signature mid).1 (get_time_signature mid).2.

(** The shape every dice table has. *)
Definition table_shape (dice_table : list (list phrase)) : Prop :=
  Forall (fun choices : list phrase =>
            length choices = 11%nat
            /\ Forall (fun ph : phrase => length ph = 4%nat) choices) dice_table.

(** The exceptions of float arithmetic. *)
Definition arith_error (e : exn) : Prop :=
  e = ZeroDivisionError \/ e = OverflowError \/ e = ValueError.

Abbreviation fexp := (SpecFloat.fexp Float.prec Float.emax).

Abbreviation emin := (SpecFloat.emin Float.prec Float.emax).

(** Non-negative floats of magnitude below [2^B]. *)
Definition below (B : Z) (x : Float.float) : Prop :=
  match x with
  | S754_zero _ => True
  | S754_finite false m e => Zpos (digits2_pos m) + e <= B
  | _ => False
  end.

(** Strictly positive floats with exponent at least [E]. *)
Definition positive_from (E : Z) (B : Z) (x : Float.float) : Prop :=
  match x with
  | S754_finite false m e => E <= e /\ Zpos (digits2_pos m) + e <= B
  | _ => False
  end.

(** Not a negative number (zeros of either sign and NaN included). *)
Definition nonneg (x : Float.float) : Prop :=
  match x with
  | S754_finite true _ _ | S754_infinity true => False
  | _ => True
  end.

(** The nearest integer to [p / q], ties to even, for [q > 0]. *)
Definition round_half_even (p q : Z) : Z :=
  let f := p / q in
  let r := p mod q in
  if 2 * r <? q then f
  else if q <? 2 * r then f + 1
  else if Z.even f then f else f + 1.

(** The binary64 number [a * 2^i], for [0 < a < 2^53] in the normal range:
    the mantissa is [a] shifted to 53 digits. *)
Definition dyadic (a : positive) (i : Z) : Float.float :=
  let d := Zpos (digits2_pos a) in
  S754_finite false (Z.to_pos (Zpos a * 2 ^ (53 - d))) (i + d - 53).

(** "[z] is [p / q] rounded to the nearest integer", for [q > 0]: the
    distance from [z] to [p / q] is at most one half. *)
Definition nearest_integer (p q z : Z) : Prop := 2 * Z.abs (z * q - p) <= q.

(** The record [mrs] stands for the rational [a / c]: its mantissa is the
    integer part, its round and sticky bits place the rest against one
    half. *)
Definition shr_represents (mrs : shr_record) (a c : Z) : Prop :=
  0 <= shr_m mrs
  /\ shr_m mrs * c <= a < (shr_m mrs + 1) * c
  /\ match shr_r mrs, shr_s mrs with
     | false, false => a = shr_m mrs * c
     | false, true => shr_m mrs * c < a /\ 2 * a < (2 * shr_m mrs + 1) * c
     | true, false => 2 * a = (2 * shr_m mrs + 1) * c
     | true, true => (2 * shr_m mrs + 1) * c < 2 * a
     end.

(** The rational value of a finite binary64 number. *)
Definition Qval (x : Float.float) : Q :=
  match x with
  | S754_finite false m e => (inject_Z (Zpos m) * 2 ^ e)%Q
  | S754_finite true m e => (- (inject_Z (Zpos m) * 2 ^ e))%Q
  | _ => 0%Q
  end.

(** A positive normal number with its exponent in [[lo, hi]]. *)
Definition normal (lo hi : Z) (x : Float.float) : Prop :=
  match x with
  | S754_finite false m e => 2 ^ 52 <= Zpos m < 2 ^ 53 /\ lo <= e <= hi
  | _ => False
  end.

(** The unit roundoff of binary64. *)
Definition u53 : Q := 1 # 9007199254740992.

(** [z] is [v] up to a relative error of one unit roundoff. *)
Definition approximates (z : Float.float) (v : Q) : Prop :=
  (Qval z * (1 - u53) <= v /\ v <= Qval z * (1 + u53))%Q.

(** A pool entry made from a bar of one of the sources. *)
Definition from_sources (midis : list (string * MidiFile)) (e : pool_entry) : Prop :=
  exists name mid bars,
    (name, mid) ∈ midis
    /\ extract_clean_bars mid = Ok bars
    /\ e.1.1.1 = ticks_per_beat mid
    /\ e.2 ∈ bars.

(** Every bar of every phrase of a table is an entry of [P]. *)
Definition table_within (P : list pool_entry) (t : list (list phrase)) : Prop :=
  Forall (Forall (Forall (fun e => e ∈ P))) t.

(** An event placed for the [k]-th bar of a phrase laid out from [t]:
    the tick is the bar's slot plus the rescaled relative tick. *)
Definition placed_at (tpb_out L t : Z) (ph : phrase) (ev : event) : Prop :=
  exists (k : nat) (entry : pool_entry) (rt : Z) scale (r : Z),
    ph !! k = Some entry
    /\ (exists m, (rt, m) ∈ entry.2 /\ ev.2 = m)
    /\ scale_of tpb_out entry.1.1.1 = Ok scale
    /\ scale_tick scale rt = Ok r
    /\ ev.1 = t + Z.of_nat k * L + r.

(** The events of one turn: the phrase chosen by the clamped total, laid
    out from the start of the turn. *)
Definition turn_chunk (tpb_out L : Z) (dice_table : list (list phrase))
    (i : nat) (total : Z) : result (list event) :=
  row ← py_getitem dice_table (Z.of_nat i);
  ph ← py_getitem row (clamp_total total - 2);
  r ← place_phrase tpb_out L ph [] (Z.of_nat i * 4 * L);
  Ok r.1.

(** The output meter and tempo resolved by the pool builder. *)
Definition out_meter (st : pool_state) : Z * Z := default (4, 4) (base_ts st).

Definition out_tempo (st : pool_state) : Z := default bpm2tempo_120 (base_tempo st).

(** The claim of C5 as a property of the chunks of the turns. *)
Definition turns_in_own_range (L : Z) (chunks : list (list event)) : Prop :=
  forall (i : nat) chunk (ev : event),
    chunks !! i = Some chunk -> ev ∈ chunk ->
    Z.of_nat i * 4 * L <= ev.1 < (Z.of_nat i + 1) * 4 * L.

(** The event [ev] placed for the event [src] of a bar whose source has
    the resolution [src_tpb], when the bar is bar [k] of the phrase of turn
    [i]: the message of [src] at the tick of the bar's slot plus [r], the
    relative tick of [src] rescaled by [tpb_out / src_tpb] and rounded. *)
Definition placed_event (tpb_out L : Z) (i k : nat) (src_tpb : Z)
    (src ev : event) : Prop :=
  exists scale r,
    scale_of tpb_out src_tpb = Ok scale
    /\ scale_tick scale src.1 = Ok r
    /\ ev = ((Z.of_nat i * 4 + Z.of_nat k) * L + r, src.2)
    /\ 0 <= src.1 /\ 0 <= r
    /\ Z.of_nat i * 4 * L <= ev.1
    /\ (r < L -> ev.1 < (Z.of_nat i + 1) * 4 * L)
    /\ (src_tpb = tpb_out -> tpb_out < 2 ^ 53 -> src.1 < 2 ^ 53 -> r = src.1).

(** The chunk of turn [i]: the bars of its phrase in order, every event of
    every bar placed. *)
Definition placed_phrase (tpb_out L : Z) (i : nat) (ph : phrase)
    (chunk : list event) : Prop :=
  exists bars : list (list event),
    chunk = concat bars
    /\ Forall2 (fun (ke : nat * pool_entry) (bar : list event) =>
                  Forall2 (placed_event tpb_out L i ke.1 ke.2.1.1.1) ke.2.2 bar)
         (imap pair ph) bars.

(** The dice table of a run, in each program. *)
Definition mozart_dice_table {G : Type} `{PRNG G} (os_entropy : G)
    (seed : option Z) (st : pool_state) (turns : nat)
  : result (list (list phrase)) :=
  (fun r : list (list phrase) * store * G => r.1.1)
    <$> mozart_dice_game_gui.table_loop turns 0%nat [pool st]
          (Random os_entropy seed).

Definition spin_dice_table {G : Type} `{PRNG G} (os_entropy : G)
    (seed : option Z) (st : pool_state) (turns : nat)
  : result (list (list phrase)) :=
  (fun r : list (list phrase) * store * G => r.1.1)
    <$> spin_game_gui.table_loop turns 0%nat [pool st]
          (Random os_entropy seed).

(** Floats of either sign of magnitude below [2^B]. *)
Definition sized (B : Z) (x : Float.float) : Prop :=
  match x with
  | S754_zero _ => True
  | S754_finite _ m e => Zpos (digits2_pos m) + e <= B
  | _ => False
  end.

(** Non-zero floats of magnitude below [2^B] with exponent at least [E]. *)
Definition nonzero_sized (E : Z) (B : Z) (x : Float.float) : Prop :=
  match x with
  | S754_finite _ m e => E <= e /\ Zpos (digits2_pos m) + e <= B
  | _ => False
  end.

(** A source whose resolution and time signature are below [2^64] in
    magnitude, and whose resolution and denominator are not zero. *)
Definition ordinary_source (mid : MidiFile) : Prop :=
  ticks_per_beat mid <> 0 /\ - 2 ^ 64 < ticks_per_beat mid < 2 ^ 64
  /\ - 2 ^ 64 < (get_time_signature mid).1 < 2 ^ 64
  /\ (get_time_signature mid).2 <> 0
  /\ - 2 ^ 64 < (get_time_signature mid).2 < 2 ^ 64.

(** A pool entry whose bar can be rescaled without overflow. *)
Definition ordinary_entry (e : pool_entry) : Prop :=
  e.1.1.1 <> 0 /\ - 2 ^ 64 < e.1.1.1 < 2 ^ 64
  /\ Forall (fun ev : event => 0 <= ev.1 < 2 ^ 188) e.2.

(** No source yields a safe bar / some source yields one. *)
Definition none_safe (midis : list (string * MidiFile)) : Prop :=
  Forall (fun nm : string * MidiFile => extract_clean_bars nm.2 = Ok []) midis.

Definition some_safe (midis : list (string * MidiFile)) : Prop :=
  Exists (fun nm : string * MidiFile =>
            exists b bars, extract_clean_bars nm.2 = Ok (b :: bars)) midis.

(** ** Vocabulary of the further properties *)

(** The sum of the delta times of a run of track items. *)
Definition total_time (tr : list item) : Z :=
  foldr (fun it acc => item_time it + acc) 0 tr.

(** The absolute tick of the item at position [i] of a track: the delta
    times of the items up to and including it, added up. *)
Definition tick_at (tr : MidiTrack) (i : nat) : Z := total_time (take (S i) tr).

Definition channel_event (ev : event) : Prop :=
  in_CHANNEL_MSGS (msg_body ev.2) = true.

Definition no_meta (ty : meta_type) (l : list item) : Prop :=
  Forall (fun it => has_meta_type ty it = false) l.

(** The bar of index [b] is kept: it holds an event, and no note sounds at
    its start or at its end. *)
Definition clean_index (bar_len : Z) (evs : list event) (b : Z) : Prop :=
  window (b * bar_len) ((b + 1) * bar_len) evs <> []
  /\ replay ∅ (before (b * bar_len) evs) = ∅
  /\ replay ∅ (before ((b + 1) * bar_len) evs) = ∅.

#[global] Instance clean_index_dec bar_len evs b :
  Decision (clean_index bar_len evs b).
Proof. unfold clean_index. apply _. Defined.

Definition bar_at (bar_len : Z) (evs : list event) (b : Z) : list event :=
  to_bar (b * bar_len) (window (b * bar_len) ((b + 1) * bar_len) evs).

(** The first source that yields a clean bar. *)
Definition has_clean_bar (nm : string * MidiFile) : bool :=
  match extract_clean_bars nm.2 with
  | Ok (_ :: _) => true
  | _ => false
  end.

Definition first_safe (midis : list (string * MidiFile))
  : option (string * MidiFile) :=
  List.find has_clean_bar midis.

(** The messages of the bars of a list of phrases, in order. *)
Definition bars_messages (phs : list phrase) : list Message :=
  concat (map (fun e : pool_entry => e.2.*2) (concat phs)).

(** The trace of a run that chose the phrases [phs] for the totals
    [spins]. *)
Definition trace_of (spins : list Z) (phs : list phrase) : string :=
  join newline
    (imap (fun i (tp : Z * phrase) => log_line i (clamp_total tp.1) tp.2)
       (zip spins phs)).

(** The bars of [es] laid end to end, slot [j] starting at tick [j * L]. *)
Definition laid_end_to_end (L : Z) (es : list pool_entry) : list event :=
  concat (imap (fun j (e : pool_entry) => rebase (Z.of_nat j * L) e.2) es).

(** A pool entry at resolution [tpb] whose ticks lie in [[0, L)]. *)
Definition fits (tpb L : Z) (e : pool_entry) : Prop :=
  e.1.1.1 = tpb /\ sorted e.2 /\ Forall (fun ev : event => 0 <= ev.1 < L) e.2.

(** [t * 2^k] rounded to the nearest integer, ties to even. *)
Definition times_pow2 (k : Z) (t : Z) : Z :=
  if 0 <=? k then t * 2 ^ k else round_half_even t (2 ^ (- k)).

(* ===================================================================== *)
(** * Concrete inputs of the examples                                   *)
(* ===================================================================== *)

Definition msg_on (note dt : Z) : item :=
  Msg {| msg_body := note_on 0 note 64; time := dt |}.

Definition msg_off (note dt : Z) : item :=
  Msg {| msg_body := note_off 0 note 0; time := dt |}.

(** Two bars of 4/4 at 480 ticks per beat, one short note in each. *)
Definition two_bar_source : MidiFile :=
  {| ticks_per_beat := 480;
     tracks := [[ Meta {| meta := time_signature 4 4; meta_time := 0 |};
                  msg_on 60 0; msg_off 60 100;
                  msg_on 62 1820; msg_off 62 100 ]] |}.

Definition two_bar_source_bars : list (list event) :=
  [ [ (0, {| msg_body := note_on 0 60 64; time := 0 |});
      (100, {| msg_body := note_off 0 60 0; time := 100 |}) ];
    [ (0, {| msg_body := note_on 0 62 64; time := 0 |});
      (100, {| msg_body := note_off 0 62 0; time := 100 |}) ] ].

(** The pool of [two_bar_source] as [build_from_spins] builds it. *)
Definition two_bar_pool : list pool_entry :=
  imap (fun i b => (480, "a.mid"%string, i, b)) two_bar_source_bars.

(** One bar of 4/4 at 480 ticks per beat holding one short note. *)
Definition one_bar_source (note : Z) : MidiFile :=
  {| ticks_per_beat := 480; tracks := [[ msg_on note 0; msg_off note 100 ]] |}.

Definition one_bar (note : Z) : list event :=
  [ (0, {| msg_body := note_on 0 note 64; time := 0 |});
    (100, {| msg_body := note_off 0 note 0; time := 100 |}) ].

Definition ab_midis : list (string * MidiFile) :=
  [ ("a.mid"%string, one_bar_source 60); ("b.mid"%string, one_bar_source 62) ].

Definition entry_a : pool_entry := (480, "a.mid"%string, 0%nat, one_bar 60).

Definition entry_b : pool_entry := (480, "b.mid"%string, 0%nat, one_bar 62).

Definition trace_mozart_seed_1 : string :=
  join newline
    [ "Spin 1: total=7 → phrase from ['b.mid', 'a.mid', 'b.mid', 'a.mid']";
      "Spin 2: total=7 → phrase from ['b.mid', 'a.mid', 'b.mid', 'a.mid']";
      "Spin 3: total=7 → phrase from ['a.mid', 'b.mid', 'a.mid', 'b.mid']" ]%string.

Definition trace_spin_seed_1 : string :=
  join newline
    [ "Spin 1: total=7 → phrase from ['b.mid', 'a.mid', 'b.mid', 'a.mid']";
      "Spin 2: total=7 → phrase from ['a.mid', 'b.mid', 'a.mid', 'b.mid']";
      "Spin 3: total=7 → phrase from ['a.mid', 'b.mid', 'a.mid', 'b.mid']" ]%string.

(** A source at 960 ticks per beat whose only note ends on the last tick
    of its bar. *)
Definition late_source : MidiFile :=
  {| ticks_per_beat := 960; tracks := [[ msg_on 60 0; msg_off 60 3839 ]] |}.

Definition late_entry : pool_entry :=
  (960, "late.mid"%string, 0%nat,
   [ (0, {| msg_body := note_on 0 60 64; time := 0 |});
     (3839, {| msg_body := note_off 0 60 0; time := 3839 |}) ]).

Definition late_midis : list (string * MidiFile) :=
  [ ("late.mid"%string, late_source) ].

(** With a one-bar pool every phrase of every table is that bar four
    times. *)
Definition late_table : list (list phrase) :=
  replicate 3 (replicate 11 (replicate 4 late_entry)).

(** The events the assembler places for turn [i] of the late source at
    resolution 480 (bar length 1920): each bar's note ends at relative
    tick [round(3839 * 0.5) = 1920]. *)
Definition late_chunk (i : Z) : list event :=
  flat_map (fun k : Z =>
              [ ((4 * i + k) * 1920, {| msg_body := note_on 0 60 64; time := 0 |});
                ((4 * i + k) * 1920 + 1920,
                 {| msg_body := note_off 0 60 0; time := 3839 |}) ])
           [0; 1; 2; 3].

(** A source at resolution 0 whose only note starts and ends on tick 0. *)
Definition zero_resolution_source : MidiFile :=
  {| ticks_per_beat := 0; tracks := [[ msg_on 60 0; msg_off 60 0 ]] |}.

Definition zero_resolution_midis : list (string * MidiFile) :=
  [ ("z.mid"%string, zero_resolution_source) ].

(** A source whose time signature has the denominator 0. *)
Definition zero_denominator_source : MidiFile :=
  {| ticks_per_beat := 480;
     tracks := [[ Meta {| meta := time_signature 4 0; meta_time := 0 |};
                  msg_on 60 0; msg_off 60 100 ]] |}.

Definition zero_denominator_midis : list (string * MidiFile) :=
  [ ("d.mid"%string, zero_denominator_source) ].

Definition late_state : pool_state :=
  {| pool := [late_entry]; base_tempo := Some 500000; base_ts := Some (4, 4) |}.

(** The result of a run on [ab_midis], for the examples. *)
Definition ab_mozart_run : MidiFile * string :=
  Eval vm_compute in
    match mozart_dice_game_gui.build_from_spins
            (MT19937.seed 0) ab_midis [7; 7; 7] 480 (Some 1) with
    | Ok r => r
    | Raise _ => ({| ticks_per_beat := 0; tracks := [] |}, EmptyString)
    end.

(** A source without a clean bar: one with a note that is never released. *)
Definition held_note_source : MidiFile :=
  {| ticks_per_beat := 480; tracks := [[ msg_on 60 0 ]] |}.

(** The value of a plain decimal numeral. *)
Fixpoint digits_value (s : string) (acc : Z) : option Z :=
  match s with
  | EmptyString => Some acc
  | String c s' =>
      let n := Z.of_N (N_of_ascii c) in
      if (48 <=? n) && (n <=? 57) then digits_value s' (10 * acc + (n - 48))
      else None
  end.

(** The texts of the examples are plain decimal numerals without blanks: on
    those [int] gives the value and [strip] changes nothing. *)
Definition numerals : PyText :=
  {| py_int := fun s => match s with
                        | EmptyString => None
                        | _ => digits_value s 0
                        end;
     strip := fun s => s |}.

(** The canvas of a new window. *)
Definition new_canvas : DiceCanvas.t :=
  Eval vm_compute in
    match DiceCanvas.__init__ 140 40 with
    | Ok d => d
    | Raise _ => {| DiceCanvas.width := 0; DiceCanvas.height := 0;
                    DiceCanvas.size := 0; DiceCanvas.gap := 0;
                    DiceCanvas.left_face := 0; DiceCanvas.right_face := 0;
                    DiceCanvas.items := [] |}
    end.

(** A window with two rolls recorded and the given text in the Force
    entry. *)
Definition example_window (force : string) : MozartDiceGame.t :=
  {| MozartDiceGame.midis := ab_midis; MozartDiceGame.dice := new_canvas;
     MozartDiceGame.spins_var := 3;
     MozartDiceGame.seed_var := EmptyString; MozartDiceGame.tpb_var := "480";
     MozartDiceGame.force_var := force;
     MozartDiceGame.out_var := "mozart_dice_visual.mid";
     MozartDiceGame.rolls_label := "Rolls: [7, 3]    (Spins left: 1)";
     MozartDiceGame.log := EmptyString;
     MozartDiceGame.current_rolls := [7; 3];
     MozartDiceGame.animating := false; MozartDiceGame.after_id := None |}.

Definition example_world : MozartDiceGame.world (G := MT19937.state) :=
  {| MozartDiceGame.random := MT19937.seed 0; MozartDiceGame.dialogs := [];
     MozartDiceGame.timers := []; MozartDiceGame.next_after := 0 |}.

(** A window of [SpinGameApp] with two rolls recorded. *)
Definition spin_example_window (forced : string) : SpinGameApp.t :=
  {| SpinGameApp.midis := ab_midis; SpinGameApp.spins_var := 3;
     SpinGameApp.seed_var := EmptyString; SpinGameApp.tpb_var := "480";
     SpinGameApp.forced_var := forced; SpinGameApp.out_var := "mozart_spins.mid";
     SpinGameApp.rolls_var := "Rolls: [7, 3]"; SpinGameApp.log := EmptyString;
     SpinGameApp.current_rolls := [7; 3] |}.

Definition spin_example_world : SpinGameApp.world (G := MT19937.state) :=
  {| SpinGameApp.random := MT19937.seed 0; SpinGameApp.dialogs := [] |}.

(* ===================================================================== *)
(** * The model of MT19937 against CPython                                *)
(* ===================================================================== *)

(** Test vectors from CPython: [random.Random(42).getrandbits(32)],
    [random.Random(-12345678901234567890).getrandbits(70)] and
    [random.Random(42).shuffle(list(range(11)))]. *)
Example MT19937_seed_42_first_word :
  (MT19937.getrandbits 32 (MT19937.seed 42)).1 = 2746317213.
Proof. vm_compute. reflexivity. Qed.

Example MT19937_negative_seed_70_bits :
  (MT19937.getrandbits 70 (MT19937.seed (-12345678901234567890))).1
  = 1104229662164742544938.
Proof. vm_compute. reflexivity. Qed.

Example MT19937_seed_42_shuffle :
  (shuffle (seq 0 11) (MT19937.seed 42)).1
  = [7; 3; 2; 8; 5; 6; 9; 4; 0; 1; 10]%nat.
Proof. vm_compute. reflexivity. Qed.

(** The draws of the examples below ([_randbelow(2)] at seeds 0, 1 and 7)
    are accepted draws: the cut-off of [MT19937.randbelow] plays no part
    in them. *)
Example MT19937_draws_below_2 :
  MT19937.draws 4 2 (MT19937.seed 0) = Some [1; 1; 0; 1]
  /\ MT19937.draws 4 2 (MT19937.seed 1) = Some [0; 0; 1; 0]
  /\ MT19937.draws 4 2 (MT19937.seed 7) = Some [1; 0; 1; 0].
Proof. split_and!; vm_compute; reflexivity. Qed.

(* ===================================================================== *)
(** * The text of the trace                                               *)
(* ===================================================================== *)

(** [repr] on file names: the quote is chosen by the quotes of the name,
    printable characters are copied (U+00E9, U+1F600) and the others
    escaped (U+00A0, U+200B, U+10FFFF), as CPython does. *)
Lemma repr_str_examples :
  repr_str "a.mid" = "'a.mid'"%string
  /\ repr_str "it's" = String dquote ("it's" +:+ String dquote EmptyString)
  /\ repr_str (string_of_list_ascii (map ascii_of_N [97; 194; 160; 98]%N))
     = "'a\xa0b'"%string
  /\ repr_str (string_of_list_ascii (map ascii_of_N [97; 226; 128; 139; 98]%N))
     = "'a\u200bb'"%string
  /\ repr_str (string_of_list_ascii (map ascii_of_N [195; 169]%N))
     = string_of_list_ascii (map ascii_of_N [39; 195; 169; 39]%N)
  /\ repr_str (string_of_list_ascii (map ascii_of_N [240; 159; 152; 128]%N))
     = string_of_list_ascii (map ascii_of_N [39; 240; 159; 152; 128; 39]%N)
  /\ repr_str (string_of_list_ascii (map ascii_of_N [244; 143; 191; 191]%N))
     = "'\U0010ffff'"%string.
Proof. vm_compute. repeat split. Qed.

(* ===================================================================== *)
(** * The stable sort                                                     *)
(* ===================================================================== *)

Lemma insert_by_key_Forall (P : event -> Prop) x l :
  P x -> Forall P l -> Forall P (insert_by_key x l).
Proof.
  intros Hx Hl. induction Hl as [|y l Hy Hl IH]; simpl.
  - by constructor.
  - destruct (x.1 <=? y.1); repeat constructor; auto.
Qed.

Lemma insert_by_key_sorted x l : sorted l -> sorted (insert_by_key x l).
Proof.
  unfold sorted. induction 1 as [|y l Hs IH Hy]; simpl.
  - repeat constructor.
  - destruct (x.1 <=? y.1) eqn:E.
    + apply Z.leb_le in E. constructor; [by constructor|].
      constructor; [done|]. eapply Forall_impl; [exact Hy|].
      simpl. intros; lia.
    + apply Z.leb_gt in E. constructor; [done|].
      apply insert_by_key_Forall; [lia|done].
Qed.

Lemma sort_by_key_sorted l : sorted (sort_by_key l).
Proof.
  induction l as [|x l IH]; [constructor|].
  change (sorted (insert_by_key x (sort_by_key l))).
  by apply insert_by_key_sorted.
Qed.

Lemma sort_by_key_id l : sorted l -> sort_by_key l = l.
Proof.
  unfold sorted. induction 1 as [|x l Hs IH Hx]; [done|].
  change (insert_by_key x (sort_by_key l) = x :: l). rewrite IH.
  destruct Hx as [|y l' Hy _]; simpl; [done|].
  by apply Z.leb_le in Hy as ->.
Qed.

Lemma insert_by_key_Permutation x l : insert_by_key x l ≡ₚ x :: l.
Proof.
  induction l as [|y l IH]; simpl; [done|].
  destruct (x.1 <=? y.1); [done|]. rewrite IH. apply Permutation_swap.
Qed.

Lemma sort_by_key_Permutation l : sort_by_key l ≡ₚ l.
Proof.
  induction l as [|x l IH]; [done|].
  change (insert_by_key x (sort_by_key l) ≡ₚ x :: l).
  rewrite insert_by_key_Permutation. by rewrite IH.
Qed.

Lemma sorted_app_inv_r l1 l2 : sorted (l1 ++ l2) -> sorted l2.
Proof.
  unfold sorted. induction l1 as [|x l1 IH]; simpl; [done|].
  intros Hs. apply IH. by inversion Hs.
Qed.

Lemma sorted_app_inv_l l1 l2 : sorted (l1 ++ l2) -> sorted l1.
Proof.
  unfold sorted. induction l1 as [|x l1 IH]; simpl; [constructor|].
  intros Hs. inversion Hs as [|? ? Hs' Hx]; subst.
  constructor; [by apply IH|]. by apply Forall_app in Hx as [? _].
Qed.

(* ===================================================================== *)
(** * The scanning loops                                                  *)
(* ===================================================================== *)

Lemma replay_app a l1 l2 : replay a (l1 ++ l2) = replay (replay a l1) l2.
Proof. unfold replay. apply foldl_app. Qed.

Lemma track_voice_set_time a m t : track_voice a (set_time m t) = track_voice a m.
Proof. done. Qed.

Lemma replay_rel_track a last l : replay a (rel_track last l) = replay a l.
Proof.
  revert a last. induction l as [|[rt m] l IH]; intros a last; simpl; [done|].
  apply IH.
Qed.

Lemma replay_to_bar a start w : replay a (to_bar start w) = replay a w.
Proof.
  unfold to_bar. rewrite replay_rel_track.
  revert a. induction w as [|[t m] w IH]; intros a; simpl; [done|]. apply IH.
Qed.

Lemma silent_empty (a : voices) : silent a = true <-> a = ∅.
Proof.
  unfold silent. rewrite bool_decide_eq_true. apply map_size_empty_iff.
Qed.

Lemma skip_to_spec start evs a :
  sorted evs ->
  exists pre rest,
    evs = pre ++ rest
    /\ Forall (fun ev : event => ev.1 < start) pre
    /\ Forall (fun ev : event => start <= ev.1) rest
    /\ skip_to start evs a = (rest, replay a pre).
Proof.
  unfold sorted. intros Hs. revert a.
  induction Hs as [|[t m] l Hs IH Hx]; intros a; simpl.
  - exists [], []. by repeat split.
  - destruct (t <? start) eqn:E.
    + apply Z.ltb_lt in E.
      destruct (IH (track_voice a m)) as (pre & rest & -> & Hpre & Hrest & ->).
      exists ((t, m) :: pre), rest. repeat split; auto.
    + apply Z.ltb_ge in E. exists [], ((t, m) :: l). repeat split; auto.
      constructor; [done|]. eapply Forall_impl; [exact Hx|]. simpl. intros; lia.
Qed.

Lemma scan_bar_spec start end_ evs a :
  sorted evs ->
  exists pre rest,
    evs = pre ++ rest
    /\ Forall (fun ev : event => ev.1 < end_) pre
    /\ Forall (fun ev : event => end_ <= ev.1) rest
    /\ scan_bar start end_ evs a
       = (map (fun ev : event => (ev.1 - start, set_time ev.2 0)) pre,
          rest, replay a pre).
Proof.
  unfold sorted. intros Hs. revert a.
  induction Hs as [|[t m] l Hs IH Hx]; intros a; simpl.
  - exists [], []. by repeat split.
  - destruct (t <? end_) eqn:E.
    + apply Z.ltb_lt in E.
      destruct (IH (track_voice a m)) as (pre & rest & -> & Hpre & Hrest & ->).
      exists ((t, m) :: pre), rest. repeat split; auto.
    + apply Z.ltb_ge in E. exists [], ((t, m) :: l). repeat split; auto.
      constructor; [done|]. eapply Forall_impl; [exact Hx|]. simpl. intros; lia.
Qed.

Lemma filter_all (P : event -> Prop) `{!forall x, Decision (P x)} l :
  Forall P l -> filter P l = l.
Proof.
  induction 1 as [|x l Hx Hl IH]; [done|].
  rewrite filter_cons_True by done. by rewrite IH.
Qed.

Lemma filter_none (P : event -> Prop) `{!forall x, Decision (P x)} l :
  Forall (fun x => ~ P x) l -> filter P l = [].
Proof.
  induction 1 as [|x l Hx Hl IH]; [done|].
  by rewrite filter_cons_False.
Qed.

Lemma sorted_rebase start l :
  sorted l -> sorted (map (fun ev : event => (ev.1 - start, set_time ev.2 0)) l).
Proof.
  unfold sorted. induction 1 as [|x l Hs IH Hx]; simpl; constructor; [done|].
  apply Forall_map. eapply Forall_impl; [exact Hx|]. simpl. intros; lia.
Qed.

Lemma bars_loop_cons bar_len b bs events active :
  bars_loop bar_len (b :: bs) events active =
    let '(events1, active1) := skip_to (b * bar_len) events active in
    let '(bar_events_abs, events2, active2) :=
      scan_bar (b * bar_len) ((b + 1) * bar_len) events1 active1 in
    let safe := bars_loop bar_len bs events2 active2 in
    if silent active1 && silent active2
       && negb (bool_decide (bar_events_abs = []))
    then rel_track 0 (sort_by_key bar_events_abs) :: safe
    else safe.
Proof. done. Qed.

(** Every retained bar is the window of some bar index, silent on both
    sides: the invariant of [for b in range(n_bars)]. *)
Lemma bars_loop_spec bar_len evs k :
  0 <= bar_len ->
  sorted evs ->
  forall b0 done rem,
    evs = done ++ rem ->
    Forall (fun ev : event => ev.1 < b0 * bar_len) done ->
    forall bar,
      bar ∈ bars_loop bar_len (seqZ b0 (Z.of_nat k)) rem (replay ∅ done) ->
      exists b, b0 <= b < b0 + Z.of_nat k /\ clean_bar bar_len evs b bar.
Proof.
  intros HL Hs. induction k as [|k IH]; intros b0 done rem Hevs Hdone bar.
  { simpl. by intros ?%elem_of_nil. }
  rewrite seqZ_cons by lia. rewrite bars_loop_cons.
  replace (Z.pred (Z.of_nat (S k))) with (Z.of_nat k) by lia.
  assert (Hrem : sorted rem) by (subst evs; by eapply sorted_app_inv_r).
  destruct (skip_to_spec (b0 * bar_len) rem (replay ∅ done) Hrem)
    as (pre1 & rem1 & -> & Hpre1 & Hrem1 & ->).
  assert (Hrem1s : sorted rem1) by by eapply sorted_app_inv_r.
  destruct (scan_bar_spec (b0 * bar_len) ((b0 + 1) * bar_len) rem1
              (replay (replay ∅ done) pre1) Hrem1s)
    as (pre2 & rem2 & -> & Hpre2 & Hrem2 & ->).
  rewrite <- !replay_app.
  set (start := b0 * bar_len) in *. set (end_ := (b0 + 1) * bar_len) in *.
  assert (Hse : start <= end_) by (unfold start, end_; lia).
  assert (Hbefore : before start evs = done ++ pre1).
  { unfold before. rewrite Hevs, !filter_app.
    rewrite (filter_all _ done), (filter_all _ pre1) by done.
    rewrite (filter_none _ pre2), (filter_none _ rem2), !app_nil_r; [done| |].
    - eapply Forall_impl; [exact Hrem2|]. simpl. intros; lia.
    - apply Forall_app in Hrem1 as [H1 _].
      eapply Forall_impl; [exact H1|]. simpl. intros; lia. }
  assert (Hwindow : window start end_ evs = pre2).
  { unfold window. rewrite Hevs, !filter_app.
    apply Forall_app in Hrem1 as [H1 _].
    rewrite (filter_none _ done), (filter_none _ pre1), (filter_none _ rem2).
    - rewrite app_nil_r. simpl. apply filter_all.
      eapply Forall_impl; [apply Forall_and; split; [exact H1|exact Hpre2]|].
      simpl. intros; lia.
    - eapply Forall_impl; [exact Hrem2|]. simpl. intros; lia.
    - eapply Forall_impl; [exact Hpre1|]. simpl. intros; lia.
    - eapply Forall_impl; [exact Hdone|]. simpl. intros; lia. }
  assert (Hnext : bar ∈ bars_loop bar_len (seqZ (Z.succ b0) (Z.of_nat k)) rem2
                    (replay ∅ (done ++ pre1 ++ pre2)) ->
                  exists b, b0 <= b < b0 + Z.of_nat (S k)
                            /\ clean_bar bar_len evs b bar).
  { intros Hin.
    destruct (IH (Z.succ b0) (done ++ pre1 ++ pre2) rem2) with (bar := bar)
      as (b & Hb & Hcb); [by rewrite Hevs, <- !app_assoc| |done|].
    - replace (Z.succ b0 * bar_len) with end_ by (unfold end_; lia).
      rewrite !Forall_app. split_and!; [| |done].
      + eapply Forall_impl; [exact Hdone|]. simpl. intros; lia.
      + eapply Forall_impl; [exact Hpre1|]. simpl. intros; lia.
    - exists b. split; [lia|done]. }
  cbv zeta.
  destruct (silent (replay ∅ (done ++ pre1))) eqn:E1; simpl; [|exact Hnext].
  destruct (silent (replay ∅ (done ++ pre1 ++ pre2))) eqn:E2; simpl;
    [|exact Hnext].
  case_bool_decide as E3; simpl; [exact Hnext|].
  intros [->|Hin]%elem_of_cons; [|by apply Hnext].
  apply silent_empty in E1, E2.
  exists b0. split; [lia|].
  split; fold start end_; rewrite ?Hwindow, ?Hbefore; try done.
  - unfold to_bar. rewrite sort_by_key_id; [done|].
    apply sorted_rebase. by eapply sorted_app_inv_l.
  - intros ->. by apply E3.
  - rewrite app_assoc, replay_app, E1 in E2. done.
Qed.

(* ===================================================================== *)
(** * Reasoning about [result]                                            *)
(* ===================================================================== *)

Lemma bind_Ok {A B} (m : result A) (f : A -> result B) b :
  m ≫= f = Ok b -> exists a, m = Ok a /\ f a = Ok b.
Proof. destruct m as [a|e]; [by exists a|discriminate]. Qed.

Lemma bind_Raise {A B} (m : result A) (f : A -> result B) e :
  m ≫= f = Raise e -> m = Raise e \/ exists a, m = Ok a /\ f a = Raise e.
Proof.
  destruct m as [a|e']; intros Hm; [right; by exists a|left].
  injection Hm as ->. done.
Qed.

Ltac inv_bind H :=
  repeat match type of H with
  | _ ≫= _ = Ok _ =>
      let a := fresh "a" in let E := fresh "E" in
      apply bind_Ok in H as (a & E & H)
  end.

Lemma mapM_Ok_length {A B} (f : A -> result B) l l' :
  mapM f l = Ok l' -> length l' = length l.
Proof.
  revert l'. induction l as [|x l IH]; intros l'; simpl.
  - by intros [= <-].
  - intros Hm. apply bind_Ok in Hm as (y & Hy & Hm).
    apply bind_Ok in Hm as (ys & Hys & Hm). injection Hm as <-.
    simpl. f_equal. by apply IH.
Qed.

Lemma mapM_Ok_Forall2 {A B} (f : A -> result B) l l' :
  mapM f l = Ok l' -> Forall2 (fun x y => f x = Ok y) l l'.
Proof.
  revert l'. induction l as [|x l IH]; intros l'; simpl.
  - intros [= <-]. constructor.
  - intros Hm. apply bind_Ok in Hm as (y & Hy & Hm).
    apply bind_Ok in Hm as (ys & Hys & Hm). injection Hm as <-.
    constructor; [done|]. by apply IH.
Qed.

Lemma mapM_is_Ok {A B} (f : A -> result B) l :
  Forall (fun x => is_Ok (f x)) l -> is_Ok (mapM f l).
Proof.
  induction 1 as [|x l [y Hy] Hl [ys IH]]; simpl.
  - by eexists.
  - rewrite Hy. simpl. rewrite IH. by eexists.
Qed.

(* ===================================================================== *)
(** * What [extract_clean_bars] returns                                   *)
(* ===================================================================== *)

Lemma ticks_per_bar_ge_1 tpb num den L :
  ticks_per_bar tpb num den = Ok L -> 1 <= L.
Proof.
  unfold ticks_per_bar. intros Ht. inv_bind Ht.
  injection Ht as <-. lia.
Qed.

Lemma iter_abs_messages_sorted mid : sorted (iter_abs_messages mid).
Proof. apply sort_by_key_sorted. Qed.

Lemma extract_clean_bars_spec mid bars :
  extract_clean_bars mid = Ok bars ->
  exists bar_len,
    bar_len_of mid = Ok bar_len /\ 1 <= bar_len /\
    forall bar, bar ∈ bars ->
      exists b, 0 <= b < n_bars bar_len (iter_abs_messages mid)
                /\ clean_bar bar_len (iter_abs_messages mid) b bar.
Proof.
  unfold extract_clean_bars, bar_len_of.
  destruct (get_time_signature mid) as [num den]. simpl.
  intros He. apply bind_Ok in He as (bar_len & HL & He).
  exists bar_len. pose proof (ticks_per_bar_ge_1 _ _ _ _ HL) as HL1.
  split; [done|]. split; [done|]. intros bar Hbar.
  destruct (iter_abs_messages mid) as [|ev evs] eqn:Eevs.
  { injection He as <-. by apply elem_of_nil in Hbar. }
  injection He as <-. rewrite <- Eevs in *.
  assert (Hn : 0 <= n_bars bar_len (iter_abs_messages mid))
    by (unfold n_bars; lia).
  rewrite <- (Z2Nat.id _ Hn) in Hbar |- *.
  destruct (bars_loop_spec bar_len (iter_abs_messages mid)
              (Z.to_nat (n_bars bar_len (iter_abs_messages mid)))
              ltac:(lia) (iter_abs_messages_sorted mid)
              0 [] (iter_abs_messages mid) eq_refl ltac:(constructor) bar Hbar)
    as (b & Hb & Hcb).
  exists b. split; [lia|done].
Qed.

Lemma window_bounds start end_ evs ev :
  ev ∈ window start end_ evs -> start <= ev.1 < end_.
Proof. unfold window. by intros [? _]%list_elem_of_filter. Qed.

Lemma rel_track_fst last l : (rel_track last l).*1 = l.*1.
Proof.
  revert last. induction l as [|[rt m] l IH]; intros last; simpl; [done|].
  f_equal. apply IH.
Qed.

Lemma to_bar_fst start w :
  (to_bar start w).*1 = map (fun ev : event => ev.1 - start) w.
Proof.
  unfold to_bar. rewrite rel_track_fst.
  induction w as [|ev w IH]; simpl; [done|]. by f_equal.
Qed.

Lemma sorted_filter (P : event -> Prop) `{!forall x, Decision (P x)} l :
  sorted l -> sorted (filter P l).
Proof.
  unfold sorted. induction 1 as [|x l Hs IH Hx]; [constructor|].
  destruct (decide (P x)).
  - rewrite filter_cons_True by done. constructor; [done|].
    apply Forall_forall. intros y [_ Hy]%list_elem_of_filter.
    rewrite Forall_forall in Hx. by apply Hx.
  - by rewrite filter_cons_False.
Qed.

Lemma sorted_fst l : sorted l -> StronglySorted Z.le (l.*1).
Proof.
  unfold sorted. induction 1 as [|x l Hs IH Hx]; simpl; constructor; [done|].
  by apply Forall_fmap.
Qed.

Lemma to_bar_nil start w : to_bar start w = [] -> w = [].
Proof. destruct w as [|[t m] w]; [done|discriminate]. Qed.

(* ===================================================================== *)
(** * The concrete sources evaluate as stated                            *)
(* ===================================================================== *)

Lemma two_bar_source_extract :
  extract_clean_bars two_bar_source = Ok two_bar_source_bars.
Proof. vm_compute. reflexivity. Qed.

Lemma two_bar_source_bar_len : bar_len_of two_bar_source = Ok 1920.
Proof. vm_compute. reflexivity. Qed.

(* ===================================================================== *)
(** * Claims about [extract_clean_bars]                                   *)
(* ===================================================================== *)

(** C4. Every bar returned by [extract_clean_bars] is non-empty; replaying
    its events in order from an empty voice map ends with an empty voice
    map; and the bar is the window of some bar index [b] of the source
    such that replaying all events of the source strictly before the
    start tick [b * bar_len] also gives an empty voice map. *)
Theorem extract_clean_bars_silent_boundaries
    (mid : MidiFile) (bars : list (list event)) (bar : list event) :
  extract_clean_bars mid = Ok bars ->
  bar ∈ bars ->
  bar <> []
  /\ replay ∅ bar = ∅
  /\ exists bar_len b,
       bar_len_of mid = Ok bar_len
       /\ 0 <= b
       /\ bar = to_bar (b * bar_len)
                  (window (b * bar_len) ((b + 1) * bar_len) (iter_abs_messages mid))
       /\ replay ∅ (before (b * bar_len) (iter_abs_messages mid)) = ∅.
Proof.
  intros He Hbar.
  destruct (extract_clean_bars_spec mid bars He) as (bar_len & HL & HL1 & Hall).
  destruct (Hall bar Hbar) as (b & Hb & [Hc Hne Hst Hen]).
  split_and!.
  - intros Hnil. rewrite Hc in Hnil. by apply to_bar_nil in Hnil.
  - rewrite Hc, replay_to_bar. exact Hen.
  - exists bar_len, b. split_and!; [done|lia|done|done].
Qed.

Lemma extract_clean_bars_silent_boundaries_witness :
  let bar := [ (0, {| msg_body := note_on 0 62 64; time := 0 |});
               (100, {| msg_body := note_off 0 62 0; time := 100 |}) ] in
  bar <> []
  /\ replay ∅ bar = ∅
  /\ exists bar_len b,
       bar_len_of two_bar_source = Ok bar_len
       /\ 0 <= b
       /\ bar = to_bar (b * bar_len)
                  (window (b * bar_len) ((b + 1) * bar_len)
                     (iter_abs_messages two_bar_source))
       /\ replay ∅ (before (b * bar_len) (iter_abs_messages two_bar_source)) = ∅.
Proof.
  intros bar.
  apply (extract_clean_bars_silent_boundaries two_bar_source two_bar_source_bars).
  - vm_compute. reflexivity.
  - unfold two_bar_source_bars, bar. apply list_elem_of_further, list_elem_of_here.
Defined.

(** C10. In every bar returned by [extract_clean_bars], every relative
    tick [rt] satisfies [0 <= rt < bar_len], where [bar_len] is
    [ticks_per_bar] of the source's resolution and time signature, and the
    relative ticks are non-decreasing in the order of the bar. *)
Theorem extract_clean_bars_relative_ticks
    (mid : MidiFile) (bars : list (list event)) (bar_len : Z)
    (bar : list event) :
  extract_clean_bars mid = Ok bars ->
  bar_len_of mid = Ok bar_len ->
  bar ∈ bars ->
  Forall (fun ev : event => 0 <= ev.1 < bar_len) bar
  /\ StronglySorted Z.le (bar.*1).
Proof.
  intros He HL Hbar.
  destruct (extract_clean_bars_spec mid bars He) as (L & HL' & HL1 & Hall).
  rewrite HL in HL'. injection HL' as <-.
  destruct (Hall bar Hbar) as (b & Hb & [Hc _ _ _]).
  set (w := window (b * bar_len) ((b + 1) * bar_len) (iter_abs_messages mid)) in *.
  assert (Hfst : bar.*1 = map (fun ev : event => ev.1 - b * bar_len) w)
    by (rewrite Hc; apply to_bar_fst).
  split.
  - apply Forall_forall. intros ev Hev.
    assert (Hin : ev.1 ∈ bar.*1) by (apply list_elem_of_fmap; eauto).
    rewrite Hfst in Hin. apply list_elem_of_fmap in Hin as (ev' & -> & Hev').
    apply window_bounds in Hev'. lia.
  - rewrite Hfst.
    assert (Hw : sorted w)
      by (apply sorted_filter, iter_abs_messages_sorted).
    clear -Hw. unfold sorted in Hw.
    induction Hw as [|x l Hs IH Hx]; simpl; constructor; [done|].
    apply Forall_map. eapply Forall_impl; [exact Hx|]. simpl. intros; lia.
Qed.

Lemma extract_clean_bars_relative_ticks_witness :
  let bar := [ (0, {| msg_body := note_on 0 62 64; time := 0 |});
               (100, {| msg_body := note_off 0 62 0; time := 100 |}) ] in
  Forall (fun ev : event => 0 <= ev.1 < 1920) bar
  /\ StronglySorted Z.le (bar.*1).
Proof.
  intros bar.
  apply (extract_clean_bars_relative_ticks two_bar_source two_bar_source_bars).
  - vm_compute. reflexivity.
  - vm_compute. reflexivity.
  - unfold two_bar_source_bars, bar. apply list_elem_of_further, list_elem_of_here.
Defined.

(* ===================================================================== *)
(** * Shuffling and list objects                                          *)
(* ===================================================================== *)

Lemma swap_length {A} (x : list A) i j : length (swap x i j) = length x.
Proof.
  unfold swap. destruct (x !! i), (x !! j); try done.
  by rewrite !length_insert.
Qed.

Lemma swap_Permutation {A} (x : list A) i j : swap x i j ≡ₚ x.
Proof.
  unfold swap. destruct (x !! i) as [a|] eqn:Ei; [|done].
  destruct (x !! j) as [b|] eqn:Ej; [|done].
  destruct (decide (i = j)) as [->|Hne].
  - rewrite list_insert_insert_eq. by rewrite list_insert_id.
  - apply Permutation_inj. split; [by rewrite !length_insert|].
    exists (fun k => if decide (k = i) then j else if decide (k = j) then i else k).
    split.
    + intros k1 k2. repeat case_decide; congruence.
    + intros k. repeat case_decide; subst.
      * rewrite Ej. rewrite list_lookup_insert_ne by done.
        rewrite list_lookup_insert_eq; [done|].
        by eapply lookup_lt_Some.
      * rewrite Ei. rewrite list_lookup_insert_eq; [done|].
        rewrite length_insert. by eapply lookup_lt_Some.
      * by rewrite !list_lookup_insert_ne.
Qed.

Section ShuffleFacts.
Context {G : Type} `{PRNG G} {A : Type}.

Lemma shuffle_loop_length n (x : list A) (g : G) :
  length (shuffle_loop n x g).1 = length x.
Proof.
  revert x g. induction n as [|n IH]; intros x g; simpl; [done|].
  destruct (randbelow g (S (S n))) as [j g'].
  by rewrite IH, swap_length.
Qed.

Lemma shuffle_length (x : list A) (g : G) :
  length (shuffle x g).1 = length x.
Proof. apply shuffle_loop_length. Qed.

Lemma shuffle_loop_Permutation n (x : list A) (g : G) :
  (shuffle_loop n x g).1 ≡ₚ x.
Proof.
  revert x g. induction n as [|n IH]; intros x g; simpl; [done|].
  destruct (randbelow g (S (S n))) as [j g'].
  by rewrite IH, swap_Permutation.
Qed.

Lemma shuffle_Permutation (x : list A) (g : G) : (shuffle x g).1 ≡ₚ x.
Proof. apply shuffle_loop_Permutation. Qed.

Lemma shuffle_nonempty (x : list A) (g : G) : x <> [] -> (shuffle x g).1 <> [].
Proof.
  intros Hx Hs. apply (f_equal length) in Hs.
  rewrite shuffle_length in Hs. by destruct x.
Qed.
End ShuffleFacts.

Lemma deref_alloc_new h l : deref (h ++ [l]) (length h) = l.
Proof. unfold deref. by rewrite list_lookup_middle. Qed.

Lemma deref_alloc_old h l r : (r < length h)%nat -> deref (h ++ [l]) r = deref h r.
Proof. intros Hr. unfold deref. by rewrite lookup_app_l. Qed.

Lemma deref_nonempty_valid h r : deref h r <> [] -> (r < length h)%nat.
Proof.
  unfold deref. destruct (h !! r) eqn:E; [|done].
  intros _. by eapply lookup_lt_Some.
Qed.

Lemma deref_insert_eq h r l : (r < length h)%nat -> deref (<[r := l]> h) r = l.
Proof. intros Hr. unfold deref. by rewrite list_lookup_insert_eq. Qed.

Lemma deref_insert_ne h r r' l : r <> r' -> deref (<[r := l]> h) r' = deref h r'.
Proof. intros Hr. unfold deref. by rewrite list_lookup_insert_ne. Qed.

Lemma insert_alloc_new (h : store) l l' : <[length h := l']> (h ++ [l]) = h ++ [l'].
Proof.
  replace (length h) with (length h + 0)%nat by lia.
  by rewrite insert_app_r.
Qed.

(* ===================================================================== *)
(** * Phrases and choices                                                 *)
(* ===================================================================== *)

Lemma py_getitem_nat {A} (l : list A) (i : nat) :
  (i < length l)%nat ->
  exists a, py_getitem l (Z.of_nat i) = Ok a /\ l !! i = Some a.
Proof.
  intros Hi. unfold py_getitem.
  destruct (Z.ltb_spec (Z.of_nat i) 0); [lia|].
  destruct (Z.leb_spec 0 (Z.of_nat i)); [|lia].
  destruct (Z.ltb_spec (Z.of_nat i) (Z.of_nat (length l))); [|lia]. simpl.
  rewrite Nat2Z.id. destruct (lookup_lt_is_Some_2 l i Hi) as [a Ha].
  rewrite Ha. by exists a.
Qed.

Lemma py_getitem_Ok_elem {A} (l : list A) (i : Z) a :
  py_getitem l i = Ok a -> a ∈ l.
Proof.
  unfold py_getitem. destruct (_ && _); [|discriminate].
  destruct (l !! _) eqn:E; [|discriminate]. intros [= <-].
  by eapply list_elem_of_lookup_2.
Qed.

Lemma py_getitem_not_IndexError {A} (l : list A) (i : Z) :
  0 <= i < Z.of_nat (length l) -> exists a, py_getitem l i = Ok a.
Proof.
  intros Hi. destruct (py_getitem_nat l (Z.to_nat i)) as (a & Ha & _); [lia|].
  rewrite Z2Nat.id in Ha by lia. by exists a.
Qed.

Lemma py_mod_Ok a b : (0 < b)%nat -> py_mod a b = Ok (a mod b)%nat.
Proof. destruct b; [lia|done]. Qed.

Lemma make_phrase_Ok shuffled pos :
  shuffled <> [] ->
  exists ph, make_phrase shuffled pos = Ok ph
             /\ length ph = 4%nat /\ Forall (fun e => e ∈ shuffled) ph.
Proof.
  intros Hne. unfold make_phrase.
  assert (Hlen : (0 < length shuffled)%nat) by (destruct shuffled; [done|simpl; lia]).
  set (f := fun k : nat => _).
  assert (Hf : forall k, exists e, f k = Ok e /\ e ∈ shuffled).
  { intros k. unfold f. rewrite py_mod_Ok by done. simpl.
    destruct (py_getitem_nat shuffled ((pos + k) mod length shuffled))
      as (e & He & Hl); [apply Nat.mod_upper_bound; lia|].
    exists e. split; [done|]. by eapply list_elem_of_lookup_2. }
  destruct (mapM_is_Ok f (seq 0 phrase_len_bars)) as [ph Hph].
  { apply Forall_forall. intros k _. destruct (Hf k) as (e & -> & _). by eexists. }
  exists ph. split; [done|]. split.
  - by rewrite (mapM_Ok_length _ _ _ Hph).
  - apply mapM_Ok_Forall2 in Hph. clear -Hph Hf.
    induction Hph as [|k e ks es Hk _ IH]; constructor; [|done].
    destruct (Hf k) as (e' & He' & Hin). congruence.
Qed.

Lemma choices_loop_Ok n shuffled pos :
  shuffled <> [] ->
  exists cs, choices_loop n shuffled pos = Ok cs
             /\ length cs = n
             /\ Forall (fun ph : phrase =>
                          length ph = 4%nat /\ Forall (fun e => e ∈ shuffled) ph) cs.
Proof.
  intros Hne. revert pos. induction n as [|n IH]; intros pos; simpl.
  - exists []. by repeat split.
  - destruct (make_phrase_Ok shuffled pos Hne) as (ph & -> & Hl & Hin). simpl.
    rewrite py_mod_Ok by (destruct shuffled; [done|simpl; lia]). simpl.
    destruct (IH ((pos + phrase_len_bars) mod length shuffled)%nat)
      as (cs & -> & Hcs & Hall). simpl.
    exists (ph :: cs). split; [done|]. split; [simpl; lia|]. by constructor.
Qed.

Lemma choices_for_spin_Ok shuffled :
  shuffled <> [] ->
  exists cs, choices_for_spin shuffled = Ok cs
             /\ length cs = 11%nat
             /\ Forall (fun ph : phrase => length ph = 4%nat) cs.
Proof.
  intros Hne. destruct (choices_loop_Ok 11 shuffled 0 Hne) as (cs & Hc & Hl & Hall).
  exists cs. split_and!; [done|done|].
  eapply Forall_impl; [exact Hall|]. by intros ? [? _].
Qed.

(* ===================================================================== *)
(** * Table generation in the two programs                                *)
(* ===================================================================== *)

Section TableFacts.
Context {G : Type} `{PRNG G}.

Lemma mozart_table_turn_eq pool h (g : G) :
  mozart_dice_game_gui.table_turn pool h g =
    (choices ← choices_for_spin (shuffle (deref h pool) g).1;
     Ok (choices, h ++ [(shuffle (deref h pool) g).1], (shuffle (deref h pool) g).2)).
Proof.
  unfold mozart_dice_game_gui.table_turn, alloc, shuffle_at.
  rewrite deref_alloc_new. destruct (shuffle (deref h pool) g) as [l g'].
  by rewrite insert_alloc_new, deref_alloc_new.
Qed.

Lemma spin_table_turn_eq pool h (g : G) :
  (pool < length h)%nat ->
  spin_game_gui.table_turn pool h g =
    (choices ← choices_for_spin (shuffle (deref h pool) g).1;
     Ok (choices, <[pool := (shuffle (deref h pool) g).1]> h,
         (shuffle (deref h pool) g).2)).
Proof.
  intros Hp. unfold spin_game_gui.table_turn, shuffle_at.
  destruct (shuffle (deref h pool) g) as [l g'].
  by rewrite deref_insert_eq.
Qed.

(** [mozart_dice_game_gui]: every turn succeeds on a non-empty pool, and
    the store only grows: the old list objects keep their contents. *)
Lemma mozart_table_loop_spec turns pool h (g : G) :
  deref h pool <> [] ->
  exists t h' g',
    mozart_dice_game_gui.table_loop turns pool h g = Ok (t, h', g')
    /\ length t = turns /\ table_shape t
    /\ exists extra, h' = h ++ extra.
Proof.
  revert h g. induction turns as [|turns IH]; intros h g Hne; simpl.
  - exists [], h, g. split_and!; [done|done|constructor|].
    exists []. by rewrite app_nil_r.
  - rewrite mozart_table_turn_eq.
    destruct (choices_for_spin_Ok (shuffle (deref h pool) g).1)
      as (cs & -> & Hl & Hall); [by apply shuffle_nonempty|]. simpl.
    pose proof (deref_nonempty_valid _ _ Hne) as Hv.
    destruct (IH (h ++ [(shuffle (deref h pool) g).1]) (shuffle (deref h pool) g).2)
      as (t & h' & g' & -> & Ht & Hsh & extra & ->); [by rewrite deref_alloc_old|].
    simpl. exists (cs :: t), ((h ++ [(shuffle (deref h pool) g).1]) ++ extra), g'.
    split_and!; [done|simpl; lia|by constructor|].
    eexists. by rewrite <- app_assoc.
Qed.

(** [spin_game_gui]: every turn succeeds on a non-empty pool; the pool
    object is rewritten with a permutation of its contents. *)
Lemma spin_table_loop_spec turns pool h (g : G) :
  deref h pool <> [] ->
  exists t h' g',
    spin_game_gui.table_loop turns pool h g = Ok (t, h', g')
    /\ length t = turns /\ table_shape t
    /\ deref h' pool ≡ₚ deref h pool.
Proof.
  revert h g. induction turns as [|turns IH]; intros h g Hne; simpl.
  - exists [], h, g. split_and!; [done|done|constructor|done].
  - pose proof (deref_nonempty_valid _ _ Hne) as Hv.
    rewrite spin_table_turn_eq by done.
    destruct (choices_for_spin_Ok (shuffle (deref h pool) g).1)
      as (cs & -> & Hl & Hall); [by apply shuffle_nonempty|]. simpl.
    destruct (IH (<[pool := (shuffle (deref h pool) g).1]> h)
                (shuffle (deref h pool) g).2)
      as (t & h' & g' & -> & Ht & Hsh & Hperm).
    { rewrite deref_insert_eq by done. by apply shuffle_nonempty. }
    simpl. exists (cs :: t), h', g'.
    split_and!; [done|simpl; lia|by constructor|].
    rewrite Hperm, deref_insert_eq by done. apply shuffle_Permutation.
Qed.

(** The pool object of [mozart_dice_game_gui] is never written to. *)
Lemma mozart_table_loop_pool_unchanged turns pool h (g : G) t h' g' :
  mozart_dice_game_gui.table_loop turns pool h g = Ok (t, h', g') ->
  (pool < length h)%nat ->
  h' !! pool = h !! pool.
Proof.
  revert h g t h' g'. induction turns as [|turns IH]; intros h g t h' g'; simpl.
  - by intros [= <- <- <-].
  - rewrite mozart_table_turn_eq. intros Ht Hp.
    apply bind_Ok in Ht as ([[cs h1] g1] & E1 & Ht).
    apply bind_Ok in E1 as (cs' & _ & E1). injection E1 as <- <- <-.
    apply bind_Ok in Ht as ([[t2 h2] g2] & E2 & Ht). injection Ht as <- <- <-.
    apply IH in E2; [|rewrite length_app; lia].
    rewrite E2. by rewrite lookup_app_l.
Qed.
End TableFacts.

(** C7. On a non-empty pool, the dice table of every turn is generated,
    has exactly 11 entries, and every entry is a phrase of exactly 4 bars;
    in both programs, for any number of turns. *)
Theorem dice_table_11_phrases_of_4
    {G : Type} `{PRNG G} (turns : nat) (pool : ref) (h : store) (g : G) :
  (1 <= length (deref h pool))%nat ->
  (exists t h' g',
     mozart_dice_game_gui.table_loop turns pool h g = Ok (t, h', g')
     /\ length t = turns /\ table_shape t)
  /\ (exists t h' g',
        spin_game_gui.table_loop turns pool h g = Ok (t, h', g')
        /\ length t = turns /\ table_shape t).
Proof.
  intros Hlen.
  assert (Hne : deref h pool <> []) by (destruct (deref h pool); [simpl in Hlen; lia|done]).
  split.
  - destruct (mozart_table_loop_spec turns pool h g Hne)
      as (t & h' & g' & ? & ? & ? & _). by exists t, h', g'.
  - destruct (spin_table_loop_spec turns pool h g Hne)
      as (t & h' & g' & ? & ? & ? & _). by exists t, h', g'.
Qed.

Lemma dice_table_11_phrases_of_4_witness :
  (exists t h' g',
     mozart_dice_game_gui.table_loop 4 0%nat [two_bar_pool] (MT19937.seed 42)
       = Ok (t, h', g')
     /\ length t = 4%nat /\ table_shape t)
  /\ (exists t h' g',
        spin_game_gui.table_loop 4 0%nat [two_bar_pool] (MT19937.seed 42)
          = Ok (t, h', g')
        /\ length t = 4%nat /\ table_shape t).
Proof.
  apply (dice_table_11_phrases_of_4 4 0%nat [two_bar_pool] (MT19937.seed 42)).
  simpl. lia.
Defined.

(* ===================================================================== *)
(** * The roll total and the table lookup                                 *)
(* ===================================================================== *)

Lemma clamp_total_range total : 2 <= clamp_total total <= 12.
Proof. unfold clamp_total. lia. Qed.

Lemma clamp_total_getitem {A} total (row : list A) :
  length row = 11%nat ->
  exists ph, py_getitem row (clamp_total total - 2) = Ok ph
             /\ row !! Z.to_nat (clamp_total total - 2) = Some ph.
Proof.
  intros Hrow. pose proof (clamp_total_range total) as Hc.
  destruct (py_getitem_nat row (Z.to_nat (clamp_total total - 2)))
    as (ph & Hph & Hl); [lia|].
  rewrite Z2Nat.id in Hph by lia. by exists ph.
Qed.

(* ===================================================================== *)
(** * Which exceptions can occur                                          *)
(* ===================================================================== *)

Lemma of_int_error n e : Float.of_int n = Raise e -> arith_error e.
Proof.
  unfold Float.of_int, arith_error.
  destruct (binary_normalize _ _ _ _ _); intros [= <-]; auto.
Qed.

Lemma div_error x y e : Float.div x y = Raise e -> arith_error e.
Proof.
  unfold Float.div, arith_error. destruct (Float.is_zero y); intros [= <-]; auto.
Qed.

Lemma round_error x e : Float.round x = Raise e -> arith_error e.
Proof. unfold arith_error. destruct x; intros [= <-]; auto. Qed.

Ltac arith_error_tac H :=
  repeat match type of H with
  | _ ≫= _ = Raise _ =>
      apply bind_Raise in H as [H|(? & _ & H)]
  | Float.of_int _ = Raise _ => exact (of_int_error _ _ H)
  | Float.div _ _ = Raise _ => exact (div_error _ _ _ H)
  | Float.round _ = Raise _ => exact (round_error _ _ H)
  | Ok _ = Raise _ => discriminate H
  end.

Lemma ticks_per_bar_error tpb num den e :
  ticks_per_bar tpb num den = Raise e -> arith_error e.
Proof. unfold ticks_per_bar. intros Ht. arith_error_tac Ht. Qed.

Lemma extract_clean_bars_error mid e :
  extract_clean_bars mid = Raise e -> arith_error e.
Proof.
  unfold extract_clean_bars. destruct (get_time_signature mid) as [num den].
  intros He. apply bind_Raise in He as [He|(L & _ & He)].
  - by eapply ticks_per_bar_error.
  - by destruct (iter_abs_messages mid).
Qed.

Lemma build_pool_error midis st e :
  build_pool midis st = Raise e -> arith_error e.
Proof.
  revert st. induction midis as [|[name mid] midis IH]; intros st; simpl; [done|].
  intros Hb. apply bind_Raise in Hb as [Hb|(bars & _ & Hb)].
  - by eapply extract_clean_bars_error.
  - destruct bars; by eapply IH.
Qed.

Lemma mapM_error {A B} (f : A -> result B) l e :
  mapM f l = Raise e -> exists x, x ∈ l /\ f x = Raise e.
Proof.
  induction l as [|x l IH]; simpl; [discriminate|].
  intros Hm. apply bind_Raise in Hm as [Hm|(y & _ & Hm)].
  - exists x. split; [left|done].
  - apply bind_Raise in Hm as [Hm|(ys & _ & Hm)]; [|discriminate].
    destruct (IH Hm) as (x' & Hin & Hx'). exists x'. split; [by right|done].
Qed.

Section Errors.
Context {G : Type} `{PRNG G}.

Lemma scale_of_error tpb_out src_tpb e :
  scale_of tpb_out src_tpb = Raise e -> arith_error e.
Proof. unfold scale_of. intros Hs. arith_error_tac Hs. Qed.

Lemma rel_abs_error scale bar e :
  rel_abs scale bar = Raise e -> arith_error e.
Proof.
  unfold rel_abs. intros Hm. apply mapM_error in Hm as (ev & _ & Hm).
  unfold scale_tick in Hm. arith_error_tac Hm.
Qed.

Lemma place_phrase_error tpb_out bar_len_out ph events t e :
  place_phrase tpb_out bar_len_out ph events t = Raise e -> arith_error e.
Proof.
  revert events t. induction ph as [|[[[src_tpb name] idx] bar] ph IH];
    intros events t; simpl; [discriminate|].
  intros Hp. apply bind_Raise in Hp as [Hp|(scale & _ & Hp)].
  { by eapply scale_of_error. }
  apply bind_Raise in Hp as [Hp|(ra & _ & Hp)].
  { by eapply rel_abs_error. }
  by eapply IH.
Qed.

(** With a table of the right shape that has a row for every spin, the
    lookups of the assembly loop cannot fail. *)
Lemma assemble_loop_error tpb_out bar_len_out dice_table spin_idx spins
    events t log_lines e :
  table_shape dice_table ->
  (spin_idx + length spins <= length dice_table)%nat ->
  assemble_loop tpb_out bar_len_out dice_table spin_idx spins events t log_lines
    = Raise e ->
  arith_error e.
Proof.
  intros Hshape. revert spin_idx events t log_lines.
  induction spins as [|total spins IH]; intros spin_idx events t log_lines;
    simpl; [discriminate|].
  intros Hlen Ha.
  destruct (py_getitem_nat dice_table spin_idx) as (row & Hrow & Hl); [lia|].
  rewrite Hrow in Ha. simpl in Ha.
  assert (Hr : length row = 11%nat).
  { unfold table_shape in Hshape. rewrite Forall_forall in Hshape.
    apply Hshape. by eapply list_elem_of_lookup_2. }
  destruct (clamp_total_getitem total row Hr) as (ph & Hph & _).
  rewrite Hph in Ha. simpl in Ha.
  apply bind_Raise in Ha as [Ha|([events' t'] & _ & Ha)].
  - by eapply place_phrase_error.
  - eapply IH; [|exact Ha]. lia.
Qed.

Lemma assemble_error st dice_table spins tpb_out e :
  table_shape dice_table ->
  length dice_table = length spins ->
  assemble st dice_table spins tpb_out = Raise e -> arith_error e.
Proof.
  intros Hshape Hlen. unfold assemble.
  destruct (default (4, 4) (base_ts st)) as [num den].
  intros Ha. apply bind_Raise in Ha as [Ha|(L & _ & Ha)].
  { by eapply ticks_per_bar_error. }
  apply bind_Raise in Ha as [Ha|([events log_lines] & _ & Ha)]; [|discriminate].
  eapply assemble_loop_error; [done| |exact Ha]. simpl. lia.
Qed.
End Errors.

(* ===================================================================== *)
(** * The two [build_from_spins] as pipelines                             *)
(* ===================================================================== *)

Section BuildFacts.
Context {G : Type} `{PRNG G}.

(** Both programs are: build the pool, refuse an empty one, generate the
    tables, assemble.  They differ in the table loop only. *)
Lemma mozart_build_from_spins_eq (os_entropy : G) midis spins tpb_out seed :
  mozart_dice_game_gui.build_from_spins os_entropy midis spins tpb_out seed =
    (st ← build_pool midis empty_pool;
     match pool st with
     | [] => Raise no_clean_bars
     | _ =>
         '(dice_table, _, _) ←
           mozart_dice_game_gui.table_loop (length spins) 0%nat [pool st]
             (Random os_entropy seed);
         assemble st dice_table spins tpb_out
     end).
Proof. done. Qed.

Lemma spin_build_from_spins_eq (os_entropy : G) midis spins tpb_out seed :
  spin_game_gui.build_from_spins os_entropy midis spins tpb_out seed =
    (st ← build_pool midis empty_pool;
     match pool st with
     | [] => Raise no_clean_bars
     | _ =>
         '(dice_table, _, _) ←
           spin_game_gui.table_loop (length spins) 0%nat [pool st]
             (Random os_entropy seed);
         assemble st dice_table spins tpb_out
     end).
Proof. done. Qed.

(** The only exceptions of [build_from_spins] are the empty-pool
    [RuntimeError] and those of float arithmetic: no lookup fails. *)
Lemma mozart_build_from_spins_error (os_entropy : G) midis spins tpb_out seed e :
  mozart_dice_game_gui.build_from_spins os_entropy midis spins tpb_out seed
    = Raise e ->
  e = no_clean_bars \/ arith_error e.
Proof.
  rewrite mozart_build_from_spins_eq. intros Hb.
  apply bind_Raise in Hb as [Hb|(st & _ & Hb)].
  { right. by eapply build_pool_error. }
  destruct (pool st) as [|p ps] eqn:Ep; [left; congruence|].
  destruct (mozart_table_loop_spec (length spins) 0%nat [p :: ps]
              (Random os_entropy seed))
    as (t & h' & g' & Ht & Hl & Hsh & _); [done|].
  rewrite Ht in Hb. simpl in Hb. right. by eapply assemble_error.
Qed.

Lemma spin_build_from_spins_error (os_entropy : G) midis spins tpb_out seed e :
  spin_game_gui.build_from_spins os_entropy midis spins tpb_out seed
    = Raise e ->
  e = no_clean_bars \/ arith_error e.
Proof.
  rewrite spin_build_from_spins_eq. intros Hb.
  apply bind_Raise in Hb as [Hb|(st & _ & Hb)].
  { right. by eapply build_pool_error. }
  destruct (pool st) as [|p ps] eqn:Ep; [left; congruence|].
  destruct (spin_table_loop_spec (length spins) 0%nat [p :: ps]
              (Random os_entropy seed))
    as (t & h' & g' & Ht & Hl & Hsh & _); [done|].
  rewrite Ht in Hb. simpl in Hb. right. by eapply assemble_error.
Qed.

(** With at most one spin the in-place shuffle of [spin_game_gui] is not
    observable: the two programs agree. *)
Lemma programs_agree_one_spin (os_entropy : G) midis spins tpb_out seed :
  (length spins <= 1)%nat ->
  mozart_dice_game_gui.build_from_spins os_entropy midis spins tpb_out seed
  = spin_game_gui.build_from_spins os_entropy midis spins tpb_out seed.
Proof.
  intros Hlen. rewrite mozart_build_from_spins_eq, spin_build_from_spins_eq.
  destruct (build_pool midis empty_pool) as [st|e]; [|done]. simpl.
  destruct (pool st) as [|p ps] eqn:Ep; [done|].
  destruct spins as [|total [|? ?]]; [done| |simpl in Hlen; lia].
  simpl. rewrite mozart_table_turn_eq, spin_table_turn_eq by (simpl; lia).
  change (deref [p :: ps] 0) with (p :: ps).
  by destruct (choices_for_spin _).
Qed.
End BuildFacts.

(* ===================================================================== *)
(** * The pool of the two one-bar sources                                *)
(* ===================================================================== *)

Lemma ab_midis_pool :
  build_pool ab_midis empty_pool
  = Ok {| pool := [entry_a; entry_b];
          base_tempo := Some 500000; base_ts := Some (4, 4) |}.
Proof. vm_compute. reflexivity. Qed.

(* ===================================================================== *)
(** * Claims about the generator and the pool                             *)
(* ===================================================================== *)

(** C3. With an integer seed, the result of [build_from_spins] (the
    output stream and the trace text, or the exception) is a function of
    the sources, the spins, the target resolution and the seed alone: two
    runs agree whatever entropy the operating system would have supplied.
    This holds for both programs. *)
Theorem seeded_runs_are_reproducible
    {G : Type} `{PRNG G} (entropy1 entropy2 : G)
    (midis : list (string * MidiFile)) (spins : list Z) (tpb_out seed : Z) :
  mozart_dice_game_gui.build_from_spins entropy1 midis spins tpb_out (Some seed)
  = mozart_dice_game_gui.build_from_spins entropy2 midis spins tpb_out (Some seed)
  /\ spin_game_gui.build_from_spins entropy1 midis spins tpb_out (Some seed)
     = spin_game_gui.build_from_spins entropy2 midis spins tpb_out (Some seed).
Proof.
  rewrite !mozart_build_from_spins_eq, !spin_build_from_spins_eq.
  split; reflexivity.
Qed.

(** Without a seed the entropy does show in the result. *)
Lemma unseeded_runs_can_differ :
  snd <$> mozart_dice_game_gui.build_from_spins
            (MT19937.seed 0) ab_midis [7] 480 None
  = Ok "Spin 1: total=7 → phrase from ['a.mid', 'b.mid', 'a.mid', 'b.mid']"%string
  /\ snd <$> mozart_dice_game_gui.build_from_spins
               (MT19937.seed 1) ab_midis [7] 480 None
     = Ok "Spin 1: total=7 → phrase from ['b.mid', 'a.mid', 'b.mid', 'a.mid']"%string.
Proof. split; vm_compute; reflexivity. Qed.

(** C9 (the code at the failing input).  In [spin_game_gui.py] the first
    turn's [rng.shuffle(pool)] rewrites the pool object: with seed 1 the
    pool [a.mid, b.mid] is [b.mid, a.mid] after the turn.  The same turn of
    [mozart_dice_game_gui.py] leaves the pool object as it was. *)
Theorem spin_game_gui_table_turn_rewrites_pool :
  (fun r : list (list phrase) * store * MT19937.state => deref r.1.2 0)
    <$> spin_game_gui.table_loop 1 0%nat [[entry_a; entry_b]] (seed_rng 1)
  = Ok [entry_b; entry_a]
  /\ (fun r : list (list phrase) * store * MT19937.state => deref r.1.2 0)
       <$> mozart_dice_game_gui.table_loop 1 0%nat [[entry_a; entry_b]] (seed_rng 1)
     = Ok [entry_a; entry_b].
Proof. split; vm_compute; reflexivity. Qed.

(** C1 (the code at the failing input).  On the sources [a.mid], [b.mid],
    spins [7, 7, 7], resolution 480 and seed 1 the two programs return
    different results: the second turn of [spin_game_gui.py] shuffles the
    pool left by the first turn, that of [mozart_dice_game_gui.py] a fresh
    copy of the original pool. *)
Theorem programs_differ_at_seed_1 :
  snd <$> mozart_dice_game_gui.build_from_spins
            (MT19937.seed 0) ab_midis [7; 7; 7] 480 (Some 1)
  = Ok trace_mozart_seed_1
  /\ snd <$> spin_game_gui.build_from_spins
               (MT19937.seed 0) ab_midis [7; 7; 7] 480 (Some 1)
     = Ok trace_spin_seed_1
  /\ mozart_dice_game_gui.build_from_spins
       (MT19937.seed 0) ab_midis [7; 7; 7] 480 (Some 1)
     <> spin_game_gui.build_from_spins
          (MT19937.seed 0) ab_midis [7; 7; 7] 480 (Some 1).
Proof.
  assert (Hm : snd <$> mozart_dice_game_gui.build_from_spins
                 (MT19937.seed 0) ab_midis [7; 7; 7] 480 (Some 1)
               = Ok trace_mozart_seed_1) by (vm_compute; reflexivity).
  assert (Hs : snd <$> spin_game_gui.build_from_spins
                 (MT19937.seed 0) ab_midis [7; 7; 7] 480 (Some 1)
               = Ok trace_spin_seed_1) by (vm_compute; reflexivity).
  split_and!; [done|done|].
  intros Heq. rewrite Heq, Hs in Hm. vm_compute in Hm. discriminate Hm.
Qed.

(* ===================================================================== *)
(** * Facts about binary64 arithmetic                                     *)
(* ===================================================================== *)

Lemma digits2_pos_log2 p : Zpos (digits2_pos p) = Z.log2 (Zpos p) + 1.
Proof.
  induction p as [p IH|p IH|]; [| |done].
  - change (Zpos (digits2_pos p~1)) with (Zpos (Pos.succ (digits2_pos p))).
    rewrite Pos2Z.inj_succ, IH.
    change (Zpos p~1) with (2 * Zpos p + 1).
    rewrite Z.log2_succ_double by lia. lia.
  - change (Zpos (digits2_pos p~0)) with (Zpos (Pos.succ (digits2_pos p))).
    rewrite Pos2Z.inj_succ, IH.
    change (Zpos p~0) with (2 * Zpos p).
    rewrite Z.log2_double by lia. lia.
Qed.

Lemma Zdigits2_log2 m : 0 < m -> Zdigits2 m = Z.log2 m + 1.
Proof. destruct m as [|p|p]; [lia| |lia]. intros _. apply digits2_pos_log2. Qed.

Lemma Zdigits2_nonneg m : 0 <= Zdigits2 m.
Proof. destruct m; simpl; lia. Qed.

Lemma Zdigits2_le m n : 0 <= m <= n -> Zdigits2 m <= Zdigits2 n.
Proof.
  intros Hmn. destruct (decide (m = 0)) as [->|Hm].
  - apply Zdigits2_nonneg.
  - rewrite !Zdigits2_log2 by lia.
    pose proof (Z.log2_le_mono m n). lia.
Qed.

Lemma Zdigits2_succ m : 0 <= m -> Zdigits2 (m + 1) <= Zdigits2 m + 1.
Proof.
  intros Hm. destruct (decide (m = 0)) as [->|Hm0]; [done|].
  rewrite !Zdigits2_log2 by lia.
  pose proof (Z.log2_succ_le m). unfold Z.succ in *. lia.
Qed.

Lemma Zdigits2_mul m n : 0 < m -> 0 < n -> Zdigits2 (m * n) <= Zdigits2 m + Zdigits2 n.
Proof.
  intros Hm Hn. rewrite !Zdigits2_log2 by nia.
  pose proof (Z.log2_mul_above m n). lia.
Qed.

Lemma Zdigits2_lt_pow2 m B : 0 <= m -> 0 <= B -> m < 2 ^ B -> Zdigits2 m <= B.
Proof.
  intros Hm HB Hlt. destruct (decide (m = 0)) as [->|Hm0]; [simpl; lia|].
  rewrite Zdigits2_log2 by lia.
  assert (Z.log2 m < B) by (apply Z.log2_lt_pow2; lia). lia.
Qed.

Lemma Zdigits2_shiftr m k :
  0 <= m -> 0 <= k -> 0 < Z.shiftr m k -> Zdigits2 (Z.shiftr m k) = Zdigits2 m - k.
Proof.
  intros Hm Hk Hs.
  assert (Hm0 : 0 < m).
  { destruct (decide (m = 0)) as [->|]; [|lia]. rewrite Z.shiftr_0_l in Hs. lia. }
  rewrite !Zdigits2_log2 by lia. rewrite Z.log2_shiftr by lia.
  assert (k <= Z.log2 m); [|lia].
  apply Z.log2_le_pow2; [lia|].
  rewrite Z.shiftr_div_pow2 in Hs by lia.
  destruct (Z.le_gt_cases (2 ^ k) m) as [|Hlt]; [done|].
  rewrite Z.div_small in Hs by lia. lia.
Qed.

(** [iter_pos] is iteration. *)
Lemma iter_pos_nat {A} (f : A -> A) p x :
  SpecFloat.iter_pos f p x = Nat.iter (Pos.to_nat p) f x.
Proof.
  revert x. induction p as [p IH|p IH|]; intros x.
  - change (SpecFloat.iter_pos f p (SpecFloat.iter_pos f p (f x))
            = Nat.iter (Pos.to_nat p~1) f x).
    rewrite !IH, Pos2Nat.inj_xI.
    replace (S (2 * Pos.to_nat p))%nat with (Pos.to_nat p + S (Pos.to_nat p))%nat by lia.
    rewrite Nat.iter_add, Nat.iter_succ_r. done.
  - change (SpecFloat.iter_pos f p (SpecFloat.iter_pos f p x)
            = Nat.iter (Pos.to_nat p~0) f x).
    rewrite !IH, Pos2Nat.inj_xO.
    replace (2 * Pos.to_nat p)%nat with (Pos.to_nat p + Pos.to_nat p)%nat by lia.
    by rewrite Nat.iter_add.
  - done.
Qed.

Lemma shr_1_m mrs : 0 <= shr_m mrs -> shr_m (shr_1 mrs) = Z.div2 (shr_m mrs).
Proof. destruct mrs as [[|[p|p|]|p] r s]; simpl; try done; lia. Qed.

Lemma shr_iter_m k mrs :
  0 <= shr_m mrs ->
  shr_m (Nat.iter k shr_1 mrs) = Z.shiftr (shr_m mrs) (Z.of_nat k).
Proof.
  intros Hm. induction k as [|k IH].
  - simpl. by rewrite Z.shiftr_0_r.
  - simpl. rewrite shr_1_m.
    + rewrite IH, Z.div2_spec, Z.shiftr_shiftr by lia. f_equal. lia.
    + rewrite IH. apply Z.shiftr_nonneg. done.
Qed.

(** [shr] shifts the mantissa right and adds the shift to the exponent. *)
Lemma shr_spec mrs e n :
  0 <= shr_m mrs ->
  shr_m (shr mrs e n).1 = Z.shiftr (shr_m mrs) (Z.max n 0)
  /\ (shr mrs e n).2 = e + Z.max n 0.
Proof.
  intros Hm. destruct n as [|p|p]; simpl.
  - split; [by rewrite Z.shiftr_0_r|lia].
  - rewrite iter_pos_nat, shr_iter_m by done.
    rewrite positive_nat_Z. split; [f_equal; lia|lia].
  - split; [|lia]. rewrite Z.max_r by lia. by rewrite Z.shiftr_0_r.
Qed.

Lemma shr_record_of_loc_m m l : shr_m (shr_record_of_loc m l) = m.
Proof. by destruct l as [|[]]. Qed.

Lemma emin_eq : emin = -1074.
Proof. done. Qed.

Lemma fexp_eq x : fexp x = Z.max (x - 53) (-1074).
Proof. done. Qed.

Lemma shr_fexp_bound m e l B :
  0 <= m -> Zdigits2 m + e <= B -> e <= B -> -1074 <= B ->
  0 <= shr_m (shr_fexp Float.prec Float.emax m e l).1
  /\ e <= (shr_fexp Float.prec Float.emax m e l).2 <= B
  /\ Zdigits2 (shr_m (shr_fexp Float.prec Float.emax m e l).1)
     + (shr_fexp Float.prec Float.emax m e l).2 <= B
  /\ -1074 <= (shr_fexp Float.prec Float.emax m e l).2.
Proof.
  intros Hm Hd He HB. unfold shr_fexp.
  set (n := fexp (Zdigits2 m + e) - e).
  destruct (shr_spec (shr_record_of_loc m l) e n) as [Hsm Hse].
  { by rewrite shr_record_of_loc_m. }
  rewrite Hsm, Hse, shr_record_of_loc_m.
  assert (Hn : n = Z.max (Zdigits2 m - 53) (-1074 - e)) by (unfold n; rewrite fexp_eq; lia).
  split_and!.
  - by apply Z.shiftr_nonneg.
  - lia.
  - lia.
  - destruct (Z.le_gt_cases (Z.shiftr m (Z.max n 0)) 0) as [H0|Hpos].
    + assert (Z.shiftr m (Z.max n 0) = 0)
        by (pose proof (proj2 (Z.shiftr_nonneg m (Z.max n 0)) Hm); lia).
      rewrite H. simpl. lia.
    + rewrite Zdigits2_shiftr by lia. lia.
  - lia.
Qed.

Lemma shr_fexp_pos m e l :
  0 < m -> -1074 < Zdigits2 m + e ->
  0 < shr_m (shr_fexp Float.prec Float.emax m e l).1.
Proof.
  intros Hm Hd. unfold shr_fexp.
  set (n := fexp (Zdigits2 m + e) - e).
  destruct (shr_spec (shr_record_of_loc m l) e n) as [Hsm _].
  { rewrite shr_record_of_loc_m. lia. }
  rewrite Hsm, shr_record_of_loc_m.
  assert (Hn : n = Z.max (Zdigits2 m - 53) (-1074 - e)) by (unfold n; rewrite fexp_eq; lia).
  rewrite Zdigits2_log2 in Hn, Hd by done.
  pose proof (Z.log2_nonneg m) as Hlog.
  rewrite Z.shiftr_div_pow2 by lia.
  apply Z.div_str_pos. split; [apply Z.pow_pos_nonneg; lia|].
  apply Z.log2_le_pow2; lia.
Qed.

Lemma round_nearest_even_bound m l :
  m <= round_nearest_even m l <= m + 1.
Proof. destruct l as [|[]]; simpl; try lia. destruct (Z.even m); lia. Qed.

(** The rounding step of every operation: on a non-negative mantissa of
    magnitude below [2^B] the result is a zero or a finite number of
    magnitude below [2^(B+1)], and it is not a zero above the subnormal
    range. *)
Lemma binary_round_aux_bound s m e l B :
  0 <= m -> Zdigits2 m + e <= B -> e <= B -> -1074 <= B -> B + 1 <= 971 ->
  exists m3 e3,
    0 <= m3 /\ e <= e3 /\ Zdigits2 m3 + e3 <= B + 1
    /\ (0 < m -> -1074 < Zdigits2 m + e -> 0 < m3)
    /\ binary_round_aux Float.prec Float.emax s m e l =
       match m3 with
       | Z0 => S754_zero s
       | Zpos p => S754_finite s p e3
       | Zneg _ => S754_nan
       end.
Proof.
  intros Hm Hd He HB HB1. unfold binary_round_aux.
  pose proof (shr_fexp_bound m e l B Hm Hd He HB) as (H1m & H1e & H1d & H1min).
  pose proof (shr_fexp_pos m e l) as H1pos.
  destruct (shr_fexp Float.prec Float.emax m e l) as [mrs1 e1]. simpl in *.
  set (m2 := round_nearest_even (shr_m mrs1) (loc_of_shr_record mrs1)).
  pose proof (round_nearest_even_bound (shr_m mrs1) (loc_of_shr_record mrs1)) as Hr.
  fold m2 in Hr.
  assert (H2d : Zdigits2 m2 + e1 <= B + 1).
  { pose proof (Zdigits2_le m2 (shr_m mrs1 + 1) ltac:(lia)).
    pose proof (Zdigits2_succ (shr_m mrs1) H1m). lia. }
  pose proof (shr_fexp_bound m2 e1 loc_Exact (B + 1) ltac:(lia) H2d ltac:(lia) ltac:(lia))
    as (H3m & H3e & H3d & H3min).
  pose proof (shr_fexp_pos m2 e1 loc_Exact) as H3pos.
  destruct (shr_fexp Float.prec Float.emax m2 e1 loc_Exact) as [mrs3 e3]. simpl in *.
  exists (shr_m mrs3), e3. split_and!; [done|lia|done| |].
  - intros Hm0 Hd0. apply H3pos; [lia|].
    assert (0 < m2) by (specialize (H1pos Hm0 Hd0); lia).
    rewrite Zdigits2_log2 by done. pose proof (Z.log2_nonneg m2). lia.
  - destruct (shr_m mrs3); [done| |done].
    destruct (Z.leb_spec e3 (Float.emax - Float.prec)) as [|Hgt]; [done|].
    unfold Float.emax, Float.prec in Hgt. lia.
Qed.

Lemma positive_from_below E B x : positive_from E B x -> below B x.
Proof. destruct x as [| | |[] m e]; simpl; tauto. Qed.

Lemma Zpos_iter_xO p k : Zpos (Pos.iter xO p k) = Zpos p * 2 ^ Zpos k.
Proof.
  induction k as [|k IH] using Pos.peano_ind.
  - simpl. lia.
  - rewrite Pos.iter_succ, Pos2Z.inj_xO, IH, Pos2Z.inj_succ, Z.pow_succ_r by lia. lia.
Qed.

Lemma of_int_zero : Float.of_int 0 = Ok (S754_zero false).
Proof. done. Qed.

(** [float(n)] for [0 < n < 2^B]: a positive number with exponent at
    least -52. *)
Lemma of_int_bound n B :
  0 < n -> n < 2 ^ B -> 0 <= B -> B + 1 <= 971 ->
  exists x, Float.of_int n = Ok x /\ positive_from (-52) (B + 1) x.
Proof.
  intros Hn HnB HB HB1. destruct n as [|p|p]; [lia| |lia].
  unfold Float.of_int, binary_normalize, binary_round.
  pose proof (Zdigits2_lt_pow2 (Zpos p) B ltac:(lia) HB HnB) as Hd. simpl in Hd.
  assert (Hd1 : 1 <= Zpos (digits2_pos p)) by lia.
  rewrite fexp_eq, Z.add_0_r.
  unfold shl_align.
  set (d := Zpos (digits2_pos p)) in *.
  assert (Hal : exists mz ez,
             (let 'ex' := Z.max (d - 53) (-1074) in
              match ex' - 0 with
              | Zneg k => (Pos.iter xO p k, ex')
              | _ => (p, 0)
              end) = (mz, ez)
             /\ -52 <= ez <= 0 /\ Zpos (digits2_pos mz) + ez = d).
  { cbv zeta. replace (Z.max (d - 53) (-1074) - 0) with (d - 53) by lia.
    destruct (d - 53) as [|k|k] eqn:Ek.
    - exists p, 0. split; [done|]. fold d. lia.
    - exists p, 0. split; [done|]. fold d. lia.
    - eexists _, _. split; [done|]. split; [lia|].
      rewrite digits2_pos_log2, Zpos_iter_xO, Z.log2_mul_pow2 by lia.
      unfold d in *. rewrite digits2_pos_log2 in *. lia. }
  destruct Hal as (mz & ez & -> & Hez & Hmz).
  destruct (binary_round_aux_bound false (Zpos mz) ez loc_Exact B)
    as (m3 & e3 & Hm3 & He3 & Hd3 & Hpos & ->); simpl; try lia.
  specialize (Hpos ltac:(lia) ltac:(simpl; lia)).
  destruct m3 as [|q|q]; [lia| |lia].
  eexists. split; [done|]. simpl in *. lia.
Qed.

Lemma digits2_pos_upper p : Zpos p < 2 ^ Zpos (digits2_pos p).
Proof.
  rewrite digits2_pos_log2.
  pose proof (Z.log2_spec (Zpos p) ltac:(lia)). unfold Z.succ in *. lia.
Qed.

Lemma mul_below B1 B2 x y :
  below B1 x -> below B2 y -> -1074 <= B1 + B2 -> B1 + B2 + 1 <= 971 ->
  below (B1 + B2 + 1) (Float.mul x y).
Proof.
  intros Hx Hy Hlo Hhi.
  destruct x as [sx| | |[] m1 e1], y as [sy| | |[] m2 e2]; simpl in *; try done.
  change (below (B1 + B2 + 1)
            (binary_round_aux Float.prec Float.emax false (Zpos (m1 * m2)) (e1 + e2) loc_Exact)).
  pose proof (Zdigits2_mul (Zpos m1) (Zpos m2) ltac:(lia) ltac:(lia)) as Hd.
  simpl in Hd.
  destruct (binary_round_aux_bound false (Zpos (m1 * m2)) (e1 + e2) loc_Exact (B1 + B2))
    as (m3 & e3 & Hm3 & He3 & Hd3 & _ & ->); simpl; try lia.
  destruct m3 as [|q|q]; simpl in *; [done|lia|lia].
Qed.

Lemma div_eucl_div a b q r : Z.div_eucl a b = (q, r) -> a / b = q.
Proof. intros E. unfold Z.div. by rewrite E. Qed.

Lemma round_half_even_shift_bound n k :
  0 <= n -> 0 < k ->
  Z.shiftr n k <= Float.round_half_even_shift n k <= Z.shiftr n k + 1.
Proof.
  intros Hn Hk. unfold Float.round_half_even_shift.
  repeat match goal with |- context [if ?b then _ else _] => destruct b end; lia.
Qed.

(** ** Signs *)

Lemma binary_round_aux_nonneg m e l :
  nonneg (binary_round_aux Float.prec Float.emax false m e l).
Proof.
  unfold binary_round_aux.
  destruct (shr_fexp _ _ m e l) as [mrs1 e1].
  destruct (shr_fexp _ _ _ e1 loc_Exact) as [mrs3 e3].
  destruct (shr_m mrs3); [done| |done]. by destruct (_ <=? _).
Qed.

Lemma of_int_nonneg n x : 0 <= n -> Float.of_int n = Ok x -> nonneg x.
Proof.
  intros Hn. unfold Float.of_int. destruct n as [|p|p]; [|clear Hn|lia].
  - by intros [= <-].
  - change (binary_normalize Float.prec Float.emax (Zpos p) 0 false)
      with (binary_round Float.prec Float.emax false p 0).
    unfold binary_round. destruct (shl_align _ _ _) as [mz ez].
    pose proof (binary_round_aux_nonneg (Zpos mz) ez loc_Exact) as Hr.
    destruct (binary_round_aux _ _ _ _ _ _); intros [= <-]; done.
Qed.

Lemma mul_nonneg x y : nonneg x -> nonneg y -> nonneg (Float.mul x y).
Proof.
  destruct x as [[]|[]| |[] m1 e1], y as [[]|[]| |[] m2 e2]; simpl; try done.
  intros _ _. apply binary_round_aux_nonneg.
Qed.

Lemma SFdiv_finite_nonneg m1 e1 m2 e2 :
  nonneg (SFdiv Float.prec Float.emax
            (S754_finite false m1 e1) (S754_finite false m2 e2)).
Proof.
  unfold SFdiv.
  destruct (SFdiv_core_binary Float.prec Float.emax (Zpos m1) e1 (Zpos m2) e2)
    as [[mz ez] lz].
  apply binary_round_aux_nonneg.
Qed.

Lemma div_nonneg x y r :
  nonneg x -> nonneg y -> Float.div x y = Ok r -> nonneg r.
Proof.
  unfold Float.div.
  destruct y as [[]|[]| |[] m2 e2]; simpl; try done;
    intros Hx Hy [= <-]; destruct x as [[]|[]| |[] m1 e1]; try done.
  apply SFdiv_finite_nonneg.
Qed.

Lemma round_nonneg x z : nonneg x -> Float.round x = Ok z -> 0 <= z.
Proof.
  destruct x as [sx|[]| |[] m e]; simpl; try done.
  - by intros _ [= <-].
  - intros _ [= <-]. destruct (Z.leb_spec 0 e).
    + apply Z.shiftl_nonneg. lia.
    + pose proof (round_half_even_shift_bound (Zpos m) (- e) ltac:(lia) ltac:(lia)).
      assert (0 <= Z.shiftr (Zpos m) (- e)) by (apply Z.shiftr_nonneg; lia). lia.
Qed.

(** ** Exact operations on small dyadic numbers *)

Lemma round_half_even_scale p q c :
  0 < q -> 0 < c -> round_half_even (p * c) (q * c) = round_half_even p q.
Proof.
  intros Hq Hc. unfold round_half_even.
  rewrite Z.div_mul_cancel_r, Z.mul_mod_distr_r by lia.
  destruct (Z.ltb_spec (2 * (p mod q)) q), (Z.ltb_spec (2 * (p mod q * c)) (q * c)),
           (Z.ltb_spec q (2 * (p mod q))), (Z.ltb_spec (q * c) (2 * (p mod q * c)));
    try done; nia.
Qed.

Lemma round_half_even_exact x q : 0 < q -> round_half_even (x * q) q = x.
Proof.
  intros Hq. unfold round_half_even.
  rewrite Z.div_mul, Z.mod_mul by lia.
  destruct (Z.ltb_spec (2 * 0) q); [done|lia].
Qed.

Lemma round_half_even_shift_eq n k :
  0 < k -> Float.round_half_even_shift n k = round_half_even n (2 ^ k).
Proof.
  intros Hk. unfold Float.round_half_even_shift, round_half_even.
  assert (Hp : 0 < 2 ^ k) by (apply Z.pow_pos_nonneg; lia).
  rewrite Z.shiftr_div_pow2, !Z.shiftl_mul_pow2 by lia.
  assert (Hr : n - n / 2 ^ k * 2 ^ k = n mod 2 ^ k)
    by (pose proof (Z.div_mod n (2 ^ k)); lia).
  rewrite Hr. rewrite Z.mul_1_l.
  assert (H2 : 2 ^ k = 2 * 2 ^ (k - 1)).
  { rewrite <- Z.pow_succ_r by lia. f_equal. lia. }
  destruct (Z.ltb_spec (n mod 2 ^ k) (2 ^ (k - 1))),
           (Z.ltb_spec (2 * (n mod 2 ^ k)) (2 ^ k)),
           (Z.ltb_spec (2 ^ (k - 1)) (n mod 2 ^ k)),
           (Z.ltb_spec (2 ^ k) (2 * (n mod 2 ^ k))); try done; lia.
Qed.

Lemma shr_1_double z :
  0 < z ->
  shr_1 {| shr_m := 2 * z; shr_r := false; shr_s := false |}
  = {| shr_m := z; shr_r := false; shr_s := false |}.
Proof. destruct z as [|p|p]; [lia|done|lia]. Qed.

Lemma shr_iter_exact k z :
  0 < z ->
  Nat.iter k shr_1 {| shr_m := z * 2 ^ Z.of_nat k; shr_r := false; shr_s := false |}
  = {| shr_m := z; shr_r := false; shr_s := false |}.
Proof.
  intros Hz. revert z Hz. induction k as [|k IH]; intros z Hz.
  - simpl. f_equal. lia.
  - rewrite Nat.iter_succ_r.
    replace (z * 2 ^ Z.of_nat (S k)) with (2 * (z * 2 ^ Z.of_nat k)).
    2:{ rewrite Nat2Z.inj_succ, Z.pow_succ_r by lia. lia. }
    rewrite shr_1_double by (pose proof (Z.pow_pos_nonneg 2 (Z.of_nat k)); nia).
    by apply IH.
Qed.

Lemma shr_fexp_exact (m0 : positive) n e :
  Zpos (digits2_pos m0) = 53 -> 0 <= n -> -1074 <= e + n ->
  shr_fexp Float.prec Float.emax (Zpos m0 * 2 ^ n) e loc_Exact
  = ({| shr_m := Zpos m0; shr_r := false; shr_s := false |}, e + n).
Proof.
  intros Hd Hn He. unfold shr_fexp.
  assert (Hp : 0 < 2 ^ n) by (apply Z.pow_pos_nonneg; lia).
  rewrite Zdigits2_log2, Z.log2_mul_pow2 by nia.
  rewrite digits2_pos_log2 in Hd.
  rewrite fexp_eq.
  replace (Z.max (n + Z.log2 (Zpos m0) + 1 + e - 53) (-1074) - e) with n by lia.
  unfold shr_record_of_loc, shr. destruct n as [|k|k]; [| |lia].
  - rewrite Z.mul_1_r, Z.add_0_r. done.
  - rewrite iter_pos_nat. rewrite <- (positive_nat_Z k) at 1.
    by rewrite shr_iter_exact.
Qed.

Lemma binary_round_aux_exact s (m0 : positive) n e :
  Zpos (digits2_pos m0) = 53 -> 0 <= n -> -1074 <= e + n <= 971 ->
  binary_round_aux Float.prec Float.emax s (Zpos m0 * 2 ^ n) e loc_Exact
  = S754_finite s m0 (e + n).
Proof.
  intros Hd Hn He. unfold binary_round_aux.
  rewrite shr_fexp_exact by lia. simpl.
  pose proof (shr_fexp_exact m0 0 (e + n) Hd ltac:(lia) ltac:(lia)) as H0.
  rewrite Z.mul_1_r, Z.add_0_r in H0. rewrite H0. simpl.
  destruct (Z.leb_spec (e + n) (Float.emax - Float.prec)) as [|Hgt]; [done|].
  unfold Float.emax, Float.prec in Hgt. lia.
Qed.

Lemma dyadic_mantissa a :
  Zpos a < 2 ^ 53 ->
  let d := Zpos (digits2_pos a) in
  d <= 53
  /\ Zpos (Z.to_pos (Zpos a * 2 ^ (53 - d))) = Zpos a * 2 ^ (53 - d)
  /\ Zpos (digits2_pos (Z.to_pos (Zpos a * 2 ^ (53 - d)))) = 53.
Proof.
  intros Ha d.
  assert (Hd : d <= 53) by (apply (Zdigits2_lt_pow2 (Zpos a)); lia).
  assert (Hp : 0 < 2 ^ (53 - d)) by (apply Z.pow_pos_nonneg; lia).
  assert (Hid : Zpos (Z.to_pos (Zpos a * 2 ^ (53 - d))) = Zpos a * 2 ^ (53 - d))
    by (rewrite Z2Pos.id; nia).
  split_and!; [done|done|].
  rewrite digits2_pos_log2, Hid, Z.log2_mul_pow2 by lia.
  unfold d. rewrite digits2_pos_log2. lia.
Qed.

Lemma of_int_exact a : Zpos a < 2 ^ 53 -> Float.of_int (Zpos a) = Ok (dyadic a 0).
Proof.
  intros Ha. destruct (dyadic_mantissa a Ha) as (Hd & Hid & Hd53).
  unfold Float.of_int, binary_normalize, binary_round, dyadic.
  rewrite fexp_eq, Z.add_0_r. unfold shl_align.
  set (d := Zpos (digits2_pos a)) in *.
  assert (Hd1 : 1 <= d) by (unfold d; lia).
  replace (Z.max (d - 53) (-1074) - 0) with (d - 53) by lia.
  replace (Z.max (d - 53) (-1074)) with (d - 53) by lia.
  assert (Hgoal : forall mz ez,
             Zpos mz = Zpos a * 2 ^ (53 - d) -> ez = d - 53 ->
             match binary_round_aux Float.prec Float.emax false (Zpos mz) ez loc_Exact with
             | S754_infinity _ | S754_nan => Raise OverflowError
             | x => Ok x
             end = Ok (S754_finite false (Z.to_pos (Zpos a * 2 ^ (53 - d))) (0 + d - 53))).
  { intros mz ez Hmz ->.
    assert (mz = Z.to_pos (Zpos a * 2 ^ (53 - d))) as -> by (by rewrite <- Hmz).
    pose proof (binary_round_aux_exact false _ 0 (d - 53) Hd53 ltac:(lia) ltac:(lia)) as Hr.
    rewrite Z.mul_1_r, Z.add_0_r in Hr. rewrite Hr. repeat f_equal; lia. }
  destruct (d - 53) as [|k|k] eqn:Ek.
  - apply Hgoal; [|lia]. replace (53 - d) with 0 by lia. lia.
  - lia.
  - apply Hgoal; [|lia]. rewrite Zpos_iter_xO. do 2 f_equal. lia.
Qed.

Lemma mul_dyadic a i b j :
  Zpos a * Zpos b < 2 ^ 53 ->
  -1074 <= i + j + Zpos (digits2_pos (a * b)) - 53 <= 971 ->
  Float.mul (dyadic a i) (dyadic b j) = dyadic (a * b) (i + j).
Proof.
  intros Hab He.
  assert (Ha : Zpos a < 2 ^ 53) by nia.
  assert (Hb : Zpos b < 2 ^ 53) by nia.
  destruct (dyadic_mantissa a Ha) as (Hda & Hia & _).
  destruct (dyadic_mantissa b Hb) as (Hdb & Hib & _).
  destruct (dyadic_mantissa (a * b) Hab) as (Hdab & Hiab & Hd53).
  unfold dyadic, Float.mul, SFmul. change (xorb false false) with false.
  set (da := Zpos (digits2_pos a)) in *. set (db := Zpos (digits2_pos b)) in *.
  set (dab := Zpos (digits2_pos (a * b))) in *.
  assert (Hlow : da + db - 1 <= dab).
  { unfold da, db, dab. rewrite !digits2_pos_log2.
    pose proof (Z.log2_mul_below (Zpos a) (Zpos b) ltac:(lia) ltac:(lia)).
    rewrite Pos2Z.inj_mul. lia. }
  set (n := 53 + dab - da - db).
  assert (Hprod : Zpos (Z.to_pos (Zpos a * 2 ^ (53 - da))
                        * Z.to_pos (Zpos b * 2 ^ (53 - db)))
                  = Zpos (Z.to_pos (Zpos (a * b) * 2 ^ (53 - dab))) * 2 ^ n).
  { rewrite Pos2Z.inj_mul, Hia, Hib, Hiab, Pos2Z.inj_mul.
    replace (53 - da) with ((53 - dab) + (dab - da)) at 1 by lia.
    replace (53 - db) with (n - (dab - da)) by (unfold n; lia).
    destruct (Z.le_gt_cases da dab) as [Hle|Hgt].
    - rewrite (Z.pow_add_r 2 (53 - dab) (dab - da)) by lia.
      replace n with ((n - (dab - da)) + (dab - da)) at 2 by lia.
      rewrite (Z.pow_add_r 2 (n - (dab - da)) (dab - da)) by (unfold n; lia).
      ring.
    - exfalso. unfold da, dab in Hgt. rewrite !digits2_pos_log2 in Hgt.
      pose proof (Z.log2_le_mono (Zpos a) (Zpos (a * b)) ltac:(nia)). lia. }
  rewrite Hprod.
  rewrite binary_round_aux_exact; [|done|unfold n; lia|unfold n; lia].
  f_equal. unfold n. lia.
Qed.

Lemma round_dyadic c i :
  Zpos c < 2 ^ 53 ->
  Float.round (dyadic c i)
  = Ok (if 0 <=? i then Zpos c * 2 ^ i else round_half_even (Zpos c) (2 ^ (- i))).
Proof.
  intros Hc. destruct (dyadic_mantissa c Hc) as (Hd & Hid & _).
  unfold dyadic, Float.round. rewrite Hid.
  set (d := Zpos (digits2_pos c)) in *.
  assert (Hp : 0 < 2 ^ (53 - d)) by (apply Z.pow_pos_nonneg; lia).
  f_equal.
  destruct (Z.leb_spec 0 (i + d - 53)) as [HE|HE].
  - destruct (Z.leb_spec 0 i) as [_|]; [|lia].
    rewrite Z.shiftl_mul_pow2 by done.
    rewrite <- Z.mul_assoc, <- Z.pow_add_r by lia. do 2 f_equal. lia.
  - rewrite round_half_even_shift_eq by lia.
    destruct (Z.leb_spec 0 i) as [Hi|Hi].
    + replace (53 - d) with (i + - (i + d - 53)) by lia.
      rewrite Z.pow_add_r, Z.mul_assoc by lia.
      apply round_half_even_exact. apply Z.pow_pos_nonneg; lia.
    + replace (- (i + d - 53)) with (- i + (53 - d)) by lia.
      rewrite Z.pow_add_r by lia.
      apply round_half_even_scale; [apply Z.pow_pos_nonneg; lia|done].
Qed.

Lemma bind_Ok_l {A B} (a : A) (f : A -> result B) : Ok a ≫= f = f a.
Proof. done. Qed.

(** ** A resolution divided by itself *)

Lemma new_location_0 nb : new_location nb 0 = loc_Exact.
Proof. unfold new_location. by destruct (Z.even nb). Qed.

Lemma SFdiv_same (m : positive) e :
  Zpos (digits2_pos m) = 53 ->
  SFdiv Float.prec Float.emax (S754_finite false m e) (S754_finite false m e)
  = dyadic 1 0.
Proof.
  intros Hd. unfold SFdiv, SFdiv_core_binary. simpl Zdigits2. rewrite Hd.
  replace (53 + e - (53 + e)) with 0 by lia. rewrite fexp_eq.
  replace (e - e) with 0 by lia.
  change (Z.min (Z.max (0 - 53) (-1074)) 0) with (-53).
  change (0 - -53) with 53. cbv beta iota zeta.
  assert (Hdiv : Z.div_eucl (Z.shiftl (Zpos m) 53) (Zpos m) = (2 ^ 53, 0)).
  { rewrite Z.shiftl_mul_pow2 by lia.
    pose proof (Z.div_mul (2 ^ 53) (Zpos m) ltac:(lia)) as Hq.
    pose proof (Z.mod_mul (2 ^ 53) (Zpos m) ltac:(lia)) as Hr.
    rewrite (Z.mul_comm (2 ^ 53)) in Hq, Hr. unfold Z.div, Z.modulo in Hq, Hr.
    destruct (Z.div_eucl (Zpos m * 2 ^ 53) (Zpos m)) as [q r]. by subst. }
  rewrite Hdiv. rewrite new_location_0. change (xorb false false) with false.
  change (2 ^ 53) with (Zpos 4503599627370496 * 2 ^ 1).
  rewrite binary_round_aux_exact by (try done; lia). done.
Qed.

(** ** Numbers of either sign *)

Lemma nonzero_sized_sized E B x : nonzero_sized E B x -> sized B x.
Proof. destruct x as [| | |s m e]; simpl; tauto. Qed.

(** [float(n)] for [0 < |n| < 2^B]: a non-zero number with exponent at
    least -52. *)
Lemma of_int_nonzero n B :
  n <> 0 -> - 2 ^ B < n < 2 ^ B -> 0 <= B -> B + 1 <= 971 ->
  exists x, Float.of_int n = Ok x /\ nonzero_sized (-52) (B + 1) x.
Proof.
  intros Hn HnB HB HB1.
  assert (Hgen : forall s p, Zpos p < 2 ^ B ->
            exists x,
              match binary_round Float.prec Float.emax s p 0 with
              | S754_infinity _ | S754_nan => Raise OverflowError
              | x => Ok x
              end = Ok x /\ nonzero_sized (-52) (B + 1) x).
  { intros s p Hp. unfold binary_round.
    pose proof (Zdigits2_lt_pow2 (Zpos p) B ltac:(lia) HB Hp) as Hd. simpl in Hd.
    assert (Hd1 : 1 <= Zpos (digits2_pos p)) by lia.
    rewrite fexp_eq, Z.add_0_r.
    unfold shl_align.
    set (d := Zpos (digits2_pos p)) in *.
    assert (Hal : exists mz ez,
               (let 'ex' := Z.max (d - 53) (-1074) in
                match ex' - 0 with
                | Zneg k => (Pos.iter xO p k, ex')
                | _ => (p, 0)
                end) = (mz, ez)
               /\ -52 <= ez <= 0 /\ Zpos (digits2_pos mz) + ez = d).
    { cbv zeta. replace (Z.max (d - 53) (-1074) - 0) with (d - 53) by lia.
      destruct (d - 53) as [|k|k] eqn:Ek.
      - exists p, 0. split; [done|]. fold d. lia.
      - exists p, 0. split; [done|]. fold d. lia.
      - eexists _, _. split; [done|]. split; [lia|].
        rewrite digits2_pos_log2, Zpos_iter_xO, Z.log2_mul_pow2 by lia.
        unfold d in *. rewrite digits2_pos_log2 in *. lia. }
    destruct Hal as (mz & ez & -> & Hez & Hmz).
    destruct (binary_round_aux_bound s (Zpos mz) ez loc_Exact B)
      as (m3 & e3 & Hm3 & He3 & Hd3 & Hpos & ->); simpl; try lia.
    specialize (Hpos ltac:(lia) ltac:(simpl; lia)).
    destruct m3 as [|q|q]; [lia| |lia].
    eexists. split; [done|]. simpl in *. lia. }
  destruct n as [|p|p]; [lia| |].
  - apply (Hgen false p). lia.
  - apply (Hgen true p). lia.
Qed.

Lemma of_int_sized n B :
  - 2 ^ B < n < 2 ^ B -> 0 <= B -> B + 1 <= 971 ->
  exists x, Float.of_int n = Ok x /\ sized (B + 1) x.
Proof.
  intros HnB HB HB1. destruct (decide (n = 0)) as [->|Hn0].
  - exists (S754_zero false). by split.
  - destruct (of_int_nonzero n B) as (x & Hx & Hp); try lia.
    exists x. split; [done|]. by eapply nonzero_sized_sized.
Qed.

Lemma mul_sized B1 B2 x y :
  sized B1 x -> sized B2 y -> -1074 <= B1 + B2 -> B1 + B2 + 1 <= 971 ->
  sized (B1 + B2 + 1) (Float.mul x y).
Proof.
  intros Hx Hy Hlo Hhi.
  destruct x as [sx| | |sx m1 e1], y as [sy| | |sy m2 e2]; simpl in *; try done.
  change (sized (B1 + B2 + 1)
            (binary_round_aux Float.prec Float.emax (xorb sx sy)
               (Zpos (m1 * m2)) (e1 + e2) loc_Exact)).
  pose proof (Zdigits2_mul (Zpos m1) (Zpos m2) ltac:(lia) ltac:(lia)) as Hd.
  simpl in Hd.
  destruct (binary_round_aux_bound (xorb sx sy) (Zpos (m1 * m2)) (e1 + e2)
              loc_Exact (B1 + B2))
    as (m3 & e3 & Hm3 & He3 & Hd3 & _ & ->); simpl; try lia.
  destruct m3 as [|q|q]; simpl in *; [done|lia|lia].
Qed.

Lemma div_sized B B' x y :
  sized B x -> nonzero_sized (-52) B' y -> -1074 <= B + 52 -> B + 53 <= 971 ->
  exists r, Float.div x y = Ok r /\ sized (B + 53) r.
Proof.
  intros Hx Hy Hlo Hhi.
  destruct y as [| | |sy m2 e2]; simpl in Hy; try done. destruct Hy as [He2 _].
  unfold Float.div. simpl.
  destruct x as [sx| | |sx m1 e1]; simpl in Hx; try done.
  { eexists. split; [done|]. done. }
  eexists. split; [done|].
  unfold SFdiv, SFdiv_core_binary.
  set (d1 := Zdigits2 (Zpos m1)). set (d2 := Zdigits2 (Zpos m2)).
  set (e' := Z.min (SpecFloat.fexp Float.prec Float.emax (d1 + e1 - (d2 + e2))) (e1 - e2)).
  set (s := e1 - e2 - e').
  assert (Hs : 0 <= s) by (unfold s, e'; lia).
  set (m' := match s with Zpos _ => Z.shiftl (Zpos m1) s | Z0 => Zpos m1 | Zneg _ => 0 end).
  assert (Hm' : m' = Zpos m1 * 2 ^ s).
  { unfold m'. destruct s as [|k|k] eqn:Es; [lia| |lia].
    by rewrite Z.shiftl_mul_pow2. }
  destruct (Z.div_eucl m' (Zpos m2)) as [q r] eqn:E.
  cbv beta iota.
  apply div_eucl_div in E.
  assert (Hpow : 0 < 2 ^ s) by (apply Z.pow_pos_nonneg; lia).
  assert (Hq : 0 <= q <= m').
  { subst q. split; [apply Z.div_pos; nia|].
    apply Z.div_le_upper_bound; nia. }
  assert (Hdm : Zdigits2 m' = d1 + s).
  { rewrite Hm', Zdigits2_log2, Z.log2_mul_pow2 by nia.
    unfold d1. rewrite Zdigits2_log2 by lia. lia. }
  pose proof (Zdigits2_le q m' Hq) as Hdq.
  assert (Hd1 : d1 + e1 <= B) by (unfold d1; simpl; lia).
  assert (Hd1' : 1 <= d1) by (unfold d1; simpl; lia).
  assert (Hse : s + e' = e1 - e2) by (unfold s; lia).
  assert (He' : e' <= e1 - e2) by (unfold e'; lia).
  destruct (binary_round_aux_bound (xorb sx sy) q e' (new_location (Zpos m2) r) (B + 52))
    as (m3 & e3 & Hm3 & He3 & Hd3 & _ & ->); try lia.
  destruct m3 as [|k|k]; simpl; [done| |lia]. simpl in Hd3. lia.
Qed.

Lemma round_sized B x :
  sized B x -> 0 <= B -> exists z, Float.round x = Ok z /\ - 2 ^ B <= z <= 2 ^ B.
Proof.
  intros Hx HB.
  assert (H1 : 1 <= 2 ^ B) by (pose proof (Z.pow_pos_nonneg 2 B); lia).
  destruct x as [sx| | |sx m e]; simpl in Hx; try done.
  { exists 0. split; [done|lia]. }
  simpl. eexists. split; [done|].
  pose proof (digits2_pos_upper m) as Hm.
  set (d := Zpos (digits2_pos m)) in *.
  assert (Ha : 0 <= (if 0 <=? e then Z.shiftl (Zpos m) e
                     else Float.round_half_even_shift (Zpos m) (- e)) <= 2 ^ B).
  { destruct (Z.leb_spec 0 e) as [He|He].
    - rewrite Z.shiftl_mul_pow2 by done. split; [nia|].
      assert (Zpos m * 2 ^ e < 2 ^ d * 2 ^ e)
        by (apply Z.mul_lt_mono_pos_r; [apply Z.pow_pos_nonneg; lia|done]).
      rewrite <- Z.pow_add_r in H by lia.
      pose proof (Z.pow_le_mono_r 2 (d + e) B). lia.
    - pose proof (round_half_even_shift_bound (Zpos m) (- e) ltac:(lia) ltac:(lia)) as Hr.
      assert (Hq : 0 <= Z.shiftr (Zpos m) (- e)) by (apply Z.shiftr_nonneg; lia).
      split; [lia|].
      destruct (Z.le_gt_cases d (- e)) as [Hde|Hde].
      + assert (Z.shiftr (Zpos m) (- e) = 0); [|lia].
        rewrite Z.shiftr_div_pow2 by lia. apply Z.div_small.
        pose proof (Z.pow_le_mono_r 2 d (- e)). lia.
      + assert (Z.shiftr (Zpos m) (- e) < 2 ^ (d + e)).
        { rewrite Z.shiftr_div_pow2 by lia.
          apply Z.div_lt_upper_bound; [apply Z.pow_pos_nonneg; lia|].
          rewrite <- Z.pow_add_r by lia. by replace (- e + (d + e)) with d by lia. }
        pose proof (Z.pow_le_mono_r 2 (d + e) B). lia. }
  destruct sx; lia.
Qed.

(** ** The error of one rounding *)

Lemma round_half_even_nearest p q :
  0 < q -> nearest_integer p q (round_half_even p q).
Proof.
  intros Hq. unfold nearest_integer, round_half_even.
  pose proof (Z.div_mod p q ltac:(lia)) as Hdm.
  pose proof (Z.mod_pos_bound p q Hq) as Hr.
  destruct (Z.ltb_spec (2 * (p mod q)) q); [nia|].
  destruct (Z.ltb_spec q (2 * (p mod q))); [nia|].
  destruct (Z.even (p / q)); nia.
Qed.

Lemma shr_1_represents mrs a c :
  0 < c -> shr_represents mrs a c -> shr_represents (shr_1 mrs) a (2 * c).
Proof.
  intros Hc. unfold shr_represents.
  destruct mrs as [[|[p|p|]|p] [] []]; simpl; intros (Hm & Hb & Hl);
    try lia; split_and!; try lia; try nia.
Qed.

Lemma shr_iter_represents k mrs a c :
  0 < c -> shr_represents mrs a c ->
  shr_represents (Nat.iter k shr_1 mrs) a (c * 2 ^ Z.of_nat k).
Proof.
  intros Hc Hr. induction k as [|k IH].
  - simpl. by rewrite Z.mul_1_r.
  - rewrite Nat2Z.inj_succ, Z.pow_succ_r by lia. simpl.
    replace (c * (2 * 2 ^ Z.of_nat k)) with (2 * (c * 2 ^ Z.of_nat k)) by lia.
    apply shr_1_represents; [|done].
    pose proof (Z.pow_pos_nonneg 2 (Z.of_nat k)). nia.
Qed.

Lemma shr_represents_shift mrs e n a c :
  0 < c -> 0 <= n -> shr_represents mrs a c ->
  shr_represents (shr mrs e n).1 a (c * 2 ^ n) /\ (shr mrs e n).2 = e + n.
Proof.
  intros Hc Hn Hr. destruct n as [|p|p]; [| |lia]; simpl.
  - rewrite Z.mul_1_r. split; [done|lia].
  - rewrite iter_pos_nat. split; [|done].
    rewrite <- (positive_nat_Z p). by apply shr_iter_represents.
Qed.

Lemma round_nearest_even_nearest mrs a c :
  0 < c -> shr_represents mrs a c ->
  nearest_integer a c (round_nearest_even (shr_m mrs) (loc_of_shr_record mrs))
  /\ shr_m mrs <= round_nearest_even (shr_m mrs) (loc_of_shr_record mrs)
     <= shr_m mrs + 1.
Proof.
  intros Hc. unfold shr_represents, nearest_integer.
  destruct mrs as [m [] []]; simpl; intros (Hm & Hb & Hl);
    try destruct (Z.even m); split; try lia; try nia.
Qed.

Lemma new_location_represents q r a c :
  0 < c -> 0 <= r < c -> 0 <= q -> a = q * c + r ->
  shr_represents (shr_record_of_loc q (new_location c r)) a c.
Proof.
  intros Hc Hr Hq ->. unfold new_location, new_location_even, new_location_odd.
  destruct (Z.even c) eqn:Ev.
  - destruct (Z.eqb_spec r 0) as [->|Hr0].
    + unfold shr_represents. simpl. lia.
    + destruct (Z.compare_spec (2 * r) c); unfold shr_represents; simpl; lia.
  - assert (Hodd : Z.odd c = true) by (rewrite <- Z.negb_even, Ev; done).
    apply Z.odd_spec in Hodd as [k Hk].
    destruct (Z.eqb_spec r 0) as [->|Hr0].
    + unfold shr_represents. simpl. lia.
    + destruct (Z.compare_spec (2 * r + 1) c); unfold shr_represents; simpl; lia.
Qed.

Lemma exact_represents m : 0 <= m -> shr_represents (shr_record_of_loc m loc_Exact) m 1.
Proof. intros Hm. unfold shr_represents. simpl. lia. Qed.

Lemma Zdigits2_bounds m : 0 < m -> 2 ^ (Zdigits2 m - 1) <= m < 2 ^ Zdigits2 m.
Proof.
  intros Hm. rewrite Zdigits2_log2 by done.
  pose proof (Z.log2_spec m Hm). unfold Z.succ in *.
  replace (Z.log2 m + 1 - 1) with (Z.log2 m) by lia. done.
Qed.

Lemma Zdigits2_unique m d : 0 <= d - 1 -> 2 ^ (d - 1) <= m < 2 ^ d -> Zdigits2 m = d.
Proof.
  intros Hd Hm.
  assert (0 < m) by (pose proof (Z.pow_pos_nonneg 2 (d - 1)); lia).
  rewrite Zdigits2_log2 by done.
  assert (Z.log2 m = d - 1); [|lia].
  apply Z.log2_unique; [lia|]. unfold Z.succ. by replace (d - 1 + 1) with d by lia.
Qed.

(** The rounding step of every operation, for a mantissa of at least 53
    digits standing for [a / c] and a result in the normal range: the
    result is [m2 * 2^(e + n)], where [n] is the number of digits dropped
    and [m2] is [a / (c * 2^n)] rounded to a nearest integer. *)
Lemma binary_round_aux_nearest s m e l a c :
  0 < c -> 2 ^ 52 <= m ->
  shr_represents (shr_record_of_loc m l) a c ->
  let n := Zdigits2 m - 53 in
  -1074 <= e + n -> e + n + 1 <= 971 ->
  exists (m3 : positive) (e3 m2 : Z),
    binary_round_aux Float.prec Float.emax s m e l = S754_finite s m3 e3
    /\ nearest_integer a (c * 2 ^ n) m2
    /\ 2 ^ 52 <= m2 <= 2 ^ 53
    /\ 2 ^ 52 <= Zpos m3 < 2 ^ 53
    /\ ((Zpos m3 = m2 /\ e3 = e + n)
        \/ (m2 = 2 ^ 53 /\ Zpos m3 = 2 ^ 52 /\ e3 = e + n + 1)).
Proof.
  intros Hc Hm Hrep n Hlo Hhi.
  assert (Hm0 : 0 < m) by lia.
  pose proof (Zdigits2_bounds m Hm0) as Hd.
  assert (Hn : 0 <= n).
  { unfold n. destruct (Z.le_gt_cases 53 (Zdigits2 m)) as [|Hlt]; [lia|].
    exfalso. assert (2 ^ Zdigits2 m <= 2 ^ 52) by (apply Z.pow_le_mono_r; lia). lia. }
  unfold binary_round_aux, shr_fexp. rewrite fexp_eq.
  replace (Z.max (Zdigits2 m + e - 53) (-1074) - e) with n by (unfold n; lia).
  destruct (shr_represents_shift (shr_record_of_loc m l) e n a c Hc Hn Hrep)
    as [Hrep1 He1].
  pose proof (shr_spec (shr_record_of_loc m l) e n) as [Hm1 _].
  { rewrite shr_record_of_loc_m. lia. }
  rewrite shr_record_of_loc_m, Z.max_l in Hm1 by lia.
  destruct (shr (shr_record_of_loc m l) e n) as [mrs1 e1]. simpl in *. subst e1.
  destruct (round_nearest_even_nearest mrs1 a (c * 2 ^ n)) as [Hnear Hr];
    [pose proof (Z.pow_pos_nonneg 2 n); nia|done|].
  set (m2 := round_nearest_even (shr_m mrs1) (loc_of_shr_record mrs1)) in *.
  assert (Hm1b : 2 ^ 52 <= shr_m mrs1 < 2 ^ 53).
  { rewrite Hm1, Z.shiftr_div_pow2 by lia.
    assert (Hp : 0 < 2 ^ n) by (apply Z.pow_pos_nonneg; lia).
    assert (E52 : 2 ^ (Zdigits2 m - 1) = 2 ^ 52 * 2 ^ n)
      by (rewrite <- Z.pow_add_r by lia; f_equal; unfold n; lia).
    assert (E53 : 2 ^ Zdigits2 m = 2 ^ 53 * 2 ^ n)
      by (rewrite <- Z.pow_add_r by lia; f_equal; unfold n; lia).
    split.
    - apply Z.div_le_lower_bound; lia.
    - apply Z.div_lt_upper_bound; lia. }
  destruct (decide (m2 = 2 ^ 53)) as [E|NE].
  - rewrite E. change (Zdigits2 (2 ^ 53)) with 54. rewrite fexp_eq.
    replace (Z.max (54 + (e + n) - 53) (-1074) - (e + n)) with 1 by lia.
    assert (Hs : shr {| shr_m := 2 ^ 53; shr_r := false; shr_s := false |} (e + n) 1
                 = ({| shr_m := 4503599627370496; shr_r := false; shr_s := false |},
                    e + n + 1)) by reflexivity.
    rewrite Hs. cbv beta iota. cbn [shr_m].
    destruct (Z.leb_spec (e + n + 1) (Float.emax - Float.prec)) as [|Hgt];
      [|unfold Float.emax, Float.prec in Hgt; lia].
    exists 4503599627370496%positive, (e + n + 1), (2 ^ 53). split; [reflexivity|].
    rewrite E in Hnear. split_and!; try done; try lia; right; by split_and!.
  - assert (Hm2 : 2 ^ 52 <= m2 < 2 ^ 53) by lia.
    rewrite (Zdigits2_unique m2 53) by (try lia; done). rewrite fexp_eq.
    replace (Z.max (53 + (e + n) - 53) (-1074) - (e + n)) with 0 by lia.
    assert (Hs : shr {| shr_m := m2; shr_r := false; shr_s := false |} (e + n) 0
                 = ({| shr_m := m2; shr_r := false; shr_s := false |}, e + n))
      by reflexivity.
    rewrite Hs. cbv beta iota. cbn [shr_m].
    destruct m2 as [|p|p] eqn:Em2; [lia| |lia].
    destruct (Z.leb_spec (e + n) (Float.emax - Float.prec)) as [|Hgt];
      [|unfold Float.emax, Float.prec in Hgt; lia].
    exists p, (e + n), (Zpos p). split; [reflexivity|].
    split_and!; try done; try lia; by left.
Qed.
Ltac push_inject H :=
  repeat first
    [ rewrite inject_Z_mult in H | rewrite inject_Z_plus in H
    | rewrite inject_Z_opp in H ].

Section Roundoff.
Local Open Scope Q_scope.

Lemma pow2_pos (e : Z) : 0 < 2 ^ e.
Proof. by apply Qpower_0_lt. Qed.

Lemma pow2_add (a b : Z) : 2 ^ (a + b) == 2 ^ a * 2 ^ b.
Proof. by apply Qpower_plus. Qed.

Lemma pow2_inject (n : Z) : (0 <= n)%Z -> inject_Z (2 ^ n) == 2 ^ n.
Proof. intros Hn. by rewrite Zpower_Qpower. Qed.

Lemma pow2_53 : 2 ^ 53 * u53 == 1.
Proof. reflexivity. Qed.

Lemma pow2_succ (e : Z) : 2 ^ (e + 1) == 2 * 2 ^ e.
Proof. rewrite pow2_add. change (2 ^ 1) with 2. ring. Qed.

(** From the integer rounding to the relative error. *)
Lemma approximates_nearest (m3 : positive) (e3 m2 a c n e : Z) (v : Q) :
  (0 < c)%Z -> (0 <= n)%Z ->
  nearest_integer a (c * 2 ^ n) m2 ->
  (2 ^ 52 <= m2)%Z ->
  ((Zpos m3 = m2 /\ e3 = e + n)
   \/ (m2 = 2 ^ 53 /\ Zpos m3 = 2 ^ 52 /\ e3 = e + n + 1))%Z ->
  v * inject_Z c == inject_Z a * 2 ^ e ->
  approximates (S754_finite false m3 e3) v.
Proof.
  intros Hc Hn Hnear Hm2 Hz Hv. unfold approximates, Qval.
  set (P := 2 ^ (e + n)).
  assert (HP : 0 < P) by apply pow2_pos.
  assert (Hval : inject_Z (Zpos m3) * 2 ^ e3 == inject_Z m2 * P).
  { destruct Hz as [[-> ->]|(-> & -> & ->)]; [reflexivity|].
    unfold P. rewrite pow2_succ.
    change (inject_Z (2 ^ 53)) with (2 * inject_Z (2 ^ 52)). ring. }
  rewrite Hval. clear Hval Hz.
  set (C := inject_Z c) in *. set (M := inject_Z m2). set (A := inject_Z a) in *.
  set (N := 2 ^ n).
  assert (HN : 0 < N) by apply pow2_pos.
  assert (HC : 0 < C) by (unfold C; rewrite <- (Zlt_Qlt 0); done).
  assert (HM : 2 ^ 52 <= M).
  { unfold M. rewrite <- (pow2_inject 52) by done. by rewrite <- Zle_Qle. }
  assert (HPe : P == 2 ^ e * N) by (unfold P, N; apply pow2_add).
  (* the integer rounding, in Q *)
  assert (Hq : 2 * A <= 2 * (M * (C * N)) + C * N
               /\ 2 * (M * (C * N)) <= 2 * A + C * N).
  { unfold nearest_integer in Hnear.
    assert (Hz1 : (2 * a <= 2 * (m2 * (c * 2 ^ n)) + c * 2 ^ n)%Z) by lia.
    assert (Hz2 : (2 * (m2 * (c * 2 ^ n)) <= 2 * a + c * 2 ^ n)%Z) by lia.
    rewrite Zle_Qle in Hz1. rewrite Zle_Qle in Hz2.
    push_inject Hz1. push_inject Hz2.
    rewrite !(pow2_inject n Hn) in Hz1. rewrite !(pow2_inject n Hn) in Hz2.
    fold C M A N in Hz1, Hz2. split; [exact Hz1|exact Hz2]. }
  destruct Hq as [Hq1 Hq2].
  assert (Hu : C * N <= 2 * (M * (C * N)) * u53).
  { assert (0 < C * N) by nra.
    assert (2 ^ 52 * (2 * u53) == 1) by reflexivity. nra. }
  (* v * (C * N) == A * P *)
  assert (HvP : v * (C * N) == A * P).
  { rewrite HPe. rewrite Qmult_assoc, Hv. ring. }
  assert (HCN : 0 < C * N) by nra.
  split.
  - apply (Qmult_le_r _ _ (C * N) HCN). rewrite HvP. nra.
  - apply (Qmult_le_r _ _ (C * N) HCN). rewrite HvP. nra.
Qed.
End Roundoff.

Section Operations.
Local Open Scope Q_scope.

Lemma Qval_normal_pos lo hi x : normal lo hi x -> 0 < Qval x.
Proof.
  destruct x as [| | |[] m e]; simpl; try done. intros _.
  pose proof (pow2_pos e).
  assert (0 < inject_Z (Zpos m)) by (rewrite <- (Zlt_Qlt 0); done). nra.
Qed.

(** The product of two normal numbers. *)
Lemma mul_approximates lo1 hi1 lo2 hi2 x y :
  normal lo1 hi1 x -> normal lo2 hi2 y ->
  (-1074 <= lo1 + lo2 + 52)%Z -> (hi1 + hi2 + 54 <= 971)%Z ->
  normal (lo1 + lo2 + 52) (hi1 + hi2 + 54) (Float.mul x y)
  /\ approximates (Float.mul x y) (Qval x * Qval y).
Proof.
  destruct x as [| | |[] m1 e1]; simpl; try done.
  destruct y as [| | |[] m2 e2]; simpl; try done.
  intros [Hm1 He1] [Hm2 He2] Hlo Hhi.
  change (SFmul Float.prec Float.emax (S754_finite false m1 e1) (S754_finite false m2 e2))
    with (binary_round_aux Float.prec Float.emax false (Zpos (m1 * m2)) (e1 + e2) loc_Exact).
  assert (Hprod : (2 ^ 104 <= Zpos (m1 * m2) < 2 ^ 106)%Z).
  { rewrite Pos2Z.inj_mul.
    change (2 ^ 104)%Z with (2 ^ 52 * 2 ^ 52)%Z.
    change (2 ^ 106)%Z with (2 ^ 53 * 2 ^ 53)%Z. nia. }
  assert (Hd : (105 <= Zdigits2 (Zpos (m1 * m2)) <= 106)%Z).
  { pose proof (Zdigits2_bounds (Zpos (m1 * m2)) ltac:(lia)) as Hb.
    set (d := Zdigits2 (Zpos (m1 * m2))) in *.
    split.
    - destruct (Z.le_gt_cases 105 d) as [|Hlt]; [done|].
      assert (2 ^ d <= 2 ^ 104)%Z by (apply Z.pow_le_mono_r; lia). lia.
    - destruct (Z.le_gt_cases d 106) as [|Hgt]; [done|].
      assert (2 ^ 106 <= 2 ^ (d - 1))%Z by (apply Z.pow_le_mono_r; lia). lia. }
  destruct (binary_round_aux_nearest false (Zpos (m1 * m2)) (e1 + e2) loc_Exact
              (Zpos (m1 * m2)) 1)
    as (m3 & e3 & r & -> & Hnear & Hr & Hm3 & Hz); try lia.
  { apply exact_represents. lia. }
  set (n := (Zdigits2 (Zpos (m1 * m2)) - 53)%Z) in *.
  split.
  - simpl. split; [done|]. destruct Hz as [[_ ->]|(_ & _ & ->)]; lia.
  - eapply (approximates_nearest m3 e3 r (Zpos (m1 * m2)) 1 n (e1 + e2));
      try done; try lia.
    rewrite Pos2Z.inj_mul, inject_Z_mult, pow2_add.
    change (inject_Z 1) with 1. ring.
Qed.

(** The quotient of two normal numbers. *)
Lemma div_approximates lo1 hi1 lo2 hi2 x y :
  normal lo1 hi1 x -> normal lo2 hi2 y ->
  (-1074 <= lo1 - hi2 - 53)%Z -> (hi1 - lo2 - 51 <= 971)%Z ->
  exists z,
    Float.div x y = Ok z
    /\ normal (lo1 - hi2 - 53) (hi1 - lo2 - 51) z
    /\ approximates z (Qval x / Qval y).
Proof.
  intros Hx Hy.
  pose proof (Qval_normal_pos _ _ _ Hy) as Hypos.
  revert Hx Hy Hypos.
  destruct x as [| | |[] m1 e1]; simpl; try done.
  destruct y as [| | |[] m2 e2]; simpl; try done.
  intros [Hm1 He1] [Hm2 He2] Hypos Hlo Hhi.
  unfold Float.div. simpl Float.is_zero. cbv iota.
  eexists. split; [reflexivity|].
  unfold SFdiv, SFdiv_core_binary.
  rewrite (Zdigits2_unique (Zpos m1) 53), (Zdigits2_unique (Zpos m2) 53) by (try lia; done).
  rewrite fexp_eq.
  replace (Z.min (Z.max (53 + e1 - (53 + e2) - 53) (-1074)) (e1 - e2))%Z
    with (e1 - e2 - 53)%Z by lia.
  replace (e1 - e2 - (e1 - e2 - 53))%Z with 53%Z by lia.
  cbv beta iota zeta.
  rewrite Z.shiftl_mul_pow2 by lia.
  pose proof (Z.div_mod (Zpos m1 * 2 ^ 53) (Zpos m2) ltac:(lia)) as Hdm.
  pose proof (Z.mod_pos_bound (Zpos m1 * 2 ^ 53) (Zpos m2) ltac:(lia)) as Hrem.
  unfold Z.div, Z.modulo in Hdm, Hrem.
  destruct (Z.div_eucl (Zpos m1 * 2 ^ 53) (Zpos m2)) as [q r].
  change (xorb false false) with false.
  assert (Hq : (2 ^ 52 <= q < 2 ^ 54)%Z).
  { change (2 ^ 54)%Z with (2 * 2 ^ 53)%Z. change (2 ^ 53)%Z with (2 * 2 ^ 52)%Z in *.
    nia. }
  assert (Hd : (53 <= Zdigits2 q <= 54)%Z).
  { pose proof (Zdigits2_bounds q ltac:(lia)) as Hb.
    set (d := Zdigits2 q) in *.
    split.
    - destruct (Z.le_gt_cases 53 d) as [|Hlt]; [done|].
      assert (2 ^ d <= 2 ^ 52)%Z by (apply Z.pow_le_mono_r; lia). lia.
    - destruct (Z.le_gt_cases d 54) as [|Hgt]; [done|].
      assert (2 ^ 54 <= 2 ^ (d - 1))%Z by (apply Z.pow_le_mono_r; lia). lia. }
  destruct (binary_round_aux_nearest false q (e1 - e2 - 53) (new_location (Zpos m2) r)
              (Zpos m1 * 2 ^ 53) (Zpos m2))
    as (m3 & e3 & r2 & -> & Hnear & Hr & Hm3 & Hz); try lia.
  { apply new_location_represents; lia. }
  set (n := (Zdigits2 q - 53)%Z) in *.
  split.
  - simpl. split; [done|]. destruct Hz as [[_ ->]|(_ & _ & ->)]; lia.
  - eapply (approximates_nearest m3 e3 r2 (Zpos m1 * 2 ^ 53) (Zpos m2) n (e1 - e2 - 53));
      try done; try lia.
    rewrite inject_Z_mult, (pow2_inject 53) by done.
    replace (e1 - e2 - 53)%Z with (e1 + (- e2 + -53))%Z by lia.
    rewrite !pow2_add, Qpower_opp.
    pose proof (pow2_pos e2) as Hp2.
    assert (Hm2p : 0 < inject_Z (Zpos m2)) by (rewrite <- (Zlt_Qlt 0); done).
    set (p2 := 2 ^ e2) in *. set (b := inject_Z (Zpos m2)) in *.
    change (2 ^ 53) with (9007199254740992 # 1).
    change (2 ^ (-53)) with (1 # 9007199254740992).
    field. split; lra.
Qed.
End Operations.

Section Conversions.
Local Open Scope Q_scope.

(** [float(n)] for [0 < n < 2^53] is [n]. *)
Lemma of_int_normal (n : Z) :
  (0 < n < 2 ^ 53)%Z ->
  exists x, Float.of_int n = Ok x /\ normal (-52) 0 x /\ Qval x == inject_Z n.
Proof.
  intros Hn. destruct n as [|a|a]; [lia| |lia].
  exists (dyadic a 0). split; [apply of_int_exact; lia|].
  destruct (dyadic_mantissa a ltac:(lia)) as (Hd & Hid & Hd53).
  unfold dyadic. cbv zeta in *.
  set (d := Zpos (digits2_pos a)) in *.
  assert (Hd1 : (1 <= d)%Z) by (unfold d; lia).
  split.
  - simpl. split; [|lia].
    pose proof (Zdigits2_bounds (Zpos (Z.to_pos (Zpos a * 2 ^ (53 - d)))) ltac:(lia)) as Hb.
    simpl Zdigits2 in Hb. rewrite Hd53 in Hb. exact Hb.
  - simpl. rewrite Hid, inject_Z_mult, (pow2_inject (53 - d)) by lia.
    rewrite <- Qmult_assoc, <- pow2_add.
    replace (53 - d + (0 + d - 53))%Z with 0%Z by lia.
    change (2 ^ 0) with 1. ring.
Qed.

Lemma Qval_four : normal (-50) (-50) Float.four /\ Qval Float.four == 4.
Proof. split; [simpl; lia|reflexivity]. Qed.

(** [round(x)] of a positive normal number: within one half of it. *)
Lemma round_normal lo hi x :
  normal lo hi x ->
  exists r, Float.round x = Ok r
            /\ Qval x - (1 # 2) <= inject_Z r /\ inject_Z r <= Qval x + (1 # 2).
Proof.
  destruct x as [| | |[] m e]; simpl; try done. intros [Hm He].
  eexists. split; [reflexivity|].
  destruct (Z.leb_spec 0 e) as [H0|H0].
  - rewrite Z.shiftl_mul_pow2, inject_Z_mult, (pow2_inject e) by done. lra.
  - rewrite round_half_even_shift_eq by lia.
    pose proof (round_half_even_nearest (Zpos m) (2 ^ (- e))
                  ltac:(apply Z.pow_pos_nonneg; lia)) as Hnear.
    unfold nearest_integer in Hnear.
    set (r := round_half_even (Zpos m) (2 ^ (- e))) in *.
    assert (Hz1 : (2 * Zpos m <= 2 * (r * 2 ^ (- e)) + 2 ^ (- e))%Z) by lia.
    assert (Hz2 : (2 * (r * 2 ^ (- e)) <= 2 * Zpos m + 2 ^ (- e))%Z) by lia.
    rewrite Zle_Qle in Hz1. rewrite Zle_Qle in Hz2.
    push_inject Hz1. push_inject Hz2.
    rewrite !(pow2_inject (- e)) in Hz1 by lia.
    rewrite !(pow2_inject (- e)) in Hz2 by lia.
    assert (Hpe : 2 ^ e * 2 ^ (- e) == 1).
    { rewrite <- pow2_add. by replace (e + - e)%Z with 0%Z by lia. }
    pose proof (pow2_pos e) as Hp. pose proof (pow2_pos (- e)) as Hp'.
    set (P := 2 ^ e) in *. set (P' := 2 ^ (- e)) in *.
    set (M := inject_Z (Zpos m)) in *. set (R := inject_Z r) in *.
    change (inject_Z 2) with 2 in *.
    assert (E1 : (2 * (R * P') + P') * P == 2 * R + 1).
    { setoid_replace ((2 * (R * P') + P') * P) with (2 * R * (P * P') + P * P')
        using relation Qeq by ring.
      rewrite Hpe. ring. }
    assert (E2 : (2 * M + P') * P == 2 * (M * P) + 1).
    { setoid_replace ((2 * M + P') * P) with (2 * (M * P) + P * P')
        using relation Qeq by ring.
      rewrite Hpe. ring. }
    apply (Qmult_le_r _ _ P Hp) in Hz1. apply (Qmult_le_r _ _ P Hp) in Hz2.
    rewrite E1 in Hz1. rewrite E2 in Hz2.
    setoid_replace (2 * M * P) with (2 * (M * P)) using relation Qeq in Hz1 by ring.
    setoid_replace (2 * (R * P') * P) with (2 * R * (P * P')) using relation Qeq in Hz2
      by ring.
    rewrite Hpe in Hz2.
    split; lra.
Qed.

(** Three roundings of a product below [2^50] stay within one half of the
    exact value when scaled by the denominator. *)
Lemma three_roundings (D N T vq vb vp R X : Q) :
  0 < D -> 0 <= N -> 0 <= T ->
  0 <= vq -> 0 <= vb -> 0 <= vp ->
  vq * (1 - u53) <= 4 / D -> 4 / D <= vq * (1 + u53) ->
  vb * (1 - u53) <= N * vq -> N * vq <= vb * (1 + u53) ->
  vp * (1 - u53) <= T * vb -> T * vb <= vp * (1 + u53) ->
  vp - (1 # 2) <= R -> R <= vp + (1 # 2) ->
  X == 4 * T * N -> X <= 2 ^ 50 ->
  2 * (R * D - X) < D + 1 /\ - (D + 1) < 2 * (R * D - X).
Proof.
  intros HD HN HT Hvq Hvb Hvp Hq1 Hq2 Hb1 Hb2 Hp1 Hp2 Hr1 Hr2 HX HX50.
  set (w := 1 - u53) in *. set (o := 1 + u53) in *.
  assert (Hw : 0 < w) by (unfold w, u53; reflexivity).
  assert (Ho : 0 < o) by (unfold o, u53; reflexivity).
  assert (E4 : 4 / D * D == 4) by (field; lra).
  assert (HqD1 : vq * D * w <= 4).
  { apply (Qmult_le_r _ _ D HD) in Hq1. rewrite E4 in Hq1. lra. }
  assert (HqD2 : 4 <= vq * D * o).
  { apply (Qmult_le_r _ _ D HD) in Hq2. rewrite E4 in Hq2. lra. }
  set (A := vq * D) in *. set (B := vb * D). set (Y := vp * D).
  assert (HA : 0 <= A) by (unfold A; nra).
  assert (HB : 0 <= B) by (unfold B; nra).
  assert (HY : 0 <= Y) by (unfold Y; nra).
  assert (HB1 : B * w <= N * A) by (unfold A, B; nra).
  assert (HB2 : N * A <= B * o) by (unfold A, B; nra).
  assert (HY1 : Y * w <= T * B) by (unfold B, Y; nra).
  assert (HY2 : T * B <= Y * o) by (unfold B, Y; nra).
  assert (H1 : Y * (w * w * w) <= X).
  { rewrite HX.
    assert (B * (w * w) <= 4 * N) by nra.
    assert (Y * w * (w * w) <= T * B * (w * w)) by nra.
    assert (T * (B * (w * w)) <= T * (4 * N)) by nra.
    lra. }
  assert (H2 : X <= Y * (o * o * o)).
  { rewrite HX.
    assert (4 * N <= B * (o * o)) by nra.
    assert (T * B * (o * o) <= Y * o * (o * o)) by nra.
    assert (T * (4 * N) <= T * (B * (o * o))) by nra.
    lra. }
  assert (HRD1 : Y - (1 # 2) * D <= R * D) by (unfold Y; nra).
  assert (HRD2 : R * D <= Y + (1 # 2) * D) by (unfold Y; nra).
  assert (Hclose : Y - X < 1 # 2 /\ X - Y < 1 # 2).
  { unfold w, o, u53 in H1, H2.
    change (2 ^ 50) with (1125899906842624 # 1) in HX50.
    split; lra. }
  destruct Hclose. split; lra.
Qed.
End Conversions.

(* ===================================================================== *)
(** * Claim about [ticks_per_bar]                                         *)
(* ===================================================================== *)

(** C6 (counterexample).  At resolution [2^50 + 1] with numerator 1 and
    denominator 3 the product [tpb * 1 * (4 / 3)] is
    [1501199875790166 + 2/3], whose only nearest integer is
    [1501199875790167], while [ticks_per_bar] returns [1501199875790166]:
    the binary64 quotient [4.0 / 3] and the product are rounded.  At
    resolution [2^53 + 1] in 1/4 the product is the integer [2^53 + 1]
    itself, while [ticks_per_bar] returns [2^53]: the resolution is rounded
    when it is converted to a float.  With the denominator [2^1024] the
    conversion raises [OverflowError] and nothing is returned. *)
Lemma ticks_per_bar_is_not_nearest :
  (ticks_per_bar (2 ^ 50 + 1) 1 3 = Ok 1501199875790166
   /\ ~ nearest_integer ((2 ^ 50 + 1) * 1 * 4) 3 1501199875790166
   /\ forall z, nearest_integer ((2 ^ 50 + 1) * 1 * 4) 3 z ->
                Z.max 1 z = 1501199875790167)
  /\ (ticks_per_bar (2 ^ 53 + 1) 1 4 = Ok (2 ^ 53)
      /\ ~ nearest_integer ((2 ^ 53 + 1) * 1 * 4) 4 (2 ^ 53)
      /\ forall z, nearest_integer ((2 ^ 53 + 1) * 1 * 4) 4 z ->
                   Z.max 1 z = 2 ^ 53 + 1)
  /\ ticks_per_bar 1 1 (2 ^ 1024) = Raise OverflowError.
Proof.
  unfold nearest_integer. split_and!.
  - vm_compute. reflexivity.
  - change (2 ^ 50) with 1125899906842624. lia.
  - change (2 ^ 50) with 1125899906842624. intros z Hz. lia.
  - vm_compute. reflexivity.
  - change (2 ^ 53) with 9007199254740992. lia.
  - change (2 ^ 53) with 9007199254740992. intros z Hz. lia.
  - vm_compute. reflexivity.
Qed.

(** The guard [max(1, ...)] is part of the result: at resolution 1 in 1/16
    the product is one quarter, whose nearest integer is 0, and
    [ticks_per_bar] returns 1. *)
Lemma ticks_per_bar_1_1_16 :
  ticks_per_bar 1 1 16 = Ok 1 /\ nearest_integer (1 * 1 * 4) 16 0.
Proof. split; [vm_compute; reflexivity|]. unfold nearest_integer. lia. Qed.

(** At a tie either neighbour can come out: [3 * 7 * 4 / 24] is 3.5, and
    [ticks_per_bar] returns 3 where rounding the exact quotient to even
    gives 4, the binary64 quotient [4.0 / 24] being below one sixth. *)
Lemma ticks_per_bar_3_7_24 :
  ticks_per_bar 3 7 24 = Ok 3
  /\ nearest_integer (3 * 7 * 4) 24 3
  /\ round_half_even (3 * 7 * 4) 24 = 4.
Proof.
  split; [vm_compute; reflexivity|]. split; [|vm_compute; reflexivity].
  unfold nearest_integer. lia.
Qed.

(** ** Negative numbers

    Rounding looks at the magnitude only, so the operations commute with a
    change of sign. *)

Lemma binary_round_aux_opp s m e l :
  binary_round_aux Float.prec Float.emax (negb s) m e l
  = SFopp (binary_round_aux Float.prec Float.emax s m e l).
Proof.
  unfold binary_round_aux.
  destruct (shr_fexp Float.prec Float.emax m e l) as [mrs' e'].
  destruct (shr_fexp Float.prec Float.emax _ e' loc_Exact) as [mrs'' e''].
  destruct (shr_m mrs''); [done| |done].
  by destruct (e'' <=? Float.emax - Float.prec).
Qed.

Lemma of_int_opp (n : Z) x :
  0 < n -> Float.of_int n = Ok x -> Float.of_int (- n) = Ok (SFopp x).
Proof.
  intros Hn. destruct n as [|a|a]; [lia| |lia].
  unfold Float.of_int. simpl. unfold binary_round.
  destruct (shl_align a 0 _) as [mz ez].
  rewrite (binary_round_aux_opp false).
  destruct (binary_round_aux Float.prec Float.emax false (Z.pos mz) ez loc_Exact);
    simpl; intros Hx; try discriminate; by injection Hx as <-.
Qed.

Lemma Qval_pos_finite x :
  (0 < Qval x)%Q -> exists m e, x = S754_finite false m e.
Proof.
  destruct x as [| | |[] m e]; simpl; intros Hx; try lra; [|by eauto].
  pose proof (pow2_pos e).
  assert (0 < inject_Z (Zpos m))%Q by (rewrite <- (Zlt_Qlt 0); done). nra.
Qed.

Lemma mul_opp_r x y :
  (0 < Qval x)%Q -> (0 < Qval y)%Q ->
  Float.mul x (SFopp y) = SFopp (Float.mul x y).
Proof.
  intros (mx & ex & ->)%Qval_pos_finite (my & ey & ->)%Qval_pos_finite.
  apply (binary_round_aux_opp false).
Qed.

Lemma mul_opp_l x y :
  (0 < Qval x)%Q -> (0 < Qval y)%Q ->
  Float.mul (SFopp x) y = SFopp (Float.mul x y).
Proof.
  intros (mx & ex & ->)%Qval_pos_finite (my & ey & ->)%Qval_pos_finite.
  apply (binary_round_aux_opp false).
Qed.

Lemma round_opp x r :
  (0 < Qval x)%Q -> Float.round x = Ok r -> Float.round (SFopp x) = Ok (- r).
Proof.
  intros (m & e & ->)%Qval_pos_finite. simpl. intros Hr. by injection Hr as <-.
Qed.

(** The steps of [ticks_per_bar] for a positive numerator: every
    intermediate float is a positive normal number, and what [round] returns
    is within one half of [tpb * numerator * 4 / denominator]. *)
Lemma ticks_per_bar_steps (tpb numerator denominator : Z) :
  0 < tpb < 2 ^ 53 -> 0 < numerator -> tpb * numerator < 2 ^ 48 ->
  1 <= denominator < 2 ^ 53 ->
  exists d q n t r,
    Float.of_int denominator = Ok d /\ Float.div Float.four d = Ok q
    /\ Float.of_int numerator = Ok n /\ Float.of_int tpb = Ok t
    /\ (0 < Qval q)%Q /\ (0 < Qval n)%Q /\ (0 < Qval t)%Q
    /\ (0 < Qval (Float.mul n q))%Q
    /\ (0 < Qval (Float.mul t (Float.mul n q)))%Q
    /\ Float.round (Float.mul t (Float.mul n q)) = Ok r
    /\ nearest_integer (tpb * numerator * 4) denominator r.
Proof.
  intros Htpb Hnum Hprod Hden.
  destruct (of_int_normal denominator ltac:(lia)) as (d & Hd & Hdn & Hdv).
  destruct Qval_four as [H4n H4v].
  destruct (div_approximates (-50) (-50) (-52) 0 Float.four d H4n Hdn)
    as (q & Hq & Hqn & Hqa); [lia|lia|].
  destruct (of_int_normal tpb ltac:(lia)) as (t & Ht & Htn & Htv).
  assert (Hnum53 : 0 < numerator < 2 ^ 53).
  { split; [lia|]. assert (numerator <= tpb * numerator) by nia.
    assert (2 ^ 48 < 2 ^ 53) by done. lia. }
  destruct (of_int_normal numerator Hnum53) as (n & Hn & Hnn & Hnv).
  destruct (mul_approximates (-52) 0 (-50 - 0 - 53) (-50 - -52 - 51) n q Hnn Hqn)
    as [Hbn Hba]; [lia|lia|].
  set (b := Float.mul n q) in *.
  destruct (mul_approximates (-52) 0 _ _ t b Htn Hbn) as [Hpn Hpa]; [lia|lia|].
  set (p := Float.mul t b) in *.
  destruct (round_normal _ _ p Hpn) as (r & Hr & Hr1 & Hr2).
  pose proof (Qval_normal_pos _ _ _ Hqn) as Hq0.
  pose proof (Qval_normal_pos _ _ _ Hnn) as Hn0.
  pose proof (Qval_normal_pos _ _ _ Htn) as Ht0.
  pose proof (Qval_normal_pos _ _ _ Hbn) as Hb0.
  pose proof (Qval_normal_pos _ _ _ Hpn) as Hp0.
  exists d, q, n, t, r. split_and!; try done.
  unfold approximates in Hqa, Hba, Hpa.
  destruct Hqa as [Hq1 Hq2], Hba as [Hb1 Hb2], Hpa as [Hp1 Hp2].
  rewrite H4v, Hdv in Hq1, Hq2. rewrite Hnv in Hb1, Hb2. rewrite Htv in Hp1, Hp2.
  destruct (three_roundings (inject_Z denominator) (inject_Z numerator)
              (inject_Z tpb) (Qval q) (Qval b) (Qval p) (inject_Z r)
              (inject_Z (tpb * numerator * 4)))
    as [Hup Hdown]; try done.
  - rewrite <- (Zlt_Qlt 0). lia.
  - rewrite <- (Zle_Qle 0). lia.
  - rewrite <- (Zle_Qle 0). lia.
  - by apply Qlt_le_weak.
  - by apply Qlt_le_weak.
  - by apply Qlt_le_weak.
  - rewrite !inject_Z_mult. change (inject_Z 4) with 4%Q. ring.
  - rewrite <- (pow2_inject 50) by done. rewrite <- Zle_Qle.
    change (2 ^ 50) with (2 ^ 48 * 4). lia.
  - unfold nearest_integer.
    assert (Hz1 : 2 * (r * denominator)
                  < denominator + 1 + 2 * (tpb * numerator * 4)).
    { rewrite Zlt_Qlt. rewrite !inject_Z_plus, !inject_Z_mult.
      rewrite !inject_Z_mult in Hup. change (inject_Z 2) with 2%Q.
      change (inject_Z 1) with 1%Q. lra. }
    assert (Hz2 : 2 * (tpb * numerator * 4)
                  < denominator + 1 + 2 * (r * denominator)).
    { rewrite Zlt_Qlt. rewrite !inject_Z_plus, !inject_Z_mult.
      rewrite !inject_Z_mult in Hdown. change (inject_Z 2) with 2%Q.
      change (inject_Z 1) with 1%Q. lra. }
    lia.
Qed.

(** C6 (amended).  For a resolution [0 < tpb < 2^53], a numerator of
    either sign with [|tpb * numerator| < 2^48] and a denominator from 1
    below [2^53], [ticks_per_bar] returns the larger of 1 and a nearest
    integer to [tpb * numerator * 4 / denominator] (at a tie, one of the two
    neighbours); the result is never less than 1. *)
Theorem ticks_per_bar_is_max_1_of_nearest (tpb numerator denominator : Z) :
  0 < tpb < 2 ^ 53 -> - 2 ^ 48 < tpb * numerator < 2 ^ 48 ->
  1 <= denominator < 2 ^ 53 ->
  exists bar_len rounded,
    ticks_per_bar tpb numerator denominator = Ok bar_len
    /\ bar_len = Z.max 1 rounded
    /\ nearest_integer (tpb * numerator * 4) denominator rounded
    /\ 1 <= bar_len.
Proof.
  intros Htpb Hprod Hden.
  enough (Hr : exists rounded,
             ticks_per_bar tpb numerator denominator = Ok (Z.max 1 rounded)
             /\ nearest_integer (tpb * numerator * 4) denominator rounded).
  { destruct Hr as (rounded & Ht & Hn). exists (Z.max 1 rounded), rounded.
    split_and!; [done|done|done|lia]. }
  unfold ticks_per_bar.
  destruct (Z.lt_trichotomy numerator 0) as [Hneg|[->|Hpos]].
  - destruct (ticks_per_bar_steps tpb (- numerator) denominator)
      as (d & q & n & t & r & Hd & Hq & Hn & Ht & Hq0 & Hn0 & Ht0 & Hb0 & Hp0
          & Hr & Hnear); [lia|lia|lia|lia|].
    apply of_int_opp in Hn; [|lia]. rewrite Z.opp_involutive in Hn.
    rewrite Hd, bind_Ok_l, Hq, bind_Ok_l, Hn, bind_Ok_l, Ht, bind_Ok_l.
    rewrite mul_opp_l, mul_opp_r by done.
    rewrite (round_opp _ _ Hp0 Hr), bind_Ok_l.
    exists (- r). split; [done|]. unfold nearest_integer in *. lia.
  - destruct (of_int_normal denominator ltac:(lia)) as (d & Hd & Hdn & Hdv).
    destruct Qval_four as [H4n H4v].
    destruct (div_approximates (-50) (-50) (-52) 0 Float.four d H4n Hdn)
      as (q & Hq & Hqn & Hqa); [lia|lia|].
    destruct (of_int_normal tpb ltac:(lia)) as (t & Ht & Htn & Htv).
    rewrite Hd, bind_Ok_l, Hq, bind_Ok_l, of_int_zero, bind_Ok_l, Ht, bind_Ok_l.
    exists 0. split.
    + destruct q as [| | |[] mq eq]; try done.
      destruct t as [| | |[] mt et]; try done.
    + unfold nearest_integer. lia.
  - destruct (ticks_per_bar_steps tpb numerator denominator)
      as (d & q & n & t & r & Hd & Hq & Hn & Ht & _ & _ & _ & _ & _ & Hr & Hnear);
      [lia|lia|lia|lia|].
    rewrite Hd, bind_Ok_l, Hq, bind_Ok_l, Hn, bind_Ok_l, Ht, bind_Ok_l.
    rewrite Hr, bind_Ok_l. by exists r.
Qed.

Lemma ticks_per_bar_is_max_1_of_nearest_witness :
  exists bar_len rounded,
    ticks_per_bar 100 7 3 = Ok bar_len
    /\ bar_len = Z.max 1 rounded
    /\ nearest_integer (100 * 7 * 4) 3 rounded
    /\ 1 <= bar_len.
Proof.
  apply (ticks_per_bar_is_max_1_of_nearest 100 7 3); [lia|lia|lia].
Defined.

(* ===================================================================== *)
(** * Where the bars of a phrase come from                                *)
(* ===================================================================== *)

Lemma extract_clean_bars_ticks mid bars bar_len bar :
  extract_clean_bars mid = Ok bars ->
  bar_len_of mid = Ok bar_len ->
  bar ∈ bars ->
  Forall (fun ev : event => 0 <= ev.1 < bar_len) bar.
Proof.
  intros He HL Hbar.
  destruct (extract_clean_bars_spec mid bars He) as (L & HL' & HL1 & Hall).
  rewrite HL in HL'. injection HL' as <-.
  destruct (Hall bar Hbar) as (b & Hb & [Hc _ _ _]).
  set (w := window (b * bar_len) ((b + 1) * bar_len) (iter_abs_messages mid)) in *.
  assert (Hfst : bar.*1 = map (fun ev : event => ev.1 - b * bar_len) w)
    by (rewrite Hc; apply to_bar_fst).
  apply Forall_forall. intros ev Hev.
  assert (Hin : ev.1 ∈ bar.*1) by (apply list_elem_of_fmap; eauto).
  rewrite Hfst in Hin. apply list_elem_of_fmap in Hin as (ev' & -> & Hev').
  apply window_bounds in Hev'. lia.
Qed.

Lemma build_pool_cons name mid midis st :
  build_pool ((name, mid) :: midis) st =
    (bars_list ← extract_clean_bars mid;
     if decide (bars_list = []) then build_pool midis st
     else build_pool midis
            {| pool := pool st
                       ++ imap (fun i b => (ticks_per_beat mid, name, i, b)) bars_list;
               base_tempo := Some (default (get_tempo mid) (base_tempo st));
               base_ts := Some (default (get_time_signature mid) (base_ts st)) |}).
Proof.
  simpl. destruct (extract_clean_bars mid) as [[|b bars]|e]; [done| |done].
  simpl. by destruct (base_tempo st), (base_ts st).
Qed.

Lemma build_pool_entries_gen all midis st0 st :
  (forall x, x ∈ midis -> x ∈ all) ->
  build_pool midis st0 = Ok st ->
  Forall (from_sources all) (pool st0) ->
  Forall (from_sources all) (pool st).
Proof.
  revert st0. induction midis as [|[name mid] midis IH]; intros st0 Hsub.
  - by intros [= <-].
  - rewrite build_pool_cons. intros Hb H0.
    apply bind_Ok in Hb as (bars & Hbars & Hb).
    assert (Hsub' : forall x, x ∈ midis -> x ∈ all)
      by (intros x Hx; apply Hsub; by right).
    case_decide as Hne; [by eapply IH|].
    eapply IH; [done|exact Hb|]. simpl. apply Forall_app. split; [done|].
    apply Forall_forall. intros e He.
    apply list_elem_of_lookup in He as (i & Hi).
    apply list_lookup_imap_Some in Hi as (b' & Hb' & ->).
    exists name, mid, bars. split_and!; [apply Hsub; left|done|done|].
    simpl. by eapply list_elem_of_lookup_2.
Qed.

Lemma build_pool_entries midis st :
  build_pool midis empty_pool = Ok st -> Forall (from_sources midis) (pool st).
Proof.
  intros Hb. eapply build_pool_entries_gen; [|exact Hb|constructor]. done.
Qed.

Lemma make_phrase_within shuffled pos ph :
  make_phrase shuffled pos = Ok ph -> Forall (fun e => e ∈ shuffled) ph.
Proof.
  unfold make_phrase. intros Hm. apply mapM_Ok_Forall2 in Hm.
  induction Hm as [|k e ks es Hk _ IH]; constructor; [|done].
  apply bind_Ok in Hk as (i & _ & Hk). by eapply py_getitem_Ok_elem.
Qed.

Lemma choices_loop_within n shuffled pos cs :
  choices_loop n shuffled pos = Ok cs ->
  Forall (Forall (fun e => e ∈ shuffled)) cs.
Proof.
  revert pos cs. induction n as [|n IH]; intros pos cs; simpl.
  - intros [= <-]. constructor.
  - intros Hc. apply bind_Ok in Hc as (ph & Hph & Hc).
    apply bind_Ok in Hc as (pos' & _ & Hc).
    apply bind_Ok in Hc as (rest & Hrest & Hc). injection Hc as <-.
    constructor; [by eapply make_phrase_within|by eapply IH].
Qed.

Section TableWithin.
Context {G : Type} `{PRNG G}.

Lemma mozart_table_loop_within turns pool h (g : G) t h' g' :
  mozart_dice_game_gui.table_loop turns pool h g = Ok (t, h', g') ->
  (pool < length h)%nat ->
  table_within (deref h pool) t.
Proof.
  revert h g t h' g'. induction turns as [|turns IH]; intros h g t h' g'; simpl.
  - intros [= <- <- <-] _. constructor.
  - rewrite mozart_table_turn_eq. intros Ht Hp.
    apply bind_Ok in Ht as ([[cs h1] g1] & E1 & Ht).
    apply bind_Ok in E1 as (cs' & Hcs & E1). injection E1 as <- <- <-.
    apply bind_Ok in Ht as ([[t2 h2] g2] & E2 & Ht). injection Ht as <- <- <-.
    apply IH in E2; [|rewrite length_app; lia].
    rewrite deref_alloc_old in E2 by done.
    constructor; [|done].
    apply choices_loop_within in Hcs.
    eapply Forall_impl; [exact Hcs|]. intros ph Hph.
    eapply Forall_impl; [exact Hph|]. intros e He. simpl in He.
    by rewrite shuffle_Permutation in He.
Qed.

Lemma spin_table_loop_within turns pool h (g : G) t h' g' P :
  spin_game_gui.table_loop turns pool h g = Ok (t, h', g') ->
  (pool < length h)%nat ->
  deref h pool ≡ₚ P ->
  table_within P t.
Proof.
  revert h g t h' g'. induction turns as [|turns IH]; intros h g t h' g'; simpl.
  - intros [= <- <- <-] _ _. constructor.
  - intros Ht Hp HP. rewrite spin_table_turn_eq in Ht by done.
    apply bind_Ok in Ht as ([[cs h1] g1] & E1 & Ht).
    apply bind_Ok in E1 as (cs' & Hcs & E1). injection E1 as <- <- <-.
    apply bind_Ok in Ht as ([[t2 h2] g2] & E2 & Ht). injection Ht as <- <- <-.
    apply IH in E2; [|by rewrite length_insert|].
    2:{ rewrite deref_insert_eq by done. by rewrite shuffle_Permutation. }
    constructor; [|done].
    apply choices_loop_within in Hcs.
    eapply Forall_impl; [exact Hcs|]. intros ph Hph.
    eapply Forall_impl; [exact Hph|]. intros e He. simpl in He.
    by rewrite shuffle_Permutation, HP in He.
Qed.

(* ===================================================================== *)
(** * Where the assembler puts the events                                 *)
(* ===================================================================== *)

Lemma place_phrase_app tpb_out L ph events t :
  place_phrase tpb_out L ph events t
  = (r ← place_phrase tpb_out L ph [] t; Ok (events ++ r.1, r.2)).
Proof.
  revert events t. induction ph as [|[[[src_tpb name] idx] bar] ph IH];
    intros events t; simpl.
  - by rewrite app_nil_r.
  - destruct (scale_of tpb_out src_tpb) as [scale|]; [|done]. simpl.
    destruct (rel_abs scale bar) as [ra|]; [|done]. simpl.
    rewrite (IH (events ++ _)), (IH (rebase t ra)).
    destruct (place_phrase tpb_out L ph [] (t + L)) as [[evs t']|]; [|done].
    simpl. by rewrite app_assoc.
Qed.

Lemma rel_abs_spec scale bar ra ev :
  rel_abs scale bar = Ok ra -> ev ∈ ra ->
  exists rt, (rt, ev.2) ∈ bar /\ scale_tick scale rt = Ok ev.1.
Proof.
  unfold rel_abs. intros Hm Hev. apply mapM_Ok_Forall2 in Hm.
  induction Hm as [|[rt m] y bar' ra' Hy _ IH]; [by apply elem_of_nil in Hev|].
  apply elem_of_cons in Hev as [->|Hev].
  - simpl in Hy. apply bind_Ok in Hy as (r & Hr & Hy). injection Hy as <-.
    exists rt. split; [left|done].
  - destruct (IH Hev) as (rt' & Hin & Hs). exists rt'. split; [by right|done].
Qed.

Lemma place_phrase_spec tpb_out L ph t evs t' :
  place_phrase tpb_out L ph [] t = Ok (evs, t') ->
  t' = t + Z.of_nat (length ph) * L
  /\ forall ev, ev ∈ evs -> placed_at tpb_out L t ph ev.
Proof.
  revert t evs t'. induction ph as [|[[[src_tpb name] idx] bar] ph IH];
    intros t evs t'; simpl.
  - intros [= <- <-]. split; [lia|]. by intros ev ?%elem_of_nil.
  - intros Hp. apply bind_Ok in Hp as (scale & Hscale & Hp).
    apply bind_Ok in Hp as (ra & Hra & Hp).
    rewrite place_phrase_app in Hp.
    apply bind_Ok in Hp as ([evs2 t2] & Hrest & Hp). simpl in Hp.
    injection Hp as <- <-.
    destruct (IH _ _ _ Hrest) as [-> Hevs2]. split; [lia|].
    intros ev [Hev|Hev]%elem_of_app.
    + unfold rebase in Hev. apply list_elem_of_fmap in Hev as (ev0 & -> & Hev0).
      destruct (rel_abs_spec _ _ _ _ Hra Hev0) as (rt & Hin & Hs).
      exists 0%nat, (src_tpb, name, idx, bar), rt, scale, ev0.1.
      split_and!; [done|by exists ev0.2|done|done|simpl; lia].
    + destruct (Hevs2 ev Hev) as (k & entry & rt & sc & r & Hk & Hm & Hsc & Hr & Ht).
      exists (S k), entry, rt, sc, r. split_and!; [done|done|done|done|]. lia.
Qed.

Lemma table_shape_lookup dice_table i row total ph :
  table_shape dice_table ->
  py_getitem dice_table (Z.of_nat i) = Ok row ->
  py_getitem row (clamp_total total - 2) = Ok ph ->
  length ph = 4%nat.
Proof.
  unfold table_shape. rewrite !Forall_forall. intros Hshape Hrow Hph.
  apply py_getitem_Ok_elem in Hrow, Hph.
  destruct (Hshape row Hrow) as [_ Hall]. rewrite Forall_forall in Hall. auto.
Qed.

Lemma py_getitem_Ok_lookup {A} (l : list A) (i : Z) a :
  0 <= i -> py_getitem l i = Ok a -> l !! Z.to_nat i = Some a.
Proof.
  intros Hi. unfold py_getitem.
  destruct (Z.ltb_spec i 0); [lia|].
  destruct (_ && _); [|discriminate].
  destruct (l !! Z.to_nat i); [|discriminate]. by intros [= ->].
Qed.

Lemma assemble_parts st dice_table spins tpb_out out trace :
  assemble st dice_table spins tpb_out = Ok (out, trace) ->
  exists L events log_lines,
    ticks_per_bar tpb_out (out_meter st).1 (out_meter st).2 = Ok L
    /\ assemble_loop tpb_out L dice_table 0 spins [] 0 [] = Ok (events, log_lines)
    /\ out = build_midi tpb_out (out_meter st).1 (out_meter st).2 (out_tempo st) events
    /\ trace = join newline log_lines.
Proof.
  unfold assemble, out_meter, out_tempo.
  destruct (default (4, 4) (base_ts st)) as [num den]. intros Ha.
  apply bind_Ok in Ha as (L & HL & Ha).
  apply bind_Ok in Ha as ([events log_lines] & Hloop & Ha). injection Ha as <- <-.
  by exists L, events, log_lines.
Qed.
(** The assembly loop turn by turn: the phrase looked up, its line of the
    trace and its events. *)
Lemma assemble_loop_turns tpb_out L dice_table spins :
  table_shape dice_table ->
  forall spin_idx events log_lines events' log_lines',
    assemble_loop tpb_out L dice_table spin_idx spins events
      (Z.of_nat spin_idx * 4 * L) log_lines = Ok (events', log_lines') ->
    exists (phs : list phrase) (chunks : list (list event)),
      length phs = length spins /\ length chunks = length spins
      /\ events' = events ++ concat chunks
      /\ log_lines'
         = log_lines
           ++ imap (fun i (tp : Z * phrase) =>
                      log_line (spin_idx + i) (clamp_total tp.1) tp.2)
                (zip spins phs)
      /\ forall j total, spins !! j = Some total ->
           exists row ph chunk,
             dice_table !! (spin_idx + j)%nat = Some row
             /\ row !! Z.to_nat (clamp_total total - 2) = Some ph
             /\ phs !! j = Some ph /\ chunks !! j = Some chunk
             /\ fst <$> place_phrase tpb_out L ph []
                          (Z.of_nat (spin_idx + j) * 4 * L) = Ok chunk.
Proof.
  intros Hshape. induction spins as [|total spins IH];
    intros spin_idx events log_lines events' log_lines'; simpl.
  - intros [= <- <-]. exists [], []. simpl. rewrite !app_nil_r.
    split_and!; try done.
  - intros Ha. apply bind_Ok in Ha as (row & Hrow & Ha).
    apply bind_Ok in Ha as (ph & Hph & Ha).
    apply bind_Ok in Ha as ([events1 t1] & Hplace & Ha).
    rewrite place_phrase_app in Hplace.
    apply bind_Ok in Hplace as ([chunk t2] & Hchunk & Hplace).
    simpl in Hplace. injection Hplace as <- <-.
    destruct (place_phrase_spec _ _ _ _ _ _ Hchunk) as [-> _].
    rewrite (table_shape_lookup _ _ _ _ _ Hshape Hrow Hph) in Ha.
    replace (Z.of_nat spin_idx * 4 * L + Z.of_nat 4 * L)
      with (Z.of_nat (S spin_idx) * 4 * L) in Ha by lia.
    destruct (IH _ _ _ _ _ Ha) as (phs & chunks & Hlp & Hlc & -> & -> & Hall).
    pose proof (clamp_total_range total) as Hc.
    apply py_getitem_Ok_lookup in Hrow; [|lia]. rewrite Nat2Z.id in Hrow.
    apply py_getitem_Ok_lookup in Hph; [|lia].
    exists (ph :: phs), (chunk :: chunks). split_and!.
    + simpl. by rewrite Hlp.
    + simpl. by rewrite Hlc.
    + simpl. by rewrite <- app_assoc.
    + rewrite <- app_assoc. f_equal. simpl. rewrite Nat.add_0_r. f_equal.
      apply imap_ext. intros i x _. simpl. f_equal. lia.
    + intros [|j] total' Hj; simpl in Hj.
      * injection Hj as <-. exists row, ph, chunk.
        rewrite Nat.add_0_r, Hchunk. by split_and!.
      * destruct (Hall j total' Hj) as (row' & ph' & c & ? & ? & ? & ? & ?).
        exists row', ph', c.
        by replace (spin_idx + S j)%nat with (S spin_idx + j)%nat by lia.
Qed.

Lemma place_phrase_bars tpb_out L t0 ph :
  forall (k0 : nat) evs t',
    place_phrase tpb_out L ph [] (t0 + Z.of_nat k0 * L) = Ok (evs, t') ->
    exists bars : list (list event),
      evs = concat bars
      /\ Forall2 (fun (ke : nat * pool_entry) (bar : list event) =>
                    exists scale,
                      scale_of tpb_out ke.2.1.1.1 = Ok scale
                      /\ Forall2 (fun (src ev : event) =>
                                    exists r, scale_tick scale src.1 = Ok r
                                              /\ ev = (t0 + Z.of_nat ke.1 * L + r, src.2))
                           ke.2.2 bar)
           (imap (fun k e => ((k0 + k)%nat, e)) ph) bars.
Proof.
  induction ph as [|[[[src_tpb name] idx] bar] ph IH]; intros k0 evs t'; simpl.
  - intros [= <- <-]. exists []. split; [done|constructor].
  - intros Hp. apply bind_Ok in Hp as (scale & Hscale & Hp).
    apply bind_Ok in Hp as (ra & Hra & Hp).
    rewrite place_phrase_app in Hp.
    apply bind_Ok in Hp as ([evs2 t2] & Hrest & Hp). simpl in Hp.
    injection Hp as <- <-.
    replace (t0 + Z.of_nat k0 * L + L) with (t0 + Z.of_nat (S k0) * L) in Hrest by lia.
    destruct (IH _ _ _ Hrest) as (bars & -> & Hbars).
    exists (rebase (t0 + Z.of_nat k0 * L) ra :: bars). split; [done|].
    constructor.
    + simpl. exists scale. split; [done|]. rewrite Nat.add_0_r.
      unfold rebase. apply Forall2_fmap_r.
      unfold rel_abs in Hra. apply mapM_Ok_Forall2 in Hra.
      eapply Forall2_impl; [exact Hra|]. intros src y Hy. simpl in Hy.
      apply bind_Ok in Hy as (r & Hr & Hy). injection Hy as <-.
      exists r. done.
    + erewrite imap_ext; [exact Hbars|]. intros k e _. simpl. f_equal. lia.
Qed.

End TableWithin.

Section Placement.
Context {G : Type} `{PRNG G}.

Lemma scale_of_nonneg tpb_out src_tpb scale :
  0 <= tpb_out -> 0 <= src_tpb ->
  scale_of tpb_out src_tpb = Ok scale -> nonneg scale.
Proof.
  intros Ho Hs. unfold scale_of. intros Hsc.
  apply bind_Ok in Hsc as (s & Es & Hsc). apply bind_Ok in Hsc as (o & Eo & Hsc).
  apply (div_nonneg o s scale); [| |exact Hsc].
  - eapply of_int_nonneg; [|exact Eo]. done.
  - eapply of_int_nonneg; [|exact Es]. done.
Qed.

Lemma scale_tick_nonneg scale rt r :
  nonneg scale -> 0 <= rt -> scale_tick scale rt = Ok r -> 0 <= r.
Proof.
  intros Hsc Hrt. unfold scale_tick. intros Hr.
  apply bind_Ok in Hr as (f & Ef & Hr).
  eapply round_nonneg; [|exact Hr]. apply mul_nonneg; [|done].
  eapply of_int_nonneg; [|exact Ef]. done.
Qed.

(** At the output's own resolution the scale is 1.0 and ticks are kept. *)
Lemma scale_of_same tpb :
  0 < tpb < 2 ^ 53 -> scale_of tpb tpb = Ok (dyadic 1 0).
Proof.
  intros Ht. destruct tpb as [|t|t]; [lia| |lia].
  unfold scale_of. rewrite (of_int_exact t), !bind_Ok_l by lia.
  unfold Float.div, dyadic. simpl Float.is_zero. cbv iota. f_equal.
  apply SFdiv_same. by destruct (dyadic_mantissa t ltac:(lia)) as (_ & _ & ?).
Qed.

Lemma scale_tick_one rt :
  0 <= rt < 2 ^ 53 -> scale_tick (dyadic 1 0) rt = Ok rt.
Proof.
  intros Hrt. unfold scale_tick. destruct rt as [|p|p]; [done| |lia].
  rewrite (of_int_exact p), bind_Ok_l by lia.
  pose proof (Zdigits2_lt_pow2 (Zpos p) 53 ltac:(lia) ltac:(lia) ltac:(lia)) as Hd.
  simpl in Hd.
  rewrite (mul_dyadic p 0 1 0); rewrite ?Pos.mul_1_r; [|lia|lia].
  rewrite round_dyadic by lia. simpl. f_equal. lia.
Qed.

(** Decomposition of a successful run, for each program. *)
Lemma mozart_build_from_spins_Ok (os_entropy : G) midis spins tpb_out seed r :
  mozart_dice_game_gui.build_from_spins os_entropy midis spins tpb_out seed = Ok r ->
  exists st dice_table,
    build_pool midis empty_pool = Ok st
    /\ pool st <> []
    /\ table_shape dice_table /\ table_within (pool st) dice_table
    /\ length dice_table = length spins
    /\ assemble st dice_table spins tpb_out = Ok r.
Proof.
  rewrite mozart_build_from_spins_eq. intros Hb.
  apply bind_Ok in Hb as (st & Hst & Hb).
  destruct (pool st) as [|p ps] eqn:Ep; [discriminate|].
  destruct (mozart_table_loop_spec (length spins) 0%nat [p :: ps]
              (Random os_entropy seed))
    as (t & h' & g' & Ht & Hl & Hsh & _); [done|].
  pose proof (mozart_table_loop_within _ _ _ _ _ _ _ Ht ltac:(simpl; lia)) as Hw.
  rewrite Ht in Hb. simpl in Hb.
  exists st, t. rewrite Ep. split_and!; done.
Qed.

Lemma spin_build_from_spins_Ok (os_entropy : G) midis spins tpb_out seed r :
  spin_game_gui.build_from_spins os_entropy midis spins tpb_out seed = Ok r ->
  exists st dice_table,
    build_pool midis empty_pool = Ok st
    /\ pool st <> []
    /\ table_shape dice_table /\ table_within (pool st) dice_table
    /\ length dice_table = length spins
    /\ assemble st dice_table spins tpb_out = Ok r.
Proof.
  rewrite spin_build_from_spins_eq. intros Hb.
  apply bind_Ok in Hb as (st & Hst & Hb).
  destruct (pool st) as [|p ps] eqn:Ep; [discriminate|].
  destruct (spin_table_loop_spec (length spins) 0%nat [p :: ps]
              (Random os_entropy seed))
    as (t & h' & g' & Ht & Hl & Hsh & _); [done|].
  pose proof (spin_table_loop_within _ _ _ _ _ _ _ (p :: ps) Ht
                ltac:(simpl; lia) ltac:(done)) as Hw.
  rewrite Ht in Hb. simpl in Hb.
  exists st, t. rewrite Ep. split_and!; done.
Qed.

Lemma mozart_build_from_spins_table (os_entropy : G) midis spins tpb_out seed r :
  mozart_dice_game_gui.build_from_spins os_entropy midis spins tpb_out seed = Ok r ->
  exists st dice_table,
    build_pool midis empty_pool = Ok st
    /\ mozart_dice_table os_entropy seed st (length spins) = Ok dice_table
    /\ table_shape dice_table /\ length dice_table = length spins
    /\ table_within (pool st) dice_table
    /\ assemble st dice_table spins tpb_out = Ok r.
Proof.
  rewrite mozart_build_from_spins_eq. intros Hb.
  apply bind_Ok in Hb as (st & Hst & Hb).
  destruct (pool st) as [|p ps] eqn:Ep; [discriminate|].
  destruct (mozart_table_loop_spec (length spins) 0%nat [p :: ps]
              (Random os_entropy seed))
    as (t & h' & g' & Ht & Hl & Hsh & _); [done|].
  pose proof (mozart_table_loop_within _ _ _ _ _ _ _ Ht ltac:(simpl; lia)) as Hw.
  rewrite Ht in Hb. simpl in Hb.
  exists st, t. unfold mozart_dice_table. rewrite Ep, Ht. split_and!; done.
Qed.

Lemma spin_build_from_spins_table (os_entropy : G) midis spins tpb_out seed r :
  spin_game_gui.build_from_spins os_entropy midis spins tpb_out seed = Ok r ->
  exists st dice_table,
    build_pool midis empty_pool = Ok st
    /\ spin_dice_table os_entropy seed st (length spins) = Ok dice_table
    /\ table_shape dice_table /\ length dice_table = length spins
    /\ table_within (pool st) dice_table
    /\ assemble st dice_table spins tpb_out = Ok r.
Proof.
  rewrite spin_build_from_spins_eq. intros Hb.
  apply bind_Ok in Hb as (st & Hst & Hb).
  destruct (pool st) as [|p ps] eqn:Ep; [discriminate|].
  destruct (spin_table_loop_spec (length spins) 0%nat [p :: ps]
              (Random os_entropy seed))
    as (t & h' & g' & Ht & Hl & Hsh & _); [done|].
  pose proof (spin_table_loop_within _ _ _ _ _ _ _ (p :: ps) Ht
                ltac:(simpl; lia) ltac:(done)) as Hw.
  rewrite Ht in Hb. simpl in Hb.
  exists st, t. unfold spin_dice_table. rewrite Ep, Ht. split_and!; done.
Qed.

(** The events of a phrase of four bars of the pool, laid out from the
    start of turn [i]. *)
Lemma place_phrase_placed midis st tpb_out L i (ph : phrase) chunk :
  0 < tpb_out -> 1 <= L ->
  Forall (fun nm : string * MidiFile => 0 < ticks_per_beat nm.2) midis ->
  build_pool midis empty_pool = Ok st ->
  length ph = 4%nat -> Forall (fun e => e ∈ pool st) ph ->
  fst <$> place_phrase tpb_out L ph [] (Z.of_nat i * 4 * L) = Ok chunk ->
  placed_phrase tpb_out L i ph chunk.
Proof.
  intros Hout HL Hsrc Hst Hlen Hin Hp.
  destruct (place_phrase tpb_out L ph [] (Z.of_nat i * 4 * L)) as [[evs t']|] eqn:Ep;
    [|discriminate].
  simpl in Hp. injection Hp as <-.
  replace (Z.of_nat i * 4 * L) with (Z.of_nat i * 4 * L + Z.of_nat 0 * L) in Ep by lia.
  destruct (place_phrase_bars _ _ _ _ _ _ _ Ep) as (bars & -> & Hbars).
  exists bars. split; [done|].
  pose proof (build_pool_entries _ _ Hst) as Hsrcs. rewrite Forall_forall in Hsrcs.
  rewrite Forall_forall in Hin. rewrite Forall_forall in Hsrc.
  assert (Hk : Forall (fun ke : nat * pool_entry => (ke.1 < 4)%nat /\ ke.2 ∈ ph)
                 (imap pair ph)).
  { apply Forall_lookup. intros k [k' e] Hke.
    rewrite list_lookup_imap in Hke.
    destruct (ph !! k) as [e'|] eqn:Ee; [|discriminate]. simpl in Hke.
    injection Hke as <- <-. simpl. split.
    - apply lookup_lt_Some in Ee. lia.
    - by eapply list_elem_of_lookup_2. }
  erewrite imap_ext in Hbars; [|intros k e _; simpl; reflexivity].
  change (imap (fun k e => (k, e)) ph) with (imap pair ph) in Hbars.
  clear Ep. revert Hbars Hk. generalize (imap pair ph). intros kes0 Hbars.
  induction Hbars as [|[k entry] bar kes bars' (scale & Hscale & Hbar) _ IH];
    intros Hk.
  { constructor. }
  apply Forall_cons in Hk as [[Hk4 Hein] Hk]. simpl in *.
  constructor; [|by apply IH].
  simpl.
  destruct (Hsrcs entry (Hin entry Hein)) as (name & mid & bs & Hmid & Hext & Htpb & Hb).
  specialize (Hsrc _ Hmid). simpl in Hsrc.
  destruct (extract_clean_bars_spec mid bs Hext) as (bl & Hbl & _ & _).
  pose proof (extract_clean_bars_ticks mid bs bl entry.2 Hext Hbl Hb) as Hticks.
  clear IH. revert Hbar Hticks. generalize (entry.2). intros srcs0 Hbar.
  induction Hbar as [|src ev srcs evs (r & Hr & ->) _ IHb]; intros Hticks;
    [constructor|].
  apply Forall_cons in Hticks as [Hsrc0 Hticks].
  constructor; [|by apply IHb].
  assert (Hr0 : 0 <= r).
  { eapply scale_tick_nonneg; [|exact (proj1 Hsrc0)|exact Hr].
    eapply scale_of_nonneg; [| |exact Hscale]; lia. }
  exists scale, r. simpl. split_and!; try done; try lia; try nia.
  { f_equal. lia. }
  intros Hsame Ho53 Hrt53. rewrite Hsame, scale_of_same in Hscale by lia.
  injection Hscale as <-. rewrite scale_tick_one in Hr by lia. congruence.
Qed.

End Placement.

(* ===================================================================== *)
(** * No arithmetic exception on inputs of ordinary size                  *)
(* ===================================================================== *)

Lemma of_int_below n B :
  0 <= n -> n < 2 ^ B -> 0 <= B -> B + 1 <= 971 ->
  exists x, Float.of_int n = Ok x /\ below (B + 1) x.
Proof.
  intros Hn HnB HB HB1. destruct (decide (n = 0)) as [->|Hn0].
  - exists (S754_zero false). by split.
  - destruct (of_int_bound n B) as (x & Hx & Hp); try lia.
    exists x. split; [done|]. by eapply positive_from_below.
Qed.

Lemma ticks_per_bar_Ok tpb num den :
  - 2 ^ 64 < tpb < 2 ^ 64 -> - 2 ^ 64 < num < 2 ^ 64 ->
  den <> 0 -> - 2 ^ 64 < den < 2 ^ 64 ->
  exists L, ticks_per_bar tpb num den = Ok L /\ 1 <= L <= 2 ^ 188.
Proof.
  intros Htpb Hnum Hden0 Hden. unfold ticks_per_bar.
  destruct (of_int_nonzero den 64) as (d & -> & Hd); try lia. rewrite bind_Ok_l.
  destruct (div_sized 3 65 Float.four d) as (q & -> & Hq); try done.
  rewrite bind_Ok_l.
  destruct (of_int_sized num 64) as (n & -> & Hn); try lia. rewrite bind_Ok_l.
  destruct (of_int_sized tpb 64) as (t & -> & Ht); try lia. rewrite bind_Ok_l.
  pose proof (mul_sized 65 56 n q Hn Hq ltac:(lia) ltac:(lia)) as Hb.
  pose proof (mul_sized 65 122 t _ Ht Hb ltac:(lia) ltac:(lia)) as Hr.
  destruct (round_sized 188 _ Hr ltac:(lia)) as (z & -> & Hz). rewrite bind_Ok_l.
  eexists. split; [done|].
  assert (1 <= 2 ^ 188) by (pose proof (Z.pow_pos_nonneg 2 188); lia). lia.
Qed.

Section NoArithmeticError.
Context {G : Type} `{PRNG G}.

Lemma scale_of_Ok tpb_out src_tpb :
  - 2 ^ 64 < tpb_out < 2 ^ 64 -> src_tpb <> 0 -> - 2 ^ 64 < src_tpb < 2 ^ 64 ->
  exists scale, scale_of tpb_out src_tpb = Ok scale /\ sized 118 scale.
Proof.
  intros Ho Hs0 Hs. unfold scale_of.
  destruct (of_int_nonzero src_tpb 64) as (s & -> & Hsp); try lia. rewrite bind_Ok_l.
  destruct (of_int_sized tpb_out 64) as (o & -> & Hop); try lia. rewrite bind_Ok_l.
  destruct (div_sized 65 65 o s) as (q & -> & Hq); try done.
  by exists q.
Qed.

Lemma scale_tick_Ok scale rt :
  sized 118 scale -> 0 <= rt < 2 ^ 188 -> is_Ok (scale_tick scale rt).
Proof.
  intros Hsc Hrt. unfold scale_tick.
  destruct (of_int_sized rt 188) as (f & -> & Hf); try lia. rewrite bind_Ok_l.
  pose proof (mul_sized 189 118 f scale Hf Hsc ltac:(lia) ltac:(lia)) as Hm.
  destruct (round_sized 308 _ Hm ltac:(lia)) as (z & -> & _). by exists z.
Qed.

Lemma extract_clean_bars_Ok mid :
  ordinary_source mid ->
  exists bars bar_len,
    extract_clean_bars mid = Ok bars
    /\ bar_len_of mid = Ok bar_len /\ bar_len <= 2 ^ 188.
Proof.
  intros (Htpb0 & Htpb & Hnum & Hden0 & Hden).
  destruct (ticks_per_bar_Ok _ _ _ Htpb Hnum Hden0 Hden) as (L & HL & HL1).
  unfold extract_clean_bars, bar_len_of.
  destruct (get_time_signature mid) as [num den]. simpl in *.
  rewrite HL, bind_Ok_l.
  destruct (iter_abs_messages mid); eexists _, L; (split; [done|split; [done|lia]]).
Qed.

Lemma from_sources_ordinary midis e :
  Forall (fun nm : string * MidiFile => ordinary_source nm.2) midis ->
  from_sources midis e -> ordinary_entry e.
Proof.
  rewrite Forall_forall. intros Hord (name & mid & bars & Hin & Hext & Htpb & Hbar).
  specialize (Hord _ Hin). simpl in Hord.
  destruct (extract_clean_bars_Ok mid Hord) as (bars' & L & _ & HL & HLb).
  split; [rewrite Htpb; apply Hord|]. split; [rewrite Htpb; apply Hord|].
  pose proof (extract_clean_bars_ticks mid bars L e.2 Hext HL Hbar) as Ht.
  eapply Forall_impl; [exact Ht|]. simpl. intros; lia.
Qed.

Lemma rel_abs_Ok scale bar :
  sized 118 scale ->
  Forall (fun ev : event => 0 <= ev.1 < 2 ^ 188) bar ->
  is_Ok (rel_abs scale bar).
Proof.
  intros Hsc Hbar. unfold rel_abs. apply mapM_is_Ok.
  eapply Forall_impl; [exact Hbar|]. intros ev Hev. simpl in Hev.
  destruct (scale_tick_Ok scale ev.1 Hsc Hev) as (r & ->). by eexists.
Qed.

Lemma place_phrase_Ok tpb_out L ph events t :
  - 2 ^ 64 < tpb_out < 2 ^ 64 ->
  Forall ordinary_entry ph ->
  is_Ok (place_phrase tpb_out L ph events t).
Proof.
  intros Ho Hph. revert events t.
  induction Hph as [|[[[src_tpb name] idx] bar] ph (Htpb0 & Htpb & Hbar) _ IH];
    intros events t; simpl.
  - by eexists.
  - simpl in Htpb0, Htpb, Hbar.
    destruct (scale_of_Ok tpb_out src_tpb Ho Htpb0 Htpb) as (scale & -> & Hsc).
    rewrite bind_Ok_l.
    destruct (rel_abs_Ok scale bar Hsc Hbar) as (ra & ->). rewrite bind_Ok_l.
    apply IH.
Qed.

Lemma assemble_loop_Ok tpb_out L dice_table P spin_idx spins events t log_lines :
  - 2 ^ 64 < tpb_out < 2 ^ 64 ->
  table_shape dice_table -> table_within P dice_table ->
  Forall ordinary_entry P ->
  (spin_idx + length spins <= length dice_table)%nat ->
  is_Ok (assemble_loop tpb_out L dice_table spin_idx spins events t log_lines).
Proof.
  intros Ho Hshape Hwithin HP. revert spin_idx events t log_lines.
  induction spins as [|total spins IH]; intros spin_idx events t log_lines Hlen; simpl.
  - by eexists.
  - simpl in Hlen.
    destruct (py_getitem_nat dice_table spin_idx) as (row & Hrow & Hl); [lia|].
    rewrite Hrow, bind_Ok_l.
    assert (Hrow_in : row ∈ dice_table) by by eapply list_elem_of_lookup_2.
    assert (Hr : length row = 11%nat).
    { unfold table_shape in Hshape. rewrite Forall_forall in Hshape.
      by apply Hshape. }
    destruct (clamp_total_getitem total row Hr) as (ph & Hph & Hphl).
    rewrite Hph, bind_Ok_l.
    assert (Hord : Forall ordinary_entry ph).
    { unfold table_within in Hwithin. rewrite Forall_forall in Hwithin.
      specialize (Hwithin row Hrow_in). rewrite Forall_forall in Hwithin.
      specialize (Hwithin ph ltac:(by eapply list_elem_of_lookup_2)).
      rewrite Forall_forall in HP.
      eapply Forall_impl; [exact Hwithin|]. intros e He. by apply HP. }
    destruct (place_phrase_Ok tpb_out L ph events t Ho Hord) as ([events' t'] & ->).
    rewrite bind_Ok_l. apply IH. lia.
Qed.

Lemma build_pool_Ok midis st0 :
  Forall (fun nm : string * MidiFile => ordinary_source nm.2) midis ->
  exists st,
    build_pool midis st0 = Ok st
    /\ (pool st = [] <->
        pool st0 = []
        /\ Forall (fun nm : string * MidiFile => extract_clean_bars nm.2 = Ok []) midis)
    /\ (base_ts st = base_ts st0
        \/ exists nm, nm ∈ midis /\ base_ts st = Some (get_time_signature nm.2)).
Proof.
  intros Hord. revert st0.
  induction Hord as [|[name mid] midis Hmid _ IH]; intros st0.
  - exists st0. split_and!; [done| |by left].
    split; [by split|by intros [? _]].
  - rewrite build_pool_cons. simpl in Hmid.
    destruct (extract_clean_bars_Ok mid Hmid) as (bars & L & Hbars & _).
    rewrite Hbars, bind_Ok_l. case_decide as Hb.
    + destruct (IH st0) as (st & -> & Hempty & Hts). exists st. split_and!; [done| |].
      * rewrite Hempty. rewrite Forall_cons. simpl. rewrite Hbars, Hb. tauto.
      * destruct Hts as [?|(nm & Hin & ?)]; [by left|right].
        exists nm. split; [by right|done].
    + destruct (IH {| pool := pool st0
                         ++ imap (fun i b => (ticks_per_beat mid, name, i, b)) bars;
                      base_tempo := Some (default (get_tempo mid) (base_tempo st0));
                      base_ts := Some (default (get_time_signature mid) (base_ts st0)) |})
        as (st & -> & Hempty & Hts).
      exists st. split_and!; [done| |].
      * rewrite Hempty. simpl. rewrite Forall_cons. simpl. rewrite Hbars.
        split.
        -- intros [Happ _]. apply app_eq_nil in Happ as [_ Him].
           apply (f_equal length) in Him. rewrite length_imap in Him.
           destruct bars; [done|discriminate].
        -- intros [_ [[= ->] _]]. done.
      * destruct Hts as [Hts|(nm & Hin & ?)].
        -- simpl in Hts. destruct (base_ts st0) as [ts|] eqn:Ets; simpl in Hts.
           ++ left. congruence.
           ++ right. exists (name, mid). split; [left|done].
        -- right. exists nm. split; [by right|done].
Qed.

Lemma assemble_Ok st dice_table spins tpb_out :
  - 2 ^ 64 < tpb_out < 2 ^ 64 ->
  - 2 ^ 64 < (out_meter st).1 < 2 ^ 64 ->
  (out_meter st).2 <> 0 -> - 2 ^ 64 < (out_meter st).2 < 2 ^ 64 ->
  table_shape dice_table -> table_within (pool st) dice_table ->
  Forall ordinary_entry (pool st) ->
  length dice_table = length spins ->
  is_Ok (assemble st dice_table spins tpb_out).
Proof.
  intros Ho Hnum Hden0 Hden Hshape Hwithin HP Hlen. unfold assemble.
  unfold out_meter in Hnum, Hden0, Hden.
  destruct (default (4, 4) (base_ts st)) as [num den]. simpl in Hnum, Hden0, Hden.
  destruct (ticks_per_bar_Ok tpb_out num den Ho Hnum Hden0 Hden) as (L & -> & _).
  rewrite bind_Ok_l.
  destruct (assemble_loop_Ok tpb_out L dice_table (pool st) 0 spins [] 0 [])
    as ([events log_lines] & ->); try done; [simpl; lia|].
  rewrite bind_Ok_l. by eexists.
Qed.
End NoArithmeticError.

(* ===================================================================== *)
(** * Claims about the assembled output                                   *)
(* ===================================================================== *)

Lemma some_safe_not_none midis : some_safe midis -> ~ none_safe midis.
Proof.
  unfold some_safe, none_safe. rewrite Exists_exists, Forall_forall.
  intros (nm & Hin & b & bars & Hb) Hall. specialize (Hall nm Hin). congruence.
Qed.

Lemma ordinary_out_meter midis st :
  Forall (fun nm : string * MidiFile => ordinary_source nm.2) midis ->
  base_ts st = None
  \/ (exists nm, nm ∈ midis /\ base_ts st = Some (get_time_signature nm.2)) ->
  - 2 ^ 64 < (out_meter st).1 < 2 ^ 64
  /\ (out_meter st).2 <> 0 /\ - 2 ^ 64 < (out_meter st).2 < 2 ^ 64.
Proof.
  intros Hord [Hts|(nm & Hin & Hts)]; unfold out_meter; rewrite Hts; simpl.
  - lia.
  - rewrite Forall_forall in Hord. destruct (Hord nm Hin) as (_ & _ & ? & ? & ?). done.
Qed.

Section Settled.
Context {G : Type} `{PRNG G}.

(** What decides the outcome of a run on ordinary inputs: the pool. *)
Lemma ordinary_pool midis :
  Forall (fun nm : string * MidiFile => ordinary_source nm.2) midis ->
  exists st,
    build_pool midis empty_pool = Ok st
    /\ (pool st = [] <-> none_safe midis)
    /\ Forall ordinary_entry (pool st)
    /\ - 2 ^ 64 < (out_meter st).1 < 2 ^ 64
    /\ (out_meter st).2 <> 0 /\ - 2 ^ 64 < (out_meter st).2 < 2 ^ 64.
Proof.
  intros Hord. destruct (build_pool_Ok midis empty_pool Hord) as (st & Hst & Hempty & Hts).
  exists st. split_and!; [done| | |eapply ordinary_out_meter; eauto..].
  - rewrite Hempty. simpl. unfold none_safe. tauto.
  - pose proof (build_pool_entries _ _ Hst) as Hsrc.
    eapply Forall_impl; [exact Hsrc|]. intros e He.
    by eapply from_sources_ordinary.
Qed.

Lemma mozart_build_from_spins_settled (os_entropy : G) midis spins tpb_out seed :
  - 2 ^ 64 < tpb_out < 2 ^ 64 ->
  Forall (fun nm : string * MidiFile => ordinary_source nm.2) midis ->
  (none_safe midis /\
   mozart_dice_game_gui.build_from_spins os_entropy midis spins tpb_out seed
   = Raise no_clean_bars)
  \/ (~ none_safe midis /\
      is_Ok (mozart_dice_game_gui.build_from_spins os_entropy midis spins tpb_out seed)).
Proof.
  intros Ho Hord. rewrite mozart_build_from_spins_eq.
  destruct (ordinary_pool midis Hord) as (st & -> & Hempty & HP & Hnum & Hden0 & Hden).
  rewrite bind_Ok_l. destruct (pool st) as [|p ps] eqn:Ep.
  - left. split; [by apply Hempty|done].
  - right. split; [intros Hn; by apply Hempty in Hn|].
    destruct (mozart_table_loop_spec (length spins) 0%nat [p :: ps]
                (Random os_entropy seed))
      as (t & h' & g' & Ht & Hl & Hsh & _); [done|].
    pose proof (mozart_table_loop_within _ _ _ _ _ _ _ Ht ltac:(simpl; lia)) as Hw.
    rewrite Ht, bind_Ok_l. apply assemble_Ok; try done; by rewrite Ep.
Qed.

Lemma spin_build_from_spins_settled (os_entropy : G) midis spins tpb_out seed :
  - 2 ^ 64 < tpb_out < 2 ^ 64 ->
  Forall (fun nm : string * MidiFile => ordinary_source nm.2) midis ->
  (none_safe midis /\
   spin_game_gui.build_from_spins os_entropy midis spins tpb_out seed
   = Raise no_clean_bars)
  \/ (~ none_safe midis /\
      is_Ok (spin_game_gui.build_from_spins os_entropy midis spins tpb_out seed)).
Proof.
  intros Ho Hord. rewrite spin_build_from_spins_eq.
  destruct (ordinary_pool midis Hord) as (st & -> & Hempty & HP & Hnum & Hden0 & Hden).
  rewrite bind_Ok_l. destruct (pool st) as [|p ps] eqn:Ep.
  - left. split; [by apply Hempty|done].
  - right. split; [intros Hn; by apply Hempty in Hn|].
    destruct (spin_table_loop_spec (length spins) 0%nat [p :: ps]
                (Random os_entropy seed))
      as (t & h' & g' & Ht & Hl & Hsh & _); [done|].
    pose proof (spin_table_loop_within _ _ _ _ _ _ _ (p :: ps) Ht
                  ltac:(simpl; lia) ltac:(done)) as Hw.
    rewrite Ht, bind_Ok_l. apply assemble_Ok; try done; by rewrite Ep.
Qed.
Lemma settled_iff {A} (r : result A) midis :
  (none_safe midis /\ r = Raise no_clean_bars) \/ (~ none_safe midis /\ is_Ok r) ->
  (raises r <-> none_safe midis)
  /\ (none_safe midis -> r = Raise no_clean_bars)
  /\ (some_safe midis -> is_Ok r).
Proof.
  intros [[Hn ->]|[Hn [a ->]]]; split_and!.
  - split; [done|]. intros _. by eexists.
  - done.
  - intros Hs. by apply some_safe_not_none in Hs.
  - split; [intros [e He]; discriminate|done].
  - done.
  - intros _. by eexists.
Qed.
End Settled.

Lemma build_pool_none_safe midis st0 :
  none_safe midis -> build_pool midis st0 = Ok st0.
Proof.
  unfold none_safe. induction 1 as [|[name mid] midis Hmid _ IH]; [done|].
  rewrite build_pool_cons. simpl in Hmid. rewrite Hmid, bind_Ok_l.
  by rewrite decide_True.
Qed.

Lemma build_pool_empty_inv midis st0 st :
  build_pool midis st0 = Ok st -> pool st = [] -> none_safe midis.
Proof.
  unfold none_safe. revert st0. induction midis as [|[name mid] midis IH]; intros st0.
  - constructor.
  - rewrite build_pool_cons. intros Hb Hst.
    apply bind_Ok in Hb as (bars & Hbars & Hb). case_decide as Hne.
    + constructor; [simpl; congruence|by eapply IH].
    + exfalso. clear IH.
      assert (Hgrow : forall ms s1 s2, build_pool ms s1 = Ok s2 ->
                        (length (pool s1) <= length (pool s2))%nat).
      { clear. induction ms as [|[n m] ms IH]; intros s1 s2.
        - by intros [= <-].
        - rewrite build_pool_cons. intros Hb.
          apply bind_Ok in Hb as (bs & _ & Hb). case_decide.
          + by apply IH.
          + apply IH in Hb. simpl in Hb. rewrite length_app in Hb. lia. }
      apply Hgrow in Hb. simpl in Hb. rewrite Hst, length_app, length_imap in Hb.
      destruct bars; [done|simpl in Hb; lia].
Qed.

Lemma no_clean_bars_not_arith : ~ arith_error no_clean_bars.
Proof. intros [?|[?|?]]; discriminate. Qed.

Lemma IndexError_not_arith : ~ arith_error IndexError.
Proof. intros [?|[?|?]]; discriminate. Qed.

Section EmptyPool.
Context {G : Type} `{PRNG G}.

Lemma mozart_empty_pool_iff (os_entropy : G) midis spins tpb_out seed :
  mozart_dice_game_gui.build_from_spins os_entropy midis spins tpb_out seed
  = Raise no_clean_bars <-> none_safe midis.
Proof.
  split.
  - intros Hb. pose proof Hb as Hb'. rewrite mozart_build_from_spins_eq in Hb.
    apply bind_Raise in Hb as [Hb|(st & Hst & Hb)].
    { apply build_pool_error in Hb. by apply no_clean_bars_not_arith in Hb. }
    destruct (pool st) as [|p ps] eqn:Ep; [by eapply build_pool_empty_inv|].
    exfalso. destruct (mozart_table_loop_spec (length spins) 0%nat [p :: ps]
                         (Random os_entropy seed))
      as (t & h' & g' & Ht & Hl & Hsh & _); [done|].
    rewrite Ht, bind_Ok_l in Hb. apply assemble_error in Hb; [|done..].
    by apply no_clean_bars_not_arith in Hb.
  - intros Hn. rewrite mozart_build_from_spins_eq.
    by rewrite (build_pool_none_safe _ _ Hn).
Qed.

Lemma spin_empty_pool_iff (os_entropy : G) midis spins tpb_out seed :
  spin_game_gui.build_from_spins os_entropy midis spins tpb_out seed
  = Raise no_clean_bars <-> none_safe midis.
Proof.
  split.
  - intros Hb. pose proof Hb as Hb'. rewrite spin_build_from_spins_eq in Hb.
    apply bind_Raise in Hb as [Hb|(st & Hst & Hb)].
    { apply build_pool_error in Hb. by apply no_clean_bars_not_arith in Hb. }
    destruct (pool st) as [|p ps] eqn:Ep; [by eapply build_pool_empty_inv|].
    exfalso. destruct (spin_table_loop_spec (length spins) 0%nat [p :: ps]
                         (Random os_entropy seed))
      as (t & h' & g' & Ht & Hl & Hsh & _); [done|].
    rewrite Ht, bind_Ok_l in Hb. apply assemble_error in Hb; [|done..].
    by apply no_clean_bars_not_arith in Hb.
  - intros Hn. rewrite spin_build_from_spins_eq.
    by rewrite (build_pool_none_safe _ _ Hn).
Qed.
End EmptyPool.

(** C2 (counterexample).  A source at resolution 0 yields a safe bar, and
    [build_from_spins] raises [ZeroDivisionError] when it rescales the bar;
    the sources of [ab_midis] yield safe bars, and at the output resolution
    [2^1024] [build_from_spins] raises [OverflowError]; for a source whose
    time signature has the denominator 0, [extract_clean_bars] itself
    raises [ZeroDivisionError], so [build_from_spins] raises although not
    every source yields an empty list.  In both programs. *)
Lemma safe_bar_and_arithmetic_error :
  (extract_clean_bars zero_resolution_source
   = Ok [ [ (0, {| msg_body := note_on 0 60 64; time := 0 |});
            (0, {| msg_body := note_off 0 60 0; time := 0 |}) ] ]
   /\ some_safe zero_resolution_midis
   /\ mozart_dice_game_gui.build_from_spins
        (MT19937.seed 0) zero_resolution_midis [7] 480 (Some 1)
      = Raise ZeroDivisionError
   /\ spin_game_gui.build_from_spins
        (MT19937.seed 0) zero_resolution_midis [7] 480 (Some 1)
      = Raise ZeroDivisionError)
  /\ (some_safe ab_midis
      /\ mozart_dice_game_gui.build_from_spins
           (MT19937.seed 0) ab_midis [7] (2 ^ 1024) (Some 1)
         = Raise OverflowError
      /\ spin_game_gui.build_from_spins
           (MT19937.seed 0) ab_midis [7] (2 ^ 1024) (Some 1)
         = Raise OverflowError)
  /\ (extract_clean_bars zero_denominator_source = Raise ZeroDivisionError
      /\ ~ none_safe zero_denominator_midis
      /\ mozart_dice_game_gui.build_from_spins
           (MT19937.seed 0) zero_denominator_midis [7] 480 (Some 1)
         = Raise ZeroDivisionError
      /\ spin_game_gui.build_from_spins
           (MT19937.seed 0) zero_denominator_midis [7] 480 (Some 1)
         = Raise ZeroDivisionError).
Proof.
  split_and!.
  - vm_compute. reflexivity.
  - apply Exists_cons_hd. eexists _, _. vm_compute. reflexivity.
  - vm_compute. reflexivity.
  - vm_compute. reflexivity.
  - apply Exists_cons_hd. eexists _, _. vm_compute. reflexivity.
  - vm_compute. reflexivity.
  - vm_compute. reflexivity.
  - vm_compute. reflexivity.
  - intros Hn. apply Forall_cons_1 in Hn as [Hn _]. vm_compute in Hn.
    discriminate.
  - vm_compute. reflexivity.
  - vm_compute. reflexivity.
Qed.

(** C2 (amended).  [build_from_spins] raises its empty-pool
    [RuntimeError] if and only if [extract_clean_bars] yields an empty list
    for every source, whatever the inputs.  When the resolutions, the
    numerators and the denominators are all below [2^64] in magnitude and
    no source has a resolution or a denominator of zero, float arithmetic
    cannot fail and that is the only exception: the function raises if and
    only if no source yields a safe bar, and it returns an output stream
    whenever some source yields one.  In both programs. *)
Theorem build_from_spins_raises_iff_no_safe_bar
    {G : Type} `{PRNG G} (os_entropy : G)
    (midis : list (string * MidiFile)) (spins : list Z) (tpb_out : Z)
    (seed : option Z) :
  let mozart :=
    mozart_dice_game_gui.build_from_spins os_entropy midis spins tpb_out seed in
  let spin :=
    spin_game_gui.build_from_spins os_entropy midis spins tpb_out seed in
  (mozart = Raise no_clean_bars <-> none_safe midis)
  /\ (spin = Raise no_clean_bars <-> none_safe midis)
  /\ (- 2 ^ 64 < tpb_out < 2 ^ 64 ->
      Forall (fun nm : string * MidiFile => ordinary_source nm.2) midis ->
      ((raises mozart <-> none_safe midis) /\ (some_safe midis -> is_Ok mozart))
      /\ ((raises spin <-> none_safe midis) /\ (some_safe midis -> is_Ok spin))).
Proof.
  intros mozart spin. split_and!.
  - apply mozart_empty_pool_iff.
  - apply spin_empty_pool_iff.
  - intros Ho Hord. split.
    + destruct (settled_iff mozart midis) as (? & _ & ?); [|done].
      by apply mozart_build_from_spins_settled.
    + destruct (settled_iff spin midis) as (? & _ & ?); [|done].
      by apply spin_build_from_spins_settled.
Qed.

Lemma build_from_spins_raises_iff_no_safe_bar_witness :
  let mozart :=
    mozart_dice_game_gui.build_from_spins (MT19937.seed 0) ab_midis [7; 7; 7] 480 (Some 1) in
  let spin :=
    spin_game_gui.build_from_spins (MT19937.seed 0) ab_midis [7; 7; 7] 480 (Some 1) in
  ((raises mozart <-> none_safe ab_midis) /\ (some_safe ab_midis -> is_Ok mozart))
  /\ ((raises spin <-> none_safe ab_midis) /\ (some_safe ab_midis -> is_Ok spin)).
Proof.
  intros mozart spin.
  pose proof (build_from_spins_raises_iff_no_safe_bar
                (MT19937.seed 0) ab_midis [7; 7; 7] 480 (Some 1)) as Hthm.
  cbv zeta in Hthm. destruct Hthm as (_ & _ & Hthm). apply Hthm.
  - lia.
  - repeat constructor; simpl; lia.
Defined.

(** C5 (counterexample).  One source at 960 ticks per beat, output at 480,
    spins [7, 7, 7]: the last event of turn 0 is placed at tick 7680, which
    is [(0 + 1) * 4 * 1920], the first tick of turn 1, so it is outside the
    half-open range of its turn and inside that of the next one. *)
Lemma late_event_leaves_its_turn :
  build_pool late_midis empty_pool
  = Ok {| pool := [late_entry]; base_tempo := Some 500000; base_ts := Some (4, 4) |}
  /\ (fun r : list (list phrase) * store * MT19937.state => r.1.1)
       <$> mozart_dice_game_gui.table_loop 3 0%nat [[late_entry]] (seed_rng 7)
     = Ok late_table
  /\ (fun r : list (list phrase) * store * MT19937.state => r.1.1)
       <$> spin_game_gui.table_loop 3 0%nat [[late_entry]] (seed_rng 7)
     = Ok late_table
  /\ ticks_per_bar 480 4 4 = Ok 1920
  /\ mapM (fun i : nat => turn_chunk 480 1920 late_table i 7) [0; 1; 2]%nat
     = Ok [late_chunk 0; late_chunk 1; late_chunk 2]
  /\ fst <$> mozart_dice_game_gui.build_from_spins
               (MT19937.seed 0) late_midis [7; 7; 7] 480 (Some 7)
     = Ok (build_midi 480 4 4 500000
             (concat [late_chunk 0; late_chunk 1; late_chunk 2]))
  /\ fst <$> spin_game_gui.build_from_spins
               (MT19937.seed 0) late_midis [7; 7; 7] 480 (Some 7)
     = Ok (build_midi 480 4 4 500000
             (concat [late_chunk 0; late_chunk 1; late_chunk 2]))
  /\ ~ turns_in_own_range 1920 [late_chunk 0; late_chunk 1; late_chunk 2].
Proof.
  split_and!; try (vm_compute; reflexivity).
  intros Hrange.
  specialize (Hrange 0%nat (late_chunk 0)
                (7680, {| msg_body := note_off 0 60 0; time := 3839 |}) eq_refl).
  simpl in Hrange. assert (7680 < 7680); [|lia].
  apply Hrange. unfold late_chunk. simpl.
  repeat first [apply list_elem_of_here | apply list_elem_of_further].
Qed.

(** C5 (amended).  In a run of [build_from_spins] with positive
    resolutions that returns an output, the events of the output are those
    of one chunk per turn, in the order of the turns, sorted by tick.  The
    chunk of turn [i] is made of the bars of the phrase at position
    [clamp(total) - 2] of row [i] of the run's dice table, in order: every
    event of bar [k] ([k = 0..3]) of that phrase is placed, with its
    message, at tick [(4 * i + k) * barLenOut + r], where [r >= 0] is its
    relative tick rescaled by [tpb_out / src_tpb] and rounded ([r] is the
    relative tick itself when the bar's source has the output's
    resolution, the resolution and the tick being below [2^53]).  So the
    tick is at or after [i * 4 * barLenOut]; it is before
    [(i + 1) * 4 * barLenOut] whenever [r < barLenOut].  In both
    programs. *)
Theorem turn_events_start_at_turn_offset
    {G : Type} `{PRNG G} (os_entropy : G)
    (midis : list (string * MidiFile)) (spins : list Z) (tpb_out : Z)
    (seed : option Z) (out : MidiFile) (trace : string) :
  0 < tpb_out ->
  Forall (fun nm : string * MidiFile => 0 < ticks_per_beat nm.2) midis ->
  mozart_dice_game_gui.build_from_spins os_entropy midis spins tpb_out seed
    = Ok (out, trace)
  \/ spin_game_gui.build_from_spins os_entropy midis spins tpb_out seed
     = Ok (out, trace) ->
  exists st dice_table L chunks,
    build_pool midis empty_pool = Ok st
    /\ ((mozart_dice_game_gui.build_from_spins os_entropy midis spins tpb_out seed
          = Ok (out, trace)
         /\ mozart_dice_table os_entropy seed st (length spins) = Ok dice_table)
        \/ (spin_game_gui.build_from_spins os_entropy midis spins tpb_out seed
            = Ok (out, trace)
            /\ spin_dice_table os_entropy seed st (length spins) = Ok dice_table))
    /\ ticks_per_bar tpb_out (out_meter st).1 (out_meter st).2 = Ok L
    /\ out = build_midi tpb_out (out_meter st).1 (out_meter st).2 (out_tempo st)
               (concat chunks)
    /\ length chunks = length spins
    /\ forall (i : nat) (total : Z), spins !! i = Some total ->
         exists row ph chunk,
           dice_table !! i = Some row
           /\ row !! Z.to_nat (clamp_total total - 2) = Some ph
           /\ length ph = 4%nat /\ Forall (fun e => e ∈ pool st) ph
           /\ chunks !! i = Some chunk
           /\ placed_phrase tpb_out L i ph chunk.
Proof.
  intros Ho Hsrc Hb.
  assert (Hparts : exists st dice_table,
             build_pool midis empty_pool = Ok st
             /\ ((mozart_dice_game_gui.build_from_spins os_entropy midis spins tpb_out seed
                   = Ok (out, trace)
                  /\ mozart_dice_table os_entropy seed st (length spins) = Ok dice_table)
                 \/ (spin_game_gui.build_from_spins os_entropy midis spins tpb_out seed
                     = Ok (out, trace)
                     /\ spin_dice_table os_entropy seed st (length spins) = Ok dice_table))
             /\ table_shape dice_table /\ table_within (pool st) dice_table
             /\ assemble st dice_table spins tpb_out = Ok (out, trace)).
  { destruct Hb as [Hb|Hb].
    - destruct (mozart_build_from_spins_table _ _ _ _ _ _ Hb)
        as (st & dt & ? & ? & ? & _ & ? & ?).
      exists st, dt. split_and!; try done. by left.
    - destruct (spin_build_from_spins_table _ _ _ _ _ _ Hb)
        as (st & dt & ? & ? & ? & _ & ? & ?).
      exists st, dt. split_and!; try done. by right. }
  destruct Hparts as (st & dice_table & Hst & Htable & Hshape & Hwithin & Ha).
  apply assemble_parts in Ha as (L & events & log_lines & HL & Hloop & -> & ->).
  destruct (assemble_loop_turns tpb_out L dice_table spins Hshape 0%nat
              [] [] events log_lines Hloop)
    as (phs & chunks & Hlp & Hlc & -> & _ & Hall).
  pose proof (ticks_per_bar_ge_1 _ _ _ _ HL) as HL1.
  exists st, dice_table, L, chunks. split_and!; try done.
  intros i total Hi.
  destruct (Hall i total Hi) as (row & ph & chunk & Hrow & Hph & _ & Hc & Hplace).
  simpl in Hrow, Hplace.
  assert (Hlen : length ph = 4%nat).
  { unfold table_shape in Hshape. rewrite Forall_forall in Hshape.
    destruct (Hshape row ltac:(by eapply list_elem_of_lookup_2)) as [_ Hr].
    rewrite Forall_forall in Hr. apply Hr. by eapply list_elem_of_lookup_2. }
  assert (Hin : Forall (fun e => e ∈ pool st) ph).
  { unfold table_within in Hwithin. rewrite Forall_forall in Hwithin.
    specialize (Hwithin row ltac:(by eapply list_elem_of_lookup_2)).
    rewrite Forall_forall in Hwithin. apply Hwithin.
    by eapply list_elem_of_lookup_2. }
  exists row, ph, chunk. split_and!; try done.
  by eapply place_phrase_placed.
Qed.
Lemma turn_events_start_at_turn_offset_witness :
  exists st dice_table L chunks,
    build_pool ab_midis empty_pool = Ok st
    /\ ((mozart_dice_game_gui.build_from_spins (MT19937.seed 0) ab_midis [7; 7; 7] 480 (Some 1)
          = Ok ab_mozart_run
         /\ mozart_dice_table (MT19937.seed 0) (Some 1) st (length [7; 7; 7]) = Ok dice_table)
        \/ (spin_game_gui.build_from_spins (MT19937.seed 0) ab_midis [7; 7; 7] 480 (Some 1)
            = Ok ab_mozart_run
            /\ spin_dice_table (MT19937.seed 0) (Some 1) st (length [7; 7; 7]) = Ok dice_table))
    /\ ticks_per_bar 480 (out_meter st).1 (out_meter st).2 = Ok L
    /\ ab_mozart_run.1 = build_midi 480 (out_meter st).1 (out_meter st).2 (out_tempo st)
               (concat chunks)
    /\ length chunks = length [7; 7; 7]
    /\ forall (i : nat) (total : Z), [7; 7; 7] !! i = Some total ->
         exists row ph chunk,
           dice_table !! i = Some row
           /\ row !! Z.to_nat (clamp_total total - 2) = Some ph
           /\ length ph = 4%nat /\ Forall (fun e => e ∈ pool st) ph
           /\ chunks !! i = Some chunk
           /\ placed_phrase 480 L i ph chunk.
Proof.
  apply (turn_events_start_at_turn_offset
           (MT19937.seed 0) ab_midis [7; 7; 7] 480 (Some 1)
           ab_mozart_run.1 ab_mozart_run.2).
  - lia.
  - repeat constructor; simpl; lia.
  - left. vm_compute. reflexivity.
Defined.

(** C8.  Whatever integer totals are supplied, no lookup of a run of
    [build_from_spins] raises [IndexError], in both programs, and a run
    that returns is a run of the assembler on the dice table the program
    built, which has a row of 11 phrases for every spin.  Given such a
    table, the assembler raises no [IndexError], and in turn [i]
    it selects for the total [t] the phrase at position [clamp(t) - 2] of
    row [i], a position from 0 to 10: position [t - 2] for a total from 2
    to 12, the first phrase for a total of 2 or less and the last phrase
    for a total of 12 or more.  The selected phrase is the one named in
    line [i] of the trace and laid out from the start of turn [i] in the
    output. *)
Theorem assembler_clamps_total_before_lookup
    {G : Type} `{PRNG G} (os_entropy : G)
    (midis : list (string * MidiFile)) (seed : option Z)
    (st : pool_state) (dice_table : list (list phrase)) (spins : list Z)
    (tpb_out : Z) :
  table_shape dice_table ->
  length dice_table = length spins ->
  mozart_dice_game_gui.build_from_spins os_entropy midis spins tpb_out seed
    <> Raise IndexError
  /\ spin_game_gui.build_from_spins os_entropy midis spins tpb_out seed
     <> Raise IndexError
  /\ (forall r,
        mozart_dice_game_gui.build_from_spins os_entropy midis spins tpb_out seed
          = Ok r ->
        exists st' dt,
          build_pool midis empty_pool = Ok st'
          /\ mozart_dice_table os_entropy seed st' (length spins) = Ok dt
          /\ table_shape dt /\ length dt = length spins
          /\ assemble st' dt spins tpb_out = Ok r)
  /\ (forall r,
        spin_game_gui.build_from_spins os_entropy midis spins tpb_out seed
          = Ok r ->
        exists st' dt,
          build_pool midis empty_pool = Ok st'
          /\ spin_dice_table os_entropy seed st' (length spins) = Ok dt
          /\ table_shape dt /\ length dt = length spins
          /\ assemble st' dt spins tpb_out = Ok r)
  /\ assemble st dice_table spins tpb_out <> Raise IndexError
  /\ forall out trace,
       assemble st dice_table spins tpb_out = Ok (out, trace) ->
       exists (L : Z) (phs : list phrase) (chunks : list (list event)),
         ticks_per_bar tpb_out (out_meter st).1 (out_meter st).2 = Ok L
         /\ length phs = length spins /\ length chunks = length spins
         /\ (forall (i : nat) (total : Z), spins !! i = Some total ->
               exists row ph chunk,
                 dice_table !! i = Some row
                 /\ 0 <= clamp_total total - 2 <= 10
                 /\ row !! Z.to_nat (clamp_total total - 2) = Some ph
                 /\ (2 <= total <= 12 -> row !! Z.to_nat (total - 2) = Some ph)
                 /\ (total <= 2 -> row !! 0%nat = Some ph)
                 /\ (12 <= total -> row !! 10%nat = Some ph)
                 /\ phs !! i = Some ph /\ chunks !! i = Some chunk
                 /\ fst <$> place_phrase tpb_out L ph [] (Z.of_nat i * 4 * L)
                    = Ok chunk)
         /\ trace = trace_of spins phs
         /\ out = build_midi tpb_out (out_meter st).1 (out_meter st).2
                    (out_tempo st) (concat chunks).
Proof.
  intros Hshape Hlen. split_and!.
  - intros Hb. apply mozart_build_from_spins_error in Hb as [Hb|Hb];
      [discriminate|by apply IndexError_not_arith in Hb].
  - intros Hb. apply spin_build_from_spins_error in Hb as [Hb|Hb];
      [discriminate|by apply IndexError_not_arith in Hb].
  - intros r Hb.
    destruct (mozart_build_from_spins_table _ _ _ _ _ _ Hb)
      as (st' & dt & ? & ? & ? & ? & _ & ?).
    by exists st', dt.
  - intros r Hb.
    destruct (spin_build_from_spins_table _ _ _ _ _ _ Hb)
      as (st' & dt & ? & ? & ? & ? & _ & ?).
    by exists st', dt.
  - intros Ha. apply assemble_error in Ha; [|done..].
    by apply IndexError_not_arith in Ha.
  - intros out trace Ha.
    apply assemble_parts in Ha as (L & events & log_lines & HL & Hloop & -> & ->).
    destruct (assemble_loop_turns tpb_out L dice_table spins Hshape 0%nat
                [] [] events log_lines Hloop)
      as (phs & chunks & Hlp & Hlc & -> & -> & Hall).
    exists L, phs, chunks. split_and!; try done.
    intros i total Hi.
    destruct (Hall i total Hi) as (row & ph & chunk & Hrow & Hph & ? & ? & ?).
    exists row, ph, chunk. unfold clamp_total in *.
    split_and!; try done; try lia.
    + intros Ht. by replace (total - 2) with (Z.max 2 (Z.min 12 total) - 2) by lia.
    + intros Ht. by replace 0%nat with (Z.to_nat (Z.max 2 (Z.min 12 total) - 2)) by lia.
    + intros Ht. by replace 10%nat with (Z.to_nat (Z.max 2 (Z.min 12 total) - 2)) by lia.
Qed.

Lemma assembler_clamps_total_before_lookup_witness :
  mozart_dice_game_gui.build_from_spins (MT19937.seed 0) late_midis [1; 13; 7] 480 (Some 7)
    <> Raise IndexError
  /\ spin_game_gui.build_from_spins (MT19937.seed 0) late_midis [1; 13; 7] 480 (Some 7)
     <> Raise IndexError
  /\ (forall r,
        mozart_dice_game_gui.build_from_spins (MT19937.seed 0) late_midis [1; 13; 7] 480 (Some 7)
          = Ok r ->
        exists st' dt,
          build_pool late_midis empty_pool = Ok st'
          /\ mozart_dice_table (MT19937.seed 0) (Some 7) st' (length [1; 13; 7]) = Ok dt
          /\ table_shape dt /\ length dt = length [1; 13; 7]
          /\ assemble st' dt [1; 13; 7] 480 = Ok r)
  /\ (forall r,
        spin_game_gui.build_from_spins (MT19937.seed 0) late_midis [1; 13; 7] 480 (Some 7)
          = Ok r ->
        exists st' dt,
          build_pool late_midis empty_pool = Ok st'
          /\ spin_dice_table (MT19937.seed 0) (Some 7) st' (length [1; 13; 7]) = Ok dt
          /\ table_shape dt /\ length dt = length [1; 13; 7]
          /\ assemble st' dt [1; 13; 7] 480 = Ok r)
  /\ assemble late_state late_table [1; 13; 7] 480 <> Raise IndexError
  /\ forall out trace,
       assemble late_state late_table [1; 13; 7] 480 = Ok (out, trace) ->
       exists (L : Z) (phs : list phrase) (chunks : list (list event)),
         ticks_per_bar 480 (out_meter late_state).1 (out_meter late_state).2 = Ok L
         /\ length phs = length [1; 13; 7] /\ length chunks = length [1; 13; 7]
         /\ (forall (i : nat) (total : Z), [1; 13; 7] !! i = Some total ->
               exists row ph chunk,
                 late_table !! i = Some row
                 /\ 0 <= clamp_total total - 2 <= 10
                 /\ row !! Z.to_nat (clamp_total total - 2) = Some ph
                 /\ (2 <= total <= 12 -> row !! Z.to_nat (total - 2) = Some ph)
                 /\ (total <= 2 -> row !! 0%nat = Some ph)
                 /\ (12 <= total -> row !! 10%nat = Some ph)
                 /\ phs !! i = Some ph /\ chunks !! i = Some chunk
                 /\ fst <$> place_phrase 480 L ph [] (Z.of_nat i * 4 * L)
                    = Ok chunk)
         /\ trace = trace_of [1; 13; 7] phs
         /\ out = build_midi 480 (out_meter late_state).1 (out_meter late_state).2
                    (out_tempo late_state) (concat chunks).
Proof.
  apply (assembler_clamps_total_before_lookup
           (MT19937.seed 0) late_midis (Some 7) late_state late_table
           [1; 13; 7] 480).
  - repeat constructor.
  - reflexivity.
Defined.

(* ===================================================================== *)
(** * Further properties: the MIDI helpers                              *)
(* ===================================================================== *)

Lemma abs_track_elem t0 tr t m :
  (t, m) ∈ abs_track t0 tr <->
  exists i, tr !! i = Some (Msg m)
            /\ in_CHANNEL_MSGS (msg_body m) = true
            /\ t = t0 + tick_at tr i.
Proof.
  revert t0. induction tr as [|it tr IH]; intros t0; simpl.
  { split; [by intros ?%elem_of_nil|]. by intros (i & ? & _). }
  assert (Hshift : forall i, tick_at (it :: tr) (S i) = item_time it + tick_at tr i)
    by done.
  assert (Htail : (t, m) ∈ abs_track (t0 + item_time it) tr <->
                  exists i, (it :: tr) !! S i = Some (Msg m)
                            /\ in_CHANNEL_MSGS (msg_body m) = true
                            /\ t = t0 + tick_at (it :: tr) (S i)).
  { rewrite IH. split; intros (i & Hi & Hc & ->); exists i; rewrite Hshift;
      (split_and!; [done|done|lia]). }
  destruct it as [msg|mm]; simpl.
  - destruct (in_CHANNEL_MSGS (msg_body msg)) eqn:E.
    + rewrite elem_of_cons, Htail. split.
      * intros [[= -> ->]|(i & Hi & Hc & ->)].
        -- exists 0%nat. split_and!; [done|done|]. unfold tick_at. simpl. lia.
        -- exists (S i). done.
      * intros ([|i] & Hi & Hc & ->).
        -- left. simpl in Hi. injection Hi as ->. unfold tick_at. simpl.
           f_equal. lia.
        -- right. exists i. done.
    + rewrite Htail. split.
      * intros (i & ?). by exists (S i).
      * intros ([|i] & Hi & Hc & ->); [|by exists i].
        simpl in Hi. injection Hi as ->. congruence.
  - rewrite Htail. split.
    + intros (i & ?). by exists (S i).
    + intros ([|i] & Hi & Hc & ->); [|by exists i]. discriminate.
Qed.

Lemma abs_track_length t0 (tr : list item) :
  length (abs_track t0 tr) = length (filter (fun it => is_channel_msg it = true) tr).
Proof.
  revert t0. induction tr as [|it tr IH]; intros t0; [done|].
  rewrite filter_cons. destruct it as [msg|mm].
  - cbn [abs_track is_channel_msg].
    destruct (in_CHANNEL_MSGS (msg_body msg)) eqn:E.
    + rewrite decide_True by done. simpl. by rewrite IH.
    + rewrite decide_False by congruence. apply IH.
  - cbn [abs_track is_channel_msg]. rewrite decide_False by done. apply IH.
Qed.

Lemma elem_of_concat {A} (x : A) (ls : list (list A)) :
  x ∈ concat ls <-> exists l, x ∈ l /\ l ∈ ls.
Proof.
  induction ls as [|l ls IH]; simpl.
  - split; [by intros ?%elem_of_nil|]. by intros (l & _ & ?%elem_of_nil).
  - rewrite elem_of_app, IH. split.
    + intros [Hx|(l' & Hx & Hl')]; [exists l|exists l'];
        (split; [done|]); [left|by right].
    + intros (l' & Hx & [->|Hl']%elem_of_cons); [by left|right; eauto].
Qed.

(** X1.  [iter_abs_messages] returns the events in non-decreasing order of
    tick; an event [(t, m)] is returned exactly when [m] is a channel
    message at some position of some track and [t] is the sum of the delta
    times of the track's items up to and including it (meta and other
    messages count in the sum); and there is one event for each channel
    message of the file. *)
Theorem iter_abs_messages_events (mid : MidiFile) :
  sorted (iter_abs_messages mid)
  /\ (forall t m,
        (t, m) ∈ iter_abs_messages mid <->
        exists tr i, tr ∈ tracks mid /\ tr !! i = Some (Msg m)
                     /\ in_CHANNEL_MSGS (msg_body m) = true
                     /\ t = tick_at tr i)
  /\ length (iter_abs_messages mid)
     = length (filter (fun it => is_channel_msg it = true) (concat (tracks mid))).
Proof.
  split_and!.
  - apply sort_by_key_sorted.
  - intros t m. unfold iter_abs_messages. rewrite sort_by_key_Permutation.
    rewrite elem_of_concat. split.
    + intros (l & Hin & Hl). apply list_elem_of_fmap in Hl as (tr & -> & Htr).
      apply abs_track_elem in Hin as (i & Hi & Hc & ->). exists tr, i.
      split_and!; [done|done|done|lia].
    + intros (tr & i & Htr & Hi & Hc & ->). exists (abs_track 0 tr). split.
      * apply abs_track_elem. exists i. split_and!; [done|done|lia].
      * apply list_elem_of_fmap. eauto.
  - unfold iter_abs_messages. rewrite sort_by_key_Permutation.
    induction (tracks mid) as [|tr trs IH]; simpl; [done|].
    rewrite length_app, filter_app, length_app, IH. f_equal. apply abs_track_length.
Qed.

Lemma insert_by_key_stable t x l :
  filter (fun ev : event => ev.1 = t) (insert_by_key x l)
  = filter (fun ev : event => ev.1 = t) (x :: l).
Proof.
  induction l as [|y l IH]; simpl; [done|].
  destruct (x.1 <=? y.1) eqn:E; [done|]. apply Z.leb_gt in E.
  rewrite filter_cons, IH.
  destruct (decide (y.1 = t)) as [Hy|Hy].
  - rewrite (filter_cons_False _ x) by (simpl; lia).
    rewrite (filter_cons_False _ x) by (simpl; lia).
    by rewrite filter_cons_True.
  - rewrite (filter_cons _ x). rewrite (filter_cons _ x).
    destruct (decide (x.1 = t)); by rewrite (filter_cons_False _ y).
Qed.

Lemma sort_by_key_stable t l :
  filter (fun ev : event => ev.1 = t) (sort_by_key l)
  = filter (fun ev : event => ev.1 = t) l.
Proof.
  induction l as [|x l IH]; [done|].
  change (sort_by_key (x :: l)) with (insert_by_key x (sort_by_key l)).
  rewrite insert_by_key_stable, !filter_cons, IH. done.
Qed.

(** X2.  The sort of [iter_abs_messages] is stable: the events of one
    tick come out in the order of the tracks and, within a track, of the
    messages. *)
Theorem iter_abs_messages_same_tick_order (mid : MidiFile) (t : Z) :
  filter (fun ev : event => ev.1 = t) (iter_abs_messages mid)
  = filter (fun ev : event => ev.1 = t) (concat (map (abs_track 0) (tracks mid))).
Proof. apply sort_by_key_stable. Qed.

Lemma find_split {A} (f : A -> bool) (l : list A) :
  match List.find f l with
  | Some x => exists pre post,
                l = pre ++ x :: post
                /\ Forall (fun y => f y = false) pre /\ f x = true
  | None => Forall (fun y => f y = false) l
  end.
Proof.
  induction l as [|y l IH]; simpl; [constructor|].
  destruct (f y) eqn:E.
  - exists [], l. split_and!; [done|constructor|done].
  - destruct (List.find f l) as [x|].
    + destruct IH as (pre & post & -> & Hpre & Hx).
      exists (y :: pre), post. split_and!; [done|by constructor|done].
    + by constructor.
Qed.

Lemma first_meta_spec mid ty :
  match first_meta mid ty with
  | Some m => exists pre post,
                concat (tracks mid) = pre ++ Meta m :: post
                /\ no_meta ty pre /\ has_meta_type ty (Meta m) = true
  | None => no_meta ty (concat (tracks mid))
  end.
Proof.
  unfold first_meta.
  pose proof (find_split (has_meta_type ty) (concat (tracks mid))) as Hf.
  destruct (List.find _ _) as [[m|m]|]; [| |done].
  - destruct Hf as (_ & _ & _ & _ & Hx). by destruct ty.
  - done.
Qed.

(** X3.  [get_time_signature] is [(4, 4)] when no track holds a
    [time_signature] message; otherwise it is the numerator and
    denominator of the first one in the order of the tracks and of their
    items, whatever its time and whatever signatures follow. *)
Theorem get_time_signature_first_in_track_order (mid : MidiFile) :
  (no_meta TimeSignature (concat (tracks mid)) /\ get_time_signature mid = (4, 4))
  \/ exists pre n d t post,
       concat (tracks mid)
       = pre ++ Meta {| meta := time_signature n d; meta_time := t |} :: post
       /\ no_meta TimeSignature pre
       /\ get_time_signature mid = (n, d).
Proof.
  unfold get_time_signature. pose proof (first_meta_spec mid TimeSignature) as Hf.
  destruct (first_meta mid TimeSignature) as [[b t]|]; [|by left].
  destruct Hf as (pre & post & Hc & Hpre & Hty).
  destruct b as [n d| |]; try discriminate.
  right. exists pre, n, d, t, post. done.
Qed.

(** X4.  [get_tempo] is 500000 (120 beats per minute) when no track holds
    a [set_tempo] message; otherwise it is the tempo of the first one in
    the order of the tracks and of their items. *)
Theorem get_tempo_first_in_track_order (mid : MidiFile) :
  (no_meta SetTempo (concat (tracks mid)) /\ get_tempo mid = 500000)
  \/ exists pre tempo t post,
       concat (tracks mid)
       = pre ++ Meta {| meta := set_tempo tempo; meta_time := t |} :: post
       /\ no_meta SetTempo pre
       /\ get_tempo mid = tempo.
Proof.
  unfold get_tempo. pose proof (first_meta_spec mid SetTempo) as Hf.
  destruct (first_meta mid SetTempo) as [[b t]|]; [|by left].
  destruct Hf as (pre & post & Hc & Hpre & Hty).
  destruct b as [| tempo |]; try discriminate.
  right. exists pre, tempo, t, post. done.
Qed.

Lemma delta_loop_spec last (l : list event) :
  Forall (fun m => 0 <= time m) (delta_loop last l)
  /\ msg_body <$> delta_loop last l = (fun ev : event => msg_body ev.2) <$> l.
Proof.
  revert last. induction l as [|[t m] l IH]; intros last; simpl; [done|].
  destruct (IH t) as [H1 H2]. split.
  - constructor; [simpl; lia|done].
  - f_equal. exact H2.
Qed.

(** X5.  [to_delta_track] never writes a negative delta time, whatever
    the order and the sign of the ticks it is given, and it keeps the
    messages, apart from their time, in their order. *)
Theorem to_delta_track_deltas (abs_events : list event) :
  Forall (fun m => 0 <= time m) (to_delta_track abs_events)
  /\ msg_body <$> to_delta_track abs_events
     = (fun ev : event => msg_body ev.2) <$> abs_events.
Proof. apply delta_loop_spec. Qed.

Lemma sorted_of_fst (l : list event) : StronglySorted Z.le (l.*1) -> sorted l.
Proof.
  unfold sorted. induction l as [|x l IH]; [constructor|].
  rewrite fmap_cons. intros Hs. apply StronglySorted_inv in Hs as [Hs Hx].
  constructor; [by apply IH|]. rewrite Forall_fmap in Hx.
  eapply Forall_impl; [exact Hx|]. by intros [? ?].
Qed.

Lemma abs_delta_loop last (l : list event) :
  sorted l -> Forall (fun ev : event => last <= ev.1) l ->
  Forall channel_event l ->
  abs_track last (Msg <$> delta_loop last l) = zip (l.*1) (delta_loop last l).
Proof.
  unfold sorted. intros Hs. revert last.
  induction Hs as [|[t m] l Hs IH Hx]; intros last Hlast Hch; simpl; [done|].
  apply Forall_cons in Hlast as [Ht Hlast]. apply Forall_cons in Hch as [Hc Hch].
  unfold channel_event in Hc. simpl in *. rewrite Hc.
  replace (last + Z.max 0 (t - last)) with t by lia.
  f_equal. apply IH; [|done]. eapply Forall_impl; [exact Hx|]. simpl. intros; lia.
Qed.

Lemma delta_loop_length last (l : list event) : length (delta_loop last l) = length l.
Proof.
  revert last. induction l as [|[t m] l IH]; intros last; simpl; [done|].
  by rewrite IH.
Qed.

Lemma zip_delta_sorted last (l : list event) :
  sorted l -> sorted (zip (l.*1) (delta_loop last l)).
Proof.
  intros Hs. apply sorted_of_fst. rewrite fst_zip.
  - by apply sorted_fst.
  - by rewrite length_fmap, delta_loop_length.
Qed.

(** X6.  For channel events sorted by tick from a first tick that is
    not negative, [to_delta_track] is undone by [iter_abs_messages]:
    reading back a file whose one track is the delta track returns every
    message at the tick it was given. *)
Theorem to_delta_track_round_trip (tpb : Z) (abs_events : list event) :
  sorted abs_events ->
  Forall (fun ev : event => 0 <= ev.1) abs_events ->
  Forall channel_event abs_events ->
  iter_abs_messages
    {| ticks_per_beat := tpb; tracks := [Msg <$> to_delta_track abs_events] |}
  = zip (abs_events.*1) (to_delta_track abs_events).
Proof.
  intros Hs H0 Hc. unfold iter_abs_messages, to_delta_track. simpl.
  rewrite app_nil_r, abs_delta_loop by done.
  apply sort_by_key_id. by apply zip_delta_sorted.
Qed.

Lemma to_delta_track_round_trip_witness :
  iter_abs_messages
    {| ticks_per_beat := 480; tracks := [Msg <$> to_delta_track (one_bar 60)] |}
  = zip ((one_bar 60).*1) (to_delta_track (one_bar 60)).
Proof.
  apply (to_delta_track_round_trip 480 (one_bar 60)).
  - repeat constructor; simpl; lia.
  - repeat constructor; simpl; lia.
  - repeat constructor.
Defined.

(* ===================================================================== *)
(** * Further properties: [extract_clean_bars]                          *)
(* ===================================================================== *)

Lemma bars_loop_eq bar_len evs k :
  0 <= bar_len ->
  sorted evs ->
  forall b0 done rem,
    evs = done ++ rem ->
    Forall (fun ev : event => ev.1 < b0 * bar_len) done ->
    bars_loop bar_len (seqZ b0 (Z.of_nat k)) rem (replay ∅ done)
    = bar_at bar_len evs <$> filter (clean_index bar_len evs) (seqZ b0 (Z.of_nat k)).
Proof.
  intros HL Hs. induction k as [|k IH]; intros b0 done rem Hevs Hdone.
  { reflexivity. }
  rewrite seqZ_cons by lia. rewrite bars_loop_cons.
  replace (Z.pred (Z.of_nat (S k))) with (Z.of_nat k) by lia.
  assert (Hrem : sorted rem) by (subst evs; by eapply sorted_app_inv_r).
  destruct (skip_to_spec (b0 * bar_len) rem (replay ∅ done) Hrem)
    as (pre1 & rem1 & -> & Hpre1 & Hrem1 & ->).
  assert (Hrem1s : sorted rem1) by by eapply sorted_app_inv_r.
  destruct (scan_bar_spec (b0 * bar_len) ((b0 + 1) * bar_len) rem1
              (replay (replay ∅ done) pre1) Hrem1s)
    as (pre2 & rem2 & -> & Hpre2 & Hrem2 & ->).
  rewrite <- !replay_app.
  set (start := b0 * bar_len) in *. set (end_ := (b0 + 1) * bar_len) in *.
  assert (Hse : start <= end_) by (unfold start, end_; lia).
  assert (Hbefore : before start evs = done ++ pre1).
  { unfold before. rewrite Hevs, !filter_app.
    rewrite (filter_all _ done), (filter_all _ pre1) by done.
    rewrite (filter_none _ pre2), (filter_none _ rem2), !app_nil_r; [done| |].
    - eapply Forall_impl; [exact Hrem2|]. simpl. intros; lia.
    - apply Forall_app in Hrem1 as [H1 _].
      eapply Forall_impl; [exact H1|]. simpl. intros; lia. }
  assert (Hwindow : window start end_ evs = pre2).
  { unfold window. rewrite Hevs, !filter_app.
    apply Forall_app in Hrem1 as [H1 _].
    rewrite (filter_none _ done), (filter_none _ pre1), (filter_none _ rem2).
    - rewrite app_nil_r. simpl. apply filter_all.
      eapply Forall_impl; [apply Forall_and; split; [exact H1|exact Hpre2]|].
      simpl. intros; lia.
    - eapply Forall_impl; [exact Hrem2|]. simpl. intros; lia.
    - eapply Forall_impl; [exact Hpre1|]. simpl. intros; lia.
    - eapply Forall_impl; [exact Hdone|]. simpl. intros; lia. }
  assert (Hbefore_end : before end_ evs = done ++ pre1 ++ pre2).
  { unfold before. rewrite Hevs, !filter_app.
    apply Forall_app in Hrem1 as [H1 _].
    rewrite (filter_all _ done), (filter_all _ pre1), (filter_all _ pre2),
      (filter_none _ rem2), app_nil_r; [done| | | |].
    - eapply Forall_impl; [exact Hrem2|]. simpl. intros; lia.
    - done.
    - eapply Forall_impl; [exact Hpre1|]. simpl. intros; lia.
    - eapply Forall_impl; [exact Hdone|]. simpl. intros; lia. }
  assert (Hnext : bars_loop bar_len (seqZ (Z.succ b0) (Z.of_nat k)) rem2
                    (replay ∅ (done ++ pre1 ++ pre2))
                  = bar_at bar_len evs
                      <$> filter (clean_index bar_len evs) (seqZ (Z.succ b0) (Z.of_nat k))).
  { apply IH; [by rewrite Hevs, <- !app_assoc|].
    replace (Z.succ b0 * bar_len) with end_ by (unfold end_; lia).
    rewrite !Forall_app. split_and!; [| |done].
    - eapply Forall_impl; [exact Hdone|]. simpl. intros; lia.
    - eapply Forall_impl; [exact Hpre1|]. simpl. intros; lia. }
  cbv zeta. rewrite Hnext, filter_cons.
  assert (Hmap : map (fun ev : event => (ev.1 - start, set_time ev.2 0)) pre2 = []
                 <-> pre2 = []).
  { destruct pre2; simpl; split; congruence. }
  destruct (decide (clean_index bar_len evs b0)) as [(Hw & Hb & He)|Hn].
  - fold start end_ in Hw, Hb, He. rewrite Hwindow in Hw.
    rewrite Hbefore in Hb. rewrite Hbefore_end in He.
    rewrite (proj2 (silent_empty _) Hb), (proj2 (silent_empty _) He).
    rewrite bool_decide_eq_false_2 by (by rewrite Hmap). simpl. f_equal.
    unfold bar_at. fold start end_. rewrite Hwindow. unfold to_bar.
    rewrite sort_by_key_id; [done|].
    apply sorted_rebase. by eapply sorted_app_inv_l.
  - destruct (silent (replay ∅ (done ++ pre1))) eqn:E1; simpl; [|done].
    destruct (silent (replay ∅ (done ++ pre1 ++ pre2))) eqn:E2; simpl; [|done].
    case_bool_decide as E3; simpl; [done|].
    exfalso. apply Hn. apply silent_empty in E1, E2.
    split_and!; fold start end_; rewrite ?Hwindow, ?Hbefore, ?Hbefore_end; try done.
    by rewrite <- Hmap.
Qed.

(** X7.  [extract_clean_bars] returns, in the order of the bars, the
    bar of every index [b] below [n_bars] that holds an event and has no
    note sounding at its start and at its end, and nothing else: a bar is
    returned if and only if it is clean. *)
Theorem extract_clean_bars_exactly_the_clean_bars
    (mid : MidiFile) (bars : list (list event)) (bar_len : Z) :
  extract_clean_bars mid = Ok bars ->
  bar_len_of mid = Ok bar_len ->
  bars = bar_at bar_len (iter_abs_messages mid)
           <$> filter (clean_index bar_len (iter_abs_messages mid))
                 (seqZ 0 (n_bars bar_len (iter_abs_messages mid))).
Proof.
  unfold extract_clean_bars, bar_len_of.
  destruct (get_time_signature mid) as [num den]. simpl.
  intros He HL. rewrite HL in He. simpl in He.
  pose proof (ticks_per_bar_ge_1 _ _ _ _ HL) as HL1.
  assert (Hn : 0 <= n_bars bar_len (iter_abs_messages mid))
    by (unfold n_bars; lia).
  destruct (iter_abs_messages mid) as [|ev evs] eqn:Eevs.
  { injection He as <-.
    induction (seqZ 0 (n_bars bar_len [])) as [|b bs IH]; [done|].
    rewrite filter_cons_False; [done|]. intros (Hw & _). by apply Hw. }
  injection He as <-. rewrite <- Eevs in *.
  rewrite <- (Z2Nat.id _ Hn).
  apply (bars_loop_eq bar_len (iter_abs_messages mid) _ ltac:(lia)
           (iter_abs_messages_sorted mid) 0 [] (iter_abs_messages mid) eq_refl).
  constructor.
Qed.

Lemma extract_clean_bars_exactly_the_clean_bars_witness :
  two_bar_source_bars
  = bar_at 1920 (iter_abs_messages two_bar_source)
      <$> filter (clean_index 1920 (iter_abs_messages two_bar_source))
            (seqZ 0 (n_bars 1920 (iter_abs_messages two_bar_source))).
Proof.
  apply (extract_clean_bars_exactly_the_clean_bars two_bar_source
           two_bar_source_bars 1920).
  - vm_compute. reflexivity.
  - vm_compute. reflexivity.
Defined.

Lemma iter_abs_messages_channel mid : Forall channel_event (iter_abs_messages mid).
Proof.
  apply Forall_forall. intros [t m] Hin. unfold iter_abs_messages in Hin.
  rewrite sort_by_key_Permutation in Hin.
  apply elem_of_concat in Hin as (l & Hin & Hl).
  apply list_elem_of_fmap in Hl as (tr & -> & _).
  by apply abs_track_elem in Hin as (i & _ & Hc & _).
Qed.

Lemma abs_rel_track last (l : list event) :
  sorted l -> Forall (fun ev : event => last <= ev.1) l ->
  Forall channel_event l ->
  abs_track last (Msg <$> (rel_track last l).*2) = rel_track last l.
Proof.
  unfold sorted. intros Hs. revert last.
  induction Hs as [|[t m] l Hs IH Hx]; intros last Hlast Hch; simpl; [done|].
  apply Forall_cons in Hlast as [Ht Hlast]. apply Forall_cons in Hch as [Hc Hch].
  unfold channel_event in Hc. simpl in *. rewrite Hc.
  replace (last + Z.max 0 (t - last)) with t by lia.
  f_equal. apply IH; [|done]. eapply Forall_impl; [exact Hx|]. simpl. intros; lia.
Qed.

Lemma rel_track_channel last (l : list event) :
  Forall channel_event l -> Forall channel_event (rel_track last l).
Proof.
  intros Hc. revert last. induction Hc as [|[t m] l Hx Hc IH]; intros last; simpl;
    constructor; [done|apply IH].
Qed.

Lemma window_channel start end_ evs :
  Forall channel_event evs ->
  Forall channel_event
    (map (fun ev : event => (ev.1 - start, set_time ev.2 0)) (window start end_ evs)).
Proof.
  intros Hc. apply Forall_map. unfold window. apply Forall_forall.
  intros ev [_ Hin]%list_elem_of_filter. rewrite Forall_forall in Hc.
  exact (Hc ev Hin).
Qed.

(** X8.  In every bar returned by [extract_clean_bars] the messages
    are channel messages whose [time] fields are the delta times inside
    the bar: added up from the start of the bar they give back the
    relative ticks. *)
Theorem extract_clean_bars_delta_encoded
    (mid : MidiFile) (bars : list (list event)) (bar : list event) :
  extract_clean_bars mid = Ok bars ->
  bar ∈ bars ->
  Forall channel_event bar
  /\ abs_track 0 (Msg <$> bar.*2) = bar.
Proof.
  intros He Hbar.
  destruct (extract_clean_bars_spec mid bars He) as (L & HL & HL1 & Hall).
  destruct (Hall bar Hbar) as (b & Hb & [Hc _ _ _]).
  pose proof (iter_abs_messages_channel mid) as Hch.
  pose proof (iter_abs_messages_sorted mid) as Hs.
  rewrite Hc. unfold to_bar. split.
  - apply rel_track_channel. by apply window_channel.
  - apply abs_rel_track.
    + apply sorted_rebase. by apply sorted_filter.
    + apply Forall_map, Forall_forall. intros ev Hev%window_bounds. simpl. lia.
    + by apply window_channel.
Qed.

Lemma extract_clean_bars_delta_encoded_witness :
  Forall channel_event (one_bar 62)
  /\ abs_track 0 (Msg <$> (one_bar 62).*2) = one_bar 62.
Proof.
  apply (extract_clean_bars_delta_encoded two_bar_source two_bar_source_bars
           (one_bar 62)).
  - vm_compute. reflexivity.
  - apply list_elem_of_further, list_elem_of_here.
Defined.

(* ===================================================================== *)
(** * Further properties: [build_from_spins]                            *)
(* ===================================================================== *)

Lemma build_pool_skip midis1 name mid midis2 st :
  extract_clean_bars mid = Ok [] ->
  build_pool (midis1 ++ (name, mid) :: midis2) st = build_pool (midis1 ++ midis2) st.
Proof.
  intros He. revert st. induction midis1 as [|[n m] l IH]; intros st.
  - simpl. by rewrite He.
  - rewrite <- !app_comm_cons, !build_pool_cons.
    destruct (extract_clean_bars m) as [bars|]; [|done]. simpl.
    destruct (decide (bars = [])); apply IH.
Qed.

(** X9.  A source that yields no clean bar has no part in the result
    of [build_from_spins]: leaving it out of the list changes neither the
    stream, nor the trace, nor the exception, in both programs. *)
Theorem sources_without_clean_bars_are_ignored
    {G : Type} `{PRNG G} (os_entropy : G)
    (midis1 midis2 : list (string * MidiFile)) (name : string) (mid : MidiFile)
    (spins : list Z) (tpb_out : Z) (seed : option Z) :
  extract_clean_bars mid = Ok [] ->
  mozart_dice_game_gui.build_from_spins os_entropy
    (midis1 ++ (name, mid) :: midis2) spins tpb_out seed
  = mozart_dice_game_gui.build_from_spins os_entropy
      (midis1 ++ midis2) spins tpb_out seed
  /\ spin_game_gui.build_from_spins os_entropy
       (midis1 ++ (name, mid) :: midis2) spins tpb_out seed
     = spin_game_gui.build_from_spins os_entropy
         (midis1 ++ midis2) spins tpb_out seed.
Proof.
  intros He.
  rewrite !mozart_build_from_spins_eq, !spin_build_from_spins_eq.
  by rewrite (build_pool_skip _ _ _ _ _ He).
Qed.

Lemma sources_without_clean_bars_are_ignored_witness :
  mozart_dice_game_gui.build_from_spins (MT19937.seed 0)
    ([("a.mid"%string, one_bar_source 60)]
       ++ ("held.mid"%string, held_note_source)
       :: [("b.mid"%string, one_bar_source 62)]) [7; 7; 7] 480 (Some 1)
  = mozart_dice_game_gui.build_from_spins (MT19937.seed 0)
      ([("a.mid"%string, one_bar_source 60)]
         ++ [("b.mid"%string, one_bar_source 62)]) [7; 7; 7] 480 (Some 1)
  /\ spin_game_gui.build_from_spins (MT19937.seed 0)
       ([("a.mid"%string, one_bar_source 60)]
          ++ ("held.mid"%string, held_note_source)
          :: [("b.mid"%string, one_bar_source 62)]) [7; 7; 7] 480 (Some 1)
     = spin_game_gui.build_from_spins (MT19937.seed 0)
         ([("a.mid"%string, one_bar_source 60)]
            ++ [("b.mid"%string, one_bar_source 62)]) [7; 7; 7] 480 (Some 1).
Proof.
  apply (sources_without_clean_bars_are_ignored (MT19937.seed 0)).
  vm_compute. reflexivity.
Defined.

Lemma clamp_total_idemp total : clamp_total (clamp_total total) = clamp_total total.
Proof. unfold clamp_total. lia. Qed.

Section Clamp.
Context {G : Type} `{PRNG G}.

Lemma assemble_loop_clamp tpb_out L dice_table spins :
  forall spin_idx events t log_lines,
    assemble_loop tpb_out L dice_table spin_idx (clamp_total <$> spins)
      events t log_lines
    = assemble_loop tpb_out L dice_table spin_idx spins events t log_lines.
Proof.
  induction spins as [|total spins IH]; intros spin_idx events t log_lines; [done|].
  rewrite fmap_cons. cbn [assemble_loop]. rewrite clamp_total_idemp.
  destruct (py_getitem dice_table (Z.of_nat spin_idx)) as [row|]; [|done]. simpl.
  destruct (py_getitem row (clamp_total total - 2)) as [ph|]; [|done]. simpl.
  destruct (place_phrase tpb_out L ph events t) as [[ev' t']|]; [|done]. simpl.
  apply IH.
Qed.

Lemma assemble_clamp st dice_table spins tpb_out :
  assemble st dice_table (clamp_total <$> spins) tpb_out
  = assemble st dice_table spins tpb_out.
Proof.
  unfold assemble. destruct (default (4, 4) (base_ts st)) as [num den].
  destruct (ticks_per_bar tpb_out num den) as [L|]; [|done]. simpl.
  by rewrite assemble_loop_clamp.
Qed.
End Clamp.

(** X10.  A total below 2 counts as 2 and a total above 12 as 12:
    [build_from_spins] returns the same for the spins and for the spins
    clamped to [2, 12], in both programs. *)
Theorem out_of_range_totals_are_clamped
    {G : Type} `{PRNG G} (os_entropy : G)
    (midis : list (string * MidiFile)) (spins : list Z) (tpb_out : Z)
    (seed : option Z) :
  mozart_dice_game_gui.build_from_spins os_entropy midis spins tpb_out seed
  = mozart_dice_game_gui.build_from_spins os_entropy midis
      (clamp_total <$> spins) tpb_out seed
  /\ spin_game_gui.build_from_spins os_entropy midis spins tpb_out seed
     = spin_game_gui.build_from_spins os_entropy midis
         (clamp_total <$> spins) tpb_out seed.
Proof.
  rewrite !mozart_build_from_spins_eq, !spin_build_from_spins_eq.
  rewrite !length_fmap.
  split; (destruct (build_pool midis empty_pool) as [st|]; [|done]; simpl;
          destruct (pool st); [done|]).
  - destruct (mozart_dice_game_gui.table_loop _ _ _ _) as [[[t ?] ?]|]; [|done].
    simpl. by rewrite assemble_clamp.
  - destruct (spin_game_gui.table_loop _ _ _ _) as [[[t ?] ?]|]; [|done].
    simpl. by rewrite assemble_clamp.
Qed.

Lemma make_phrase_lookup shuffled pos ph (k : nat) :
  make_phrase shuffled pos = Ok ph -> (k < 4)%nat ->
  ph !! k = shuffled !! ((pos + k) mod length shuffled)%nat.
Proof.
  unfold make_phrase. intros Hm Hk. apply mapM_Ok_Forall2 in Hm.
  assert (Hs : seq 0 phrase_len_bars !! k = Some k).
  { apply lookup_seq. unfold phrase_len_bars. lia. }
  destruct (Forall2_lookup_l _ _ _ _ _ Hm Hs) as (e & He & Hf).
  simpl in Hf. apply bind_Ok in Hf as (i & Hi & Hg).
  unfold py_mod in Hi. destruct (length shuffled) eqn:El; [discriminate|].
  injection Hi as <-. rewrite He.
  unfold py_getitem in Hg.
  destruct (Z.of_nat _ <? 0); destruct (_ && _); try discriminate.
  - destruct (shuffled !! _) eqn:E; [|discriminate]. injection Hg as ->.
    exfalso. clear -E. apply lookup_lt_Some in E. lia.
  - rewrite Nat2Z.id in Hg. destruct (shuffled !! _) eqn:E; [|discriminate].
    by injection Hg as ->.
Qed.

Lemma choices_loop_lookup n shuffled pos cs (j k : nat) :
  shuffled <> [] ->
  choices_loop n shuffled pos = Ok cs -> (j < n)%nat -> (k < 4)%nat ->
  exists ph, cs !! j = Some ph
             /\ ph !! k = shuffled !! ((pos + 4 * j + k) mod length shuffled)%nat.
Proof.
  intros Hne.
  assert (Hlen : (0 < length shuffled)%nat) by (destruct shuffled; [done|simpl; lia]).
  revert pos cs j. induction n as [|n IH]; intros pos cs j Hc Hj Hk; [lia|].
  simpl in Hc. apply bind_Ok in Hc as (ph & Hph & Hc).
  apply bind_Ok in Hc as (pos' & Hpos & Hc).
  apply bind_Ok in Hc as (rest & Hrest & Hc). injection Hc as <-.
  destruct j as [|j].
  - exists ph. split; [done|]. rewrite (make_phrase_lookup _ _ _ _ Hph Hk).
    f_equal. f_equal. lia.
  - destruct (IH pos' rest j Hrest ltac:(lia) Hk) as (ph' & Hj' & Hl).
    exists ph'. split; [done|]. rewrite Hl. f_equal.
    rewrite py_mod_Ok in Hpos by done. injection Hpos as <-.
    unfold phrase_len_bars.
    transitivity (((pos + 4) mod length shuffled + (4 * j + k)) mod length shuffled)%nat;
      [f_equal; lia|].
    rewrite Nat.Div0.add_mod_idemp_l. f_equal. lia.
Qed.

(** X11.  The eleven phrases of a turn run through the shuffled pool
    four bars at a time and start again at its beginning on reaching its
    end: bar [k] of the phrase for the total [t] is the shuffled bar at
    position [(4 * (t - 2) + k) mod n], for a pool of [n > 0] bars. *)
Theorem total_selects_four_consecutive_shuffled_bars
    (shuffled : list pool_entry) :
  shuffled <> [] ->
  exists choices,
    choices_for_spin shuffled = Ok choices
    /\ forall (total : Z) (k : nat), 2 <= total <= 12 -> (k < 4)%nat ->
         exists ph,
           py_getitem choices (total - 2) = Ok ph
           /\ ph !! k
              = shuffled !! ((4 * Z.to_nat (total - 2) + k) mod length shuffled)%nat.
Proof.
  intros Hne. destruct (choices_for_spin_Ok shuffled Hne) as (cs & Hcs & Hlen & _).
  exists cs. split; [done|]. intros total k Ht Hk.
  destruct (choices_loop_lookup 11 shuffled 0 cs (Z.to_nat (total - 2)) k Hne Hcs
              ltac:(lia) Hk) as (ph & Hj & Hl).
  exists ph. split; [|exact Hl].
  destruct (py_getitem_nat cs (Z.to_nat (total - 2)) ltac:(lia)) as (a & Ha & Ha').
  rewrite Z2Nat.id in Ha by lia. congruence.
Qed.

Lemma total_selects_four_consecutive_shuffled_bars_witness :
  exists choices,
    choices_for_spin [entry_b; entry_a] = Ok choices
    /\ forall (total : Z) (k : nat), 2 <= total <= 12 -> (k < 4)%nat ->
         exists ph,
           py_getitem choices (total - 2) = Ok ph
           /\ ph !! k
              = [entry_b; entry_a]
                  !! ((4 * Z.to_nat (total - 2) + k) mod length [entry_b; entry_a])%nat.
Proof.
  apply (total_selects_four_consecutive_shuffled_bars [entry_b; entry_a]).
  discriminate.
Defined.

Section OneBar.
Context {G : Type} `{PRNG G}.

Lemma choices_for_spin_singleton (e : pool_entry) :
  choices_for_spin [e] = Ok (replicate 11 (replicate 4 e)).
Proof. reflexivity. Qed.

Lemma mozart_table_loop_singleton turns pool h (g : G) e :
  deref h pool = [e] ->
  exists h',
    mozart_dice_game_gui.table_loop turns pool h g
    = Ok (replicate turns (replicate 11 (replicate 4 e)), h', g).
Proof.
  revert h. induction turns as [|turns IH]; intros h Hd; [by exists h|].
  cbn [mozart_dice_game_gui.table_loop]. rewrite mozart_table_turn_eq, Hd.
  change (shuffle [e] g) with ([e], g). cbn [fst snd].
  rewrite choices_for_spin_singleton, bind_Ok_l, bind_Ok_l.
  destruct (IH (h ++ [[e]])) as (h' & ->).
  { rewrite deref_alloc_old; [done|]. apply deref_nonempty_valid. by rewrite Hd. }
  by exists h'.
Qed.

Lemma spin_table_loop_singleton turns pool h (g : G) e :
  deref h pool = [e] ->
  exists h',
    spin_game_gui.table_loop turns pool h g
    = Ok (replicate turns (replicate 11 (replicate 4 e)), h', g).
Proof.
  revert h. induction turns as [|turns IH]; intros h Hd; [by exists h|].
  assert (Hv : (pool < length h)%nat)
    by (apply deref_nonempty_valid; by rewrite Hd).
  cbn [spin_game_gui.table_loop]. rewrite spin_table_turn_eq, Hd by done.
  change (shuffle [e] g) with ([e], g). cbn [fst snd].
  rewrite choices_for_spin_singleton, bind_Ok_l, bind_Ok_l.
  destruct (IH (<[pool := [e]]> h)) as (h' & ->).
  { by rewrite deref_insert_eq. }
  by exists h'.
Qed.

Lemma py_getitem_replicate {A} (x : A) n (i : Z) :
  0 <= i < Z.of_nat n -> py_getitem (replicate n x) i = Ok x.
Proof.
  intros Hi. destruct (py_getitem_nat (replicate n x) (Z.to_nat i)) as (a & Ha & Hl).
  { rewrite length_replicate. lia. }
  rewrite Z2Nat.id in Ha by lia. rewrite Ha. f_equal.
  apply lookup_replicate in Hl as [-> _]. done.
Qed.

Lemma assemble_loop_one_bar tpb_out L n e spins1 spins2 :
  length spins1 = length spins2 ->
  forall spin_idx events t log1 log2,
    (spin_idx + length spins1 <= n)%nat ->
    fst <$> assemble_loop tpb_out L (replicate n (replicate 11 (replicate 4 e)))
              spin_idx spins1 events t log1
    = fst <$> assemble_loop tpb_out L (replicate n (replicate 11 (replicate 4 e)))
                spin_idx spins2 events t log2.
Proof.
  revert spins2. induction spins1 as [|t1 spins1 IH]; intros [|t2 spins2] Hlen;
    try discriminate; intros spin_idx events t log1 log2 Hn; [done|].
  simpl in Hlen, Hn. cbn [assemble_loop].
  rewrite !py_getitem_replicate by lia. rewrite !bind_Ok_l.
  pose proof (clamp_total_range t1). pose proof (clamp_total_range t2).
  rewrite !py_getitem_replicate by (simpl; lia). rewrite !bind_Ok_l.
  destruct (place_phrase tpb_out L (replicate 4 e) events t) as [[ev' t']|]; [|done].
  rewrite !bind_Ok_l. apply IH; [congruence|lia].
Qed.

Lemma assemble_one_bar st n e spins1 spins2 tpb_out :
  length spins1 = length spins2 -> (length spins1 <= n)%nat ->
  fst <$> assemble st (replicate n (replicate 11 (replicate 4 e))) spins1 tpb_out
  = fst <$> assemble st (replicate n (replicate 11 (replicate 4 e))) spins2 tpb_out.
Proof.
  intros Hlen Hn. unfold assemble.
  destruct (default (4, 4) (base_ts st)) as [num den].
  destruct (ticks_per_bar tpb_out num den) as [L|]; [|done]. rewrite !bind_Ok_l.
  pose proof (assemble_loop_one_bar tpb_out L n e spins1 spins2 Hlen 0%nat [] 0 [] []
                ltac:(lia)) as Hl.
  destruct (assemble_loop _ _ _ _ spins1 _ _ _) as [[ev1 l1]|];
    destruct (assemble_loop _ _ _ _ spins2 _ _ _) as [[ev2 l2]|];
    simpl in Hl |- *; congruence.
Qed.
End OneBar.

(** X12.  When the pool holds a single bar the stream returned by
    [build_from_spins] depends on the number of spins only, not on the
    totals, the seed or the entropy, and the two programs agree. *)
Theorem one_bar_pool_leaves_no_choice
    {G : Type} `{PRNG G} (os1 os2 : G)
    (midis : list (string * MidiFile)) (st : pool_state) (e : pool_entry)
    (spins1 spins2 : list Z) (tpb_out : Z) (seed1 seed2 : option Z) :
  build_pool midis empty_pool = Ok st ->
  pool st = [e] ->
  length spins1 = length spins2 ->
  fst <$> mozart_dice_game_gui.build_from_spins os1 midis spins1 tpb_out seed1
  = fst <$> mozart_dice_game_gui.build_from_spins os2 midis spins2 tpb_out seed2
  /\ spin_game_gui.build_from_spins os1 midis spins1 tpb_out seed1
     = mozart_dice_game_gui.build_from_spins os1 midis spins1 tpb_out seed1.
Proof.
  intros Hst Hp Hlen.
  rewrite !mozart_build_from_spins_eq, !spin_build_from_spins_eq.
  rewrite Hst, !bind_Ok_l, Hp.
  destruct (mozart_table_loop_singleton (length spins1) 0%nat [[e]]
              (Random os1 seed1) e eq_refl) as (h1 & ->).
  destruct (mozart_table_loop_singleton (length spins2) 0%nat [[e]]
              (Random os2 seed2) e eq_refl) as (h2 & ->).
  destruct (spin_table_loop_singleton (length spins1) 0%nat [[e]]
              (Random os1 seed1) e eq_refl) as (h3 & ->).
  rewrite !bind_Ok_l. split; [|done].
  rewrite <- Hlen. by apply assemble_one_bar.
Qed.

Lemma one_bar_pool_leaves_no_choice_witness :
  fst <$> mozart_dice_game_gui.build_from_spins (MT19937.seed 0)
            late_midis [2; 7; 12] 480 (Some 1)
  = fst <$> mozart_dice_game_gui.build_from_spins (MT19937.seed 5)
              late_midis [3; 3; 3] 480 None
  /\ spin_game_gui.build_from_spins (MT19937.seed 0)
       late_midis [2; 7; 12] 480 (Some 1)
     = mozart_dice_game_gui.build_from_spins (MT19937.seed 0)
         late_midis [2; 7; 12] 480 (Some 1).
Proof.
  apply (one_bar_pool_leaves_no_choice (MT19937.seed 0) (MT19937.seed 5) late_midis
           {| pool := [late_entry]; base_tempo := Some 500000;
              base_ts := Some (4, 4) |} late_entry).
  - vm_compute. reflexivity.
  - reflexivity.
  - reflexivity.
Defined.

Lemma build_pool_first_safe midis st0 st :
  build_pool midis st0 = Ok st ->
  match first_safe midis with
  | Some nm =>
      base_ts st = Some (default (get_time_signature nm.2) (base_ts st0))
      /\ base_tempo st = Some (default (get_tempo nm.2) (base_tempo st0))
  | None => st = st0
  end.
Proof.
  revert st0. induction midis as [|[name mid] midis IH]; intros st0.
  { simpl. by intros [= <-]. }
  rewrite build_pool_cons. unfold first_safe. simpl. unfold has_clean_bar at 1. simpl.
  destruct (extract_clean_bars mid) as [bars|]; [|done]. rewrite bind_Ok_l.
  destruct (decide (bars = [])) as [->|Hne].
  - apply IH.
  - destruct bars as [|b bars]; [done|]. intros Hb. specialize (IH _ Hb).
    fold (first_safe midis) in IH. simpl in IH.
    destruct (first_safe midis) as [nm|]; [done|]. by subst st.
Qed.

Section Output.
Context {G : Type} `{PRNG G}.

Lemma rel_abs_messages scale bar ra :
  rel_abs scale bar = Ok ra -> ra.*2 = bar.*2.
Proof.
  unfold rel_abs. intros Hm. apply mapM_Ok_Forall2 in Hm.
  induction Hm as [|[rt m] y bar' ra' Hy _ IH]; [done|].
  simpl in Hy. apply bind_Ok in Hy as (r & _ & Hy). injection Hy as <-.
  rewrite !fmap_cons. by f_equal.
Qed.

Lemma rebase_messages t l : (rebase t l).*2 = l.*2.
Proof. unfold rebase. induction l as [|ev l IH]; simpl; [done|]. by f_equal. Qed.

Lemma place_phrase_messages tpb_out L ph events t events' t' :
  place_phrase tpb_out L ph events t = Ok (events', t') ->
  events'.*2 = events.*2 ++ concat (map (fun e : pool_entry => e.2.*2) ph).
Proof.
  revert events t. induction ph as [|[[[src_tpb name] idx] bar] ph IH];
    intros events t; simpl.
  - intros [= <- <-]. by rewrite app_nil_r.
  - intros Hp. apply bind_Ok in Hp as (scale & _ & Hp).
    apply bind_Ok in Hp as (ra & Hra & Hp).
    rewrite (IH _ _ Hp), fmap_app, rebase_messages, (rel_abs_messages _ _ _ Hra).
    by rewrite <- app_assoc.
Qed.

Lemma assemble_loop_phrases tpb_out L dice_table spins :
  forall spin_idx events t log_lines events' log_lines',
    assemble_loop tpb_out L dice_table spin_idx spins events t log_lines
    = Ok (events', log_lines') ->
    exists phs : list phrase,
      length phs = length spins
      /\ Forall (fun ph => exists row, row ∈ dice_table /\ ph ∈ row) phs
      /\ log_lines'
         = log_lines
           ++ imap (fun i (tp : Z * phrase) =>
                      log_line (spin_idx + i) (clamp_total tp.1) tp.2)
                (zip spins phs)
      /\ events'.*2 = events.*2 ++ bars_messages phs.
Proof.
  induction spins as [|total spins IH];
    intros spin_idx events t log_lines events' log_lines'; simpl.
  - intros [= <- <-]. exists []. by rewrite !app_nil_r.
  - intros Ha. apply bind_Ok in Ha as (row & Hrow & Ha).
    apply bind_Ok in Ha as (ph & Hph & Ha).
    apply bind_Ok in Ha as ([events1 t1] & Hplace & Ha).
    destruct (IH _ _ _ _ _ _ Ha) as (phs & Hlen & Hin & -> & Hmsgs).
    exists (ph :: phs). split_and!.
    + simpl. by rewrite Hlen.
    + constructor; [|done]. exists row.
      split; by eapply py_getitem_Ok_elem.
    + rewrite <- app_assoc. f_equal. simpl. rewrite Nat.add_0_r. f_equal.
      apply imap_ext. intros i x _. simpl. f_equal. lia.
    + rewrite Hmsgs, (place_phrase_messages _ _ _ _ _ _ _ Hplace).
      unfold bars_messages. simpl. by rewrite map_app, concat_app, <- app_assoc.
Qed.

Lemma to_delta_track_messages (l : list event) :
  msg_body <$> to_delta_track l = msg_body <$> l.*2.
Proof.
  unfold to_delta_track. rewrite (proj2 (delta_loop_spec 0 l)).
  by rewrite <- list_fmap_compose.
Qed.

(** What a successful run of either program is made of. *)
Lemma build_from_spins_parts (os_entropy : G) midis spins tpb_out seed out trace :
  mozart_dice_game_gui.build_from_spins os_entropy midis spins tpb_out seed
    = Ok (out, trace)
  \/ spin_game_gui.build_from_spins os_entropy midis spins tpb_out seed
       = Ok (out, trace) ->
  exists st dice_table,
    build_pool midis empty_pool = Ok st
    /\ pool st <> []
    /\ table_shape dice_table /\ table_within (pool st) dice_table
    /\ length dice_table = length spins
    /\ assemble st dice_table spins tpb_out = Ok (out, trace).
Proof.
  intros [Hb|Hb].
  - by apply mozart_build_from_spins_Ok in Hb.
  - by apply spin_build_from_spins_Ok in Hb.
Qed.

End Output.

(** X13.  The stream returned by [build_from_spins] has the
    resolution [tpb_out] and one track, which opens with the time
    signature and then the tempo, both at delta time 0, of the first
    source of the list that yields a clean bar (not of the first source);
    messages with delta times that are not negative follow. *)
Theorem output_takes_meter_and_tempo_of_first_safe_source
    {G : Type} `{PRNG G} (os_entropy : G)
    (midis : list (string * MidiFile)) (spins : list Z) (tpb_out : Z)
    (seed : option Z) (out : MidiFile) (trace : string) :
  mozart_dice_game_gui.build_from_spins os_entropy midis spins tpb_out seed
    = Ok (out, trace)
  \/ spin_game_gui.build_from_spins os_entropy midis spins tpb_out seed
       = Ok (out, trace) ->
  exists name mid msgs,
    first_safe midis = Some (name, mid)
    /\ ticks_per_beat out = tpb_out
    /\ tracks out
       = [ Meta {| meta := time_signature (get_time_signature mid).1
                             (get_time_signature mid).2;
                   meta_time := 0 |}
           :: Meta {| meta := set_tempo (get_tempo mid); meta_time := 0 |}
           :: map Msg msgs ]
    /\ Forall (fun m => 0 <= time m) msgs.
Proof.
  intros Hb.
  destruct (build_from_spins_parts _ _ _ _ _ _ _ Hb)
    as (st & dice_table & Hst & Hne & _ & _ & _ & Ha).
  destruct (assemble_parts _ _ _ _ _ _ Ha) as (L & events & log_lines & _ & _ & -> & _).
  pose proof (build_pool_first_safe _ _ _ Hst) as Hf.
  destruct (first_safe midis) as [[name mid]|]; [|by subst st].
  destruct Hf as [Hts Htempo]. simpl in Hts, Htempo.
  exists name, mid, (to_delta_track (sort_by_key events)).
  unfold build_midi, out_meter, out_tempo. rewrite Hts, Htempo. simpl.
  split_and!; [done|done|done|]. apply delta_loop_spec.
Qed.

Lemma output_takes_meter_and_tempo_of_first_safe_source_witness :
  exists name mid msgs,
    first_safe ab_midis = Some (name, mid)
    /\ ticks_per_beat ab_mozart_run.1 = 480
    /\ tracks ab_mozart_run.1
       = [ Meta {| meta := time_signature (get_time_signature mid).1
                             (get_time_signature mid).2;
                   meta_time := 0 |}
           :: Meta {| meta := set_tempo (get_tempo mid); meta_time := 0 |}
           :: map Msg msgs ]
    /\ Forall (fun m => 0 <= time m) msgs.
Proof.
  apply (output_takes_meter_and_tempo_of_first_safe_source
           (MT19937.seed 0) ab_midis [7; 7; 7] 480 (Some 1)
           ab_mozart_run.1 ab_mozart_run.2).
  left. vm_compute. reflexivity.
Defined.

(** X14.  A run of [build_from_spins] chooses one phrase of four pool
    entries for each spin; the trace has one line for each spin, giving
    its number, its clamped total and the source names of its phrase; and
    the messages of the stream after its two meta messages are, up to
    their order and their delta times, the messages of the bars of these
    phrases: none is lost and none is added. *)
Theorem output_is_the_bars_the_trace_names
    {G : Type} `{PRNG G} (os_entropy : G)
    (midis : list (string * MidiFile)) (spins : list Z) (tpb_out : Z)
    (seed : option Z) (out : MidiFile) (trace : string) :
  mozart_dice_game_gui.build_from_spins os_entropy midis spins tpb_out seed
    = Ok (out, trace)
  \/ spin_game_gui.build_from_spins os_entropy midis spins tpb_out seed
       = Ok (out, trace) ->
  exists (st : pool_state) (phs : list phrase) (msgs : list Message),
    build_pool midis empty_pool = Ok st
    /\ length phs = length spins
    /\ Forall (fun ph : phrase =>
                 length ph = 4%nat /\ Forall (fun e => e ∈ pool st) ph) phs
    /\ trace = trace_of spins phs
    /\ (exists ts tempo, tracks out = [ Meta ts :: Meta tempo :: map Msg msgs ])
    /\ msg_body <$> msgs ≡ₚ msg_body <$> bars_messages phs.
Proof.
  intros Hb.
  destruct (build_from_spins_parts _ _ _ _ _ _ _ Hb)
    as (st & dice_table & Hst & Hne & Hshape & Hwithin & _ & Ha).
  destruct (assemble_parts _ _ _ _ _ _ Ha)
    as (L & events & log_lines & _ & Hloop & -> & ->).
  destruct (assemble_loop_phrases _ _ _ _ _ _ _ _ _ _ Hloop)
    as (phs & Hlen & Hin & -> & Hmsgs).
  exists st, phs, (to_delta_track (sort_by_key events)). split_and!; try done.
  - apply Forall_forall. intros ph Hph. rewrite Forall_forall in Hin.
    destruct (Hin ph Hph) as (row & Hrow & Hphrow).
    unfold table_shape, table_within in *. rewrite Forall_forall in Hshape, Hwithin.
    destruct (Hshape row Hrow) as [_ Hs]. rewrite Forall_forall in Hs.
    specialize (Hwithin row Hrow). rewrite Forall_forall in Hwithin. auto.
  - unfold build_midi. simpl. eauto.
  - rewrite to_delta_track_messages, sort_by_key_Permutation, Hmsgs. done.
Qed.

Lemma output_is_the_bars_the_trace_names_witness :
  exists (st : pool_state) (phs : list phrase) (msgs : list Message),
    build_pool ab_midis empty_pool = Ok st
    /\ length phs = length [7; 7; 7]
    /\ Forall (fun ph : phrase =>
                 length ph = 4%nat /\ Forall (fun e => e ∈ pool st) ph) phs
    /\ ab_mozart_run.2 = trace_of [7; 7; 7] phs
    /\ (exists ts tempo,
          tracks ab_mozart_run.1 = [ Meta ts :: Meta tempo :: map Msg msgs ])
    /\ msg_body <$> msgs ≡ₚ msg_body <$> bars_messages phs.
Proof.
  apply (output_is_the_bars_the_trace_names
           (MT19937.seed 0) ab_midis [7; 7; 7] 480 (Some 1)
           ab_mozart_run.1 ab_mozart_run.2).
  left. vm_compute. reflexivity.
Defined.

Lemma rel_track_messages last (l : list event) m :
  m ∈ (rel_track last l).*2 -> exists m0, m0 ∈ l.*2 /\ msg_body m = msg_body m0.
Proof.
  revert last. induction l as [|[rt m1] l IH]; intros last; simpl.
  { by intros ?%elem_of_nil. }
  intros [->|Hin]%elem_of_cons.
  - exists m1. split; [left|done].
  - destruct (IH _ Hin) as (m0 & Hm0 & Hb). exists m0. split; [by right|done].
Qed.

Lemma bar_message_source mid bars bar m :
  extract_clean_bars mid = Ok bars -> bar ∈ bars -> m ∈ bar.*2 ->
  exists tr i m0,
    tr ∈ tracks mid /\ tr !! i = Some (Msg m0)
    /\ in_CHANNEL_MSGS (msg_body m0) = true
    /\ msg_body m = msg_body m0.
Proof.
  intros He Hbar Hm.
  destruct (extract_clean_bars_spec mid bars He) as (L & HL & HL1 & Hall).
  destruct (Hall bar Hbar) as (b & Hb & [Hc _ _ _]).
  rewrite Hc in Hm. unfold to_bar in Hm.
  apply rel_track_messages in Hm as (m1 & Hm1 & Hb1).
  apply list_elem_of_fmap in Hm1 as ([t1 m1'] & -> & Hin).
  apply list_elem_of_fmap in Hin as ([t0 m0] & [= -> ->] & Hin).
  unfold window in Hin. apply list_elem_of_filter in Hin as [_ Hin].
  unfold iter_abs_messages in Hin. rewrite sort_by_key_Permutation in Hin.
  apply elem_of_concat in Hin as (l & Hin & Hl).
  apply list_elem_of_fmap in Hl as (tr & -> & Htr).
  apply abs_track_elem in Hin as (i & Hi & Hch & _).
  exists tr, i, m0. split_and!; done.
Qed.

(** X15.  Every message of the stream returned by [build_from_spins]
    is, apart from its delta time, a channel message of a track of one of
    the sources. *)
Theorem output_messages_come_from_the_sources
    {G : Type} `{PRNG G} (os_entropy : G)
    (midis : list (string * MidiFile)) (spins : list Z) (tpb_out : Z)
    (seed : option Z) (out : MidiFile) (trace : string) (m : Message) :
  mozart_dice_game_gui.build_from_spins os_entropy midis spins tpb_out seed
    = Ok (out, trace)
  \/ spin_game_gui.build_from_spins os_entropy midis spins tpb_out seed
       = Ok (out, trace) ->
  Msg m ∈ concat (tracks out) ->
  exists name mid tr i m0,
    (name, mid) ∈ midis
    /\ tr ∈ tracks mid /\ tr !! i = Some (Msg m0)
    /\ in_CHANNEL_MSGS (msg_body m0) = true
    /\ msg_body m = msg_body m0.
Proof.
  intros Hb Hm.
  destruct (build_from_spins_parts _ _ _ _ _ _ _ Hb)
    as (st & dice_table & Hst & Hne & Hshape & Hwithin & _ & Ha).
  destruct (assemble_parts _ _ _ _ _ _ Ha)
    as (L & events & log_lines & _ & Hloop & -> & ->).
  destruct (assemble_loop_phrases _ _ _ _ _ _ _ _ _ _ Hloop)
    as (phs & Hlen & Hin & _ & Hmsgs).
  unfold build_midi in Hm. simpl in Hm. rewrite app_nil_r in Hm.
  apply elem_of_cons in Hm as [?|Hm]; [discriminate|].
  apply elem_of_cons in Hm as [?|Hm]; [discriminate|].
  apply list_elem_of_fmap in Hm as (m' & [= <-] & Hm).
  assert (Hbody : msg_body m ∈ msg_body <$> bars_messages phs).
  { rewrite <- app_nil_l, <- Hmsgs at 1. simpl.
    rewrite <- (sort_by_key_Permutation events), <- to_delta_track_messages.
    apply list_elem_of_fmap. eauto. }
  apply list_elem_of_fmap in Hbody as (m1 & Hb1 & Hm1).
  unfold bars_messages in Hm1. apply elem_of_concat in Hm1 as (l & Hm1 & Hl).
  apply list_elem_of_fmap in Hl as (e & -> & He).
  apply elem_of_concat in He as (ph & He & Hph).
  rewrite Forall_forall in Hin. destruct (Hin ph Hph) as (row & Hrow & Hphrow).
  unfold table_within in Hwithin. rewrite Forall_forall in Hwithin.
  specialize (Hwithin row Hrow). rewrite Forall_forall in Hwithin.
  specialize (Hwithin ph Hphrow). rewrite Forall_forall in Hwithin.
  specialize (Hwithin e He).
  pose proof (build_pool_entries _ _ Hst) as Hsrc. rewrite Forall_forall in Hsrc.
  destruct (Hsrc e Hwithin) as (name & mid & bars & Hmid & Hext & _ & Hbar).
  destruct (bar_message_source mid bars e.2 m1 Hext Hbar Hm1)
    as (tr & i & m0 & Htr & Hi & Hch & Hb0).
  exists name, mid, tr, i, m0. split_and!; try done. congruence.
Qed.

Lemma output_messages_come_from_the_sources_witness :
  exists name mid tr i m0,
    (name, mid) ∈ ab_midis
    /\ tr ∈ tracks mid /\ tr !! i = Some (Msg m0)
    /\ in_CHANNEL_MSGS (msg_body m0) = true
    /\ msg_body {| msg_body := note_on 0 62 64; time := 0 |} = msg_body m0.
Proof.
  apply (output_messages_come_from_the_sources
           (MT19937.seed 0) ab_midis [7; 7; 7] 480 (Some 1)
           ab_mozart_run.1 ab_mozart_run.2
           {| msg_body := note_on 0 62 64; time := 0 |}).
  - left. vm_compute. reflexivity.
  - vm_compute. apply list_elem_of_further, list_elem_of_further, list_elem_of_here.
Defined.

Section Same.
Context {G : Type} `{PRNG G}.

Lemma rel_abs_one (bar : list event) :
  Forall (fun ev : event => 0 <= ev.1 < 2 ^ 53) bar ->
  rel_abs (dyadic 1 0) bar = Ok bar.
Proof.
  unfold rel_abs. induction 1 as [|[t m] bar Ht _ IH]; [done|].
  cbn -[scale_tick]. simpl in Ht. rewrite (scale_tick_one t Ht).
  cbn -[scale_tick]. unfold rel_abs in IH. cbn -[scale_tick] in IH. rewrite IH. done.
Qed.

Lemma place_phrase_same tpb L ph :
  0 < tpb < 2 ^ 53 -> L <= 2 ^ 53 ->
  Forall (fits tpb L) ph ->
  forall events t,
    place_phrase tpb L ph events t
    = Ok (events ++ concat (imap (fun j (e : pool_entry) =>
                                    rebase (t + Z.of_nat j * L) e.2) ph),
          t + Z.of_nat (length ph) * L).
Proof.
  intros Ht HL. induction 1 as [|[[[src_tpb name] idx] bar] ph (Htpb & _ & Hbar) _ IH];
    intros events t.
  - simpl. rewrite app_nil_r. do 2 f_equal. lia.
  - simpl in Htpb. subst src_tpb. cbn [place_phrase].
    rewrite scale_of_same, bind_Ok_l by done.
    rewrite rel_abs_one, bind_Ok_l.
    2:{ eapply Forall_impl; [exact Hbar|]. simpl. intros; lia. }
    rewrite IH. f_equal. f_equal.
    + rewrite <- app_assoc. f_equal. cbn [imap concat]. f_equal.
      * f_equal. simpl. lia.
      * f_equal. apply imap_ext. intros j e _. simpl. f_equal. lia.
    + simpl length. lia.
Qed.

Lemma assemble_loop_same tpb L dice_table spins :
  0 < tpb < 2 ^ 53 -> L <= 2 ^ 53 ->
  table_shape dice_table ->
  Forall (Forall (Forall (fits tpb L))) dice_table ->
  forall spin_idx events log_lines events' log_lines',
    assemble_loop tpb L dice_table spin_idx spins events
      (Z.of_nat spin_idx * 4 * L) log_lines = Ok (events', log_lines') ->
    exists phs : list phrase,
      length phs = length spins
      /\ Forall (fun ph => exists row, row ∈ dice_table /\ ph ∈ row) phs
      /\ log_lines'
         = log_lines
           ++ imap (fun i (tp : Z * phrase) =>
                      log_line (spin_idx + i) (clamp_total tp.1) tp.2)
                (zip spins phs)
      /\ events'
         = events
           ++ concat (imap (fun j (e : pool_entry) =>
                              rebase ((Z.of_nat spin_idx * 4 + Z.of_nat j) * L) e.2)
                        (concat phs)).
Proof.
  intros Ht HL Hshape Hfits. induction spins as [|total spins IH];
    intros spin_idx events log_lines events' log_lines'; simpl.
  - intros [= <- <-]. exists []. by rewrite !app_nil_r.
  - intros Ha. apply bind_Ok in Ha as (row & Hrow & Ha).
    apply bind_Ok in Ha as (ph & Hph & Ha).
    pose proof (table_shape_lookup _ _ _ _ _ Hshape Hrow Hph) as Hlen4.
    assert (Hphfits : Forall (fits tpb L) ph).
    { apply py_getitem_Ok_elem in Hrow, Hph. rewrite Forall_forall in Hfits.
      specialize (Hfits row Hrow). rewrite Forall_forall in Hfits. auto. }
    rewrite (place_phrase_same tpb L ph Ht HL Hphfits), bind_Ok_l in Ha.
    rewrite Hlen4 in Ha.
    replace (Z.of_nat spin_idx * 4 * L + Z.of_nat 4 * L)
      with (Z.of_nat (S spin_idx) * 4 * L) in Ha by lia.
    destruct (IH _ _ _ _ _ Ha) as (phs & Hlen & Hin & -> & ->).
    exists (ph :: phs). split_and!.
    + simpl. by rewrite Hlen.
    + constructor; [|done]. exists row. split; by eapply py_getitem_Ok_elem.
    + rewrite <- app_assoc. f_equal. simpl. rewrite Nat.add_0_r. f_equal.
      apply imap_ext. intros i x _. simpl. f_equal. lia.
    + rewrite <- app_assoc. f_equal. cbn [concat]. rewrite imap_app, concat_app.
      f_equal.
      * f_equal. apply imap_ext. intros j e _. simpl. f_equal. lia.
      * f_equal. apply imap_ext. intros j e _. simpl. f_equal. rewrite Hlen4. lia.
Qed.

Lemma rebase_sorted t l : sorted l -> sorted (rebase t l).
Proof.
  unfold sorted, rebase. induction 1 as [|x l Hs IH Hx]; simpl; constructor; [done|].
  apply Forall_map. eapply Forall_impl; [exact Hx|]. simpl. intros; lia.
Qed.

Lemma sorted_app (l1 l2 : list event) :
  sorted l1 -> sorted l2 ->
  (forall a b, a ∈ l1 -> b ∈ l2 -> a.1 <= b.1) ->
  sorted (l1 ++ l2).
Proof.
  unfold sorted. intros H1 H2 H12. induction H1 as [|x l Hs IH Hx]; [done|].
  simpl. constructor.
  - apply IH. intros a b Ha Hb. apply H12; [by right|done].
  - apply Forall_app. split; [done|]. apply Forall_forall. intros b Hb.
    apply H12; [left|done].
Qed.

Lemma laid_sorted L es :
  0 <= L ->
  Forall (fun e : pool_entry =>
            sorted e.2 /\ Forall (fun ev : event => 0 <= ev.1 < L) e.2) es ->
  forall j0,
    sorted (concat (imap (fun j (e : pool_entry) =>
                            rebase (Z.of_nat (j0 + j) * L) e.2) es))
    /\ Forall (fun ev : event => Z.of_nat j0 * L <= ev.1)
         (concat (imap (fun j (e : pool_entry) =>
                          rebase (Z.of_nat (j0 + j) * L) e.2) es)).
Proof.
  intros HL. induction 1 as [|e es [Hs Hr] _ IH]; intros j0.
  { split; constructor. }
  cbn [imap concat]. destruct (IH (S j0)) as [IHs IHr].
  assert (Heq : concat (imap ((fun j (e0 : pool_entry) =>
                                 rebase (Z.of_nat (j0 + j) * L) e0.2) ∘ S) es)
                = concat (imap (fun j (e0 : pool_entry) =>
                                  rebase (Z.of_nat (S j0 + j) * L) e0.2) es)).
  { f_equal. apply imap_ext. intros j x _. simpl. do 2 f_equal. lia. }
  rewrite Heq. rewrite Nat.add_0_r. split.
  - apply sorted_app; [by apply rebase_sorted|done|].
    intros a b Ha Hb. rewrite Forall_forall in IHr. specialize (IHr b Hb).
    unfold rebase in Ha. apply list_elem_of_fmap in Ha as (a0 & -> & Ha0).
    rewrite Forall_forall in Hr. specialize (Hr a0 Ha0). simpl. nia.
  - apply Forall_app. split.
    + unfold rebase. apply Forall_map, Forall_forall. intros a0 Ha0.
      rewrite Forall_forall in Hr. specialize (Hr a0 Ha0). simpl. lia.
    + eapply Forall_impl; [exact IHr|]. simpl. intros; nia.
Qed.
End Same.

Lemma bar_sorted mid bars bar :
  extract_clean_bars mid = Ok bars -> bar ∈ bars -> sorted bar.
Proof.
  intros He Hbar.
  destruct (extract_clean_bars_spec mid bars He) as (L & HL & HL1 & Hall).
  destruct (Hall bar Hbar) as (b & Hb & [Hc _ _ _]).
  apply sorted_of_fst. rewrite Hc. unfold to_bar. rewrite rel_track_fst.
  apply sorted_fst, sorted_rebase, sorted_filter, iter_abs_messages_sorted.
Qed.

Lemma first_safe_elem midis nm : first_safe midis = Some nm -> nm ∈ midis.
Proof.
  unfold first_safe. intros Hf. apply List.find_some in Hf as [Hin _].
  by apply list_elem_of_In.
Qed.

(** X16.  When every source has the resolution [tpb_out] (below
    [2^53]) and the same time signature, with a bar length [L] of at most
    [2^53], the stream is the chosen bars laid end to end: bar [j] of the
    run keeps its relative ticks, all in [[0, L)], from tick [j * L], and
    the events are in order before the final sort. *)
Theorem one_meter_and_resolution_lay_bars_end_to_end
    {G : Type} `{PRNG G} (os_entropy : G)
    (midis : list (string * MidiFile)) (spins : list Z) (tpb_out : Z)
    (seed : option Z) (out : MidiFile) (trace : string) (num den L : Z) :
  0 < tpb_out < 2 ^ 53 ->
  Forall (fun nm : string * MidiFile =>
            ticks_per_beat nm.2 = tpb_out
            /\ get_time_signature nm.2 = (num, den)) midis ->
  ticks_per_bar tpb_out num den = Ok L ->
  L <= 2 ^ 53 ->
  mozart_dice_game_gui.build_from_spins os_entropy midis spins tpb_out seed
    = Ok (out, trace)
  \/ spin_game_gui.build_from_spins os_entropy midis spins tpb_out seed
       = Ok (out, trace) ->
  exists (phs : list phrase) (tempo : Z),
    length phs = length spins
    /\ Forall (fun ph : phrase =>
                 length ph = 4%nat /\ Forall (fits tpb_out L) ph) phs
    /\ trace = trace_of spins phs
    /\ sorted (laid_end_to_end L (concat phs))
    /\ out
       = {| ticks_per_beat := tpb_out;
            tracks :=
              [ Meta {| meta := time_signature num den; meta_time := 0 |}
                :: Meta {| meta := set_tempo tempo; meta_time := 0 |}
                :: map Msg (to_delta_track (laid_end_to_end L (concat phs))) ] |}.
Proof.
  intros Ht Hsame HL HL53 Hb.
  destruct (build_from_spins_parts _ _ _ _ _ _ _ Hb)
    as (st & dice_table & Hst & Hne & Hshape & Hwithin & _ & Ha).
  destruct (assemble_parts _ _ _ _ _ _ Ha)
    as (L' & events & log_lines & HL' & Hloop & -> & ->).
  rewrite Forall_forall in Hsame.
  assert (Hmeter : out_meter st = (num, den)).
  { pose proof (build_pool_first_safe _ _ _ Hst) as Hf.
    destruct (first_safe midis) as [nm|] eqn:Efs; [|by subst st].
    destruct Hf as [Hts _]. apply first_safe_elem in Efs.
    destruct (Hsame nm Efs) as [_ Hnm]. unfold out_meter. rewrite Hts. simpl.
    exact Hnm. }
  rewrite Hmeter in HL' |- *. simpl in HL' |- *.
  rewrite HL in HL'. injection HL' as <-.
  pose proof (ticks_per_bar_ge_1 _ _ _ _ HL) as HL1.
  assert (Hpool : Forall (fits tpb_out L) (pool st)).
  { pose proof (build_pool_entries _ _ Hst) as Hsrc.
    eapply Forall_impl; [exact Hsrc|]. intros e (name & mid & bars & Hmid & Hext & Htpb & Hbar).
    destruct (Hsame _ Hmid) as [Hres Hts]. simpl in Hres, Hts.
    split_and!.
    - congruence.
    - by eapply bar_sorted.
    - eapply extract_clean_bars_ticks; [exact Hext| |exact Hbar].
      unfold bar_len_of. rewrite Hts, Hres. exact HL. }
  assert (Htable : Forall (Forall (Forall (fits tpb_out L))) dice_table).
  { unfold table_within in Hwithin.
    eapply Forall_impl; [exact Hwithin|]. intros row Hrow.
    eapply Forall_impl; [exact Hrow|]. intros ph Hph.
    eapply Forall_impl; [exact Hph|]. intros e He.
    rewrite Forall_forall in Hpool. by apply Hpool. }
  destruct (assemble_loop_same tpb_out L dice_table spins Ht HL53 Hshape Htable
              0%nat [] [] events log_lines Hloop)
    as (phs & Hlen & Hin & -> & ->).
  assert (Hphs : Forall (fun ph : phrase =>
                           length ph = 4%nat /\ Forall (fits tpb_out L) ph) phs).
  { apply Forall_forall. intros ph Hph. rewrite Forall_forall in Hin.
    destruct (Hin ph Hph) as (row & Hrow & Hphrow).
    unfold table_shape in Hshape. rewrite Forall_forall in Hshape, Htable.
    destruct (Hshape row Hrow) as [_ Hs]. rewrite Forall_forall in Hs.
    specialize (Htable row Hrow). rewrite Forall_forall in Htable. auto. }
  assert (Hlaid : [] ++ concat (imap (fun j (e : pool_entry) =>
                                  rebase ((Z.of_nat 0 * 4 + Z.of_nat j) * L) e.2)
                            (concat phs))
                  = laid_end_to_end L (concat phs)).
  { unfold laid_end_to_end. simpl. f_equal. }
  rewrite Hlaid.
  assert (Hsorted : sorted (laid_end_to_end L (concat phs))).
  { apply (laid_sorted L (concat phs) ltac:(lia)) with (j0 := 0%nat).
    apply Forall_forall. intros e He. apply elem_of_concat in He as (ph & He & Hph).
    rewrite Forall_forall in Hphs. destruct (Hphs ph Hph) as [_ Hf].
    rewrite Forall_forall in Hf. by destruct (Hf e He) as (_ & ? & ?). }
  exists phs, (out_tempo st). split_and!; try done.
  unfold build_midi. by rewrite sort_by_key_id.
Qed.

Lemma one_meter_and_resolution_lay_bars_end_to_end_witness :
  exists (phs : list phrase) (tempo : Z),
    length phs = length [7; 7; 7]
    /\ Forall (fun ph : phrase =>
                 length ph = 4%nat /\ Forall (fits 480 1920) ph) phs
    /\ ab_mozart_run.2 = trace_of [7; 7; 7] phs
    /\ sorted (laid_end_to_end 1920 (concat phs))
    /\ ab_mozart_run.1
       = {| ticks_per_beat := 480;
            tracks :=
              [ Meta {| meta := time_signature 4 4; meta_time := 0 |}
                :: Meta {| meta := set_tempo tempo; meta_time := 0 |}
                :: map Msg (to_delta_track (laid_end_to_end 1920 (concat phs))) ] |}.
Proof.
  apply (one_meter_and_resolution_lay_bars_end_to_end
           (MT19937.seed 0) ab_midis [7; 7; 7] 480 (Some 1)
           ab_mozart_run.1 ab_mozart_run.2 4 4 1920).
  - lia.
  - repeat constructor.
  - vm_compute. reflexivity.
  - lia.
  - left. vm_compute. reflexivity.
Defined.

(* ===================================================================== *)
(** * Further properties: [scale_events]                                *)
(* ===================================================================== *)

Lemma scale_tick_pow2 k t :
  -1022 <= k <= 971 -> 0 <= t < 2 ^ 53 ->
  scale_tick (dyadic 1 k) t = Ok (times_pow2 k t).
Proof.
  intros Hk Ht. unfold scale_tick, times_pow2. destruct t as [|p|p]; [| |lia].
  - rewrite of_int_zero, bind_Ok_l. simpl. f_equal.
    destruct (Z.leb_spec 0 k); [done|]. unfold round_half_even.
    assert (0 < 2 ^ (- k)) by (apply Z.pow_pos_nonneg; lia).
    rewrite Z.div_0_l, Z.mod_0_l by lia.
    destruct (Z.ltb_spec (2 * 0) (2 ^ (- k))); [done|lia].
  - rewrite (of_int_exact p), bind_Ok_l by lia.
    pose proof (Zdigits2_lt_pow2 (Zpos p) 53 ltac:(lia) ltac:(lia) ltac:(lia)) as Hd.
    simpl in Hd.
    pose proof (Pos2Z.is_pos (digits2_pos p)).
    rewrite (mul_dyadic p 0 1 k); rewrite ?Pos.mul_1_r; [|lia|lia].
    rewrite round_dyadic by lia. done.
Qed.

(** X17.  [scale_events] by a power of two is exact: every tick [t]
    (from 0 below [2^53]) becomes [t * 2^k] for [k >= 0], and [t / 2^-k]
    rounded to the nearest integer, ties to even, for [k < 0]; the
    messages and their order are kept. *)
Theorem scale_events_by_power_of_two (abs_events : list event) (k : Z) :
  -1022 <= k <= 971 ->
  Forall (fun ev : event => 0 <= ev.1 < 2 ^ 53) abs_events ->
  scale_events abs_events (dyadic 1 k)
  = Ok (map (fun ev : event => (times_pow2 k ev.1, ev.2)) abs_events).
Proof.
  intros Hk. unfold scale_events. induction 1 as [|[t m] l Ht _ IH]; [done|].
  cbn -[scale_tick]. simpl in Ht. rewrite (scale_tick_pow2 k t Hk Ht).
  cbn -[scale_tick]. cbn -[scale_tick] in IH. rewrite IH. done.
Qed.

Lemma scale_events_by_power_of_two_witness :
  scale_events [ (1, {| msg_body := note_on 0 60 64; time := 0 |});
                 (3, {| msg_body := note_off 0 60 0; time := 2 |}) ] (dyadic 1 (-1))
  = Ok (map (fun ev : event => (times_pow2 (-1) ev.1, ev.2))
          [ (1, {| msg_body := note_on 0 60 64; time := 0 |});
            (3, {| msg_body := note_off 0 60 0; time := 2 |}) ]).
Proof.
  apply (scale_events_by_power_of_two _ (-1)); [lia|].
  repeat constructor; simpl; lia.
Defined.

(* ===================================================================== *)
(** * Further properties: [DiceCanvas]                                  *)
(* ===================================================================== *)

Lemma trunc_below B x :
  below B x -> 0 <= B -> exists z, Float.trunc x = Ok z /\ 0 <= z <= 2 ^ B.
Proof.
  intros Hx HB.
  assert (H1 : 1 <= 2 ^ B) by (pose proof (Z.pow_pos_nonneg 2 B); lia).
  destruct x as [sx| | |[] m e]; simpl in Hx; try done.
  { exists 0. split; [done|lia]. }
  simpl. eexists. split; [done|].
  pose proof (digits2_pos_upper m) as Hm.
  set (d := Zpos (digits2_pos m)) in *.
  destruct (Z.leb_spec 0 e) as [He|He].
  - rewrite Z.shiftl_mul_pow2 by done. split; [nia|].
    assert (Zpos m * 2 ^ e < 2 ^ d * 2 ^ e)
      by (apply Z.mul_lt_mono_pos_r; [apply Z.pow_pos_nonneg; lia|done]).
    rewrite <- Z.pow_add_r in H by lia.
    pose proof (Z.pow_le_mono_r 2 (d + e) B). lia.
  - assert (Hq : 0 <= Z.shiftr (Zpos m) (- e)) by (apply Z.shiftr_nonneg; lia).
    split; [lia|].
    destruct (Z.le_gt_cases d (- e)) as [Hde|Hde].
    + assert (Z.shiftr (Zpos m) (- e) = 0); [|lia].
      rewrite Z.shiftr_div_pow2 by lia. apply Z.div_small.
      pose proof (Z.pow_le_mono_r 2 d (- e)). lia.
    + assert (Z.shiftr (Zpos m) (- e) < 2 ^ (d + e)).
      { rewrite Z.shiftr_div_pow2 by lia.
        apply Z.div_lt_upper_bound; [apply Z.pow_pos_nonneg; lia|].
        rewrite <- Z.pow_add_r by lia. by replace (- e + (d + e)) with d by lia. }
      pose proof (Z.pow_le_mono_r 2 (d + e) B). lia.
Qed.

Lemma grid_line_Ok x s c :
  0 <= x < 2 ^ 64 -> 0 <= s < 2 ^ 64 -> is_Ok (DiceCanvas.grid_line x s c).
Proof.
  intros Hx Hs. unfold DiceCanvas.grid_line.
  destruct (of_int_below s 64) as (fs & -> & _); [lia..|].
  destruct (of_int_below x 64) as (fx & -> & _); [lia..|].
  by eexists.
Qed.

Lemma spots_range n spot :
  spot ∈ DiceCanvas.spots n -> 0 <= spot.1 <= 2 /\ 0 <= spot.2 <= 2.
Proof.
  unfold DiceCanvas.spots.
  destruct n as [|[[[]|[]|]|[[]|[]|]|]|]; intros Hin;
    repeat (apply elem_of_cons in Hin as [->|Hin]; [simpl; lia|]);
    by apply elem_of_nil in Hin.
Qed.

Lemma spots_length n :
  1 <= n <= 6 -> length (DiceCanvas.spots n) = Z.to_nat n.
Proof.
  intros Hn. assert (n = 1 \/ n = 2 \/ n = 3 \/ n = 4 \/ n = 5 \/ n = 6) as Hc by lia.
  by destruct Hc as [->|[->|[->|[->|[->| ->]]]]].
Qed.

Lemma pip_Ok cx cy r spot :
  length cx = 3%nat -> length cy = 3%nat -> 0 <= r < 2 ^ 64 ->
  0 <= spot.1 <= 2 -> 0 <= spot.2 <= 2 ->
  exists it, DiceCanvas.pip cx cy r spot = Ok it /\ item_tags it = ["pip"%string].
Proof.
  intros Hcx Hcy Hr H1 H2. unfold DiceCanvas.pip.
  destruct (py_getitem_nat cx (Z.to_nat spot.1)) as (x & Hx & _); [lia|].
  destruct (py_getitem_nat cy (Z.to_nat spot.2)) as (y & Hy & _); [lia|].
  rewrite Z2Nat.id in Hx, Hy by lia. rewrite Hx, bind_Ok_l.
  destruct (of_int_below r 64) as (fr & -> & _); [lia..|].
  rewrite bind_Ok_l, Hy, bind_Ok_l. by eexists.
Qed.

Lemma mapM_Ok_Forall {A B} (f : A -> result B) (P : B -> Prop) l :
  Forall (fun x => exists y, f x = Ok y /\ P y) l ->
  exists l', mapM f l = Ok l' /\ length l' = length l /\ Forall P l'.
Proof.
  induction 1 as [|x l (y & Hy & HP) _ (l' & IH & Hlen & HF)]; simpl.
  - by exists [].
  - rewrite Hy. simpl. rewrite IH. simpl. exists (y :: l').
    split_and!; [done|simpl; by rewrite Hlen|by constructor].
Qed.

Lemma grid_lines_Ok x s :
  0 <= x < 2 ^ 64 -> 0 <= s < 2 ^ 64 ->
  exists cx,
    mapM (DiceCanvas.grid_line x s)
      [DiceCanvas.f0_2; DiceCanvas.f0_5; DiceCanvas.f0_8] = Ok cx
    /\ length cx = 3%nat.
Proof.
  intros Hx Hs.
  destruct (mapM_Ok_Forall (DiceCanvas.grid_line x s) (fun _ => True)
              [DiceCanvas.f0_2; DiceCanvas.f0_5; DiceCanvas.f0_8])
    as (cx & Hcx & Hlen & _); [|by exists cx].
  apply Forall_forall. intros c _.
  destruct (grid_line_Ok x s c Hx Hs) as [v Hv]. by exists v.
Qed.

Lemma _draw_pips_spec x y s n its :
  0 <= x < 2 ^ 64 -> 0 <= y < 2 ^ 64 -> 0 <= s < 2 ^ 32 ->
  exists pips,
    DiceCanvas._draw_pips x y s n its = Ok (its ++ pips)
    /\ length pips = length (DiceCanvas.spots n)
    /\ Forall (fun it => item_tags it = ["pip"%string]) pips.
Proof.
  intros Hx Hy Hs. unfold DiceCanvas._draw_pips.
  destruct (grid_lines_Ok x s) as (cx & -> & Hcx); [lia..|].
  destruct (grid_lines_Ok y s) as (cy & -> & Hcy); [lia..|].
  rewrite !bind_Ok_l.
  destruct (of_int_below s 32) as (fs & -> & Hfs); [lia..|]. rewrite bind_Ok_l.
  assert (Hm : below 30 (Float.mul fs DiceCanvas.f0_06)).
  { apply (mul_below 33 (-4)); [done| |lia|lia]. simpl. lia. }
  destruct (trunc_below 30 _ Hm ltac:(lia)) as (i & -> & Hi). rewrite bind_Ok_l.
  destruct (mapM_Ok_Forall (DiceCanvas.pip cx cy (Z.max 4 i))
              (fun it => item_tags it = ["pip"%string]) (DiceCanvas.spots n))
    as (pips & -> & Hlen & Hpips).
  { apply Forall_forall. intros spot Hspot. apply spots_range in Hspot as [H1 H2].
    apply pip_Ok; try done. lia. }
  rewrite bind_Ok_l. by exists pips.
Qed.

Lemma filter_tag_none tag (l : list canvas_item) :
  Forall (fun it => has_tag tag it = false) l -> List.filter (has_tag tag) l = [].
Proof. induction 1 as [|x l Hx _ IH]; simpl; [done|]. by rewrite Hx. Qed.

Lemma filter_tag_all tag (l : list canvas_item) :
  Forall (fun it => has_tag tag it = true) l -> List.filter (has_tag tag) l = l.
Proof. induction 1 as [|x l Hx _ IH]; simpl; [done|]. by rewrite Hx, IH. Qed.

Lemma canvas_delete_none tag (l : list canvas_item) :
  List.filter (has_tag tag) (canvas_delete tag l) = [].
Proof.
  apply filter_tag_none. apply Forall_forall. intros it Hin.
  apply list_elem_of_In, List.filter_In in Hin as [_ Hn].
  by destruct (has_tag tag it).
Qed.

Lemma canvas_delete_all tag (l : list canvas_item) :
  Forall (fun it => has_tag tag it = true) l -> canvas_delete tag l = [].
Proof.
  induction 1 as [|x l Hx _ IH]; [done|]. unfold canvas_delete in *. simpl.
  by rewrite Hx.
Qed.

Lemma canvas_delete_idemp tag (l : list canvas_item) :
  canvas_delete tag (canvas_delete tag l) = canvas_delete tag l.
Proof.
  unfold canvas_delete. induction l as [|x l IH]; [done|]. simpl.
  destruct (has_tag tag x) eqn:E; simpl; [done|]. by rewrite E, IH.
Qed.

Lemma canvas_delete_app tag (l1 l2 : list canvas_item) :
  canvas_delete tag (l1 ++ l2) = canvas_delete tag l1 ++ canvas_delete tag l2.
Proof. apply List.filter_app. Qed.

Lemma pips_tagged (pips : list canvas_item) :
  Forall (fun it => item_tags it = ["pip"%string]) pips ->
  Forall (fun it => has_tag "pip" it = true) pips.
Proof.
  intros Hp. eapply Forall_impl; [exact Hp|]. intros it Hit. unfold has_tag.
  rewrite Hit. by apply bool_decide_eq_true, list_elem_of_here.
Qed.

Lemma draw_faces_spec left right (c : DiceCanvas.t) :
  0 <= DiceCanvas.size c < 2 ^ 32 ->
  0 <= DiceCanvas.gap c < 2 ^ 32 ->
  exists pips1 pips2,
    DiceCanvas.draw_faces left right c
    = Ok {| DiceCanvas.width := DiceCanvas.width c;
            DiceCanvas.height := DiceCanvas.height c;
            DiceCanvas.size := DiceCanvas.size c;
            DiceCanvas.gap := DiceCanvas.gap c;
            DiceCanvas.left_face := left; DiceCanvas.right_face := right;
            DiceCanvas.items :=
              (canvas_delete "pip" (DiceCanvas.items c) ++ pips1) ++ pips2 |}
    /\ length pips1 = length (DiceCanvas.spots left)
    /\ length pips2 = length (DiceCanvas.spots right)
    /\ Forall (fun it => has_tag "pip" it = true) (pips1 ++ pips2).
Proof.
  intros Hs Hg. unfold DiceCanvas.draw_faces.
  destruct (_draw_pips_spec 10 10 (DiceCanvas.size c) left
              (canvas_delete "pip" (DiceCanvas.items c)))
    as (pips1 & -> & Hl1 & Hp1); [lia..|].
  rewrite bind_Ok_l.
  destruct (_draw_pips_spec (10 + DiceCanvas.size c + DiceCanvas.gap c) 10
              (DiceCanvas.size c) right
              (canvas_delete "pip" (DiceCanvas.items c) ++ pips1))
    as (pips2 & -> & Hl2 & Hp2); [lia..|].
  rewrite bind_Ok_l. exists pips1, pips2. split_and!; [done|done|done|].
  apply Forall_app. split; by apply pips_tagged.
Qed.

(** X18.  On a canvas of a size and a gap from 0 below [2^32],
    [draw_faces(left, right)] with faces from 1 to 6 returns, records the
    two faces, and leaves exactly [left + right] pips, whatever pips were
    there; every other item of the canvas is kept. *)
Theorem draw_faces_shows_the_two_faces (left right : Z) (c : DiceCanvas.t) :
  0 <= DiceCanvas.size c < 2 ^ 32 ->
  0 <= DiceCanvas.gap c < 2 ^ 32 ->
  1 <= left <= 6 -> 1 <= right <= 6 ->
  exists c',
    DiceCanvas.draw_faces left right c = Ok c'
    /\ Z.of_nat (length (DiceCanvas.tagged "pip" c')) = left + right
    /\ canvas_delete "pip" (DiceCanvas.items c')
       = canvas_delete "pip" (DiceCanvas.items c)
    /\ DiceCanvas.left_face c' = left /\ DiceCanvas.right_face c' = right
    /\ DiceCanvas.size c' = DiceCanvas.size c
    /\ DiceCanvas.gap c' = DiceCanvas.gap c.
Proof.
  intros Hs Hg Hl Hr.
  destruct (draw_faces_spec left right c Hs Hg) as (p1 & p2 & -> & H1 & H2 & Hp).
  eexists. split; [done|]. unfold DiceCanvas.tagged. simpl.
  rewrite <- app_assoc. split_and!; try done.
  - rewrite List.filter_app, canvas_delete_none, (filter_tag_all _ _ Hp). simpl.
    rewrite length_app, H1, H2, !spots_length by done. lia.
  - rewrite canvas_delete_app, canvas_delete_idemp, (canvas_delete_all _ _ Hp).
    by rewrite app_nil_r.
Qed.

Lemma draw_faces_shows_the_two_faces_witness :
  exists c',
    DiceCanvas.draw_faces 3 5
      {| DiceCanvas.width := 320; DiceCanvas.height := 140;
         DiceCanvas.size := 140; DiceCanvas.gap := 40;
         DiceCanvas.left_face := 1; DiceCanvas.right_face := 1;
         DiceCanvas.items := [] |} = Ok c'
    /\ Z.of_nat (length (DiceCanvas.tagged "pip" c')) = 3 + 5
    /\ canvas_delete "pip" (DiceCanvas.items c') = canvas_delete "pip" []
    /\ DiceCanvas.left_face c' = 3 /\ DiceCanvas.right_face c' = 5
    /\ DiceCanvas.size c' = 140
    /\ DiceCanvas.gap c' = 40.
Proof.
  apply (draw_faces_shows_the_two_faces 3 5
           {| DiceCanvas.width := 320; DiceCanvas.height := 140;
              DiceCanvas.size := 140; DiceCanvas.gap := 40;
              DiceCanvas.left_face := 1; DiceCanvas.right_face := 1;
              DiceCanvas.items := [] |}); simpl; lia.
Defined.

(* ===================================================================== *)
(** * Further properties: [MozartDiceGame]                              *)
(* ===================================================================== *)

Section MozartFacts.
Context {G : Type} `{PRNG G} `{PyText}.
Import MozartDiceGame.

Lemma randint_1_6 (g : G) :
  exists d, randint 1 6 g = Ok (d, (randbelow g 6).2) /\ 1 <= d <= 6.
Proof.
  unfold randint. pose proof (randbelow_lt g 6 ltac:(lia)) as Hlt.
  change (0 <? 6 + 1 - 1) with true. change (Z.to_nat (6 + 1 - 1)) with 6%nat.
  cbv iota zeta. destruct (randbelow g 6) as [r g']. simpl in Hlt |- *.
  eexists. split; [reflexivity|]. lia.
Qed.

Lemma forced_faces_spec total die :
  2 <= total <= 12 -> 1 <= die <= 6 ->
  1 <= (forced_faces total die).1 <= 6
  /\ 1 <= (forced_faces total die).2 <= 6
  /\ (forced_faces total die).1 + (forced_faces total die).2 = total.
Proof.
  intros Ht Hd. unfold forced_faces.
  destruct (Z.ltb_spec (total - die) 1), (Z.ltb_spec 6 (total - die)); simpl; lia.
Qed.

Lemma forced_total_range txt total :
  forced_total txt = Some total -> py_int txt = Some total /\ 2 <= total <= 12.
Proof.
  unfold forced_total. destruct (py_int txt) as [z|]; [|done].
  destruct (Z.leb_spec 2 z), (Z.leb_spec z 12); simpl; try done.
  intros [= <-]. split; [done|lia].
Qed.

Lemma draw_faces_consistent lf rf (d : DiceCanvas.t) :
  DiceCanvas.size d = 140 -> DiceCanvas.gap d = 40 ->
  1 <= lf <= 6 -> 1 <= rf <= 6 ->
  exists d',
    DiceCanvas.draw_faces lf rf d = Ok d'
    /\ DiceCanvas.size d' = 140 /\ DiceCanvas.gap d' = 40
    /\ DiceCanvas.left_face d' = lf /\ DiceCanvas.right_face d' = rf
    /\ Z.of_nat (length (DiceCanvas.tagged "pip" d')) = lf + rf.
Proof.
  intros Hs Hg Hl Hr.
  destruct (draw_faces_spec lf rf d) as (p1 & p2 & -> & H1 & H2 & Hp);
    [rewrite Hs; lia|rewrite Hg; lia|].
  eexists. split; [done|]. unfold DiceCanvas.tagged. simpl.
  split_and!; try done.
  rewrite <- app_assoc, List.filter_app, canvas_delete_none, (filter_tag_all _ _ Hp).
  simpl. rewrite length_app, H1, H2, !spots_length by done. lia.
Qed.

Lemma draw_faces_ok lf rf d :
  DiceCanvas.size d = 140 -> DiceCanvas.gap d = 40 ->
  1 <= lf <= 6 -> 1 <= rf <= 6 ->
  exists d', DiceCanvas.draw_faces lf rf d = Ok d' /\ dice_ok d'
             /\ DiceCanvas.left_face d' = lf /\ DiceCanvas.right_face d' = rf.
Proof.
  intros Hs Hg Hl Hr.
  destruct (draw_faces_consistent lf rf d Hs Hg Hl Hr)
    as (d' & Hd & Hs' & Hg' & Hlf & Hrf & Hp).
  exists d'. unfold dice_ok. rewrite Hlf, Hrf. split_and!; try done; lia.
Qed.

(** One frame of the animation, from a window whose canvas is in order. *)
Lemma _animate_step_frame i st w :
  dice_ok (dice st) -> i < 14 ->
  exists d g,
    _animate_step i 14 st w
    = Ok (set_after_id (Some (next_after w)) (set_dice d st),
          {| random := g; dialogs := dialogs w;
             timers := timers w ++ [(next_after w, (i + 1, 14))];
             next_after := S (next_after w) |})
    /\ dice_ok d.
Proof.
  intros (Hs & Hg & _) Hi. unfold _animate_step.
  destruct (randint_1_6 (random w)) as (lf & -> & Hlf). rewrite bind_Ok_l.
  destruct (randint_1_6 (randbelow (random w) 6).2) as (rf & -> & Hrf).
  rewrite bind_Ok_l.
  destruct (draw_faces_ok lf rf (dice st) Hs Hg Hlf Hrf) as (d & -> & Hd & _).
  rewrite bind_Ok_l. cbv zeta.
  destruct (Z.ltb_spec i 14) as [_|]; [|lia].
  exists d. eexists. split; [reflexivity|done].
Qed.

(** The last call of the animation. *)
Lemma _animate_step_last i st w :
  dice_ok (dice st) -> 14 <= i ->
  exists d g d1 d2,
    _animate_step i 14 st w
    = Ok (append_roll (d1 + d2) false (Some d1) (Some d2)
            (set_animating false (set_dice d st)),
          set_random g w)
    /\ dice_ok d /\ 1 <= d1 <= 6 /\ 1 <= d2 <= 6
    /\ DiceCanvas.left_face d = d1 /\ DiceCanvas.right_face d = d2.
Proof.
  intros (Hs & Hg & _) Hi. unfold _animate_step.
  destruct (randint_1_6 (random w)) as (lf & -> & Hlf). rewrite bind_Ok_l.
  destruct (randint_1_6 (randbelow (random w) 6).2) as (rf & -> & Hrf).
  rewrite bind_Ok_l.
  destruct (draw_faces_ok lf rf (dice st) Hs Hg Hlf Hrf)
    as (d & -> & (Hs' & Hg' & _) & _).
  rewrite bind_Ok_l. cbv zeta.
  destruct (Z.ltb_spec i 14) as [|_]; [lia|].
  cbn [random set_random].
  destruct (randint_1_6 (randbelow (randbelow (random w) 6).2 6).2)
    as (d1 & -> & Hd1). rewrite bind_Ok_l.
  destruct (randint_1_6 (randbelow (randbelow (randbelow (random w) 6).2 6).2 6).2)
    as (d2 & -> & Hd2). rewrite bind_Ok_l.
  cbn [dice set_dice].
  destruct (draw_faces_ok d1 d2 d Hs' Hg' Hd1 Hd2) as (d' & -> & Hd' & Hl' & Hr').
  rewrite bind_Ok_l.
  exists d'. eexists. exists d1, d2. split_and!; [reflexivity|done|lia..|done|done].
Qed.

Lemma append_roll_fields total forced d1 d2 st :
  current_rolls (append_roll total forced d1 d2 st) = current_rolls st ++ [total]
  /\ dice (append_roll total forced d1 d2 st) = dice st
  /\ animating (append_roll total forced d1 d2 st) = animating st
  /\ spins_var (append_roll total forced d1 d2 st) = spins_var st.
Proof. unfold append_roll. by destruct forced. Qed.

Lemma undo_last_fields st :
  current_rolls (undo_last st) = removelast (current_rolls st)
  /\ dice (undo_last st) = dice st
  /\ animating (undo_last st) = animating st.
Proof.
  unfold undo_last. destruct (last (current_rolls st)) eqn:E; [done|].
  apply last_None in E. by rewrite E.
Qed.

Lemma Forall_removelast {A} (P : A -> Prop) (l : list A) :
  Forall P l -> Forall P (removelast l).
Proof.
  induction 1 as [|x l Hx Hl IH]; [done|]. simpl.
  destruct l; [constructor|]. by constructor.
Qed.

Lemma reset_game_spec st :
  DiceCanvas.size (dice st) = 140 -> DiceCanvas.gap (dice st) = 40 ->
  exists st',
    reset_game st = Ok st'
    /\ current_rolls st' = [] /\ dice_ok (dice st')
    /\ animating st' = animating st /\ spins_var st' = spins_var st.
Proof.
  intros Hs Hg. unfold reset_game. cbn [dice set_dice _log set_log set_rolls_label
                                         set_current_rolls].
  destruct (draw_faces_ok 1 1 (dice st) Hs Hg ltac:(lia) ltac:(lia))
    as (d & -> & Hd & _).
  rewrite bind_Ok_l. eexists. split; [reflexivity|]. by split_and!.
Qed.

(** Every handler returns, and keeps the window consistent. *)
Lemma step_consistent (a : action) st w :
  consistent st w ->
  exists st' w', step a st w = Ok (st', w') /\ consistent st' w'.
Proof.
  intros (Hrolls & Hdice & Htimers).
  pose proof Hdice as (Hs & Hg & _).
  destruct a as [| | |id|spins seed tpb force out]; cbn [step].
  - (* press_roll *)
    unfold roll_clicked.
    destruct (Z.leb_spec (spins_var st) (Z.of_nat (length (current_rolls st)))).
    { eexists _, _. split; [reflexivity|]. by split_and!. }
    case_bool_decide as Etxt.
    { unfold start_animation. destruct (animating st) eqn:Ean.
      { eexists _, _. split; [reflexivity|]. unfold consistent. rewrite Ean.
        by split_and!. }
      destruct (_animate_step_frame 0 (set_animating true st) w Hdice ltac:(lia))
        as (d & g & -> & Hd).
      eexists _, _. split; [reflexivity|]. split_and!; [done|done|].
      cbn. rewrite Htimers. exists (next_after w), 1. split; [done|lia]. }
    destruct (forced_total (strip (force_var st))) as [total|] eqn:Etot.
    2:{ eexists _, _. split; [reflexivity|]. by split_and!. }
    apply forced_total_range in Etot as [_ Htot].
    destruct (randint_1_6 (random w)) as (die & -> & Hdie). rewrite bind_Ok_l.
    destruct (forced_faces_spec total die Htot Hdie) as (Hl & Hr & _).
    cbv zeta.
    destruct (draw_faces_ok _ _ (dice st) Hs Hg Hl Hr) as (d & -> & Hd & _).
    rewrite bind_Ok_l. eexists _, _. split; [reflexivity|].
    destruct (append_roll_fields total true None None (set_dice d st))
      as (Hr' & Hd' & Ha' & _).
    unfold consistent. rewrite Hr', Hd', Ha'. split_and!; [|done|done].
    apply Forall_app. split; [done|]. constructor; [lia|constructor].
  - (* press_undo *)
    eexists _, _. split; [reflexivity|].
    destruct (undo_last_fields st) as (Hr' & Hd' & Ha').
    unfold consistent. rewrite Hr', Hd', Ha'. split_and!; [|done|done].
    by apply Forall_removelast.
  - (* press_reset *)
    destruct (reset_game_spec st Hs Hg) as (st' & -> & Hr' & Hd' & Ha' & _).
    rewrite bind_Ok_l. eexists _, _. split; [reflexivity|].
    unfold consistent. rewrite Hr', Ha'. by split_and!.
  - (* after_due *)
    destruct (animating st) eqn:Ean.
    2:{ rewrite Htimers. simpl. eexists _, _. split; [reflexivity|].
        unfold consistent. rewrite Ean. by split_and!. }
    destruct Htimers as (id0 & i & Ht & Hi). rewrite Ht. cbn [List.find fst].
    destruct (Nat.eqb_spec id0 id) as [->|Hne].
    2:{ eexists _, _. split; [reflexivity|]. unfold consistent. rewrite Ean.
        split_and!; [done|done|]. by exists id0, i. }
    assert (Hrm : timers (remove_timer id w) = []).
    { unfold remove_timer. cbn. rewrite Ht. cbn. by rewrite Nat.eqb_refl. }
    destruct (Z.lt_ge_cases i 14) as [Hlt|Hge].
    + destruct (_animate_step_frame i st (remove_timer id w) Hdice Hlt)
        as (d & g & -> & Hd).
      eexists _, _. split; [reflexivity|]. unfold consistent.
      cbn [timers animating dice current_rolls set_after_id set_dice].
      rewrite Ean, Hrm.
      split_and!; [done|done|]. eexists _, (i + 1). split; [done|lia].
    + destruct (_animate_step_last i st (remove_timer id w) Hdice Hge)
        as (d & g & d1 & d2 & -> & Hd & Hd1 & Hd2 & _).
      eexists _, _. split; [reflexivity|].
      destruct (append_roll_fields (d1 + d2) false (Some d1) (Some d2)
                  (set_animating false (set_dice d st))) as (Hr' & Hd' & Ha' & _).
      unfold consistent. rewrite Hr', Hd', Ha'.
      cbn [timers animating dice current_rolls set_animating set_dice set_random].
      split_and!; [|done|done].
      apply Forall_app. split; [done|]. constructor; [lia|constructor].
  - (* edit *)
    case_bool_decide; eexists _, _; (split; [reflexivity|]); by split_and!.
Qed.

Lemma run_consistent acts st w :
  consistent st w ->
  exists st' w', run acts st w = Ok (st', w') /\ consistent st' w'.
Proof.
  revert st w. induction acts as [|a acts IH]; intros st w Hc.
  { by exists st, w. }
  destruct (step_consistent a st w Hc) as (st1 & w1 & Hstep & Hc1).
  destruct (IH st1 w1 Hc1) as (st' & w' & Hrun & Hc').
  exists st', w'. split; [|done]. cbn [run]. by rewrite Hstep, bind_Ok_l.
Qed.

Lemma __init___spec midis :
  exists st, __init__ midis = Ok st /\ current_rolls st = []
             /\ dice_ok (dice st) /\ animating st = false /\ spins_var st = 4.
Proof.
  unfold __init__.
  assert (Hd : exists d, DiceCanvas.__init__ 140 40 = Ok d
                         /\ DiceCanvas.size d = 140 /\ DiceCanvas.gap d = 40).
  { unfold DiceCanvas.__init__. cbv zeta.
    destruct (draw_faces_ok 1 1
                (DiceCanvas._draw_static
                   {| DiceCanvas.width := 140 * 2 + 40; DiceCanvas.height := 140;
                      DiceCanvas.size := 140; DiceCanvas.gap := 40;
                      DiceCanvas.left_face := 1; DiceCanvas.right_face := 1;
                      DiceCanvas.items := [] |}))
      as (d & Hd & (? & ? & _) & _); [done|done|lia|lia|].
    by exists d. }
  destruct Hd as (d & -> & Hs & Hg). rewrite bind_Ok_l.
  match goal with |- exists st, reset_game ?s = _ /\ _ =>
    destruct (reset_game_spec s Hs Hg) as (st' & -> & Hr & Hd' & Ha & Hsp)
  end.
  exists st'. by split_and!.
Qed.
End MozartFacts.

(** X19.  From a new window of [MozartDiceGame] every sequence of
    presses of Roll, Undo and Reset, of due [after] calls and of edits of
    the inputs runs without an exception, whatever the generator gives,
    and leaves the window consistent: every recorded roll lies between 2
    and 12, the canvas shows two faces from 1 to 6 with one pip for each
    point, and one animation frame is pending while an animation runs,
    none otherwise. *)
Theorem every_reachable_window_is_consistent
    {G : Type} `{PRNG G} `{PyText}
    (midis : list (string * MidiFile)) (g : G)
    (acts : list MozartDiceGame.action) :
  exists st0 st w,
    MozartDiceGame.__init__ midis = Ok st0
    /\ MozartDiceGame.run acts st0
         {| MozartDiceGame.random := g; MozartDiceGame.dialogs := [];
            MozartDiceGame.timers := []; MozartDiceGame.next_after := 0 |}
       = Ok (st, w)
    /\ MozartDiceGame.consistent st w.
Proof.
  destruct (__init___spec midis) as (st0 & Hinit & Hr & Hd & Ha & _).
  destruct (run_consistent acts st0
              {| MozartDiceGame.random := g; MozartDiceGame.dialogs := [];
                 MozartDiceGame.timers := []; MozartDiceGame.next_after := 0 |})
    as (st & w & Hrun & Hc).
  { unfold MozartDiceGame.consistent. rewrite Hr, Ha. by split_and!. }
  by exists st0, st, w.
Qed.

Section MozartTheorems.
Context {G : Type} `{PRNG G} `{PyText}.
Import MozartDiceGame.

Lemma roll_clicked_forced_spec st w total :
  dice_ok (dice st) ->
  Z.of_nat (length (current_rolls st)) < spins_var st ->
  strip (force_var st) <> EmptyString ->
  py_int (strip (force_var st)) = Some total ->
  2 <= total <= 12 ->
  exists st' w',
    roll_clicked st w = Ok (st', w')
    /\ current_rolls st' = current_rolls st ++ [total]
    /\ dice_ok (dice st')
    /\ DiceCanvas.left_face (dice st') + DiceCanvas.right_face (dice st') = total
    /\ animating st' = animating st
    /\ dialogs w' = dialogs w /\ timers w' = timers w
    /\ random w' = (randbelow (random w) 6).2.
Proof.
  intros Hdice Hlen Htxt Hint Htot. pose proof Hdice as (Hs & Hg & _).
  unfold roll_clicked.
  destruct (Z.leb_spec (spins_var st) (Z.of_nat (length (current_rolls st))));
    [lia|].
  rewrite bool_decide_eq_false_2 by done.
  unfold forced_total. rewrite Hint.
  destruct (Z.leb_spec 2 total); [|lia]. destruct (Z.leb_spec total 12); [|lia].
  cbn [andb].
  destruct (randint_1_6 (random w)) as (die & -> & Hdie). rewrite bind_Ok_l.
  destruct (forced_faces_spec total die Htot Hdie) as (Hl & Hr & Hsum).
  cbv zeta.
  destruct (draw_faces_ok _ _ (dice st) Hs Hg Hl Hr) as (d & -> & Hd & Hlf & Hrf).
  rewrite bind_Ok_l. eexists _, _. split; [reflexivity|].
  destruct (append_roll_fields total true None None (set_dice d st))
    as (Hr' & Hd' & Ha' & _).
  rewrite Hr', Hd', Ha'. cbn [dice set_dice]. rewrite Hlf, Hrf.
  by split_and!.
Qed.
End MozartTheorems.

(** X20.  With spins left and a Force entry that reads as a total
    from 2 to 12, [roll_clicked] records this total, shows two faces from
    1 to 6 that add up to it, opens no dialog, starts no animation, and
    draws one number from the generator. *)
Theorem forced_roll_is_recorded_and_shown
    {G : Type} `{PRNG G} `{PyText}
    (st : MozartDiceGame.t) (w : MozartDiceGame.world) (total : Z) :
  MozartDiceGame.dice_ok (MozartDiceGame.dice st) ->
  Z.of_nat (length (MozartDiceGame.current_rolls st)) < MozartDiceGame.spins_var st ->
  strip (MozartDiceGame.force_var st) <> EmptyString ->
  py_int (strip (MozartDiceGame.force_var st)) = Some total ->
  2 <= total <= 12 ->
  exists st' w',
    MozartDiceGame.roll_clicked st w = Ok (st', w')
    /\ MozartDiceGame.current_rolls st' = MozartDiceGame.current_rolls st ++ [total]
    /\ MozartDiceGame.dice_ok (MozartDiceGame.dice st')
    /\ DiceCanvas.left_face (MozartDiceGame.dice st')
       + DiceCanvas.right_face (MozartDiceGame.dice st') = total
    /\ MozartDiceGame.animating st' = MozartDiceGame.animating st
    /\ MozartDiceGame.dialogs w' = MozartDiceGame.dialogs w
    /\ MozartDiceGame.timers w' = MozartDiceGame.timers w
    /\ MozartDiceGame.random w' = (randbelow (MozartDiceGame.random w) 6).2.
Proof. apply roll_clicked_forced_spec. Qed.

Section Examples.
#[local] Existing Instance numerals.

Lemma forced_roll_is_recorded_and_shown_witness :
  exists st' w',
    MozartDiceGame.roll_clicked (example_window "11") example_world = Ok (st', w')
    /\ MozartDiceGame.current_rolls st'
       = MozartDiceGame.current_rolls (example_window "11") ++ [11]
    /\ MozartDiceGame.dice_ok (MozartDiceGame.dice st')
    /\ DiceCanvas.left_face (MozartDiceGame.dice st')
       + DiceCanvas.right_face (MozartDiceGame.dice st') = 11
    /\ MozartDiceGame.animating st' = MozartDiceGame.animating (example_window "11")
    /\ MozartDiceGame.dialogs w' = MozartDiceGame.dialogs example_world
    /\ MozartDiceGame.timers w' = MozartDiceGame.timers example_world
    /\ MozartDiceGame.random w'
       = (randbelow (MozartDiceGame.random example_world) 6).2.
Proof.
  apply (forced_roll_is_recorded_and_shown (example_window "11") example_world 11).
  - unfold MozartDiceGame.dice_ok. vm_compute. repeat split; congruence.
  - simpl. lia.
  - discriminate.
  - reflexivity.
  - lia.
Defined.
End Examples.

(** X21.  When all spins are used, or when the Force entry is not
    blank and does not read as a total from 2 to 12, [roll_clicked] shows
    one dialog and changes nothing else: no roll is recorded, no number is
    drawn, no animation starts. *)
Theorem roll_clicked_refuses_without_change
    {G : Type} `{PRNG G} `{PyText}
    (st : MozartDiceGame.t) (w : MozartDiceGame.world) :
  MozartDiceGame.spins_var st <= Z.of_nat (length (MozartDiceGame.current_rolls st))
  \/ (strip (MozartDiceGame.force_var st) <> EmptyString
      /\ forall total, py_int (strip (MozartDiceGame.force_var st)) = Some total ->
                       total < 2 \/ 12 < total) ->
  exists d,
    MozartDiceGame.roll_clicked st w
    = Ok (st, {| MozartDiceGame.random := MozartDiceGame.random w;
                 MozartDiceGame.dialogs := MozartDiceGame.dialogs w ++ [d];
                 MozartDiceGame.timers := MozartDiceGame.timers w;
                 MozartDiceGame.next_after := MozartDiceGame.next_after w |}).
Proof.
  intros Hc. unfold MozartDiceGame.roll_clicked.
  destruct (Z.leb_spec (MozartDiceGame.spins_var st)
              (Z.of_nat (length (MozartDiceGame.current_rolls st)))) as [Hle|Hlt].
  { by eexists. }
  destruct Hc as [Hle|[Htxt Hbad]]; [lia|].
  rewrite bool_decide_eq_false_2 by done.
  unfold MozartDiceGame.forced_total.
  destruct (py_int (strip (MozartDiceGame.force_var st))) as [total|] eqn:E.
  - destruct (Hbad total eq_refl).
    + destruct (Z.leb_spec 2 total); [lia|]. by eexists.
    + destruct (Z.leb_spec total 12); [lia|]. rewrite andb_false_r. by eexists.
  - by eexists.
Qed.

Section ExamplesRefusal.
#[local] Existing Instance numerals.

Lemma roll_clicked_refuses_without_change_witness :
  exists d,
    MozartDiceGame.roll_clicked (example_window "13") example_world
    = Ok (example_window "13",
          {| MozartDiceGame.random := MozartDiceGame.random example_world;
             MozartDiceGame.dialogs := MozartDiceGame.dialogs example_world ++ [d];
             MozartDiceGame.timers := MozartDiceGame.timers example_world;
             MozartDiceGame.next_after := MozartDiceGame.next_after example_world |}).
Proof.
  apply (roll_clicked_refuses_without_change (example_window "13") example_world).
  right. split; [discriminate|]. intros total [= <-]. lia.
Defined.
End ExamplesRefusal.

Section Animation.
Context {G : Type} `{PRNG G} `{PyText}.
Import MozartDiceGame.

Lemma run_after_due_cons id n st w :
  run (map after_due (seq id (S n))) st w
  = ('(st, w) ← step (after_due id) st w; run (map after_due (seq (S id) n)) st w).
Proof. reflexivity. Qed.

Lemma after_due_pending id i st w :
  timers w = [(id, (i, 14))] ->
  step (after_due id) st w = _animate_step i 14 st (remove_timer id w)
  /\ timers (remove_timer id w) = []
  /\ next_after (remove_timer id w) = next_after w.
Proof.
  intros Ht. cbn [step]. rewrite Ht. cbn [List.find fst]. rewrite Nat.eqb_refl.
  split_and!; [done| |done].
  unfold remove_timer. cbn. rewrite Ht. cbn. by rewrite Nat.eqb_refl.
Qed.

Lemma animation_runs (k : nat) :
  forall i id st w,
    i = 14 - Z.of_nat k -> 1 <= i ->
    timers w = [(id, (i, 14))] -> next_after w = S id ->
    dice_ok (dice st) ->
    exists st' w' d1 d2,
      run (map after_due (seq id (S k))) st w = Ok (st', w')
      /\ animating st' = false /\ timers w' = []
      /\ current_rolls st' = current_rolls st ++ [d1 + d2]
      /\ 1 <= d1 <= 6 /\ 1 <= d2 <= 6
      /\ dice_ok (dice st')
      /\ DiceCanvas.left_face (dice st') = d1
      /\ DiceCanvas.right_face (dice st') = d2.
Proof.
  induction k as [|k IH]; intros i id st w Hi Hi1 Ht Hn Hdice;
    rewrite run_after_due_cons;
    destruct (after_due_pending id i st w Ht) as (-> & Hrm & Hna).
  - destruct (_animate_step_last i st (remove_timer id w) Hdice ltac:(lia))
      as (d & g & d1 & d2 & -> & Hd & Hd1 & Hd2 & Hl & Hr).
    rewrite bind_Ok_l. cbn [seq map run].
    destruct (append_roll_fields (d1 + d2) false (Some d1) (Some d2)
                (set_animating false (set_dice d st))) as (Hr' & Hd' & Ha' & _).
    eexists _, _, d1, d2. split; [reflexivity|].
    rewrite Hr', Hd', Ha'. cbn [animating set_animating dice set_dice timers
                                 set_random current_rolls].
    split_and!; try done; lia.
  - destruct (_animate_step_frame i st (remove_timer id w) Hdice ltac:(lia))
      as (d & g & -> & Hd).
    rewrite bind_Ok_l. cbv beta iota.
    match goal with
    | |- context [run _ ?s ?w0] =>
        destruct (IH (i + 1) (S id) s w0) as (st' & w' & d1 & d2 & Hrun & Hrest)
    end; [lia|lia|cbn [timers]; by rewrite Hrm, Hna, Hn|cbn [next_after]; by rewrite Hna, Hn
         |exact Hd|].
    exists st', w', d1, d2. split; [exact Hrun|exact Hrest].
Qed.
End Animation.

(** X22.  On a consistent window with a blank Force entry, spins left
    and no animation running, a press of Roll followed by its fourteen
    [after] calls ends the animation with exactly one roll recorded: the sum of the two dice
    then shown, each from 1 to 6. *)
Theorem animation_ends_with_one_roll
    {G : Type} `{PRNG G} `{PyText}
    (st : MozartDiceGame.t) (w : MozartDiceGame.world) :
  MozartDiceGame.consistent st w ->
  MozartDiceGame.animating st = false ->
  Z.of_nat (length (MozartDiceGame.current_rolls st)) < MozartDiceGame.spins_var st ->
  strip (MozartDiceGame.force_var st) = EmptyString ->
  exists st' w' d1 d2,
    MozartDiceGame.run
      (MozartDiceGame.press_roll
         :: map MozartDiceGame.after_due (seq (MozartDiceGame.next_after w) 14))
      st w = Ok (st', w')
    /\ MozartDiceGame.animating st' = false
    /\ MozartDiceGame.timers w' = []
    /\ MozartDiceGame.current_rolls st'
       = MozartDiceGame.current_rolls st ++ [d1 + d2]
    /\ 1 <= d1 <= 6 /\ 1 <= d2 <= 6
    /\ MozartDiceGame.dice_ok (MozartDiceGame.dice st')
    /\ DiceCanvas.left_face (MozartDiceGame.dice st') = d1
    /\ DiceCanvas.right_face (MozartDiceGame.dice st') = d2.
Proof.
  intros (Hrolls & Hdice & Htimers) Han Hlen Htxt. rewrite Han in Htimers.
  cbn [MozartDiceGame.run MozartDiceGame.step]. unfold MozartDiceGame.roll_clicked.
  destruct (Z.leb_spec (MozartDiceGame.spins_var st)
              (Z.of_nat (length (MozartDiceGame.current_rolls st)))); [lia|].
  rewrite bool_decide_eq_true_2 by done.
  unfold MozartDiceGame.start_animation. rewrite Han.
  destruct (_animate_step_frame 0 (MozartDiceGame.set_animating true st) w Hdice
              ltac:(lia)) as (d & g & -> & Hd).
  rewrite bind_Ok_l. cbv beta iota.
  match goal with
  | |- context [MozartDiceGame.run _ ?s ?w0] =>
      destruct (animation_runs 13 1 (MozartDiceGame.next_after w) s w0)
        as (st' & w' & d1 & d2 & Hrun & Hrest)
  end; [lia|lia|cbn [MozartDiceGame.timers]; by rewrite Htimers|reflexivity|exact Hd|].
  exists st', w', d1, d2. split; [exact Hrun|exact Hrest].
Qed.

Section ExamplesAnimation.
#[local] Existing Instance numerals.

Lemma animation_ends_with_one_roll_witness :
  exists st' w' d1 d2,
    MozartDiceGame.run
      (MozartDiceGame.press_roll
         :: map MozartDiceGame.after_due
              (seq (MozartDiceGame.next_after example_world) 14))
      (example_window EmptyString) example_world = Ok (st', w')
    /\ MozartDiceGame.animating st' = false
    /\ MozartDiceGame.timers w' = []
    /\ MozartDiceGame.current_rolls st'
       = MozartDiceGame.current_rolls (example_window EmptyString) ++ [d1 + d2]
    /\ 1 <= d1 <= 6 /\ 1 <= d2 <= 6
    /\ MozartDiceGame.dice_ok (MozartDiceGame.dice st')
    /\ DiceCanvas.left_face (MozartDiceGame.dice st') = d1
    /\ DiceCanvas.right_face (MozartDiceGame.dice st') = d2.
Proof.
  apply (animation_ends_with_one_roll (example_window EmptyString) example_world).
  - split_and!; [repeat constructor; lia| |reflexivity].
    unfold MozartDiceGame.dice_ok. vm_compute. repeat split; congruence.
  - reflexivity.
  - simpl. lia.
  - reflexivity.
Defined.
End ExamplesAnimation.

(** X23.  [undo_last] after [append_roll] gives back the list of rolls
    and the label text it had for them, and [undo_last] on an empty list
    of rolls changes nothing. *)
Theorem undo_last_takes_back_the_last_roll
    (st : MozartDiceGame.t) (total : Z) (forced : bool) (d1 d2 : option Z) :
  MozartDiceGame.current_rolls
    (MozartDiceGame.undo_last (MozartDiceGame.append_roll total forced d1 d2 st))
  = MozartDiceGame.current_rolls st
  /\ MozartDiceGame.rolls_label
       (MozartDiceGame.undo_last (MozartDiceGame.append_roll total forced d1 d2 st))
     = ("Rolls: " +:+ repr_ints (MozartDiceGame.current_rolls st)
        +:+ "    (Spins left: "
        +:+ pretty (MozartDiceGame.spins_var st
                    - Z.of_nat (length (MozartDiceGame.current_rolls st)))
        +:+ ")")
  /\ (MozartDiceGame.current_rolls st = [] -> MozartDiceGame.undo_last st = st).
Proof.
  split_and!.
  - destruct (undo_last_fields (MozartDiceGame.append_roll total forced d1 d2 st))
      as (-> & _).
    destruct (append_roll_fields total forced d1 d2 st) as (-> & _).
    apply removelast_last.
  - unfold MozartDiceGame.undo_last.
    destruct (append_roll_fields total forced d1 d2 st) as (Hr & _ & _ & Hsp).
    rewrite Hr, last_snoc.
    cbn [MozartDiceGame.current_rolls MozartDiceGame.set_current_rolls
         MozartDiceGame._log MozartDiceGame.set_log MozartDiceGame.rolls_label
         MozartDiceGame.set_rolls_label MozartDiceGame.spins_var].
    by rewrite Hsp, removelast_last.
  - intros Hnil. unfold MozartDiceGame.undo_last. by rewrite Hnil.
Qed.

(* ===================================================================== *)
(** * Further properties: [SpinGameApp]                                 *)
(* ===================================================================== *)

Section SpinFacts.
Context {G : Type} `{PRNG G} `{PyText}.
Import SpinGameApp.

Lemma record_roll_consistent total st :
  Forall (fun total => 2 <= total <= 12) (current_rolls st) ->
  2 <= total <= 12 ->
  consistent (record_roll total st).
Proof.
  intros Hr Ht. unfold consistent, record_roll. cbn. split; [|done].
  apply Forall_app. split; [done|]. constructor; [lia|constructor].
Qed.

(** What [spin_once] does, case by case. *)
Lemma spin_once_spec st w :
  consistent st ->
  exists st' w',
    spin_once st w = Ok (st', w')
    /\ consistent st'
    /\ spins_var st' = spins_var st
    /\ ((st' = st /\ random w' = random w
         /\ exists d, dialogs w' = dialogs w ++ [d])
        \/ (Z.of_nat (length (current_rolls st)) < spins_var st
            /\ dialogs w' = dialogs w
            /\ exists total,
                 2 <= total <= 12
                 /\ current_rolls st' = current_rolls st ++ [total]
                 /\ if bool_decide (strip (forced_var st) = EmptyString)
                    then random w' = (randbelow (randbelow (random w) 6).2 6).2
                    else py_int (strip (forced_var st)) = Some total
                         /\ random w' = random w)).
Proof.
  intros Hc. pose proof Hc as (Hrolls & Hlabel). unfold spin_once.
  assert (Hsame : forall d,
             consistent st /\ spins_var st = spins_var st
             /\ ((st = st /\ random w = random w
                  /\ exists d0, dialogs w ++ [d] = dialogs w ++ [d0])
                 \/ (Z.of_nat (length (current_rolls st)) < spins_var st
                     /\ dialogs w ++ [d] = dialogs w
                     /\ exists total,
                          2 <= total <= 12
                          /\ current_rolls st = current_rolls st ++ [total]
                          /\ if bool_decide (strip (forced_var st) = EmptyString)
                             then random w = (randbelow (randbelow (random w) 6).2 6).2
                             else py_int (strip (forced_var st)) = Some total
                                  /\ random w = random w))).
  { intros d. split; [exact Hc|]. split; [done|]. left.
    split; [done|]. split; [done|]. by exists d. }
  destruct (Z.leb_spec (spins_var st) (Z.of_nat (length (current_rolls st)))).
  { eexists _, _. split; [reflexivity|]. apply Hsame. }
  case_bool_decide as Etxt.
  - destruct (randint_1_6 (random w)) as (d1 & -> & Hd1). rewrite bind_Ok_l.
    destruct (randint_1_6 (randbelow (random w) 6).2) as (d2 & -> & Hd2).
    rewrite bind_Ok_l. cbv zeta. eexists _, _. split; [reflexivity|].
    split; [apply record_roll_consistent; [done|lia]|]. split; [done|].
    right. split; [done|]. split; [done|]. exists (d1 + d2).
    split; [lia|]. split; done.
  - destruct (py_int (strip (forced_var st))) as [total|] eqn:Eint.
    2:{ eexists _, _. split; [reflexivity|]. apply Hsame. }
    destruct (Z.leb_spec 2 total), (Z.leb_spec total 12); cbn [andb negb].
    2-4: (eexists _, _; split; [reflexivity|]; apply Hsame).
    eexists _, _. split; [reflexivity|].
    split; [apply record_roll_consistent; [done|lia]|]. split; [done|].
    right. split; [done|]. split; [done|]. exists total.
    split; [lia|]. split; done.
Qed.

Lemma undo_last_consistent st : consistent st -> consistent (undo_last st).
Proof.
  intros (Hrolls & Hlabel). unfold undo_last.
  destruct (last (current_rolls st)); [|done].
  unfold consistent. cbn. split; [|done]. by apply Forall_removelast.
Qed.

Lemma spin_step_consistent (a : action) st w :
  consistent st ->
  exists st' w', step a st w = Ok (st', w') /\ consistent st'.
Proof.
  intros Hc. destruct a as [| | |spins seed tpb forced out]; cbn [step].
  - destruct (spin_once_spec st w Hc) as (st' & w' & -> & Hc' & _). by eexists _, _.
  - eexists _, _. split; [reflexivity|]. by apply undo_last_consistent.
  - eexists _, _. split; [reflexivity|]. by split.
  - case_bool_decide; by eexists _, _.
Qed.

Lemma spin_run_consistent acts st w :
  consistent st ->
  exists st' w', run acts st w = Ok (st', w') /\ consistent st'.
Proof.
  revert st w. induction acts as [|a acts IH]; intros st w Hc.
  { by exists st, w. }
  destruct (spin_step_consistent a st w Hc) as (st1 & w1 & Hstep & Hc1).
  destruct (IH st1 w1 Hc1) as (st' & w' & Hrun & Hc').
  exists st', w'. split; [|done]. cbn [run]. by rewrite Hstep, bind_Ok_l.
Qed.
End SpinFacts.

(** X24.  From a new window of [SpinGameApp] every sequence of presses
    of Spin, Undo and Reset and of edits of the inputs runs without an
    exception, and leaves the window consistent: every recorded roll lies between 2 and 12, and the label
    shows the recorded rolls. *)
Theorem every_reachable_spin_window_is_consistent
    {G : Type} `{PRNG G} `{PyText}
    (midis : list (string * MidiFile)) (w0 : SpinGameApp.world)
    (acts : list SpinGameApp.action) :
  exists st w,
    SpinGameApp.run acts (SpinGameApp.__init__ midis) w0 = Ok (st, w)
    /\ SpinGameApp.consistent st.
Proof. apply spin_run_consistent. by split. Qed.

(** X25.  On a consistent window [spin_once] either shows one dialog
    and changes nothing else, or, while spins are left, records exactly
    one total from 2 to 12 and shows no dialog: the total of the Force
    entry, without drawing from the generator, or, when the entry is
    blank, a total after two draws from it.  The window stays consistent. *)
Theorem spin_once_records_one_valid_total_or_nothing
    {G : Type} `{PRNG G} `{PyText}
    (st : SpinGameApp.t) (w : SpinGameApp.world) :
  SpinGameApp.consistent st ->
  exists st' w',
    SpinGameApp.spin_once st w = Ok (st', w')
    /\ SpinGameApp.consistent st'
    /\ SpinGameApp.spins_var st' = SpinGameApp.spins_var st
    /\ ((st' = st /\ SpinGameApp.random w' = SpinGameApp.random w
         /\ exists d, SpinGameApp.dialogs w' = SpinGameApp.dialogs w ++ [d])
        \/ (Z.of_nat (length (SpinGameApp.current_rolls st)) < SpinGameApp.spins_var st
            /\ SpinGameApp.dialogs w' = SpinGameApp.dialogs w
            /\ exists total,
                 2 <= total <= 12
                 /\ SpinGameApp.current_rolls st'
                    = SpinGameApp.current_rolls st ++ [total]
                 /\ if bool_decide (strip (SpinGameApp.forced_var st) = EmptyString)
                    then SpinGameApp.random w'
                         = (randbelow (randbelow (SpinGameApp.random w) 6).2 6).2
                    else py_int (strip (SpinGameApp.forced_var st)) = Some total
                         /\ SpinGameApp.random w' = SpinGameApp.random w)).
Proof. apply spin_once_spec. Qed.

Section ExamplesSpin.
#[local] Existing Instance numerals.

Lemma spin_once_records_one_valid_total_or_nothing_witness :
  exists st' w',
    SpinGameApp.spin_once (spin_example_window "11") spin_example_world = Ok (st', w')
    /\ SpinGameApp.consistent st'
    /\ SpinGameApp.spins_var st' = SpinGameApp.spins_var (spin_example_window "11")
    /\ ((st' = spin_example_window "11"
         /\ SpinGameApp.random w' = SpinGameApp.random spin_example_world
         /\ exists d, SpinGameApp.dialogs w'
                      = SpinGameApp.dialogs spin_example_world ++ [d])
        \/ (Z.of_nat (length (SpinGameApp.current_rolls (spin_example_window "11")))
            < SpinGameApp.spins_var (spin_example_window "11")
            /\ SpinGameApp.dialogs w' = SpinGameApp.dialogs spin_example_world
            /\ exists total,
                 2 <= total <= 12
                 /\ SpinGameApp.current_rolls st'
                    = SpinGameApp.current_rolls (spin_example_window "11") ++ [total]
                 /\ if bool_decide
                         (strip (SpinGameApp.forced_var (spin_example_window "11"))
                          = EmptyString)
                    then SpinGameApp.random w'
                         = (randbelow
                              (randbelow (SpinGameApp.random spin_example_world) 6).2
                              6).2
                    else py_int
                           (strip (SpinGameApp.forced_var (spin_example_window "11")))
                         = Some total
                         /\ SpinGameApp.random w'
                            = SpinGameApp.random spin_example_world)).
Proof.
  apply (spin_once_records_one_valid_total_or_nothing
           (spin_example_window "11") spin_example_world).
  split; [repeat constructor; lia|reflexivity].
Defined.
End ExamplesSpin.
